(** * smart-draw: the text-repair layer and the Draw.io iframe bridge

    Shallow embedding of [lib/fixUnclosed.js] (isLikelyJSON,
    stripTrailingCommas, fixJSONStructure, fixJSON, fixXMLorHTML,
    fixUnclosed), of [postProcessDrawioCode] from the Draw.io page and of
    the message handling of [components/DrawioCanvas.jsx].

    JavaScript strings are sequences of UTF-16 code units; they are modelled
    as lists of [N].  The two host functions the code relies on and that are
    not part of the repository, [JSON.parse] and
    [String.prototype.toLowerCase], are the fields of the class [Host]. *)

From Stdlib Require Import String Ascii List NArith ZArith Bool Arith Lia.
Import ListNotations.
Local Open Scope N_scope.
Local Open Scope list_scope.

(** ** JavaScript strings *)

Definition jsstring := list N.

Definition ch (a : ascii) : N := N_of_ascii a.

(** The code units of an ASCII literal. *)
Definition lit (s : string) : jsstring := map N_of_ascii (list_ascii_of_string s).

(** The code unit of the double quote. *)
Definition dquote : N := 34.

(** [lit] for text with double quotes: every apostrophe of the literal
    stands for a double quote. *)
Definition litq (s : string) : jsstring :=
  map (fun c => if c =? 39 then dquote else c) (lit s).

Definition jsstring_eqb (a b : jsstring) : bool :=
  if list_eq_dec N.eq_dec a b then true else false.

(** [!s] for a string: only the empty string is falsy. *)
Definition falsy (s : jsstring) : bool :=
  match s with [] => true | _ => false end.

(** ECMAScript WhiteSpace and LineTerminator code units: what [\s] matches
    in a regular expression without the [u] flag and what [trim] removes. *)
Definition is_ws (c : N) : bool :=
  ((9 <=? c) && (c <=? 13)) || (c =? 32) || (c =? 160) || (c =? 5760)
  || ((8192 <=? c) && (c <=? 8202)) || (c =? 8232) || (c =? 8233)
  || (c =? 8239) || (c =? 8287) || (c =? 12288) || (c =? 65279).

Fixpoint trimStart (s : jsstring) : jsstring :=
  match s with
  | [] => []
  | c :: r => if is_ws c then trimStart r else s
  end.

Definition trimEnd (s : jsstring) : jsstring := rev (trimStart (rev s)).

Definition trim (s : jsstring) : jsstring := trimEnd (trimStart s).

Fixpoint startsWith (s p : jsstring) {struct p} : bool :=
  match p, s with
  | [], _ => true
  | _ :: _, [] => false
  | a :: p', b :: s' => (a =? b) && startsWith s' p'
  end.

(** [s.includes(p)]. *)
Fixpoint includes (s p : jsstring) : bool :=
  startsWith s p ||
  match s with
  | [] => false
  | _ :: r => includes r p
  end.

(** [s.replace(/\ufeff/g, '').replace(/[\u200B-\u200D\u2060]/g, '')]: every
    byte-order mark, then every zero-width code unit, is removed. *)
Definition is_bom (c : N) : bool := c =? 65279.
Definition is_zero_width (c : N) : bool :=
  ((8203 <=? c) && (c <=? 8205)) || (c =? 8288).

(** A code unit that [stripInvisible] keeps. *)
Definition visible (c : N) : bool := negb (is_bom c) && negb (is_zero_width c).

Definition stripInvisible (s : jsstring) : jsstring :=
  filter (fun c => negb (is_zero_width c)) (filter (fun c => negb (is_bom c)) s).

(** ** The host environment *)

Class Host := {
  (** [JSON.parse(s)] returns normally (true) or throws a SyntaxError. *)
  JSON_parse_ok : jsstring -> bool;
  (** [String.prototype.toLowerCase]. *)
  toLowerCase : jsstring -> jsstring
}.

(** Completion of a JavaScript call: a value or a thrown exception. *)
Inductive exn := SyntaxError | TypeError.

Inductive completion (A : Type) :=
| Normal (a : A)
| Throw (e : exn).
Arguments Normal {A} a.
Arguments Throw {A} e.

Definition bind {A B} (m : completion A) (k : A -> completion B) : completion B :=
  match m with
  | Normal a => k a
  | Throw e => Throw e
  end.

(** [try { body } catch { handler }] *)
Definition try_catch {A} (body : completion A) (handler : completion A) : completion A :=
  match body with
  | Normal a => Normal a
  | Throw _ => handler
  end.

Notation "x <- m ;; k" := (bind m (fun x => k))
  (at level 61, m at next level, right associativity).

Definition JSON_parse `{Host} (s : jsstring) : completion unit :=
  if JSON_parse_ok s then Normal tt else Throw SyntaxError.

(** ** lib/fixUnclosed.js: JSON repair *)

Section FixJSON.
Context `{Host}.

(** [function isLikelyJSON(input = '')] *)
Definition isLikelyJSON (input : jsstring) : bool :=
  let s := trimStart input in
  if falsy s then false
  else if startsWith s (lit "{") || startsWith s (lit "[") then true
  else if includes s (lit ":{") || includes s (litq "':[") || includes s (litq "'type'")
  then true
  else false.

(** The lookahead [\s*[}\]]] of the pattern below. *)
Fixpoint closer_ahead (s : jsstring) : bool :=
  match s with
  | [] => false
  | c :: r => if is_ws c then closer_ahead r else (c =? ch "}") || (c =? ch "]")
  end.

(** [text.replace(/,(\s*[}\]])/g, '$1')]: a comma is dropped when only
    white space separates it from a closing brace or bracket.  A match
    consumes the comma, the white space and the closer, none of which is a
    comma, so no other match starts inside it. *)
Fixpoint stripTrailingCommas (text : jsstring) : jsstring :=
  match text with
  | [] => []
  | c :: r =>
      if (c =? ch ",") && closer_ahead r then stripTrailingCommas r
      else c :: stripTrailingCommas r
  end.

(** [text.replace(/,\s*$/g, '')]: a comma followed by white space only up
    to the end of the text is removed together with that white space. *)
Fixpoint dropFinalComma (text : jsstring) : jsstring :=
  match text with
  | [] => []
  | c :: r =>
      if (c =? ch ",") && forallb is_ws r then []
      else c :: dropFinalComma r
  end.

(** The scanner state of [fixJSONStructure]: the array [stack] is kept with
    its last element (the top) at the head of the list. *)
Record scan_state := {
  stack : list N;
  inString : bool;
  escaped : bool
}.

Definition scan_init : scan_state :=
  {| stack := []; inString := false; escaped := false |}.

(** One iteration of [for (let i = 0; i < text.length; i++)]. *)
Definition scan_step (st : scan_state) (c : N) : scan_state :=
  if inString st then
    if escaped st then
      {| stack := stack st; inString := true; escaped := false |}
    else if c =? ch "\" then
      {| stack := stack st; inString := true; escaped := true |}
    else if c =? dquote then
      {| stack := stack st; inString := false; escaped := escaped st |}
    else st
  else if c =? dquote then
    {| stack := stack st; inString := true; escaped := false |}
  else if (c =? ch "{") || (c =? ch "[") then
    {| stack := c :: stack st; inString := inString st; escaped := escaped st |}
  else if (c =? ch "}") || (c =? ch "]") then
    let need := if c =? ch "}" then ch "{" else ch "[" in
    match stack st with
    | top :: below =>
        if top =? need
        then {| stack := below; inString := inString st; escaped := escaped st |}
        else st
    | [] => st
    end
  else st.

Definition scan (text : jsstring) : scan_state := fold_left scan_step text scan_init.

(** [stack[i] === '{' ? '}' : ']'] *)
Definition closer (open : N) : N := if open =? ch "{" then ch "}" else ch "]".

(** [function fixJSONStructure(input = '')] *)
Definition fixJSONStructure (input : jsstring) : jsstring :=
  let text := stripInvisible input in
  let text := stripTrailingCommas text in
  let st := scan text in
  let text := if inString st then text ++ [dquote] else text in
  let text := dropFinalComma text in
  let text := stripTrailingCommas text in
  text ++ map closer (stack st).

(** [export function fixJSON(input = '')] *)
Definition fixJSON (input : jsstring) : completion jsstring :=
  let raw := trim input in
  if falsy raw then Normal raw
  else
    try_catch (_ <- JSON_parse raw ;; Normal raw)
      (let fixed := fixJSONStructure raw in
       try_catch (_ <- JSON_parse fixed ;; Normal fixed)
         (let second := stripTrailingCommas fixed in
          Normal second)).

End FixJSON.

(** ** A recogniser for the JSON grammar

    Modelled from ECMA-404, the grammar [JSON.parse] accepts; it is not code
    of this repository.  It instantiates [JSON_parse_ok] where a claim is
    evaluated on concrete text. *)

Module Json.

Definition is_json_ws (c : N) : bool :=
  (c =? 32) || (c =? 9) || (c =? 10) || (c =? 13).

Fixpoint skip_ws (s : jsstring) : jsstring :=
  match s with
  | [] => []
  | c :: r => if is_json_ws c then skip_ws r else s
  end.

Definition is_digit (c : N) : bool := (48 <=? c) && (c <=? 57).

Definition is_hex (c : N) : bool :=
  is_digit c || ((97 <=? c) && (c <=? 102)) || ((65 <=? c) && (c <=? 70)).

Definition is_simple_escape (c : N) : bool :=
  (c =? dquote) || (c =? ch "\") || (c =? ch "/") || (c =? ch "b")
  || (c =? ch "f") || (c =? ch "n") || (c =? ch "r") || (c =? ch "t").

(** The characters of a string after its opening quote, up to and with the
    closing quote; the text after it is returned. *)
Fixpoint string_body (s : jsstring) : option jsstring :=
  match s with
  | [] => None
  | c :: r =>
      if c =? dquote then Some r
      else if c =? ch "\" then
        match r with
        | [] => None
        | e :: r1 =>
            if is_simple_escape e then string_body r1
            else if e =? ch "u" then
              match r1 with
              | h1 :: h2 :: h3 :: h4 :: r2 =>
                  if is_hex h1 && is_hex h2 && is_hex h3 && is_hex h4
                  then string_body r2 else None
              | _ => None
              end
            else None
        end
      else if c <? 32 then None
      else string_body r
  end.

Fixpoint skip_digits (s : jsstring) : jsstring :=
  match s with
  | [] => []
  | c :: r => if is_digit c then skip_digits r else s
  end.

Definition digits1 (s : jsstring) : option jsstring :=
  match s with
  | c :: r => if is_digit c then Some (skip_digits r) else None
  | [] => None
  end.

Definition int_part (s : jsstring) : option jsstring :=
  match s with
  | c :: r =>
      if c =? ch "0" then Some r
      else if is_digit c then Some (skip_digits r)
      else None
  | [] => None
  end.

Definition frac_part (s : jsstring) : option jsstring :=
  match s with
  | c :: r => if c =? ch "." then digits1 r else Some s
  | [] => Some s
  end.

Definition exp_part (s : jsstring) : option jsstring :=
  match s with
  | c :: r =>
      if (c =? ch "e") || (c =? ch "E") then
        match r with
        | sg :: r1 =>
            if (sg =? ch "+") || (sg =? ch "-") then digits1 r1 else digits1 r
        | [] => None
        end
      else Some s
  | [] => Some s
  end.

Definition number (s : jsstring) : option jsstring :=
  let s1 := match s with
            | c :: r => if c =? ch "-" then r else s
            | [] => s
            end in
  match int_part s1 with
  | Some s2 =>
      match frac_part s2 with
      | Some s3 => exp_part s3
      | None => None
      end
  | None => None
  end.

Definition keyword (k : string) (s : jsstring) : option jsstring :=
  if startsWith s (lit k) then Some (skipn (List.length (lit k)) s) else None.

Fixpoint value (fuel : nat) (s : jsstring) {struct fuel} : option jsstring :=
  match fuel with
  | O => None
  | S f =>
      match s with
      | [] => None
      | c :: r =>
          if c =? ch "{" then
            match skip_ws r with
            | d :: r1 => if d =? ch "}" then Some r1 else members f (d :: r1)
            | [] => None
            end
          else if c =? ch "[" then
            match skip_ws r with
            | d :: r1 => if d =? ch "]" then Some r1 else elements f (d :: r1)
            | [] => None
            end
          else if c =? dquote then string_body r
          else if (c =? ch "-") || is_digit c then number s
          else if c =? ch "t" then keyword "true" s
          else if c =? ch "f" then keyword "false" s
          else if c =? ch "n" then keyword "null" s
          else None
      end
  end
with elements (fuel : nat) (s : jsstring) {struct fuel} : option jsstring :=
  match fuel with
  | O => None
  | S f =>
      match value f s with
      | Some r =>
          match skip_ws r with
          | d :: r1 =>
              if d =? ch "," then elements f (skip_ws r1)
              else if d =? ch "]" then Some r1
              else None
          | [] => None
          end
      | None => None
      end
  end
with members (fuel : nat) (s : jsstring) {struct fuel} : option jsstring :=
  match fuel with
  | O => None
  | S f =>
      match s with
      | q :: r =>
          if q =? dquote then
            match string_body r with
            | Some r1 =>
                match skip_ws r1 with
                | col :: r2 =>
                    if col =? ch ":" then
                      match value f (skip_ws r2) with
                      | Some r3 =>
                          match skip_ws r3 with
                          | d :: r4 =>
                              if d =? ch "," then members f (skip_ws r4)
                              else if d =? ch "}" then Some r4
                              else None
                          | [] => None
                          end
                      | None => None
                      end
                    else None
                | [] => None
                end
            | None => None
            end
          else None
      | [] => None
      end
  end.

(** JSON text: white space, one value, white space, end of input. *)
Definition accepts (s : jsstring) : bool :=
  match value (2 * List.length s + 2) (skip_ws s) with
  | Some r => match skip_ws r with [] => true | _ => false end
  | None => false
  end.

(** ASCII letters A to Z are mapped to a to z; every other code unit is
    kept.  On text whose letters are all in the Basic Latin block this is
    [String.prototype.toLowerCase]. *)
Definition lower_char (c : N) : N :=
  if (65 <=? c) && (c <=? 90) then c + 32 else c.

Definition ascii_lower (s : jsstring) : jsstring := map lower_char s.

End Json.

#[export] Instance concrete_host : Host := {|
  JSON_parse_ok := Json.accepts;
  toLowerCase := Json.ascii_lower
|}.

(** ** Positions in a string *)

(** The least [i] with [p (skipn i s) = true]: where a pattern that needs
    at least one character first matches. *)
Fixpoint search (p : jsstring -> bool) (s : jsstring) : option nat :=
  if p s then Some O
  else match s with
       | [] => None
       | _ :: r => option_map S (search p r)
       end.

(** [s.indexOf(c, from)] for a single code unit [c]. *)
Definition indexOf (c : N) (s : jsstring) (from : nat) : option nat :=
  option_map (Nat.add from) (search (fun t => startsWith t [c]) (skipn from s)).

(** [s.lastIndexOf(c)] for a single code unit [c]. *)
Fixpoint lastIndexOf (c : N) (s : jsstring) : option nat :=
  match s with
  | [] => None
  | x :: r =>
      match lastIndexOf c r with
      | Some i => Some (S i)
      | None => if x =? c then Some O else None
      end
  end.

(** [s.slice(a, b)] for [0 <= a] and [0 <= b]. *)
Definition slice (a b : nat) (s : jsstring) : jsstring :=
  firstn (b - a) (skipn a s).

(** ** lib/fixUnclosed.js: XML and HTML repair *)

(** The options object [{ mode, html, voidTags }]; [None] is an absent
    property. *)
Record Opts := {
  mode : option jsstring;
  html : option bool;
  voidTags : option (list jsstring)
}.

Definition no_opts : Opts := {| mode := None; html := None; voidTags := None |}.

(** [const DEFAULT_VOID_TAGS = new Set([...])] *)
Definition DEFAULT_VOID_TAGS : list jsstring :=
  map lit ["area"; "base"; "br"; "col"; "embed"; "hr"; "img"; "input"; "link";
           "meta"; "param"; "source"; "track"; "wbr"]%string.

(** [set.has(name)] *)
Definition has (set : list jsstring) (name : jsstring) : bool :=
  existsb (jsstring_eqb name) set.

(** [s.split(/\s+/)[0] || '']: the text before the first white space. *)
Fixpoint firstWord (s : jsstring) : jsstring :=
  match s with
  | [] => []
  | c :: r => if is_ws c then [] else c :: firstWord r
  end.

(** [/\/$/.test(s)] *)
Definition endsWithSlash (s : jsstring) : bool := last s 0 =? ch "/".

(** The text up to the first ['>'] and the text after it. *)
Fixpoint until_gt (s : jsstring) : option (jsstring * jsstring) :=
  match s with
  | [] => None
  | c :: r =>
      if c =? ch ">" then Some ([], r)
      else match until_gt r with
           | Some (inner, after) => Some (c :: inner, after)
           | None => None
           end
  end.

(** [tagRe.exec(text)] for [tagRe = /<([^>]+)>/g] on the text from
    [tagRe.lastIndex] on: the text before the match ([text.slice(lastIndex,
    m.index)]), the group [m[1]] and the text from the new [lastIndex] on.
    The match starts at the first ['<'] that is followed by at least one
    code unit other than ['>'] and then by a ['>']. *)
Fixpoint exec_tag (s : jsstring) : option (jsstring * jsstring * jsstring) :=
  match s with
  | [] => None
  | c :: r =>
      let here :=
        if c =? ch "<" then
          match until_gt r with
          | Some (inner, after) =>
              if falsy inner then None else Some ([], inner, after)
          | None => None
          end
        else None in
      match here with
      | Some m => Some m
      | None =>
          match exec_tag r with
          | Some (before, inner, after) => Some (c :: before, inner, after)
          | None => None
          end
      end
  end.

Section FixXML.
Context `{Host}.

(** [const normalize = (name) => (treatAsHTML ? String(name || '').toLowerCase()
    : String(name || ''))] *)
Definition normalize (treatAsHTML : bool) (name : jsstring) : jsstring :=
  if treatAsHTML then toLowerCase name else name.

(** Comments, DOCTYPE, CDATA and processing instructions. *)
Definition isSpecialTag (rawTag : jsstring) : bool :=
  startsWith rawTag (lit "!--") || startsWith rawTag (lit "!DOCTYPE")
  || startsWith rawTag (lit "![CDATA[") || startsWith rawTag (lit "?").

(** [if (stack.length && normalize(stack[stack.length - 1]) === name) stack.pop()];
    the top of the array is the head of the list. *)
Definition popIfMatches (treatAsHTML : bool) (stack : list jsstring) (name : jsstring)
  : list jsstring :=
  match stack with
  | top :: below =>
      if jsstring_eqb (normalize treatAsHTML top) name then below else stack
  | [] => stack
  end.

(** The [while ((m = tagRe.exec(text)) !== null)] loop followed by
    [out += text.slice(lastIndex)]; [rest] is the text from [lastIndex] on.
    Every match consumes at least three code units of [rest], so
    [length rest] iterations are enough (lemma [tagLoop_fuel]). *)
Fixpoint tagLoop (fuel : nat) (treatAsHTML : bool) (voids : list jsstring)
    (rest : jsstring) (stack : list jsstring) (out : jsstring)
  : list jsstring * jsstring :=
  match fuel with
  | O => (stack, out ++ rest)
  | S fuel' =>
      match exec_tag rest with
      | None => (stack, out ++ rest)
      | Some (before, inner, after) =>
          let out := out ++ before in
          let rawTag := trim inner in
          if isSpecialTag rawTag then
            tagLoop fuel' treatAsHTML voids after stack
                    (out ++ lit "<" ++ rawTag ++ lit ">")
          else if startsWith rawTag (lit "/") then
            let name := normalize treatAsHTML (firstWord (skipn 1 rawTag)) in
            let out := out ++ lit "<" ++ rawTag ++ lit ">" in
            tagLoop fuel' treatAsHTML voids after
                    (popIfMatches treatAsHTML stack name) out
          else
            let selfClosing := endsWithSlash rawTag in
            let name := normalize treatAsHTML (firstWord rawTag) in
            let out := out ++ lit "<" ++ rawTag ++ lit ">" in
            if negb selfClosing && negb (has voids name)
            then tagLoop fuel' treatAsHTML voids after (name :: stack) out
            else tagLoop fuel' treatAsHTML voids after stack out
      end
  end.

(** [`</${stack[i]}>`] *)
Definition closingTag (name : jsstring) : jsstring := lit "</" ++ name ++ lit ">".

(** [if (lastLt !== -1 && text.indexOf('>', lastLt) === -1) text += '>'] *)
Definition closeHalfTag (text : jsstring) : jsstring :=
  match lastIndexOf (ch "<") text with
  | Some lastLt =>
      match indexOf (ch ">") text lastLt with
      | None => text ++ lit ">"
      | Some _ => text
      end
  | None => text
  end.

(** [export function fixXMLorHTML(input = '', opts = {})] *)
Definition fixXMLorHTML (input : jsstring) (opts : Opts) : jsstring :=
  let voids := match voidTags opts with Some v => v | None => DEFAULT_VOID_TAGS end in
  let treatAsHTML := match html opts with Some false => false | _ => true end in
  let src := stripInvisible input in
  let text := closeHalfTag src in
  let '(stack, out) := tagLoop (List.length text) treatAsHTML voids text [] [] in
  out ++ concat (map closingTag stack).

(** [export function fixUnclosed(input = '', opts = {})] *)
Definition fixUnclosed (input : jsstring) (opts : Opts) : completion jsstring :=
  let mode := match mode opts with
              | Some m => if falsy m then lit "auto" else m
              | None => lit "auto"
              end in
  let text := input in
  if jsstring_eqb mode (lit "json")
     || (jsstring_eqb mode (lit "auto") && isLikelyJSON text)
  then
    fixed <- fixJSON text ;;
    Normal fixed
  else
    Normal (fixXMLorHTML text opts).

End FixXML.

Definition xml_mode : Opts :=
  {| mode := Some (lit "xml"); html := None; voidTags := None |}.

(** ** app/drawio/page.js: postProcessDrawioCode *)

(** One pattern character under the [i] flag (without [u]): an ASCII letter
    matches both of its cases, any other character only itself. *)
Definition ci_match (p c : N) : bool :=
  (c =? p)
  || ((97 <=? p) && (p <=? 122) && (c =? p - 32))
  || ((65 <=? p) && (p <=? 90) && (c =? p + 32)).

Fixpoint startsWith_ci (s p : jsstring) {struct p} : bool :=
  match p, s with
  | [], _ => true
  | _ :: _, [] => false
  | a :: p', b :: s' => ci_match a b && startsWith_ci s' p'
  end.

(** [[a-z!?]] under the [i] flag. *)
Definition tag_start_char (c : N) : bool :=
  ((97 <=? c) && (c <=? 122)) || ((65 <=? c) && (c <=? 90))
  || (c =? ch "!") || (c =? ch "?").

Definition fence : jsstring := lit "```".

(** The lazy group [([\s\S]*?)] followed by the closing fence: the text
    before the first fence and the text after that fence. *)
Fixpoint until_fence (s : jsstring) : option (jsstring * jsstring) :=
  if startsWith s fence then Some ([], skipn 3 s)
  else match s with
       | [] => None
       | c :: r =>
           match until_fence r with
           | Some (body, after) => Some (c :: body, after)
           | None => None
           end
       end.

(** The first position at which a pattern matches, with what it captures. *)
Fixpoint first_match {A} (at_pos : jsstring -> option A) (s : jsstring) : option A :=
  match at_pos s with
  | Some a => Some a
  | None =>
      match s with
      | [] => None
      | _ :: r => first_match at_pos r
      end
  end.

(** Group 1 of [/```\s*xml\s*([\s\S]*?)```/i] matched at the start of [s]. *)
Definition xml_fence_at (s : jsstring) : option jsstring :=
  if startsWith s fence then
    let s1 := trimStart (skipn 3 s) in
    if startsWith_ci s1 (lit "xml") then
      option_map fst (until_fence (trimStart (skipn 3 s1)))
    else None
  else None.

(** Group 1 of [/```\s*([\s\S]*?)```/] matched at the start of [s]. *)
Definition any_fence_at (s : jsstring) : option jsstring :=
  if startsWith s fence then
    option_map fst (until_fence (trimStart (skipn 3 s)))
  else None.

(** [/[<][a-z!?]/i.test(s)] *)
Definition hasRawTag (s : jsstring) : bool :=
  match search (fun t => match t with
                         | a :: b :: _ => (a =? ch "<") && tag_start_char b
                         | _ => false
                         end) s with
  | Some _ => true
  | None => false
  end.

(** [/&lt;\s*[a-z!?]/i.test(s)] *)
Definition hasEscapedTag (s : jsstring) : bool :=
  match search (fun t =>
                  startsWith_ci t (lit "&lt;") &&
                  match trimStart (skipn 4 t) with
                  | b :: _ => tag_start_char b
                  | [] => false
                  end) s with
  | Some _ => true
  | None => false
  end.

(** [s.replace(/pat/g, rep)] for a literal, non-empty [pat]: [skip] counts
    the code units of the current match that are still to be passed. *)
Fixpoint replaceAll_from (skip : nat) (pat rep s : jsstring) : jsstring :=
  match s with
  | [] => []
  | c :: r =>
      match skip with
      | S k => replaceAll_from k pat rep r
      | O =>
          if startsWith s pat
          then rep ++ replaceAll_from (List.length pat - 1) pat rep r
          else c :: replaceAll_from O pat rep r
      end
  end.

Definition replaceAll (pat rep s : jsstring) : jsstring := replaceAll_from O pat rep s.

(** The five replacements of step 2, in the order of the source. *)
Definition decodeEntities (s : jsstring) : jsstring :=
  replaceAll (lit "&#39;") (lit "'")
    (replaceAll (lit "&quot;") [dquote]
      (replaceAll (lit "&amp;") (lit "&")
        (replaceAll (lit "&gt;") (lit ">")
          (replaceAll (lit "&lt;") (lit "<") s)))).

(** [/<(mxfile|mxGraphModel|diagram)([\s>])/i] matched at the start of [s]. *)
Definition xml_root_at (s : jsstring) : bool :=
  match s with
  | c :: r =>
      (c =? ch "<") &&
      existsb (fun name =>
                 startsWith_ci r name &&
                 match skipn (List.length name) r with
                 | d :: _ => is_ws d || (d =? ch ">")
                 | [] => false
                 end)
              [lit "mxfile"; lit "mxGraphModel"; lit "diagram"]
  | [] => false
  end.

Section PostProcess.
Context `{Host}.

(** [const postProcessDrawioCode = (code) => { ... }] on a string [code]. *)
Definition postProcessDrawioCode (code : jsstring) : completion jsstring :=
  if falsy code then Normal code
  else
    let processed := code in
    let processed := stripInvisible processed in
    let fencedXmlMatch := first_match xml_fence_at processed in
    let processed :=
      match fencedXmlMatch with
      | Some ((_ :: _) as body) => body
      | _ =>
          let fencedAnyMatch := first_match any_fence_at processed in
          match fencedAnyMatch with
          | Some ((_ :: _) as body) => body
          | _ => processed
          end
      end in
    let processed := trim processed in
    let processed :=
      if negb (hasRawTag processed) && hasEscapedTag processed
      then decodeEntities processed
      else processed in
    let xmlStart := search xml_root_at processed in
    let xmlEnd := lastIndexOf (ch ">") processed in
    let processed :=
      match xmlStart, xmlEnd with
      | Some xmlStart, Some xmlEnd =>
          if (xmlStart <? xmlEnd)%nat
          then slice xmlStart (xmlEnd + 1) processed
          else processed
      | _, _ => processed
      end in
    processed <- fixUnclosed processed xml_mode ;;
    Normal processed.

End PostProcess.

(** ** components/DrawioCanvas.jsx: the iframe bridge *)

Module Bridge.

(** The JavaScript values a message event can carry and a callback can be
    given. *)
#[warnings="-register-all"]
Inductive jsval :=
| VUndefined
| VNull
| VBool (b : bool)
| VNum (z : Z)
| VStr (s : jsstring)
| VObj (props : list (jsstring * jsval)).

Definition truthy (v : jsval) : bool :=
  match v with
  | VUndefined | VNull => false
  | VBool b => b
  | VNum z => negb (Z.eqb z 0)
  | VStr s => negb (falsy s)
  | VObj _ => true
  end.

Inductive jstype := TUndefined | TObject | TBoolean | TNumber | TString.

Definition typeof (v : jsval) : jstype :=
  match v with
  | VUndefined => TUndefined
  | VNull => TObject
  | VBool _ => TBoolean
  | VNum _ => TNumber
  | VStr _ => TString
  | VObj _ => TObject
  end.

Fixpoint lookup (key : jsstring) (props : list (jsstring * jsval)) : jsval :=
  match props with
  | [] => VUndefined
  | (k, v) :: r => if jsstring_eqb key k then v else lookup key r
  end.

(** [data.key] for a [data] whose [typeof] is ['object']: reading a property
    of [null] throws. *)
Definition get (data : jsval) (key : string) : completion jsval :=
  match data with
  | VObj props => Normal (lookup (lit key) props)
  | VNull => Throw TypeError
  | _ => Normal VUndefined
  end.

(** [v === 'text'] *)
Definition is_str (v : jsval) (text : string) : bool :=
  match v with
  | VStr s => jsstring_eqb s (lit text)
  | _ => false
  end.

Definition editor_origin : jsstring := lit "https://embed.diagrams.net".

Definition empty_diagram : jsstring :=
  litq "<mxGraphModel><root><mxCell id='0'/><mxCell id='1' parent='0'/></root></mxGraphModel>".

(** What a handler or a callback does: calls of the state setters, of the
    props [onSave] and [onError], of [console.log], and of
    [iframeRef.current.contentWindow.postMessage(JSON.stringify(message),
    targetOrigin)], recorded with the [message] object it serialises. *)
Inductive effect :=
| SetIsReady (b : bool)
| SetIsLoading (b : bool)
| SetError (v : jsval)
| OnSave (v : jsval)
| OnError (v : jsval)
| ConsoleLog (label : jsstring)
| PostMessage (message : jsval) (targetOrigin : jsstring).

(** [const sendLoadMessage = useCallback((xmlData) => {...}, [isReady])];
    [iframe] is [iframeRef.current] being set and [isReady] the state the
    callback closed over. *)
Definition sendLoadMessage (iframe isReady : bool) (xmlData : jsval) : list effect :=
  if negb iframe || negb isReady then []
  else
    let message :=
      VObj [ (lit "action", VStr (lit "load"));
             (lit "xml", if truthy xmlData then xmlData else VStr empty_diagram);
             (lit "autosave", VNum 1) ] in
    [PostMessage message editor_origin].

(** [const exportDiagram = useCallback((format = 'png') => {...}, [isReady])] *)
Definition exportDiagram (iframe isReady : bool) (format : jsval) : list effect :=
  let format := match format with VUndefined => VStr (lit "png") | _ => format end in
  if negb iframe || negb isReady then []
  else
    let message :=
      VObj [ (lit "action", VStr (lit "export")); (lit "format", format) ] in
    [PostMessage message editor_origin].

(** [const mergeDiagram = useCallback((xmlData) => {...}, [isReady])] *)
Definition mergeDiagram (iframe isReady : bool) (xmlData : jsval) : list effect :=
  if negb iframe || negb isReady then []
  else
    let message :=
      VObj [ (lit "action", VStr (lit "merge")); (lit "xml", xmlData) ] in
    [PostMessage message editor_origin].

(** The component: its React state, its props, whether the iframe ref is
    set, and [handlerReady], the [isReady] seen by the [sendLoadMessage]
    that the current [handleMessage] closed over.  [handleMessage] is
    memoised on [[xml, onSave, onError]] only, so it keeps the
    [sendLoadMessage] of the render in which one of these last changed.
    A callback prop is present or not and carries an identity. *)
Record Component := {
  isReady : bool;
  isLoading : bool;
  error : jsval;
  xml : jsstring;
  onSave : option nat;
  onError : option nat;
  iframe : bool;
  handlerReady : bool
}.

Definition is_some {A} (o : option A) : bool :=
  match o with Some _ => true | None => false end.

(** [const handleMessage = useCallback((event) => {...}, [xml, onSave, onError])] *)
Definition handleMessage (c : Component) (origin : jsstring) (data : jsval)
  : completion (list effect) :=
  if negb (jsstring_eqb origin editor_origin) then Normal []
  else
    match typeof data with
    | TString =>
        if is_str data "ready"
        then Normal [SetIsReady true; SetIsLoading false]
        else Normal []
    | TObject =>
        ev <- get data "event" ;;
        if is_str ev "init" then
          Normal ([SetIsReady true; SetIsLoading false]
                  ++ (if iframe c && negb (falsy (xml c))
                      then sendLoadMessage (iframe c) (handlerReady c) (VStr (xml c))
                      else []))
        else if is_str ev "load" then
          Normal [ConsoleLog (lit "Diagram loaded:")]
        else if is_str ev "save" then
          x <- get data "xml" ;;
          e <- get data "exit" ;;
          Normal ((if is_some (onSave c) && truthy x then [OnSave x] else [])
                  ++ (if truthy e then [ConsoleLog (lit "Save and exit")] else []))
        else if is_str ev "exit" then
          Normal [ConsoleLog (lit "Exit:")]
        else if is_str ev "autosave" then
          x <- get data "xml" ;;
          Normal (if is_some (onSave c) && truthy x then [OnSave x] else [])
        else if is_str ev "export" then
          Normal [ConsoleLog (lit "Export completed:")]
        else if is_str ev "error" then
          m <- get data "message" ;;
          let errorMsg := if truthy m then m else VStr (lit "Unknown error occurred") in
          Normal (SetError errorMsg
                  :: (if is_some (onError c) then [OnError errorMsg] else []))
        else
          Normal [ConsoleLog (lit "Unknown event from Draw.io:")]
    | _ => Normal []
    end.

(** A state setter updates the state of the next render; every other
    effect leaves the component as it is. *)
Definition apply_effect (c : Component) (e : effect) : Component :=
  match e with
  | SetIsReady b =>
      {| isReady := b; isLoading := isLoading c; error := error c; xml := xml c;
         onSave := onSave c; onError := onError c; iframe := iframe c;
         handlerReady := handlerReady c |}
  | SetIsLoading b =>
      {| isReady := isReady c; isLoading := b; error := error c; xml := xml c;
         onSave := onSave c; onError := onError c; iframe := iframe c;
         handlerReady := handlerReady c |}
  | SetError v =>
      {| isReady := isReady c; isLoading := isLoading c; error := v; xml := xml c;
         onSave := onSave c; onError := onError c; iframe := iframe c;
         handlerReady := handlerReady c |}
  | _ => c
  end.

Definition is_setter (e : effect) : bool :=
  match e with
  | SetIsReady _ | SetIsLoading _ | SetError _ => true
  | _ => false
  end.

(** [useEffect(() => { if (isReady && xml) sendLoadMessage(xml) },
    [isReady, xml, sendLoadMessage])] of the render [c]. *)
Definition loadEffect (c : Component) : list effect :=
  if isReady c && negb (falsy (xml c))
  then sendLoadMessage (iframe c) (isReady c) (VStr (xml c))
  else [].

(** What happens to the mounted component. *)
Inductive input :=
| Receive (origin : jsstring) (data : jsval)
| SetProps (xml : jsstring) (onSave onError : option nat)
| CallSendLoad (xmlData : jsval)
| CallExport (format : jsval)
| CallMerge (xmlData : jsval).

Definition option_nat_eqb (a b : option nat) : bool :=
  match a, b with
  | Some x, Some y => Nat.eqb x y
  | None, None => true
  | _, _ => false
  end.

(** One input: the new component and the effects other than state setters
    that the outside sees, in order.  After a render in which [isReady] or
    [xml] changed the load effect runs. *)
Definition step (c : Component) (i : input) : Component * list effect :=
  match i with
  | Receive origin data =>
      match handleMessage c origin data with
      | Throw _ => (c, [])
      | Normal effs =>
          let c' := fold_left apply_effect effs c in
          let seen := filter (fun e => negb (is_setter e)) effs in
          if Bool.eqb (isReady c') (isReady c) then (c', seen)
          else (c', seen ++ loadEffect c')
      end
  | SetProps xml' onSave' onError' =>
      let same_deps :=
        jsstring_eqb xml' (xml c) && option_nat_eqb onSave' (onSave c)
        && option_nat_eqb onError' (onError c) in
      let c' :=
        {| isReady := isReady c; isLoading := isLoading c; error := error c;
           xml := xml'; onSave := onSave'; onError := onError';
           iframe := iframe c;
           handlerReady := if same_deps then handlerReady c else isReady c |} in
      if jsstring_eqb xml' (xml c) then (c', []) else (c', loadEffect c')
  | CallSendLoad xmlData => (c, sendLoadMessage (iframe c) (isReady c) xmlData)
  | CallExport format => (c, exportDiagram (iframe c) (isReady c) format)
  | CallMerge xmlData => (c, mergeDiagram (iframe c) (isReady c) xmlData)
  end.

Fixpoint run (c : Component) (trace : list input) : Component * list effect :=
  match trace with
  | [] => (c, [])
  | i :: rest =>
      let '(c1, out1) := step c i in
      let '(c2, out2) := run c1 rest in
      (c2, out1 ++ out2)
  end.

(** The component as [useState(false)], [useState(true)], [useState(null)]
    leave it after the first render. *)
Definition mounted (xml0 : jsstring) (onSave0 onError0 : option nat) : Component :=
  {| isReady := false; isLoading := true; error := VNull; xml := xml0;
     onSave := onSave0; onError := onError0; iframe := true;
     handlerReady := false |}.

Definition is_post (e : effect) : bool :=
  match e with PostMessage _ _ => true | _ => false end.

(** The editor signals readiness: the legacy string ['ready'] or an object
    whose [event] is ['init'], sent from the editor's origin. *)
Definition signals_ready (i : input) : bool :=
  match i with
  | Receive origin data =>
      jsstring_eqb origin editor_origin &&
      match data with
      | VStr s => jsstring_eqb s (lit "ready")
      | VObj props => is_str (lookup (lit "event") props) "init"
      | _ => false
      end
  | _ => false
  end.

Definition is_call (i : input) : bool :=
  match i with
  | CallSendLoad _ | CallExport _ | CallMerge _ => true
  | _ => false
  end.

End Bridge.

(** ** The post-processing steps as the specification describes them *)

Module Steps.
Section Steps.
Context `{Host}.

Definition stripStep (s : jsstring) : jsstring := stripInvisible s.

(** The body of the first [```xml] block if there is one, otherwise the
    body of the first fenced block of any kind. *)
Definition fenceStep_claimed (s : jsstring) : jsstring :=
  match first_match xml_fence_at s with
  | Some body => body
  | None =>
      match first_match any_fence_at s with
      | Some body => body
      | None => s
      end
  end.

(** The same, where a block with an empty body does not count. *)
Definition nonempty_body (m : option jsstring) : option jsstring :=
  match m with
  | Some [] => None
  | _ => m
  end.

Definition fenceStep (s : jsstring) : jsstring :=
  match nonempty_body (first_match xml_fence_at s) with
  | Some body => body
  | None =>
      match nonempty_body (first_match any_fence_at s) with
      | Some body => body
      | None => s
      end
  end.

Definition decodeStep (s : jsstring) : jsstring :=
  if negb (hasRawTag s) && hasEscapedTag s then decodeEntities s else s.

(** From the first root tag through the last ['>']. *)
Definition keepStep_claimed (s : jsstring) : jsstring :=
  match search xml_root_at s, lastIndexOf (ch ">") s with
  | Some a, Some b => slice a (b + 1) s
  | _, _ => s
  end.

(** The same, only when that ['>'] comes after the root tag's ['<']. *)
Definition keepStep (s : jsstring) : jsstring :=
  match search xml_root_at s, lastIndexOf (ch ">") s with
  | Some a, Some b => if (a <? b)%nat then slice a (b + 1) s else s
  | _, _ => s
  end.

Definition repairStep (s : jsstring) : completion jsstring := fixUnclosed s xml_mode.

(** The five steps of the claim, in its order. *)
Definition postProcess_claimed (s : jsstring) : completion jsstring :=
  repairStep (keepStep_claimed (decodeStep (fenceStep_claimed (stripStep s)))).

(** The steps with the block bodies required to be non-empty, the text
    trimmed after the fence step, and the guarded keep step. *)
Definition postProcess_steps (s : jsstring) : completion jsstring :=
  repairStep (keepStep (decodeStep (trim (fenceStep (stripStep s))))).

End Steps.
End Steps.

(** ** Notions used to reason about the tag loop *)

(** No ['>'] in the text. *)
Definition noGt (s : jsstring) : bool := forallb (fun c => negb (c =? ch ">")) s.

(** Text in which every ['<'] is directly followed by ['>']: [tagRe] finds
    no tag that starts in it, whatever follows. *)
Fixpoint plain (s : jsstring) : bool :=
  match s with
  | [] => true
  | c :: r =>
      if c =? ch "<" then
        match r with
        | d :: r' => (d =? ch ">") && plain r'
        | [] => false
        end
      else plain r
  end.

(** Whether the last ['<'] read so far has no ['>'] after it; [pending] is
    the answer for the text read before [s]. *)
Fixpoint openLt (pending : bool) (s : jsstring) : bool :=
  match s with
  | [] => pending
  | c :: r =>
      if c =? ch "<" then openLt true r
      else if c =? ch ">" then openLt false r
      else openLt pending r
  end.

(** [opts.html !== false] and [opts.voidTags || DEFAULT_VOID_TAGS]. *)
Definition treatAsHTML_of (opts : Opts) : bool :=
  match html opts with Some false => false | _ => true end.

Definition voids_of (opts : Opts) : list jsstring :=
  match voidTags opts with Some v => v | None => DEFAULT_VOID_TAGS end.

(** [a] is [b] with some elements left out. *)
Inductive subseq {A : Type} : list A -> list A -> Prop :=
| subseq_nil : forall b, subseq [] b
| subseq_both : forall x a b, subseq a b -> subseq (x :: a) (x :: b)
| subseq_skip : forall x a b, subseq a b -> subseq a (x :: b).

(** A code unit that can stand in the name of a closing tag without
    changing how the tag is read. *)
Definition clean (c : N) : bool :=
  negb (is_ws c) && negb (c =? ch ">") && visible c.

(** What the repair of markup needs of [toLowerCase]: lower-casing twice
    is lower-casing once, and it brings in no white space, no ['>'] and no
    invisible code unit. *)
Definition lowerCaseLaws `{Host} : Prop :=
  (forall x, toLowerCase (toLowerCase x) = toLowerCase x)
  /\ (forall x, forallb clean x = true -> forallb clean (toLowerCase x) = true).

Section TagEffect.
Context `{Host}.

(** What one tag with the trimmed content [rawTag] does to the stack. *)
Definition tagEffect (treatAsHTML : bool) (voids : list jsstring)
    (rawTag : jsstring) (stack : list jsstring) : list jsstring :=
  if isSpecialTag rawTag then stack
  else if startsWith rawTag (lit "/") then
    popIfMatches treatAsHTML stack (normalize treatAsHTML (firstWord (skipn 1 rawTag)))
  else if negb (endsWithSlash rawTag)
          && negb (has voids (normalize treatAsHTML (firstWord rawTag)))
  then normalize treatAsHTML (firstWord rawTag) :: stack
  else stack.

(** A stack entry that is its own normal form and made of clean code
    units: what [normalize] returns for the first word of a tag. *)
Definition entry_ok (treatAsHTML : bool) (n : jsstring) : Prop :=
  normalize treatAsHTML n = n /\ forallb clean n = true.

(** The loop with the fuel [fixXMLorHTML] gives it for the text [rest]. *)
Definition runTags (treatAsHTML : bool) (voids : list jsstring)
    (rest : jsstring) (stack : list jsstring) (out : jsstring)
  : list jsstring * jsstring :=
  tagLoop (List.length rest) treatAsHTML voids rest stack out.

End TagEffect.

(** ** Markup as a sequence of tags and character data

    The reading of the specification's well-formed document and of its
    prefixes: tags that nest, each element closed by a closing tag of
    exactly its name. *)

Module Markup.

Inductive event :=
| Open (name attrs : jsstring)
| Close (name : jsstring)
| Empty (name attrs : jsstring)
| Chars (text : jsstring).

Definition renderEvent (e : event) : jsstring :=
  match e with
  | Open name attrs => lit "<" ++ name ++ attrs ++ lit ">"
  | Close name => lit "</" ++ name ++ lit ">"
  | Empty name attrs => lit "<" ++ name ++ attrs ++ lit "/>"
  | Chars text => text
  end.

Definition render (evs : list event) : jsstring := concat (map renderEvent evs).

(** The elements still open after [evs], innermost first, when every
    closing tag in [evs] names exactly the innermost open element; [None]
    when one does not. *)
Fixpoint openAfter (stack : list jsstring) (evs : list event) : option (list jsstring) :=
  match evs with
  | [] => Some stack
  | Open name _ :: rest => openAfter (name :: stack) rest
  | Close name :: rest =>
      match stack with
      | top :: below =>
          if jsstring_eqb top name then openAfter below rest else None
      | [] => None
      end
  | _ :: rest => openAfter stack rest
  end.

(** A document in which every element is closed. *)
Definition wellNested (evs : list event) : bool :=
  match openAfter [] evs with
  | Some [] => true
  | _ => false
  end.

(** The prefix of a document: nothing closed that was not open. *)
Definition wellNestedPrefix (evs : list event) : bool :=
  match openAfter [] evs with
  | Some _ => true
  | None => false
  end.

Definition name_char (c : N) : bool :=
  negb (is_ws c) && negb (c =? ch ">") && negb (c =? ch "<")
  && negb (c =? ch "/") && negb (is_zero_width c).

(** An element name: not empty, of name characters, not starting like a
    comment, a declaration or a processing instruction. *)
Definition valid_name (name : jsstring) : bool :=
  match name with
  | [] => false
  | c :: _ => negb (c =? ch "!") && negb (c =? ch "?") && forallb name_char name
  end.

Definition attr_char (c : N) : bool := negb (c =? ch ">") && visible c.

(** The attributes of a tag, as written after its name: nothing, or white
    space followed by text without ['>']. *)
Definition valid_attrs (attrs : jsstring) : bool :=
  match attrs with
  | [] => true
  | c :: _ => is_ws c && forallb attr_char attrs
  end.

(** The attributes of an opening tag end neither in white space nor in a
    slash. *)
Definition valid_open_attrs (attrs : jsstring) : bool :=
  valid_attrs attrs &&
  match attrs with
  | [] => true
  | _ :: _ => negb (is_ws (last attrs 0)) && negb (last attrs 0 =? ch "/")
  end.

Definition text_char (c : N) : bool := negb (c =? ch "<") && visible c.

Definition valid_event (e : event) : bool :=
  match e with
  | Open name attrs => valid_name name && valid_open_attrs attrs
  | Close name => valid_name name
  | Empty name attrs => valid_name name && valid_attrs attrs
  | Chars text => forallb text_char text
  end.

(** The names of the elements that [evs] opens. *)
Fixpoint opened (evs : list event) : list jsstring :=
  match evs with
  | [] => []
  | Open name _ :: rest => name :: opened rest
  | _ :: rest => opened rest
  end.

End Markup.

(** ** JSON documents and their prefixes

    The reading of the specification's well-formed JSON document: the text
    of a JSON value as the grammar of ECMA-404 writes it, with white space
    wherever the grammar allows it and with strings of any characters and
    escapes.  A [cut] is such a document cut off where the enclosing
    arrays and objects can still be closed: inside a string value (not
    inside an escape), right after a value, right after an opening bracket,
    or right after the comma that follows an element. *)

Module JsonDoc.

(** The key of a member with the white space before and after it. *)
Record key := {
  key_before : jsstring;
  key_name : jsstring;
  key_after : jsstring
}.

#[warnings="-register-all"]
Inductive json :=
| Atom (text : jsstring)
| Str (s : jsstring)
| Arr (gap : jsstring) (items : list json)
| Obj (gap : jsstring) (members : list (key * json))
| Pad (before : jsstring) (v : json) (after : jsstring).

Definition quote (s : jsstring) : jsstring := dquote :: s ++ [dquote].

(** The texts joined by commas. *)
Fixpoint sepBy (l : list jsstring) : jsstring :=
  match l with
  | [] => []
  | x :: r => x ++ match r with
                   | [] => []
                   | _ :: _ => lit "," ++ sepBy r
                   end
  end.

(** The texts, each followed by a comma. *)
Definition leading (l : list jsstring) : jsstring :=
  concat (map (fun x => x ++ lit ",") l).

(** A key up to and with its colon. *)
Definition keyText (k : key) : jsstring :=
  key_before k ++ quote (key_name k) ++ key_after k ++ lit ":".

(** [gap] is the white space after the opening bracket; the white space
    around an element or a member's value is that of a [Pad]. *)
Fixpoint render (v : json) : jsstring :=
  match v with
  | Atom text => text
  | Str s => quote s
  | Arr gap items => lit "[" ++ gap ++ sepBy (map render items) ++ lit "]"
  | Obj gap members =>
      lit "{" ++ gap
      ++ sepBy (map (fun kv => keyText (fst kv) ++ render (snd kv)) members)
      ++ lit "}"
  | Pad before v after => before ++ render v ++ after
  end.

Definition member (kv : key * json) : jsstring :=
  keyText (fst kv) ++ render (snd kv).

(** White space of the JSON grammar. *)
Definition json_ws (s : jsstring) : bool := forallb Json.is_json_ws s.

(** The characters of a string between its quotes: any code unit from
    U+0020 on other than the quote and the backslash, or an escape: a
    backslash followed by a quote, a backslash, a slash or one of the
    letters b, f, n, r, t, or by the letter u and four hexadecimal
    digits. *)
Fixpoint valid_string (s : jsstring) : bool :=
  match s with
  | [] => true
  | c :: r =>
      if c =? dquote then false
      else if c =? ch "\" then
        match r with
        | [] => false
        | e :: r1 =>
            if Json.is_simple_escape e then valid_string r1
            else if e =? ch "u" then
              match r1 with
              | h1 :: h2 :: h3 :: h4 :: r2 =>
                  Json.is_hex h1 && Json.is_hex h2 && Json.is_hex h3
                  && Json.is_hex h4 && valid_string r2
              | _ => false
              end
            else false
        end
      else (32 <=? c) && valid_string r
  end.

Definition atom_char (c : N) : bool :=
  Json.is_digit c || ((97 <=? c) && (c <=? 122)) || ((65 <=? c) && (c <=? 90))
  || (c =? ch "-") || (c =? ch "+") || (c =? ch ".").

(** [true], [false], [null] or a number. *)
Definition valid_atom (text : jsstring) : bool :=
  (jsstring_eqb text (lit "true") || jsstring_eqb text (lit "false")
   || jsstring_eqb text (lit "null")
   || match Json.number text with Some [] => true | _ => false end)
  && forallb atom_char text.

Definition valid_key (k : key) : bool :=
  json_ws (key_before k) && valid_string (key_name k) && json_ws (key_after k).

Fixpoint valid (v : json) : bool :=
  match v with
  | Atom text => valid_atom text
  | Str s => valid_string s
  | Arr gap items => json_ws gap && forallb valid items
  | Obj gap members =>
      json_ws gap
      && forallb (fun kv => valid_key (fst kv) && valid (snd kv)) members
  | Pad before v after => json_ws before && valid v && json_ws after
  end.

Definition valid_member (kv : key * json) : bool :=
  valid_key (fst kv) && valid (snd kv).

(** A document cut off: inside a string, right after a value, right after
    an opening bracket, right after the comma that follows the elements
    [done], or inside the element or the member's value that follows
    [done]. *)
Inductive cut :=
| InStr (s : jsstring)
| After (v : json)
| ArrOpen
| ObjOpen
| ArrComma (gap : jsstring) (done : list json)
| ObjComma (gap : jsstring) (done : list (key * json))
| ArrIn (gap : jsstring) (done : list json) (c : cut)
| ObjIn (gap : jsstring) (done : list (key * json)) (k : key) (c : cut)
| PadCut (before : jsstring) (c : cut).

Fixpoint render_cut (c : cut) : jsstring :=
  match c with
  | InStr s => dquote :: s
  | After v => render v
  | ArrOpen => lit "["
  | ObjOpen => lit "{"
  | ArrComma gap done => lit "[" ++ gap ++ sepBy (map render done) ++ lit ","
  | ObjComma gap done => lit "{" ++ gap ++ sepBy (map member done) ++ lit ","
  | ArrIn gap done c => lit "[" ++ gap ++ leading (map render done) ++ render_cut c
  | ObjIn gap done k c =>
      lit "{" ++ gap ++ leading (map member done) ++ keyText k ++ render_cut c
  | PadCut before c => before ++ render_cut c
  end.

Definition nonempty {A} (l : list A) : bool :=
  match l with [] => false | _ :: _ => true end.

Fixpoint valid_cut (c : cut) : bool :=
  match c with
  | InStr s => valid_string s
  | After v => valid v
  | ArrOpen | ObjOpen => true
  | ArrComma gap done => json_ws gap && forallb valid done && nonempty done
  | ObjComma gap done => json_ws gap && forallb valid_member done && nonempty done
  | ArrIn gap done c => json_ws gap && forallb valid done && valid_cut c
  | ObjIn gap done k c =>
      json_ws gap && forallb valid_member done && valid_key k && valid_cut c
  | PadCut before c => json_ws before && valid_cut c
  end.

(** The text has no white space at its ends: it is what [trim] leaves. *)
Definition tight (s : jsstring) : bool :=
  negb (is_ws (hd 0 s)) && negb (is_ws (last s 0)).

(** The document without the white space before it, and without the
    white space after it. *)
Fixpoint lstrip (v : json) : json :=
  match v with
  | Pad _ v after => Pad [] (lstrip v) after
  | _ => v
  end.

Fixpoint rstrip (v : json) : json :=
  match v with
  | Pad before v _ => Pad before (rstrip v) []
  | _ => v
  end.

(** The cut without the white space before it, and without the white
    space at its end, be that inside its open string or after its last
    value. *)
Fixpoint lstripCut (c : cut) : cut :=
  match c with
  | PadCut _ c => lstripCut c
  | After v => After (lstrip v)
  | _ => c
  end.

Fixpoint rstripCut (c : cut) : cut :=
  match c with
  | InStr s => InStr (trimEnd s)
  | After v => After (rstrip v)
  | ArrIn gap done c => ArrIn gap done (rstripCut c)
  | ObjIn gap done k c => ObjIn gap done k (rstripCut c)
  | PadCut before c => PadCut before (rstripCut c)
  | _ => c
  end.

(** The cut that [trim] leaves. *)
Definition tighten (c : cut) : cut := rstripCut (lstripCut c).

(** The document that closes the open string and the open brackets of a
    cut and drops its dangling comma. *)
Fixpoint complete (c : cut) : json :=
  match c with
  | InStr s => Str s
  | After v => v
  | ArrOpen => Arr [] []
  | ObjOpen => Obj [] []
  | ArrComma gap done => Arr gap done
  | ObjComma gap done => Obj gap done
  | ArrIn gap done c => Arr gap (done ++ [complete c])
  | ObjIn gap done k c => Obj gap (done ++ [(k, complete c)])
  | PadCut before c => Pad before (complete c) []
  end.

(** A document that goes on after the cut with the text [w]: white space
    where the cut is outside a string, characters of the string where it is
    inside one. *)
Fixpoint extend (w : jsstring) (c : cut) : json :=
  match c with
  | InStr s => Str (s ++ w)
  | After v => Pad [] v w
  | ArrOpen => Arr w []
  | ObjOpen => Obj w []
  | ArrComma gap done => Arr gap (done ++ [Pad w (Atom (lit "0")) []])
  | ObjComma gap done =>
      Obj gap (done ++ [({| key_before := w; key_name := []; key_after := [] |},
                         Atom (lit "0"))])
  | ArrIn gap done c => Arr gap (done ++ [extend w c])
  | ObjIn gap done k c => Obj gap (done ++ [(k, extend w c)])
  | PadCut before c => Pad before (extend w c) []
  end.

(** The brackets a cut leaves open, innermost first. *)
Fixpoint opens (c : cut) : list N :=
  match c with
  | InStr _ | After _ => []
  | ArrOpen | ArrComma _ _ => [ch "["]
  | ObjOpen | ObjComma _ _ => [ch "{"]
  | ArrIn _ _ c => opens c ++ [ch "["]
  | ObjIn _ _ _ c => opens c ++ [ch "{"]
  | PadCut _ c => opens c
  end.

(** Whether the cut is inside a string. *)
Fixpoint inStr (c : cut) : bool :=
  match c with
  | InStr _ => true
  | ArrIn _ _ c => inStr c
  | ObjIn _ _ _ c => inStr c
  | PadCut _ c => inStr c
  | _ => false
  end.

(** The text of a cut with its string closed or not ([closed]) and its
    dangling comma kept or not ([comma]): [render_cut] is
    [cutText false true]. *)
Definition dangling (comma : bool) : jsstring := if comma then lit "," else [].

Fixpoint cutText (closed comma : bool) (c : cut) : jsstring :=
  match c with
  | InStr s => dquote :: s ++ (if closed then [dquote] else [])
  | After v => render v
  | ArrOpen => lit "["
  | ObjOpen => lit "{"
  | ArrComma gap done => lit "[" ++ gap ++ sepBy (map render done) ++ dangling comma
  | ObjComma gap done => lit "{" ++ gap ++ sepBy (map member done) ++ dangling comma
  | ArrIn gap done c =>
      lit "[" ++ gap ++ leading (map render done) ++ cutText closed comma c
  | ObjIn gap done k c =>
      lit "{" ++ gap ++ leading (map member done) ++ keyText k
      ++ cutText closed comma c
  | PadCut before c => before ++ cutText closed comma c
  end.

(** The document or the cut with [f] applied to each of its strings, keys
    included. *)
Definition mapKey (f : jsstring -> jsstring) (k : key) : key :=
  {| key_before := key_before k; key_name := f (key_name k);
     key_after := key_after k |}.

Fixpoint mapJson (f : jsstring -> jsstring) (v : json) : json :=
  match v with
  | Atom text => Atom text
  | Str s => Str (f s)
  | Arr gap items => Arr gap (map (mapJson f) items)
  | Obj gap members =>
      Obj gap (map (fun kv => (mapKey f (fst kv), mapJson f (snd kv))) members)
  | Pad before v after => Pad before (mapJson f v) after
  end.

Definition mapMember (f : jsstring -> jsstring) (kv : key * json) : key * json :=
  (mapKey f (fst kv), mapJson f (snd kv)).

Fixpoint mapCut (f : jsstring -> jsstring) (c : cut) : cut :=
  match c with
  | InStr s => InStr (f s)
  | After v => After (mapJson f v)
  | ArrOpen => ArrOpen
  | ObjOpen => ObjOpen
  | ArrComma gap done => ArrComma gap (map (mapJson f) done)
  | ObjComma gap done => ObjComma gap (map (mapMember f) done)
  | ArrIn gap done c => ArrIn gap (map (mapJson f) done) (mapCut f c)
  | ObjIn gap done k c =>
      ObjIn gap (map (mapMember f) done) (mapKey f k) (mapCut f c)
  | PadCut before c => PadCut before (mapCut f c)
  end.

(** What the structural repair makes of a string: the invisible code
    units are removed, then, twice, the commas that only white space
    separates from a closing brace or bracket inside the string. *)
Definition cleanString (s : jsstring) : jsstring :=
  stripTrailingCommas (stripTrailingCommas (stripInvisible s)).

(** After optional white space the text goes on with a code unit that is
    not a closing brace or bracket. *)
Fixpoint guard (s : jsstring) : bool :=
  match s with
  | [] => false
  | c :: r => if is_ws c then guard r else negb ((c =? ch "}") || (c =? ch "]"))
  end.

(** A text that cannot continue a number. *)
Definition ends_number (rest : jsstring) : bool :=
  match rest with
  | [] => true
  | c :: _ => negb (Json.is_digit c) && negb (c =? ch ".")
              && negb (c =? ch "e") && negb (c =? ch "E")
  end.

(** The fuel [Json.value] needs for a document. *)
Fixpoint size (v : json) : nat :=
  match v with
  | Atom _ => 1
  | Str _ => 1
  | Arr _ items => S (list_sum (map (fun x => S (size x)) items))
  | Obj _ members => S (list_sum (map (fun kv => S (size (snd kv))) members))
  | Pad _ v _ => size v
  end.

(** The scanner state outside a string with the given stack. *)
Definition outside (st : list N) : scan_state :=
  {| stack := st; inString := false; escaped := false |}.

(** The scanner state inside a string, not after a backslash. *)
Definition inside (st : list N) : scan_state :=
  {| stack := st; inString := true; escaped := false |}.

(** A code unit the scanner passes over outside a string. *)
Definition scan_plain_char (c : N) : bool :=
  negb (c =? dquote) && negb (c =? ch "{") && negb (c =? ch "[")
  && negb (c =? ch "}") && negb (c =? ch "]").

(** The scanner is back in its state after the text. *)
Definition scans (x : jsstring) : Prop :=
  forall st, fold_left scan_step x (outside st) = outside st.

(** The pass [f] over the text of an item [x] leaves the text of [m x],
    and the text begins with what is not a closer. *)
Definition passes (f : jsstring -> jsstring) {A : Type} (text : A -> jsstring)
    (m : A -> A) (x : A) : Prop :=
  (forall rest, f (text x ++ rest) = text (m x) ++ f rest)
  /\ (forall rest, guard (text x ++ rest) = true).

(** [prefix] begins the well-formed document [doc], and fixJSON makes of
    it the text [result], which JSON.parse rejects. *)
Definition not_repaired `{Host} (doc prefix result : jsstring) : Prop :=
  startsWith doc prefix = true /\ JSON_parse_ok doc = true
  /\ fixJSON prefix = Normal result /\ JSON_parse_ok result = false.

End JsonDoc.

(** No backtick, and so no fence, in the text. *)
Definition noBacktick (s : jsstring) : bool := forallb (fun c => negb (c =? ch "`")) s.

(** The name of one of the three root tags, in any letter case. *)
Definition is_root_name (name : jsstring) : bool :=
  existsb (fun n => startsWith_ci name n && (List.length name =? List.length n)%nat)
          [lit "mxfile"; lit "mxGraphModel"; lit "diagram"].

(** What follows the name inside a root tag: nothing, or text that starts
    with white space. *)
Definition tag_tail (tail : jsstring) : bool :=
  match tail with
  | [] => true
  | d :: _ => is_ws d
  end.

(** The five entities of step 2 with what each is decoded to. *)
Definition entities : list (jsstring * jsstring) :=
  [ (lit "&lt;", lit "<"); (lit "&gt;", lit ">"); (lit "&amp;", lit "&");
    (lit "&quot;", [dquote]); (lit "&#39;", lit "'") ].

Definition noAmp (s : jsstring) : bool := forallb (fun c => negb (c =? ch "&")) s.

(** ** Notions used to state what the JSON repair keeps *)

Definition notComma (c : N) : bool := negb (c =? ch ",").

(** A code unit that is neither a comma nor white space: the repair never
    drops one. *)
Definition kept (c : N) : bool := notComma c && negb (is_ws c).

(** What [fixJSONStructure] appends for a scanner state: the quote that
    closes the open string, then the closers of the open brackets. *)
Definition closing (st : scan_state) : jsstring :=
  (if inString st then [dquote] else []) ++ map closer (stack st).

(** What the scanner keeps on its stack are opening brackets, and outside
    a string it is in no escape. *)
Definition scan_ok (st : scan_state) : Prop :=
  forallb (fun c => (c =? ch "{") || (c =? ch "[")) (stack st) = true
  /\ (inString st = false -> escaped st = false).


(** ** Notions used to state which commas the repair strips *)

(** The code units of [t] whose index does not satisfy [drop]. *)
Definition dropAt (drop : nat -> bool) (t : jsstring) : jsstring :=
  map snd (filter (fun ic => negb (drop (fst ic)))
                  (combine (seq 0 (List.length t)) t)).

(** The code unit of [t] at index [i] is a trailing comma: a comma that
    only white space separates from a closing brace or bracket. *)
Definition trailingCommaAt (t : jsstring) (i : nat) : bool :=
  (nth i t 0 =? ch ",") && closer_ahead (skipn (S i) t).

(** The text without its trailing commas, each judged in the text as it
    is. *)
Definition withoutTrailingCommas (t : jsstring) : jsstring :=
  dropAt (trailingCommaAt t) t.

(** After optional white space the text goes on with a comma. *)
Fixpoint comma_ahead (s : jsstring) : bool :=
  match s with
  | [] => false
  | c :: r => if is_ws c then comma_ahead r else c =? ch ","
  end.

(** No comma of the text is followed, after optional white space, by
    another comma. *)
Fixpoint noCommaBeforeComma (t : jsstring) : bool :=
  match t with
  | [] => true
  | c :: r => negb ((c =? ch ",") && comma_ahead r) && noCommaBeforeComma r
  end.

(** No comma of the text is followed, after optional white space, by a
    closing brace or bracket. *)
Fixpoint noCommaBeforeCloser (t : jsstring) : bool :=
  match t with
  | [] => true
  | c :: r => negb ((c =? ch ",") && closer_ahead r) && noCommaBeforeCloser r
  end.

(** ** Notions used to state what the bridge posts *)

Module BridgeSpec.
Import Bridge.

(** The load action that carries the document [x]. *)
Definition loadMessage (x : jsstring) : effect :=
  PostMessage
    (VObj [ (lit "action", VStr (lit "load"));
            (lit "xml", VStr x);
            (lit "autosave", VNum 1) ])
    editor_origin.

(** An [init] event of the editor: an object whose [event] is ['init']. *)
Definition is_init (data : jsval) : bool :=
  match data with
  | VObj props => is_str (lookup (lit "event") props) "init"
  | _ => false
  end.

(** A callback is only ever invoked with a truthy argument, and only when
    the prop is set. *)
Definition callback_ok (c : Component) (e : effect) : bool :=
  match e with
  | OnSave v => is_some (onSave c) && truthy v
  | OnError v => is_some (onError c) && truthy v
  | _ => true
  end.

(** The handler's stale [isReady] is never ahead of the state. *)
Definition closure_ok (c : Component) : Prop :=
  handlerReady c = true -> isReady c = true.

(** What a message does to the state: nothing, or it makes the component
    ready, or it records an error. *)
Inductive message_outcome (c : Component) : Component -> Prop :=
| outcome_same : message_outcome c c
| outcome_ready :
    message_outcome c
      {| isReady := true; isLoading := false; error := error c; xml := xml c;
         onSave := onSave c; onError := onError c; iframe := iframe c;
         handlerReady := handlerReady c |}
| outcome_error (v : jsval) :
    truthy v = true ->
    message_outcome c
      {| isReady := isReady c; isLoading := isLoading c; error := v; xml := xml c;
         onSave := onSave c; onError := onError c; iframe := iframe c;
         handlerReady := handlerReady c |}.

(** Every post among the effects is the load action of the non-empty
    document [x]. *)
Definition posts_load (x : jsstring) (effs : list effect) : Prop :=
  forall e, In e effs -> is_post e = true -> e = loadMessage x /\ x <> [].

Definition is_log (e : effect) : bool :=
  match e with ConsoleLog _ => true | _ => false end.

(** The editor reports an error: an object whose [event] is ['error'],
    sent from the editor's origin. *)
Definition reports_error (i : input) : bool :=
  match i with
  | Receive origin (VObj props) =>
      jsstring_eqb origin editor_origin
      && is_str (lookup (lit "event") props) "error"
  | _ => false
  end.

Definition sets_error (e : effect) : bool :=
  match e with SetError _ => true | _ => false end.

End BridgeSpec.

(** ** Model output around a Draw.io document *)

(** No ['<'] in the text. *)
Definition noLt (s : jsstring) : bool := forallb (fun c => negb (c =? ch "<")) s.

(** Text with no fence, or with one opening fence that nothing closes: what
    the model has streamed before the closing fence arrives. *)
Definition atMostOneFence (pre : jsstring) : Prop :=
  noBacktick pre = true
  \/ exists p0 p1, pre = p0 ++ fence ++ p1
       /\ noBacktick p0 = true /\ noBacktick p1 = true.

(** ** app/drawio/page.js: reading the event stream in generateDiagram *)

Module Sse.
Import Bridge.

(** Puts [c] in front of the first piece. *)
Definition consHead (c : N) (pieces : list jsstring) : list jsstring :=
  match pieces with
  | p :: ps => (c :: p) :: ps
  | [] => [[c]]
  end.

(** [s.split('\n\n')]: the pieces of [s] between the occurrences of two
    line feeds in a row, found from the left; there is always one piece. *)
Fixpoint splitBlank (s : jsstring) : list jsstring :=
  match s with
  | [] => [[]]
  | c :: r =>
      match r with
      | d :: r' =>
          if (c =? 10) && (d =? 10) then [] :: splitBlank r'
          else consHead c (splitBlank r)
      | [] => [[c]]
      end
  end.

(** [data?.key]: [undefined] for [null] and [undefined], the property
    otherwise; a value that is not an object has neither property read
    here.  (An array, for which [jsval] has no constructor of its own, is
    an object whose keys are its indices.) *)
Definition getOpt (data : jsval) (key : string) : jsval :=
  match data with
  | VObj props => lookup (lit key) props
  | _ => VUndefined
  end.

Section Stream.
Context `{Host}.

(** [JSON.parse(s)]: the value, or [None] when it throws. *)
Variable parse : jsstring -> option jsval.

(** The state of the loop: [accumulated] and [collectedXml]. *)
Record stream_state := {
  accumulated : jsstring;
  collectedXml : jsstring
}.

(** The body of [for (const evt of events)]: the new [collectedXml] and
    the arguments of the calls of [setDiagramXml].  What is thrown inside
    the [try] is caught and ignored; [collectedXml] has been extended
    before [postProcessDrawioCode] is called. *)
Definition handleEvent (collected : jsstring) (evt : jsstring)
  : jsstring * list jsstring :=
  if negb (startsWith evt (lit "data: ")) then (collected, [])
  else
    let jsonStr := skipn 6 evt in
    if jsstring_eqb jsonStr (lit "[DONE]") then (collected, [])
    else
      match parse jsonStr with
      | None => (collected, [])
      | Some data =>
          if truthy (getOpt data "error") then (collected, [])
          else
            match getOpt data "content" with
            | VStr content =>
                let collected := collected ++ content in
                match postProcessDrawioCode collected with
                | Normal shown => (collected, [shown])
                | Throw _ => (collected, [])
                end
            | _ => (collected, [])
            end
      end.

Fixpoint handleEvents (collected : jsstring) (events : list jsstring)
  : jsstring * list jsstring :=
  match events with
  | [] => (collected, [])
  | evt :: rest =>
      let '(collected1, shown1) := handleEvent collected evt in
      let '(collected2, shown2) := handleEvents collected1 rest in
      (collected2, shown1 ++ shown2)
  end.

(** One iteration of [while (true)] for a chunk that [reader.read()]
    delivered and the decoder turned into text. *)
Definition readChunk (st : stream_state) (chunk : jsstring)
  : stream_state * list jsstring :=
  let accumulated := accumulated st ++ chunk in
  let events := splitBlank accumulated in
  let accumulated := last events [] in
  let events := removelast events in
  let '(collected, shown) := handleEvents (collectedXml st) events in
  ({| accumulated := accumulated; collectedXml := collected |}, shown).

Fixpoint readChunks (st : stream_state) (chunks : list jsstring)
  : stream_state * list jsstring :=
  match chunks with
  | [] => (st, [])
  | chunk :: rest =>
      let '(st1, shown1) := readChunk st chunk in
      let '(st2, shown2) := readChunks st1 rest in
      (st2, shown1 ++ shown2)
  end.

(** The stream read to its end: [collectedXml], and every argument of
    [setDiagramXml] in order, the last being [finalXml]. *)
Definition readStream (chunks : list jsstring) : completion (jsstring * list jsstring) :=
  let '(st, shown) :=
    readChunks {| accumulated := []; collectedXml := [] |} chunks in
  finalXml <- postProcessDrawioCode (collectedXml st) ;;
  Normal (collectedXml st, shown ++ [finalXml]).

(** What one event adds to [collectedXml]. *)
Definition eventContent (evt : jsstring) : jsstring :=
  fst (handleEvent [] evt).

End Stream.
End Sse.

(** ** app/drawio/page.js: the page around the canvas *)

Module Page.
Import Bridge.

Section Page.
Context `{Host}.

(** [String(v)] for a value that is neither a string nor nullish. *)
Variable toStr : jsval -> jsstring.

(** [String(input ?? '')], the first statement of [fixUnclosed]. *)
Definition textOf (input : jsval) : jsstring :=
  match input with
  | VStr s => s
  | VUndefined | VNull => []
  | _ => toStr input
  end.

(** What a handler of the page does: [setDiagramXml(x)] and
    [showNotification({ ..., type })]. *)
Inductive pageEffect :=
| SetDiagramXml (x : jsstring)
| ShowNotification (type : jsstring).

(** [const handleSaveDiagram = async (xmlOrData) => {...}] *)
Definition handleSaveDiagram (xmlOrData : jsval) : list pageEffect :=
  let xml :=
    match typeof xmlOrData with
    | TString => xmlOrData
    | _ =>
        let d := Sse.getOpt xmlOrData "data" in
        if truthy d then d else VStr []
    end in
  if negb (truthy xml) then []
  else
    match fixUnclosed (textOf xml) xml_mode with
    | Normal fixed => [SetDiagramXml fixed; ShowNotification (lit "success")]
    | Throw _ => [ShowNotification (lit "error")]
    end.

(** The page with its canvas: the state [diagramXml], the number of the
    render (the identity of the [handleSaveDiagram] passed as [onSave]),
    and the mounted [DrawioCanvas], whose props are
    [xml={diagramXml} onSave={handleSaveDiagram}]. *)
Record System := {
  diagramXml : jsstring;
  renderId : nat;
  canvas : Component
}.

Definition wired (s : System) : Prop :=
  xml (canvas s) = diagramXml s /\ onSave (canvas s) = Some (renderId s)
  /\ onError (canvas s) = None.

Definition apply_pageEffect (x : jsstring) (e : pageEffect) : jsstring :=
  match e with
  | SetDiagramXml x' => x'
  | ShowNotification _ => x
  end.

(** A message event reaches the canvas; the calls of [onSave] run
    [handleSaveDiagram]; when that sets state, the page renders again and
    the canvas receives the new [diagramXml] and a new [onSave]. *)
Definition deliver (s : System) (origin : jsstring) (data : jsval)
  : System * list effect :=
  let '(c1, out1) := step (canvas s) (Receive origin data) in
  let pageEffects :=
    flat_map (fun e => match e with
                       | OnSave v => handleSaveDiagram v
                       | _ => []
                       end) out1 in
  match pageEffects with
  | [] => ({| diagramXml := diagramXml s; renderId := renderId s; canvas := c1 |}, out1)
  | _ :: _ =>
      let x' := fold_left apply_pageEffect pageEffects (diagramXml s) in
      let '(c2, out2) := step c1 (SetProps x' (Some (S (renderId s))) None) in
      ({| diagramXml := x'; renderId := S (renderId s); canvas := c2 |}, out1 ++ out2)
  end.

(** An event with which the editor hands over the document [y]:
    [{ event: 'save' | 'autosave', xml: y }]. *)
Definition hands_over (data : jsval) (y : jsstring) : bool :=
  match data with
  | VObj props =>
      (is_str (lookup (lit "event") props) "save"
       || is_str (lookup (lit "event") props) "autosave")
      && match lookup (lit "xml") props with
         | VStr x => jsstring_eqb x y
         | _ => false
         end
  | _ => false
  end.

End Page.
End Page.

(** ** app/excalidraw/page.js *)

Module Excalidraw.

(** Group 1 of [/```\s*json\s*([\s\S]*?)```/i] matched at the start of [s]. *)
Definition json_fence_at (s : jsstring) : option jsstring :=
  if startsWith s fence then
    let s1 := trimStart (skipn 3 s) in
    if startsWith_ci s1 (lit "json") then
      option_map fst (until_fence (trimStart (skipn 4 s1)))
    else None
  else None.

(** [const postProcessExcalidrawCode = (code) => {...}] on a string
    [code]. *)
Definition postProcessExcalidrawCode (code : jsstring) : jsstring :=
  if falsy code then []
  else
    let text := trim (stripInvisible code) in
    let fencedJson :=
      match first_match json_fence_at text with
      | Some m => Some m
      | None => first_match any_fence_at text
      end in
    let text :=
      match fencedJson with
      | Some ((_ :: _) as body) => trim body
      | _ => text
      end in
    let idxObjStart := indexOf (ch "{") text 0 in
    let idxObjEnd := lastIndexOf (ch "}") text in
    let idxArrStart := indexOf (ch "[") text 0 in
    let idxArrEnd := lastIndexOf (ch "]") text in
    let arrayFirst :=
      match idxArrStart, idxArrEnd with
      | Some a, Some _ =>
          match idxObjStart with
          | None => true
          | Some o => (a <? o)%nat
          end
      | _, _ => false
      end in
    let text :=
      if arrayFirst then
        match idxArrStart, idxArrEnd with
        | Some a, Some e => slice a (e + 1) text
        | _, _ => text
        end
      else
        match idxObjStart, idxObjEnd with
        | Some o, Some e => slice o (e + 1) text
        | _, _ => text
        end in
    trim text.

(** The two halves of [postProcessExcalidrawCode]: the choice of the
    fenced block, and the span from the first opening to the last closing
    bracket. *)
Definition fencedBody (text : jsstring) : jsstring :=
  match (match first_match json_fence_at text with
         | Some m => Some m
         | None => first_match any_fence_at text
         end) with
  | Some ((_ :: _) as body) => trim body
  | _ => text
  end.

Definition bracketSpan (text : jsstring) : jsstring :=
  let arrayFirst :=
    match indexOf (ch "[") text 0, lastIndexOf (ch "]") text with
    | Some a, Some _ =>
        match indexOf (ch "{") text 0 with
        | None => true
        | Some o => (a <? o)%nat
        end
    | _, _ => false
    end in
  trim (if arrayFirst then
          match indexOf (ch "[") text 0, lastIndexOf (ch "]") text with
          | Some a, Some e => slice a (e + 1) text
          | _, _ => text
          end
        else
          match indexOf (ch "{") text 0, lastIndexOf (ch "}") text with
          | Some o, Some e => slice o (e + 1) text
          | _, _ => text
          end).

(** A text between matching brackets: [[...]] or [{...}]. *)
Definition bracketed (d : jsstring) : bool :=
  match d with
  | c :: r =>
      match r with
      | [] => false
      | _ :: _ =>
          ((c =? ch "[") && (last r 0 =? ch "]"))
          || ((c =? ch "{") && (last r 0 =? ch "}"))
      end
  | [] => false
  end.

(** Neither ['['] nor ['{'] in the text; neither [']'] nor ['}']. *)
Definition noOpener (s : jsstring) : bool :=
  forallb (fun c => negb (c =? ch "[") && negb (c =? ch "{")) s.

Definition noCloser (s : jsstring) : bool :=
  forallb (fun c => negb (c =? ch "]") && negb (c =? ch "}")) s.

End Excalidraw.

(** ** app/excalidraw/page.js: reading the event stream in handleSendMessage *)

Module ExcalidrawStream.
Import Bridge.

(** [s.split('\n')]: the lines of [s]; there is always one piece. *)
Fixpoint splitLines (s : jsstring) : list jsstring :=
  match s with
  | [] => [[]]
  | c :: r =>
      if c =? 10 then [] :: splitLines r
      else Sse.consHead c (splitLines r)
  end.

(** [data.key]: reading a property of [null] or [undefined] throws. *)
Definition getProp (data : jsval) (key : string) : completion jsval :=
  match data with
  | VObj props => Normal (lookup (lit key) props)
  | VNull | VUndefined => Throw TypeError
  | _ => Normal VUndefined
  end.

Section Stream.

(** [JSON.parse(s)]: the value, or [None] when it throws. *)
Variable parse : jsstring -> option jsval.

(** The string that [accumulatedCode += v] appends for a truthy [v] that
    is not a string. *)
Variable toStr : jsval -> jsstring.

(** What the body of the loop does besides extending [accumulatedCode]:
    the live update of the streaming bubble with the code so far, and
    [console.error('SSE parse error:', e)]. *)
Inductive lineEffect :=
| LiveUpdate (code : jsstring)
| ConsoleError.

(** The body of [for (const line of lines)]. *)
Definition handleLine (accumulatedCode : jsstring) (line : jsstring)
  : jsstring * list lineEffect :=
  let trimmed := trim line in
  if falsy trimmed || jsstring_eqb trimmed (lit "data: [DONE]")
  then (accumulatedCode, [])
  else if startsWith trimmed (lit "data: ") then
    match parse (skipn 6 trimmed) with
    | None => (accumulatedCode, [ConsoleError])
    | Some data =>
        match getProp data "content" with
        | Throw _ => (accumulatedCode, [ConsoleError])
        | Normal content =>
            if truthy content then
              let accumulatedCode :=
                accumulatedCode
                ++ match content with VStr s => s | _ => toStr content end in
              (accumulatedCode, [LiveUpdate accumulatedCode])
            else
              match getProp data "error" with
              | Normal e =>
                  if truthy e then (accumulatedCode, [ConsoleError])
                  else (accumulatedCode, [])
              | Throw _ => (accumulatedCode, [ConsoleError])
              end
        end
    end
  else (accumulatedCode, []).

Fixpoint handleLines (accumulatedCode : jsstring) (lines : list jsstring)
  : jsstring * list lineEffect :=
  match lines with
  | [] => (accumulatedCode, [])
  | line :: rest =>
      let '(code1, effs1) := handleLine accumulatedCode line in
      let '(code2, effs2) := handleLines code1 rest in
      (code2, effs1 ++ effs2)
  end.

(** The state of the loop: [buffer] and [accumulatedCode]. *)
Record reader_state := {
  buffer : jsstring;
  accumulatedCode : jsstring
}.

(** One iteration of [while (true)] for a decoded chunk. *)
Definition readChunk (st : reader_state) (chunk : jsstring)
  : reader_state * list lineEffect :=
  let buffer := buffer st ++ chunk in
  let lines := splitLines buffer in
  let buffer := last lines [] in
  let lines := removelast lines in
  let '(code, effs) := handleLines (accumulatedCode st) lines in
  ({| buffer := buffer; accumulatedCode := code |}, effs).

Fixpoint readChunks (st : reader_state) (chunks : list jsstring)
  : reader_state * list lineEffect :=
  match chunks with
  | [] => (st, [])
  | chunk :: rest =>
      let '(st1, effs1) := readChunk st chunk in
      let '(st2, effs2) := readChunks st1 rest in
      (st2, effs1 ++ effs2)
  end.

(** The stream read to its end: [processed], the text that
    [postProcessExcalidrawCode] makes of [accumulatedCode], with what the
    loop did. *)
Definition readStream (chunks : list jsstring) : jsstring * list lineEffect :=
  let '(st, effs) := readChunks {| buffer := []; accumulatedCode := [] |} chunks in
  (Excalidraw.postProcessExcalidrawCode (accumulatedCode st), effs).

(** What one line adds to [accumulatedCode]. *)
Definition lineContent (line : jsstring) : jsstring := fst (handleLine [] line).

End Stream.
End ExcalidrawStream.

(** ** app/excalidraw/page.js: the chat bubbles *)

Module Bubbles.

(** A chat message: [role], [content], [type], the [streaming] flag and
    what else the object carries (attachments), kept abstract. *)
Record message := {
  role : jsstring;
  content : jsstring;
  type : option jsstring;
  streaming : bool;
  attachments : nat
}.

(** [next[i]?.role === 'assistant' && next[i]?.streaming] *)
Definition isStreamingBubble (m : message) : bool :=
  jsstring_eqb (role m) (lit "assistant") && streaming m.

(** The first element from the left that satisfies [p], replaced. *)
Fixpoint replaceFirst (p : message -> bool) (f : message -> message)
    (l : list message) : option (list message) :=
  match l with
  | [] => None
  | m :: r =>
      if p m then Some (f m :: r)
      else option_map (cons m) (replaceFirst p f r)
  end.

(** [for (let i = next.length - 1; i >= 0; i--) if (p(next[i])) { next[i] =
    f(next[i]); break; }]: the last element that satisfies [p], replaced;
    [None] when there is none. *)
Definition replaceLast (p : message -> bool) (f : message -> message)
    (l : list message) : option (list message) :=
  option_map (@rev message) (replaceFirst p f (rev l)).

(** [{ role: 'assistant', content: '', type: 'json', streaming: true }] *)
Definition placeholder : message :=
  {| role := lit "assistant"; content := []; type := Some (lit "json");
     streaming := true; attachments := O |}.

(** [{ role: 'assistant', content: processed, type: 'json' }] *)
Definition finalMessage (processed : jsstring) : message :=
  {| role := lit "assistant"; content := processed; type := Some (lit "json");
     streaming := false; attachments := O |}.

(** [{ ...next[i], content: accumulatedCode }] *)
Definition withContent (code : jsstring) (m : message) : message :=
  {| role := role m; content := code; type := type m;
     streaming := streaming m; attachments := attachments m |}.

(** [setMessages(prev => [...prev, placeholder])] *)
Definition startStreaming (prev : list message) : list message := prev ++ [placeholder].

(** The live update of the last streaming bubble. *)
Definition liveUpdate (code : jsstring) (prev : list message) : list message :=
  match replaceLast isStreamingBubble (withContent code) prev with
  | Some next => next
  | None => prev
  end.

(** The update after the stream has ended: the last streaming bubble
    becomes the final message; without one the final message is
    appended. *)
Definition finish (processed : jsstring) (prev : list message) : list message :=
  match replaceLast isStreamingBubble (fun _ => finalMessage processed) prev with
  | Some next => next
  | None => prev ++ [finalMessage processed]
  end.

End Bubbles.

(** ** HTML escaping, the inverse of step 2 of postProcessDrawioCode *)

Module Escape.

(** The five characters that step 2 decodes, in the order of its
    replacements, with their entities. *)
Definition special (i : nat) : N :=
  nth i [ch "<"; ch ">"; ch "&"; dquote; 39] 0.

Definition entity (i : nat) : jsstring :=
  nth i [lit "&lt;"; lit "&gt;"; lit "&amp;"; lit "&quot;"; lit "&#39;"] [].

(** The text of one code unit when the first [k] replacements have been
    made: the characters decoded so far stand for themselves, the others
    are still escaped. *)
Definition escapeFrom (k : nat) (c : N) : jsstring :=
  if c =? special 0 then (if (k <=? 0)%nat then entity 0 else [c])
  else if c =? special 1 then (if (k <=? 1)%nat then entity 1 else [c])
  else if c =? special 2 then (if (k <=? 2)%nat then entity 2 else [c])
  else if c =? special 3 then (if (k <=? 3)%nat then entity 3 else [c])
  else if c =? special 4 then (if (k <=? 4)%nat then entity 4 else [c])
  else [c].

(** The HTML-escaped form of a text. *)
Definition escape (s : jsstring) : jsstring := flat_map (escapeFrom 0) s.

(** No ['&'] of the text is followed by ['q'] or ['#']: decoding the
    escaped text cannot decode twice. *)
Fixpoint ampSafe (s : jsstring) : bool :=
  match s with
  | [] => true
  | c :: r =>
      (if c =? ch "&"
       then match r with
            | d :: _ => negb (d =? ch "q") && negb (d =? ch "#")
            | [] => true
            end
       else true)
      && ampSafe r
  end.

End Escape.
(** ** Notions used to state the steps of postProcessDrawioCode *)

Module StepSpec.

(** The fence that follows [body] is the first fence of
    [body ++ fence ++ rest]: no fence starts inside [body]. *)
Definition firstFence (body rest : jsstring) : Prop :=
  forall a b, body ++ fence ++ rest = a ++ fence ++ b ->
              (List.length body <= List.length a)%nat.

(** The pattern of the xml block matches at the head of [t] with [body]
    as its group: a fence, optional white space, the label xml in any
    letter case, all the white space that follows, and [body] up to the
    next fence. *)
Definition xmlBlock (t body : jsstring) : Prop :=
  exists ws1 label ws2 post,
    t = fence ++ ws1 ++ label ++ ws2 ++ body ++ fence ++ post
    /\ forallb is_ws ws1 = true
    /\ startsWith_ci label (lit "xml") = true /\ List.length label = 3%nat
    /\ forallb is_ws ws2 = true
    /\ is_ws (hd 0 (body ++ fence)) = false
    /\ firstFence body post.

(** The pattern of a block of any kind matches at the head of [t] with
    [body] as its group: a fence, all the white space that follows, and
    [body] up to the next fence. *)
Definition anyBlock (t body : jsstring) : Prop :=
  exists ws1 post,
    t = fence ++ ws1 ++ body ++ fence ++ post
    /\ forallb is_ws ws1 = true
    /\ is_ws (hd 0 (body ++ fence)) = false
    /\ firstFence body post.

(** [P] holds of [t] and of no text that starts earlier, inside [pre]. *)
Definition firstAt (P : jsstring -> Prop) (pre t : jsstring) : Prop :=
  P t /\ forall p1 p2, pre = p1 ++ p2 -> p2 <> [] -> ~ P (p2 ++ t).

(** [P] holds of no suffix of [s], and of some suffix of [s]. *)
Definition nowhere (P : jsstring -> Prop) (s : jsstring) : Prop :=
  forall a b, s = a ++ b -> ~ P b.

Definition somewhere (P : jsstring -> Prop) (s : jsstring) : Prop :=
  exists a b, s = a ++ b /\ P b.

(** The pattern [M] matches at the head of [t], with some group. *)
Definition matches (M : jsstring -> jsstring -> Prop) (t : jsstring) : Prop :=
  exists g, M t g.

(** The leftmost match of the pattern [M] in [s] has the group [g]. *)
Definition leftmostBody (M : jsstring -> jsstring -> Prop) (s g : jsstring) : Prop :=
  exists pre t, s = pre ++ t /\ firstAt (matches M) pre t /\ M t g.

(** The pattern has no match in [s], or its leftmost match has an empty
    group: the source passes both over. *)
Definition passedOver (M : jsstring -> jsstring -> Prop) (s : jsstring) : Prop :=
  nowhere (matches M) s \/ leftmostBody M s [].

(** A letter, ['!'] or ['?']. *)
Definition tagStart (c : N) : Prop :=
  97 <= c <= 122 \/ 65 <= c <= 90 \/ c = ch "!" \/ c = ch "?".

(** A raw tag start at the head of [t]: ['<'] and a letter, ['!'] or
    ['?']. *)
Definition rawTagAt (t : jsstring) : Prop :=
  exists c r, t = ch "<" :: c :: r /\ tagStart c.

(** An escaped tag start at the head of [t]: [&lt;] in any letter case,
    optional white space and a letter, ['!'] or ['?']. *)
Definition escapedTagAt (t : jsstring) : Prop :=
  exists e w c r,
    t = e ++ w ++ c :: r
    /\ startsWith_ci e (lit "&lt;") = true /\ List.length e = 4%nat
    /\ forallb is_ws w = true /\ tagStart c.

(** A root tag at the head of [t]: ['<'], the name mxfile, mxGraphModel or
    diagram in any letter case, and white space or ['>']. *)
Definition rootTagAt (t : jsstring) : Prop :=
  exists name d r,
    t = ch "<" :: name ++ d :: r
    /\ is_root_name name = true /\ (is_ws d = true \/ d = ch ">").

(** None of the five entities occurs in the text. *)
Definition entityFree (s : jsstring) : Prop :=
  forall e r, In (e, r) entities -> forall a b, s <> a ++ e ++ b.

End StepSpec.


(** * Properties *)

(** ** Basic facts *)

Lemma jsstring_eqb_eq (a b : jsstring) : jsstring_eqb a b = true <-> a = b.
Proof.
  unfold jsstring_eqb. destruct (list_eq_dec N.eq_dec a b); split; congruence.
Qed.

Lemma jsstring_eqb_refl (a : jsstring) : jsstring_eqb a a = true.
Proof. apply jsstring_eqb_eq. reflexivity. Qed.

Lemma jsstring_eqb_neq (a b : jsstring) : a <> b -> jsstring_eqb a b = false.
Proof.
  intros Hne. destruct (jsstring_eqb a b) eqn:E; [|reflexivity].
  apply jsstring_eqb_eq in E. contradiction.
Qed.

(** ** fixJSON *)

Section FixJSONFacts.
Context `{Host}.

(** The three exits of [fixJSON], none of which throws. *)
Lemma fixJSON_cases (input : jsstring) :
  let raw := trim input in
  let fixed := fixJSONStructure raw in
  fixJSON input =
  Normal (if falsy raw then raw
          else if JSON_parse_ok raw then raw
          else if JSON_parse_ok fixed then fixed
          else stripTrailingCommas fixed).
Proof.
  cbv zeta. unfold fixJSON, JSON_parse.
  destruct (falsy (trim input)); [reflexivity|].
  destruct (JSON_parse_ok (trim input)); cbn; [reflexivity|].
  destruct (JSON_parse_ok (fixJSONStructure (trim input))); reflexivity.
Qed.

Lemma fixJSONStructure_nil : fixJSONStructure [] = [].
Proof. reflexivity. Qed.

Lemma fixUnclosed_cases (input : jsstring) (opts : Opts) :
  fixUnclosed input opts = fixJSON input
  \/ fixUnclosed input opts = Normal (fixXMLorHTML input opts).
Proof.
  unfold fixUnclosed.
  destruct (jsstring_eqb _ (lit "json") || _).
  - left. rewrite fixJSON_cases. reflexivity.
  - right. reflexivity.
Qed.

Lemma fixUnclosed_xml_mode (input : jsstring) :
  fixUnclosed input xml_mode = Normal (fixXMLorHTML input xml_mode).
Proof. reflexivity. Qed.

End FixJSONFacts.

(** C6. When the trimmed input is accepted by JSON.parse, fixJSON returns
    that trimmed string unchanged. *)
Theorem fixJSON_wellformed_unchanged `{Host} (input : jsstring) :
  JSON_parse_ok (trim input) = true ->
  fixJSON input = Normal (trim input).
Proof.
  intros Hok. rewrite fixJSON_cases. cbv zeta. rewrite Hok.
  destruct (falsy (trim input)); reflexivity.
Qed.

Lemma fixJSON_wellformed_unchanged_witness :
  JSON_parse_ok (trim (litq "  {'a': [1, 2]} ")) = true
  /\ fixJSON (litq "  {'a': [1, 2]} ") = Normal (litq "{'a': [1, 2]}").
Proof.
  split; [vm_compute; reflexivity|].
  exact (fixJSON_wellformed_unchanged (litq "  {'a': [1, 2]} ") eq_refl).
Defined.

(** ** The iframe bridge *)

Module BridgeFacts.
Import Bridge.

Lemma handleMessage_foreign (c : Component) (origin : jsstring) (data : jsval) :
  origin <> editor_origin -> handleMessage c origin data = Normal [].
Proof.
  intros Hne. unfold handleMessage.
  rewrite (jsstring_eqb_neq _ _ Hne). reflexivity.
Qed.

Lemma step_foreign (c : Component) (origin : jsstring) (data : jsval) :
  origin <> editor_origin -> step c (Receive origin data) = (c, []).
Proof.
  intros Hne. unfold step. rewrite (handleMessage_foreign _ _ _ Hne).
  cbn. rewrite Bool.eqb_reflx. reflexivity.
Qed.

Lemma run_app (c : Component) (t1 t2 : list input) :
  run c (t1 ++ t2) =
  (fst (run (fst (run c t1)) t2), snd (run c t1) ++ snd (run (fst (run c t1)) t2)).
Proof.
  revert c. induction t1 as [|i t1 IH]; intros c; cbn [run app].
  - cbn. destruct (run c t2); reflexivity.
  - destruct (step c i) as [c1 out1]. rewrite IH.
    destruct (run c1 t1) as [c2 out2]. cbn [fst snd].
    destruct (run c2 t2) as [c3 out3]. cbn [fst snd].
    rewrite app_assoc. reflexivity.
Qed.

(** A callback of a render that is not ready posts nothing. *)
Lemma calls_not_ready (iframe : bool) (v : jsval) :
  sendLoadMessage iframe false v = []
  /\ exportDiagram iframe false v = []
  /\ mergeDiagram iframe false v = [].
Proof.
  unfold sendLoadMessage, exportDiagram, mergeDiagram.
  rewrite orb_true_r. repeat split.
Qed.

(** What the handler does with a message of the editor's origin that is not
    a readiness signal: no state setter for [isReady], no post. *)
Lemma handleMessage_not_ready_signal (c : Component) (origin : jsstring) (data : jsval) :
  signals_ready (Receive origin data) = false ->
  forall effs, handleMessage c origin data = Normal effs ->
  isReady (fold_left apply_effect effs c) = isReady c
  /\ forallb (fun e => negb (is_post e)) effs = true.
Proof.
  unfold signals_ready, handleMessage. intros Hsig effs.
  destruct (jsstring_eqb origin editor_origin); cbn [negb andb] in *.
  2:{ intros [= <-]. repeat split. }
  destruct data as [| |b|z|s|props]; cbn [typeof get bind is_str] in *;
    try (intros [= <-]; repeat split; fail); try discriminate.
  - rewrite Hsig. intros [= <-]. repeat split.
  - rewrite Hsig.
    repeat match goal with
           | |- context [if ?b then _ else _] => destruct b
           end; intros [= <-]; cbn; repeat split.
Qed.

Lemma loadEffect_not_ready (c : Component) : isReady c = false -> loadEffect c = [].
Proof. unfold loadEffect. intros ->. reflexivity. Qed.

Lemma forallb_filter_keep {A} (p q : A -> bool) (l : list A) :
  forallb p l = true -> forallb p (filter q l) = true.
Proof.
  induction l as [|a l IH]; [reflexivity|]. cbn. intros Hall.
  apply andb_true_iff in Hall as [Ha Hall].
  destruct (q a); cbn; [rewrite Ha|]; auto.
Qed.

(** One step that is not a readiness signal keeps a component that is not
    ready as it is in that respect, and posts nothing. *)
Lemma step_not_ready (c : Component) (i : input) :
  isReady c = false -> signals_ready i = false ->
  isReady (fst (step c i)) = false
  /\ forallb (fun e => negb (is_post e)) (snd (step c i)) = true.
Proof.
  intros Hr Hsig. destruct i as [origin data|x s e|v|v|v]; cbn [step].
  - destruct (handleMessage c origin data) as [effs|ex] eqn:E; cbn [fst snd].
    2:{ repeat split; assumption. }
    destruct (handleMessage_not_ready_signal c origin data Hsig effs E)
      as (Hr' & Hposts).
    rewrite Hr', Bool.eqb_reflx. cbn [fst snd].
    rewrite Hr'. repeat split; try assumption.
    apply forallb_filter_keep, Hposts.
  - destruct (jsstring_eqb x (xml c)); cbn [fst snd isReady];
      rewrite ?loadEffect_not_ready by (cbn; assumption);
      repeat split; assumption.
  - cbn [fst snd]. rewrite Hr.
    rewrite (proj1 (calls_not_ready (iframe c) v)). repeat split; assumption.
  - cbn [fst snd]. rewrite Hr.
    rewrite (proj1 (proj2 (calls_not_ready (iframe c) v))). repeat split; assumption.
  - cbn [fst snd]. rewrite Hr.
    rewrite (proj2 (proj2 (calls_not_ready (iframe c) v))). repeat split; assumption.
Qed.

(** C8. A message event whose origin is not the editor's has no effect:
    the handler calls nothing, the component is unchanged, and a run with
    such an event inserted anywhere ends in the same component and emits
    the same effects as the run without it. *)
Theorem foreign_origin_ignored (c : Component) (origin : jsstring) (data : jsval) :
  origin <> editor_origin ->
  handleMessage c origin data = Normal []
  /\ step c (Receive origin data) = (c, [])
  /\ forall (c0 : Component) (before after : list input),
       run c0 (before ++ Receive origin data :: after) = run c0 (before ++ after).
Proof.
  intros Hne. split; [apply handleMessage_foreign, Hne|].
  split; [apply step_foreign, Hne|].
  intros c0 before after. rewrite !run_app. cbn [run].
  rewrite (step_foreign _ _ _ Hne).
  destruct (run (fst (run c0 before)) after) as [c2 out2]. reflexivity.
Qed.

Lemma foreign_origin_ignored_witness :
  lit "https://evil.example" <> editor_origin
  /\ run (mounted (lit "<a/>") (Some 1%nat) None)
         [Receive (lit "https://evil.example") (VStr (lit "ready"));
          CallSendLoad (VStr (lit "<a/>"))]
     = run (mounted (lit "<a/>") (Some 1%nat) None)
           [CallSendLoad (VStr (lit "<a/>"))].
Proof.
  assert (Hne : lit "https://evil.example" <> editor_origin)
    by (vm_compute; discriminate).
  split; [exact Hne|].
  exact (proj2 (proj2 (foreign_origin_ignored
                         (mounted (lit "<a/>") (Some 1%nat) None)
                         (lit "https://evil.example") (VStr (lit "ready")) Hne))
           (mounted (lit "<a/>") (Some 1%nat) None) []
           [CallSendLoad (VStr (lit "<a/>"))]).
Defined.

(** C9. While isReady is false every call of sendLoadMessage, exportDiagram
    and mergeDiagram is a no-op, and a run that starts from a component
    that is not ready and contains no readiness signal of the editor posts
    no message to the iframe. *)
Theorem no_post_before_ready (c : Component) (trace : list input) :
  isReady c = false ->
  forallb (fun i => negb (signals_ready i)) trace = true ->
  (forall v, sendLoadMessage (iframe c) (isReady c) v = []
             /\ exportDiagram (iframe c) (isReady c) v = []
             /\ mergeDiagram (iframe c) (isReady c) v = [])
  /\ isReady (fst (run c trace)) = false
  /\ forallb (fun e => negb (is_post e)) (snd (run c trace)) = true.
Proof.
  intros Hr Hsig. split.
  { intros v. rewrite Hr. apply calls_not_ready. }
  revert c Hr Hsig. induction trace as [|i trace IH]; intros c Hr Hsig.
  - cbn. split; [assumption|reflexivity].
  - cbn in Hsig. apply andb_true_iff in Hsig as [Hi Hsig].
    apply negb_true_iff in Hi.
    destruct (step_not_ready c i Hr Hi) as (Hr1 & Hout1).
    cbn [run]. destruct (step c i) as [c1 out1]. cbn [fst snd] in *.
    specialize (IH c1 Hr1 Hsig).
    destruct (run c1 trace) as [c2 out2]. cbn [fst snd] in *.
    destruct IH as [IHr IHout]. split; [assumption|].
    rewrite forallb_app, Hout1, IHout. reflexivity.
Qed.

Lemma no_post_before_ready_witness :
  snd (run (mounted (lit "<a/>") None None)
           [CallSendLoad (VStr (lit "<a/>"));
            Receive editor_origin (VObj [(lit "event", VStr (lit "load"))]);
            SetProps (lit "<b/>") None None;
            CallExport VUndefined; CallMerge (VStr (lit "<c/>"))]) = [ConsoleLog (lit "Diagram loaded:")]
  /\ forallb (fun e => negb (is_post e))
       (snd (run (mounted (lit "<a/>") None None)
           [CallSendLoad (VStr (lit "<a/>"));
            Receive editor_origin (VObj [(lit "event", VStr (lit "load"))]);
            SetProps (lit "<b/>") None None;
            CallExport VUndefined; CallMerge (VStr (lit "<c/>"))])) = true.
Proof.
  split; [vm_compute; reflexivity|].
  exact (proj2 (proj2 (no_post_before_ready (mounted (lit "<a/>") None None)
           [CallSendLoad (VStr (lit "<a/>"));
            Receive editor_origin (VObj [(lit "event", VStr (lit "load"))]);
            SetProps (lit "<b/>") None None;
            CallExport VUndefined; CallMerge (VStr (lit "<c/>"))]
           eq_refl eq_refl))).
Defined.

(** C10. After readiness, sendLoadMessage with a falsy xmlData posts the
    load action with the default empty diagram document as its xml (when
    the iframe ref is set; otherwise nothing is posted at all). *)
Theorem sendLoadMessage_default_document (iframe : bool) (xmlData : jsval) :
  truthy xmlData = false ->
  sendLoadMessage iframe true xmlData =
  if iframe
  then [PostMessage
          (VObj [ (lit "action", VStr (lit "load"));
                  (lit "xml", VStr (litq "<mxGraphModel><root><mxCell id='0'/><mxCell id='1' parent='0'/></root></mxGraphModel>"));
                  (lit "autosave", VNum 1) ])
          editor_origin]
  else [].
Proof.
  intros Hfalsy. unfold sendLoadMessage. rewrite Hfalsy.
  destruct iframe; reflexivity.
Qed.

Lemma sendLoadMessage_default_document_witness :
  truthy (VStr []) = false
  /\ lookup (lit "xml")
       match sendLoadMessage true true (VStr []) with
       | [PostMessage (VObj props) _] => props
       | _ => []
       end = VStr empty_diagram.
Proof.
  split; [reflexivity|].
  rewrite (sendLoadMessage_default_document true (VStr []) eq_refl).
  reflexivity.
Defined.

(** C7, as stated, fails: the same call with the same argument posts
    nothing in a run without a readiness message and posts the load action
    in a run that differs only by an earlier 'ready' message. *)
Lemma posting_depends_on_earlier_messages :
  snd (run (mounted [] None None) [CallSendLoad (VStr (lit "<a/>"))]) = []
  /\ snd (run (mounted [] None None)
              [Receive editor_origin (VStr (lit "ready"));
               CallSendLoad (VStr (lit "<a/>"))])
     = [PostMessage
          (VObj [ (lit "action", VStr (lit "load"));
                  (lit "xml", VStr (lit "<a/>"));
                  (lit "autosave", VNum 1) ])
          editor_origin].
Proof. split; vm_compute; reflexivity. Qed.

(** C7, amended. Whether a call of sendLoadMessage, exportDiagram or
    mergeDiagram posts a message depends on the retained state: it posts
    exactly when the iframe ref is set and isReady is true.  When it posts,
    the message is a function of the call's arguments alone: two components
    that both post for the same call post the same message, and the call
    changes no state. *)
Theorem call_posts_iff_ready (c c' : Component) (i : input) :
  is_call i = true ->
  fst (step c i) = c
  /\ (snd (step c i) <> [] <-> iframe c && isReady c = true)
  /\ (snd (step c i) <> [] -> snd (step c' i) <> [] ->
      snd (step c i) = snd (step c' i)).
Proof.
  intros Hcall.
  destruct i as [origin data|x s e|v|v|v]; try discriminate; cbn [step fst snd];
    unfold sendLoadMessage, exportDiagram, mergeDiagram;
    (split; [reflexivity|]);
    destruct (iframe c), (isReady c), (iframe c'), (isReady c');
    cbn [negb orb andb];
    (split; [split; [intros; try reflexivity; try contradiction
                    | intros; try discriminate]
            | intros; try reflexivity; try contradiction]);
    congruence.
Qed.

Lemma call_posts_iff_ready_witness :
  is_call (CallExport VUndefined) = true
  /\ snd (step (fst (step (mounted [] None None)
                        (Receive editor_origin (VStr (lit "ready")))))
               (CallExport VUndefined)) <> [].
Proof.
  split; [reflexivity|].
  apply (proj2 (proj1 (proj2
           (call_posts_iff_ready
              (fst (step (mounted [] None None)
                         (Receive editor_origin (VStr (lit "ready")))))
              (mounted [] None None) (CallExport VUndefined) eq_refl)))).
  reflexivity.
Defined.

End BridgeFacts.

(** ** The tag loop has enough iterations *)

Lemma until_gt_length (s inner after : jsstring) :
  until_gt s = Some (inner, after) ->
  List.length s = S (List.length inner + List.length after).
Proof.
  revert inner after. induction s as [|c r IH]; intros inner after; cbn [until_gt].
  - discriminate.
  - destruct (c =? ch ">").
    + intros [= <- <-]. reflexivity.
    + destruct (until_gt r) as [[i a]|]; [|discriminate].
      intros [= <- <-]. cbn. rewrite (IH i a eq_refl). reflexivity.
Qed.

Lemma exec_tag_length (s before inner after : jsstring) :
  exec_tag s = Some (before, inner, after) ->
  (List.length after < List.length s)%nat.
Proof.
  revert before. induction s as [|c r IH]; intros before; cbn [exec_tag]; [discriminate|].
  destruct (c =? ch "<").
  - destruct (until_gt r) as [[i a]|] eqn:Eu.
    + destruct (falsy i).
      * destruct (exec_tag r) as [[[b1 i1] a1]|]; [|discriminate].
        intros [= <- <- <-]. specialize (IH b1 eq_refl). cbn [List.length]. lia.
      * intros [= <- <- <-]. apply until_gt_length in Eu. cbn [List.length]. lia.
    + destruct (exec_tag r) as [[[b1 i1] a1]|]; [|discriminate].
      intros [= <- <- <-]. specialize (IH b1 eq_refl). cbn [List.length]. lia.
  - destruct (exec_tag r) as [[[b1 i1] a1]|]; [|discriminate].
    intros [= <- <- <-]. specialize (IH b1 eq_refl). cbn [List.length]. lia.
Qed.

Section TagLoopFuel.
Context `{Host}.

Lemma tagLoop_fuel (html : bool) (voids : list jsstring) (n m : nat) :
  forall rest stack out,
  (List.length rest <= n)%nat -> (List.length rest <= m)%nat ->
  tagLoop n html voids rest stack out = tagLoop m html voids rest stack out.
Proof.
  revert m. induction n as [|n IH]; intros m rest stack out Hn Hm.
  - destruct rest; [|cbn in Hn; lia].
    destruct m; reflexivity.
  - destruct m as [|m].
    + destruct rest; [reflexivity|cbn in Hm; lia].
    + cbn [tagLoop]. destruct (exec_tag rest) as [[[before inner] after]|] eqn:E;
        [|reflexivity].
      apply exec_tag_length in E.
      assert (Hn' : (List.length after <= n)%nat) by lia.
      assert (Hm' : (List.length after <= m)%nat) by lia.
      destruct (isSpecialTag (trim inner)); [apply IH; assumption|].
      destruct (startsWith (trim inner) (lit "/")); [apply IH; assumption|].
      destruct (negb _ && negb _); apply IH; assumption.
Qed.

(** One round of the loop, whatever fuel is left. *)
Lemma tagLoop_unfold (html : bool) (voids : list jsstring) (n : nat)
    (rest : jsstring) (stack : list jsstring) (out : jsstring) :
  (List.length rest <= n)%nat ->
  tagLoop n html voids rest stack out =
  match exec_tag rest with
  | None => (stack, out ++ rest)
  | Some (before, inner, after) =>
      let rawTag := trim inner in
      let out' := (out ++ before) ++ lit "<" ++ rawTag ++ lit ">" in
      let k := List.length after in
      if isSpecialTag rawTag then tagLoop k html voids after stack out'
      else if startsWith rawTag (lit "/") then
        tagLoop k html voids after
          (popIfMatches html stack (normalize html (firstWord (skipn 1 rawTag)))) out'
      else if negb (endsWithSlash rawTag)
              && negb (has voids (normalize html (firstWord rawTag)))
      then tagLoop k html voids after (normalize html (firstWord rawTag) :: stack) out'
      else tagLoop k html voids after stack out'
  end.
Proof.
  intros Hn. destruct n as [|n].
  - destruct rest; [reflexivity|cbn in Hn; lia].
  - cbn [tagLoop]. destruct (exec_tag rest) as [[[before inner] after]|] eqn:E;
      [|reflexivity].
    apply exec_tag_length in E. cbv zeta.
    destruct (isSpecialTag (trim inner)); [apply tagLoop_fuel; lia|].
    destruct (startsWith (trim inner) (lit "/")); [apply tagLoop_fuel; lia|].
    destruct (negb _ && negb _); apply tagLoop_fuel; lia.
Qed.

End TagLoopFuel.

(** ** Where the claims fail *)


(** C2: the code closes an element with the lower-cased form of its name.
    [<mxGraphModel><root>] is a prefix of the well-formed document
    [<mxGraphModel><root></root></mxGraphModel>], and fixUnclosed in xml
    mode closes the outer element with [</mxgraphmodel>]: the stack holds
    normalised names, although the closing-tag branch normalises the top
    of the stack again before comparing.  With the option html set to
    false the same call closes it with the name as written. *)
Lemma fixUnclosed_xml_lowercases_closers :
  startsWith (lit "<mxGraphModel><root></root></mxGraphModel>")
             (lit "<mxGraphModel><root>") = true
  /\ fixUnclosed (lit "<mxGraphModel><root>") xml_mode
     = Normal (lit "<mxGraphModel><root></root></mxgraphmodel>")
  /\ lit "mxgraphmodel" <> lit "mxGraphModel"
  /\ fixUnclosed (lit "<mxGraphModel><root>")
       {| mode := Some (lit "xml"); html := Some false; voidTags := None |}
     = Normal (lit "<mxGraphModel><root></root></mxGraphModel>").
Proof.
  split; [vm_compute; reflexivity|].
  split; [vm_compute; reflexivity|].
  split; [vm_compute; discriminate|].
  vm_compute. reflexivity.
Qed.

(** C3, as stated, fails for fixJSON and for postProcessDrawioCode: a
    second application changes the result of the first. *)
Lemma fixJSON_postProcess_not_idempotent :
  (fixJSON (lit "1 ,") = Normal (lit "1 ")
   /\ fixJSON (lit "1 ") = Normal (lit "1"))
  /\ (fixJSON (litq "'a\") = Normal (litq "'a\'")
      /\ fixJSON (litq "'a\'") = Normal (litq "'a\''"))
  /\ (postProcessDrawioCode (lit "&lt;1&lt; a&amp;lt;b")
      = Normal (lit "<1< a&lt;b></1<>")
      /\ postProcessDrawioCode (lit "<1< a&lt;b></1<>")
         = Normal (lit "<1< a<b></1<>")).
Proof. repeat split; vm_compute; reflexivity. Qed.


(** The source, statement by statement, is the composition of the steps. *)
Lemma postProcessDrawioCode_composition `{Host} (code : jsstring) :
  postProcessDrawioCode code = Steps.postProcess_steps code.
Proof.
  unfold postProcessDrawioCode, Steps.postProcess_steps, Steps.repairStep,
    Steps.keepStep, Steps.decodeStep, Steps.fenceStep, Steps.stripStep,
    Steps.nonempty_body.
  destruct code as [|c code]; [reflexivity|].
  cbv zeta. cbn [falsy].
  set (stripped := stripInvisible (c :: code)).
  assert (Hfence :
    match first_match xml_fence_at stripped with
    | Some ((_ :: _) as body) => body
    | _ => match first_match any_fence_at stripped with
           | Some ((_ :: _) as body) => body
           | _ => stripped
           end
    end
    = match match first_match xml_fence_at stripped with
            | Some [] => None
            | _ => first_match xml_fence_at stripped
            end with
      | Some body => body
      | None => match match first_match any_fence_at stripped with
                      | Some [] => None
                      | _ => first_match any_fence_at stripped
                      end with
                | Some body => body
                | None => stripped
                end
      end).
  { destruct (first_match xml_fence_at stripped) as [[|x b]|];
      destruct (first_match any_fence_at stripped) as [[|y b']|]; reflexivity. }
  rewrite Hfence. clear Hfence.
  match goal with
  | |- context [trim ?t] => set (trimmed := trim t)
  end.
  set (decoded := if negb (hasRawTag trimmed) && hasEscapedTag trimmed
                  then decodeEntities trimmed else trimmed).
  rewrite !fixUnclosed_xml_mode.
  destruct (search xml_root_at decoded) as [a|];
    destruct (lastIndexOf (ch ">") decoded) as [b|]; reflexivity.
Qed.

(** ** White space *)

Lemma trimStart_fixed (s : jsstring) :
  match s with [] => True | c :: _ => is_ws c = false end -> trimStart s = s.
Proof. destruct s as [|c r]; [reflexivity|]. cbn. intros ->. reflexivity. Qed.

Lemma trimStart_head (s : jsstring) :
  match trimStart s with [] => True | c :: _ => is_ws c = false end.
Proof.
  induction s as [|c r IH]; [exact I|]. cbn.
  destruct (is_ws c) eqn:E; [exact IH|exact E].
Qed.

Lemma trimStart_idem (s : jsstring) : trimStart (trimStart s) = trimStart s.
Proof. apply trimStart_fixed, trimStart_head. Qed.

Lemma trimStart_app_keep (s t : jsstring) :
  trimStart s <> [] -> trimStart (s ++ t) = trimStart s ++ t.
Proof.
  induction s as [|c r IH]; cbn; [congruence|].
  destruct (is_ws c); [exact IH|reflexivity].
Qed.

Lemma trimEnd_idem (s : jsstring) : trimEnd (trimEnd s) = trimEnd s.
Proof.
  unfold trimEnd. rewrite rev_involutive, trimStart_idem. reflexivity.
Qed.

(** Trimming the end keeps a first code unit that is not white space. *)
Lemma trimEnd_head (s : jsstring) :
  match s with [] => True | c :: _ => is_ws c = false end ->
  match trimEnd s with [] => True | c :: _ => is_ws c = false end.
Proof.
  destruct s as [|c r]; [intros _; exact I|]. intros Hc.
  unfold trimEnd. cbn [rev].
  destruct (trimStart (rev r)) as [|d u] eqn:E.
  - assert (Hs : trimStart (rev r ++ [c]) = [c]).
    { clear - E Hc. induction (rev r) as [|x l IH]; cbn in *.
      - rewrite Hc. reflexivity.
      - destruct (is_ws x); [apply IH, E|discriminate]. }
    rewrite Hs. cbn. exact Hc.
  - rewrite trimStart_app_keep by (rewrite E; discriminate).
    rewrite E, rev_app_distr. cbn. exact Hc.
Qed.

Lemma trim_idem (s : jsstring) : trim (trim s) = trim s.
Proof.
  unfold trim at 1.
  rewrite (trimStart_fixed (trim s)).
  - unfold trim. apply trimEnd_idem.
  - unfold trim. apply trimEnd_head, trimStart_head.
Qed.

(** ** fixJSON: what it guarantees *)

(** The text fixJSON returns is accepted by JSON.parse exactly when one of
    its three candidates is: the trimmed input, the structurally repaired
    text, or the repaired text with the commas before closers stripped. *)
Lemma fixJSON_accepted_iff `{Host} (input : jsstring) :
  exists r,
    fixJSON input = Normal r
    /\ (JSON_parse_ok r = true <->
        JSON_parse_ok (trim input) = true
        \/ JSON_parse_ok (fixJSONStructure (trim input)) = true
        \/ JSON_parse_ok (stripTrailingCommas (fixJSONStructure (trim input))) = true).
Proof.
  rewrite fixJSON_cases. cbv zeta. eexists. split; [reflexivity|].
  destruct (trim input) as [|c raw] eqn:E.
  - cbn [falsy]. rewrite fixJSONStructure_nil. cbn [stripTrailingCommas].
    tauto.
  - cbn [falsy].
    destruct (JSON_parse_ok (c :: raw)) eqn:E1; [tauto|].
    destruct (JSON_parse_ok (fixJSONStructure (c :: raw))) eqn:E2; [tauto|].
    split; [tauto|]. intros [F|[F|F]]; [discriminate|discriminate|exact F].
Qed.

(** When the trimmed input is accepted by JSON.parse, applying fixJSON to
    its own result gives that result again. *)
Lemma fixJSON_idempotent_on_wellformed `{Host} (input : jsstring) :
  JSON_parse_ok (trim input) = true ->
  (r <- fixJSON input ;; fixJSON r) = fixJSON input.
Proof.
  intros Hok. rewrite (fixJSON_cases input). cbv zeta. rewrite Hok.
  assert (E : (if falsy (trim input) then trim input else trim input) = trim input)
    by (destruct (falsy (trim input)); reflexivity).
  rewrite E. cbn [bind].
  rewrite fixJSON_cases. cbv zeta. rewrite trim_idem, Hok.
  destruct (falsy (trim input)); reflexivity.
Qed.

(** ** How [tagRe] cuts a text *)

Lemma N_eqb_false_neq (a b : N) : (a =? b) = false -> a <> b.
Proof. apply N.eqb_neq. Qed.

(** Induction along the two ways plain text is built. *)
Lemma plain_induction (P : jsstring -> Prop) :
  P [] ->
  (forall c r, (c =? ch "<") = false -> plain r = true -> P r -> P (c :: r)) ->
  (forall r, plain r = true -> P r -> P (ch "<" :: ch ">" :: r)) ->
  forall s, plain s = true -> P s.
Proof.
  intros Hnil Hchar Hpair s.
  remember (List.length s) as n eqn:En.
  revert s En. induction n as [n IH] using lt_wf_ind. intros s En Hs.
  destruct s as [|c r]; [exact Hnil|].
  cbn [plain] in Hs. destruct (c =? ch "<") eqn:Ec.
  - apply N.eqb_eq in Ec. subst c.
    destruct r as [|d r']; [discriminate|].
    apply andb_true_iff in Hs as [Hd Hr']. apply N.eqb_eq in Hd. subst d.
    apply Hpair; [exact Hr'|].
    apply (IH (List.length r')); [subst n; cbn; lia|reflexivity|exact Hr'].
  - apply Hchar; [exact Ec|exact Hs|].
    apply (IH (List.length r)); [subst n; cbn; lia|reflexivity|exact Hs].
Qed.

Lemma plain_app (a b : jsstring) :
  plain a = true -> plain b = true -> plain (a ++ b) = true.
Proof.
  intros Ha Hb. revert a Ha.
  apply (plain_induction (fun a => plain (a ++ b) = true)).
  - exact Hb.
  - intros c r Hc Hr IH. cbn [app plain]. rewrite Hc. exact IH.
  - intros r Hr IH. cbn [app plain]. cbn. exact IH.
Qed.

Lemma noGt_app (a b : jsstring) : noGt (a ++ b) = noGt a && noGt b.
Proof. apply forallb_app. Qed.

Lemma until_gt_tag (inner rest : jsstring) :
  noGt inner = true -> until_gt (inner ++ ch ">" :: rest) = Some (inner, rest).
Proof.
  induction inner as [|c r IH]; cbn [app until_gt noGt forallb].
  - intros _. rewrite N.eqb_refl. reflexivity.
  - intros Hc. apply andb_true_iff in Hc as [Hc Hr].
    apply negb_true_iff in Hc. rewrite Hc. rewrite (IH Hr). reflexivity.
Qed.

Lemma until_gt_spec (s inner rest : jsstring) :
  until_gt s = Some (inner, rest) ->
  s = inner ++ ch ">" :: rest /\ noGt inner = true.
Proof.
  revert inner. induction s as [|c r IH]; intros inner; cbn [until_gt];
    [discriminate|].
  destruct (c =? ch ">") eqn:Ec.
  - apply N.eqb_eq in Ec. subst c. intros [= <- <-]. split; reflexivity.
  - destruct (until_gt r) as [[i a]|]; [|discriminate].
    intros [= <- <-]. destruct (IH i eq_refl) as [-> Hi].
    split; [reflexivity|]. cbn [noGt forallb]. fold (noGt i). rewrite Ec, Hi. reflexivity.
Qed.

Lemma until_gt_none (s : jsstring) : until_gt s = None -> noGt s = true.
Proof.
  induction s as [|c r IH]; cbn [until_gt]; [reflexivity|].
  destruct (c =? ch ">") eqn:Ec; [discriminate|].
  destruct (until_gt r) as [[i a]|]; [discriminate|].
  intros _. cbn [noGt forallb]. fold (noGt r). rewrite Ec, IH; reflexivity.
Qed.

Lemma exec_tag_noGt (s : jsstring) : noGt s = true -> exec_tag s = None.
Proof.
  induction s as [|c r IH]; [reflexivity|]. cbn [noGt forallb].
  intros Hc. apply andb_true_iff in Hc as [Hc Hr]. fold (noGt r) in Hr.
  cbn [exec_tag]. rewrite (IH Hr).
  destruct (c =? ch "<"); [|reflexivity].
  destruct (until_gt r) as [[i a]|] eqn:Eu; [|reflexivity].
  apply until_gt_spec in Eu as [-> _].
  rewrite noGt_app in Hr. cbn in Hr. rewrite andb_false_r in Hr. discriminate.
Qed.

(** The text before a tag is plain text. *)
Lemma exec_tag_plain_app (a rest : jsstring) :
  plain a = true ->
  exec_tag (a ++ rest) =
  match exec_tag rest with
  | Some (before, inner, after) => Some (a ++ before, inner, after)
  | None => None
  end.
Proof.
  revert a.
  apply (plain_induction (fun a => exec_tag (a ++ rest) =
    match exec_tag rest with
    | Some (before, inner, after) => Some (a ++ before, inner, after)
    | None => None
    end)).
  - cbn [app]. destruct (exec_tag rest) as [[[b i] x]|]; reflexivity.
  - intros c r Hc Hr IH. cbn [app exec_tag]. rewrite Hc, IH.
    destruct (exec_tag rest) as [[[b i] x]|]; reflexivity.
  - intros r Hr IH. cbn [app exec_tag until_gt].
    rewrite N.eqb_refl. cbn [falsy].
    change (ch ">" =? ch "<") with false. cbv iota.
    rewrite IH. destruct (exec_tag rest) as [[[b i] x]|]; reflexivity.
Qed.

Lemma exec_tag_plain (s : jsstring) : plain s = true -> exec_tag s = None.
Proof.
  intros Hs. rewrite <- (app_nil_r s). rewrite (exec_tag_plain_app s [] Hs).
  reflexivity.
Qed.

(** A tag at the very start of the text. *)
Lemma exec_tag_tag (inner rest : jsstring) :
  noGt inner = true -> inner <> [] ->
  exec_tag (ch "<" :: inner ++ ch ">" :: rest) = Some ([], inner, rest).
Proof.
  intros Hi Hne. cbn [exec_tag]. rewrite N.eqb_refl.
  rewrite (until_gt_tag inner rest Hi).
  destruct inner; [congruence|reflexivity].
Qed.

(** What a match tells about the text. *)
Lemma exec_tag_spec (s before inner after : jsstring) :
  exec_tag s = Some (before, inner, after) ->
  s = before ++ ch "<" :: inner ++ ch ">" :: after
  /\ plain before = true /\ noGt inner = true /\ inner <> [].
Proof.
  revert before. induction s as [|c r IH]; intros before; cbn [exec_tag];
    [discriminate|].
  destruct (c =? ch "<") eqn:Ec.
  - apply N.eqb_eq in Ec. subst c.
    destruct (until_gt r) as [[i a]|] eqn:Eu.
    + apply until_gt_spec in Eu as [-> Hi].
      destruct i as [|x i]; cbn [falsy].
      * cbn [app] in *.
        destruct (exec_tag (ch ">" :: a)) as [[[b1 i1] a1]|] eqn:Er;
          [|discriminate].
        intros [= <- <- <-].
        destruct (IH b1 eq_refl) as (Hs & Hb & Hin & Hne).
        destruct b1 as [|d b1]; [discriminate|].
        cbn [app] in Hs. injection Hs as Hd Hs. subst d.
        split; [cbn [app]; rewrite Hs; reflexivity|].
        split; [|split; assumption].
        cbn in Hb. cbn. exact Hb.
      * intros [= <- <- <-]. repeat split; try assumption. discriminate.
    + apply until_gt_none in Eu. rewrite (exec_tag_noGt r Eu). discriminate.
  - destruct (exec_tag r) as [[[b1 i1] a1]|]; [|discriminate].
    intros [= <- <- <-].
    destruct (IH b1 eq_refl) as (Hs & Hb & Hin & Hne).
    split; [cbn [app]; rewrite Hs; reflexivity|].
    split; [|split; assumption].
    cbn [plain]. rewrite Ec. exact Hb.
Qed.

Lemma openLt_app (p : bool) (a b : jsstring) :
  openLt p (a ++ b) = openLt (openLt p a) b.
Proof.
  revert p. induction a as [|c r IH]; intros p; [reflexivity|].
  cbn [app openLt]. destruct (c =? ch "<"); [apply IH|].
  destruct (c =? ch ">"); apply IH.
Qed.

Lemma openLt_plain (s : jsstring) : plain s = true -> openLt false s = false.
Proof.
  revert s. apply (plain_induction (fun s => openLt false s = false)).
  - reflexivity.
  - intros c r Hc Hr IH. cbn [openLt]. rewrite Hc.
    destruct (c =? ch ">"); exact IH.
  - intros r Hr IH. cbn. exact IH.
Qed.

Lemma openLt_noGt (s : jsstring) : noGt s = true -> openLt true s = true.
Proof.
  induction s as [|c r IH]; [reflexivity|]. cbn [noGt forallb openLt].
  intros Hc. apply andb_true_iff in Hc as [Hc Hr].
  apply negb_true_iff in Hc. rewrite Hc.
  destruct (c =? ch "<"); apply IH, Hr.
Qed.

(** Text without a match whose last ['<'] is closed is plain text. *)
Lemma exec_tag_none_plain (s : jsstring) :
  exec_tag s = None -> openLt false s = false -> plain s = true.
Proof.
  remember (List.length s) as n eqn:En.
  revert s En. induction n as [n IH] using lt_wf_ind. intros s En.
  destruct s as [|c r]; [reflexivity|].
  cbn [exec_tag openLt plain]. destruct (c =? ch "<") eqn:Ec.
  - destruct (until_gt r) as [[i a]|] eqn:Eu.
    + apply until_gt_spec in Eu as [-> Hi].
      destruct i as [|x i]; cbn [falsy]; [|discriminate].
      cbn [app]. cbn [exec_tag openLt].
      change (ch ">" =? ch "<") with false. rewrite N.eqb_refl. cbn [andb].
      destruct (exec_tag a) as [[[b1 i1] a1]|] eqn:Ea; [discriminate|].
      intros _ Hopen.
      apply (IH (List.length a)); [subst n; cbn; lia|reflexivity|exact Ea|exact Hopen].
    + intros _ Hopen. apply until_gt_none in Eu.
      rewrite (openLt_noGt r Eu) in Hopen. discriminate.
  - destruct (exec_tag r) as [[[b1 i1] a1]|] eqn:Er; [discriminate|].
    intros _ Hopen.
    assert (Hopen' : openLt false r = false)
      by (destruct (c =? ch ">"); exact Hopen).
    apply (IH (List.length r)); [subst n; cbn; lia|reflexivity|exact Er|exact Hopen'].
Qed.

(** ** The tag loop, tag by tag *)

Section RunTags.
Context `{Host}.
Variable html : bool.
Variable voids : list jsstring.

Lemma runTags_unfold (rest : jsstring) (stack : list jsstring) (out : jsstring) :
  runTags html voids rest stack out =
  match exec_tag rest with
  | None => (stack, out ++ rest)
  | Some (before, inner, after) =>
      runTags html voids after (tagEffect html voids (trim inner) stack)
              ((out ++ before) ++ lit "<" ++ trim inner ++ lit ">")
  end.
Proof.
  unfold runTags. rewrite tagLoop_unfold by lia.
  destruct (exec_tag rest) as [[[before inner] after]|]; [|reflexivity].
  cbv zeta. unfold tagEffect.
  destruct (isSpecialTag (trim inner)); [reflexivity|].
  destruct (startsWith (trim inner) (lit "/")); [reflexivity|].
  destruct (negb _ && negb _); reflexivity.
Qed.

Lemma runTags_plain (s : jsstring) (stack : list jsstring) (out : jsstring) :
  plain s = true -> runTags html voids s stack out = (stack, out ++ s).
Proof.
  intros Hs. rewrite runTags_unfold, (exec_tag_plain s Hs). reflexivity.
Qed.

Lemma runTags_plain_prefix (a rest : jsstring) (stack : list jsstring) (out : jsstring) :
  plain a = true ->
  runTags html voids (a ++ rest) stack out = runTags html voids rest stack (out ++ a).
Proof.
  intros Ha. rewrite (runTags_unfold (a ++ rest)), (runTags_unfold rest).
  rewrite (exec_tag_plain_app a rest Ha).
  destruct (exec_tag rest) as [[[before inner] after]|].
  - rewrite !app_assoc. reflexivity.
  - rewrite app_assoc. reflexivity.
Qed.

Lemma runTags_tag (inner rest : jsstring) (stack : list jsstring) (out : jsstring) :
  noGt inner = true -> inner <> [] ->
  runTags html voids (lit "<" ++ inner ++ lit ">" ++ rest) stack out =
  runTags html voids rest (tagEffect html voids (trim inner) stack)
          (out ++ lit "<" ++ trim inner ++ lit ">").
Proof.
  intros Hi Hne. rewrite runTags_unfold.
  change (lit "<" ++ inner ++ lit ">" ++ rest)
    with (ch "<" :: inner ++ ch ">" :: rest).
  rewrite (exec_tag_tag inner rest Hi Hne). rewrite app_nil_r. reflexivity.
Qed.

End RunTags.

(** ** closeHalfTag and stripInvisible *)

Lemma search_gt (s : jsstring) :
  match search (fun t => startsWith t [ch ">"]) s with
  | Some _ => noGt s = false
  | None => noGt s = true
  end.
Proof.
  induction s as [|c r IH]; [reflexivity|].
  cbn [search startsWith noGt forallb]. fold (noGt r).
  replace (startsWith r []) with true by (destruct r; reflexivity).
  rewrite andb_true_r, N.eqb_sym.
  destruct (c =? ch ">"); [reflexivity|].
  cbn [negb andb]. destruct (search _ r); exact IH.
Qed.

Lemma indexOf_gt_skipn (s : jsstring) (from : nat) :
  match indexOf (ch ">") s from with
  | Some _ => noGt (skipn from s) = false
  | None => noGt (skipn from s) = true
  end.
Proof.
  unfold indexOf. pose proof (search_gt (skipn from s)) as Hs.
  destruct (search _ (skipn from s)); exact Hs.
Qed.

Lemma lastIndexOf_none_openLt (p : bool) (s : jsstring) :
  lastIndexOf (ch "<") s = None -> openLt p s = p && noGt s.
Proof.
  revert p. induction s as [|c r IH]; intros p; cbn [lastIndexOf openLt].
  - intros _. rewrite andb_true_r. reflexivity.
  - destruct (lastIndexOf (ch "<") r); [discriminate|].
    destruct (c =? ch "<"); [discriminate|]. intros _.
    cbn [noGt forallb]. fold (noGt r).
    destruct (c =? ch ">"); cbn [negb andb].
    + rewrite (IH false eq_refl). rewrite andb_false_r. reflexivity.
    + apply IH. reflexivity.
Qed.

Lemma lastIndexOf_some_openLt (p : bool) (s : jsstring) (l : nat) :
  lastIndexOf (ch "<") s = Some l -> openLt p s = noGt (skipn l s).
Proof.
  revert p l. induction s as [|c r IH]; intros p l; cbn [lastIndexOf];
    [discriminate|].
  destruct (lastIndexOf (ch "<") r) as [i|] eqn:El.
  - intros [= <-]. cbn [skipn openLt].
    destruct (c =? ch "<"); [apply IH; reflexivity|].
    destruct (c =? ch ">"); apply IH; reflexivity.
  - destruct (c =? ch "<") eqn:Ec; [|discriminate]. intros [= <-].
    cbn [skipn openLt]. rewrite Ec.
    rewrite (lastIndexOf_none_openLt true r El).
    cbn [noGt forallb andb]. fold (noGt r).
    apply N.eqb_eq in Ec. subst c. reflexivity.
Qed.

(** [closeHalfTag] appends ['>'] exactly when the last ['<'] is open. *)
Lemma closeHalfTag_openLt (s : jsstring) :
  closeHalfTag s = if openLt false s then s ++ lit ">" else s.
Proof.
  unfold closeHalfTag. destruct (lastIndexOf (ch "<") s) as [l|] eqn:El.
  - rewrite (lastIndexOf_some_openLt false s l El).
    pose proof (indexOf_gt_skipn s l) as Hi.
    destruct (indexOf (ch ">") s l); rewrite Hi; reflexivity.
  - rewrite (lastIndexOf_none_openLt false s El). reflexivity.
Qed.

Lemma closeHalfTag_closed (s : jsstring) : openLt false (closeHalfTag s) = false.
Proof.
  rewrite closeHalfTag_openLt. destruct (openLt false s) eqn:E; [|exact E].
  rewrite openLt_app. reflexivity.
Qed.

Lemma stripInvisible_visible (s : jsstring) :
  forallb visible s = true -> stripInvisible s = s.
Proof.
  unfold stripInvisible. induction s as [|c r IH]; [reflexivity|].
  cbn [forallb filter]. intros Hc. apply andb_true_iff in Hc as [Hc Hr].
  unfold visible in Hc. apply andb_true_iff in Hc as [Hb Hz].
  rewrite Hb. cbn [filter]. rewrite Hz. rewrite (IH Hr). reflexivity.
Qed.

Lemma stripInvisible_is_visible (s : jsstring) :
  forallb visible (stripInvisible s) = true.
Proof.
  unfold stripInvisible. induction s as [|c r IH]; [reflexivity|].
  cbn [filter]. destruct (negb (is_bom c)) eqn:Hb; [|exact IH].
  cbn [filter]. destruct (negb (is_zero_width c)) eqn:Hz; [|exact IH].
  cbn [forallb]. unfold visible at 1. rewrite Hb, Hz. exact IH.
Qed.

(** ** Tags that are already trimmed *)

Lemma last_app_nonempty {A} (a b : list A) (d : A) :
  b <> [] -> last (a ++ b) d = last b d.
Proof.
  intros Hb. induction a as [|x a IH]; [reflexivity|].
  cbn [app]. destruct (a ++ b) eqn:E.
  - apply app_eq_nil in E as [_ E]. contradiction.
  - exact IH.
Qed.

Lemma last_rev_head {A} (s : list A) (d : A) : last s d = hd d (rev s).
Proof.
  induction s as [|x s IH] using rev_ind; [reflexivity|].
  rewrite last_last, rev_app_distr. reflexivity.
Qed.

Lemma trimEnd_fixed (s : jsstring) :
  s = [] \/ is_ws (last s 0) = false -> trimEnd s = s.
Proof.
  intros [->|Hl]; [reflexivity|]. unfold trimEnd.
  rewrite last_rev_head in Hl.
  rewrite trimStart_fixed; [apply rev_involutive|].
  destruct (rev s); [exact I|exact Hl].
Qed.

Lemma trim_fixed (s : jsstring) :
  is_ws (hd 0 s) = false -> is_ws (last s 0) = false -> trim s = s.
Proof.
  intros Hh Hl. unfold trim. rewrite trimStart_fixed.
  - apply trimEnd_fixed. right. exact Hl.
  - destruct s; [exact I|exact Hh].
Qed.

Lemma firstWord_app (n a : jsstring) :
  forallb (fun c => negb (is_ws c)) n = true ->
  a = [] \/ is_ws (hd 0 a) = true ->
  firstWord (n ++ a) = n.
Proof.
  intros Hn Ha. induction n as [|c n IH].
  - cbn [app]. destruct Ha as [->|Ha]; [reflexivity|].
    destruct a as [|x a]; [reflexivity|]. cbn in Ha. cbn [firstWord].
    rewrite Ha. reflexivity.
  - cbn [forallb] in Hn. apply andb_true_iff in Hn as [Hc Hn].
    apply negb_true_iff in Hc. cbn [app firstWord]. rewrite Hc, (IH Hn).
    reflexivity.
Qed.

(** ** Well-nested markup through the tag loop *)

Module MarkupFacts.
Import Markup.

Lemma name_char_facts (c : N) :
  name_char c = true ->
  is_ws c = false /\ (c =? ch ">") = false /\ (c =? ch "<") = false
  /\ (c =? ch "/") = false /\ is_zero_width c = false.
Proof.
  unfold name_char. rewrite !andb_true_iff, !negb_true_iff. tauto.
Qed.

Lemma is_bom_ws (c : N) : is_bom c = true -> is_ws c = true.
Proof.
  unfold is_bom, is_ws. intros ->. rewrite !orb_true_r. reflexivity.
Qed.

Lemma name_char_visible (c : N) : name_char c = true -> visible c = true.
Proof.
  intros Hc. apply name_char_facts in Hc as (Hw & _ & _ & _ & Hz).
  unfold visible. rewrite Hz.
  destruct (is_bom c) eqn:Hb; [|reflexivity].
  apply is_bom_ws in Hb. congruence.
Qed.

Lemma forallb_impl {A} (p q : A -> bool) (l : list A) :
  (forall x, p x = true -> q x = true) ->
  forallb p l = true -> forallb q l = true.
Proof.
  intros Hpq. induction l as [|x l IH]; [reflexivity|]. cbn.
  intros Hl. apply andb_true_iff in Hl as [Hx Hl].
  rewrite (Hpq x Hx), (IH Hl). reflexivity.
Qed.

(** What is known of a valid name. *)
Record name_ok (name : jsstring) : Prop := {
  name_nonempty : name <> [];
  name_chars : forallb name_char name = true;
  name_head : (hd 0 name =? ch "!") = false /\ (hd 0 name =? ch "?") = false
}.

Lemma valid_name_ok (name : jsstring) : valid_name name = true -> name_ok name.
Proof.
  destruct name as [|c r]; [discriminate|]. unfold valid_name.
  rewrite !andb_true_iff, !negb_true_iff. intros [[H1 H2] H3].
  split; [discriminate|exact H3|split; assumption].
Qed.

Lemma name_ok_head (name : jsstring) :
  name_ok name -> name_char (hd 0 name) = true.
Proof.
  intros [Hne Hc _]. destruct name as [|c r]; [congruence|].
  cbn in *. apply andb_true_iff in Hc as [Hc _]. exact Hc.
Qed.

Lemma name_ok_last (name : jsstring) :
  name_ok name -> name_char (last name 0) = true.
Proof.
  intros [Hne Hc _]. destruct (exists_last Hne) as (l & x & ->).
  rewrite last_last. rewrite forallb_app in Hc.
  apply andb_true_iff in Hc as [_ Hx]. cbn in Hx.
  rewrite andb_true_r in Hx. exact Hx.
Qed.

Lemma name_noGt (name : jsstring) : forallb name_char name = true -> noGt name = true.
Proof.
  apply forallb_impl. intros c Hc. apply name_char_facts in Hc as (_ & Hg & _).
  rewrite Hg. reflexivity.
Qed.

Lemma name_no_ws (name : jsstring) :
  forallb name_char name = true -> forallb (fun c => negb (is_ws c)) name = true.
Proof.
  apply forallb_impl. intros c Hc. apply name_char_facts in Hc as (Hw & _).
  rewrite Hw. reflexivity.
Qed.

Lemma attrs_noGt (attrs : jsstring) : valid_attrs attrs = true -> noGt attrs = true.
Proof.
  destruct attrs as [|c r]; [reflexivity|]. unfold valid_attrs.
  rewrite andb_true_iff. intros [_ Ha]. revert Ha.
  apply forallb_impl. intros x Hx. unfold attr_char in Hx.
  apply andb_true_iff in Hx as [Hx _]. exact Hx.
Qed.

Lemma attrs_start (attrs : jsstring) :
  valid_attrs attrs = true -> attrs = [] \/ is_ws (hd 0 attrs) = true.
Proof.
  destruct attrs as [|c r]; [left; reflexivity|]. unfold valid_attrs.
  rewrite andb_true_iff. intros [Hc _]. right. exact Hc.
Qed.

(** The content of a tag that starts with a valid name is neither special
    nor a closing tag. *)
Lemma name_not_special (name rest : jsstring) :
  name_ok name ->
  isSpecialTag (name ++ rest) = false /\ startsWith (name ++ rest) (lit "/") = false.
Proof.
  intros Hn. pose proof (name_ok_head name Hn) as Hh.
  destruct Hn as [Hne _ [Hbang Hq]].
  destruct name as [|c r]; [congruence|]. cbn [hd] in *.
  apply name_char_facts in Hh as (_ & _ & _ & Hslash & _).
  unfold isSpecialTag. cbn [app]. cbn [startsWith lit list_ascii_of_string map].
  change (N_of_ascii "!") with (ch "!"). change (N_of_ascii "?") with (ch "?").
  change (N_of_ascii "/") with (ch "/").
  rewrite (N.eqb_sym (ch "!") c), (N.eqb_sym (ch "?") c), (N.eqb_sym (ch "/") c).
  rewrite Hbang, Hq, Hslash. split; reflexivity.
Qed.

Section Loop.
Context `{Host}.
Variable html : bool.
Variable voids : list jsstring.
Hypothesis lower_idem : forall x, toLowerCase (toLowerCase x) = toLowerCase x.

Lemma normalize_idem (x : jsstring) :
  normalize html (normalize html x) = normalize html x.
Proof. unfold normalize. destruct html; [apply lower_idem|reflexivity]. Qed.

Lemma open_tag_effect (name attrs : jsstring) (stack : list jsstring) :
  valid_name name = true -> valid_open_attrs attrs = true ->
  has voids (normalize html name) = false ->
  trim (name ++ attrs) = name ++ attrs
  /\ tagEffect html voids (name ++ attrs) stack = normalize html name :: stack.
Proof.
  intros Hn Ha Hv. apply valid_name_ok in Hn.
  unfold valid_open_attrs in Ha. apply andb_true_iff in Ha as [Ha Hlast].
  pose proof (name_ok_head name Hn) as Hh.
  pose proof (name_ok_last name Hn) as Hl.
  assert (Hlast' : is_ws (last (name ++ attrs) 0) = false
                   /\ (last (name ++ attrs) 0 =? ch "/") = false).
  { destruct attrs as [|a attrs].
    - rewrite app_nil_r. apply name_char_facts in Hl. tauto.
    - rewrite last_app_nonempty by discriminate.
      apply andb_true_iff in Hlast. rewrite !negb_true_iff in Hlast. exact Hlast. }
  split.
  - apply trim_fixed; [|apply Hlast'].
    destruct Hn as [Hne _ _]. destruct name; [congruence|].
    cbn [app hd] in *. apply name_char_facts in Hh. tauto.
  - unfold tagEffect.
    destruct (name_not_special name attrs Hn) as [-> ->].
    unfold endsWithSlash. rewrite (proj2 Hlast').
    rewrite (firstWord_app name attrs (name_no_ws _ (name_chars _ Hn)) (attrs_start _ Ha)).
    rewrite Hv. reflexivity.
Qed.

Lemma empty_tag_effect (name attrs : jsstring) (stack : list jsstring) :
  valid_name name = true -> valid_attrs attrs = true ->
  trim (name ++ attrs ++ lit "/") = name ++ attrs ++ lit "/"
  /\ tagEffect html voids (name ++ attrs ++ lit "/") stack = stack.
Proof.
  intros Hn Ha. apply valid_name_ok in Hn.
  pose proof (name_ok_head name Hn) as Hh.
  assert (Hlast : last (name ++ attrs ++ lit "/") 0 = ch "/").
  { rewrite app_assoc. apply last_last. }
  split.
  - apply trim_fixed; [|rewrite Hlast; reflexivity].
    destruct Hn as [Hne _ _]. destruct name; [congruence|].
    cbn [app hd] in *. apply name_char_facts in Hh. tauto.
  - unfold tagEffect.
    destruct (name_not_special name (attrs ++ lit "/") Hn) as [-> ->].
    unfold endsWithSlash. rewrite Hlast, N.eqb_refl. reflexivity.
Qed.

Lemma close_tag_effect (name : jsstring) (stack : list jsstring) :
  valid_name name = true ->
  trim (lit "/" ++ name) = lit "/" ++ name
  /\ tagEffect html voids (lit "/" ++ name) stack
     = popIfMatches html stack (normalize html name).
Proof.
  intros Hn. apply valid_name_ok in Hn.
  pose proof (name_ok_last name Hn) as Hl.
  split.
  - apply trim_fixed; [reflexivity|].
    rewrite last_app_nonempty by (apply (name_nonempty _ Hn)).
    apply name_char_facts in Hl. tauto.
  - unfold tagEffect.
    change (isSpecialTag (lit "/" ++ name)) with false.
    change (startsWith (lit "/" ++ name) (lit "/")) with true.
    cbv iota. change (skipn 1 (lit "/" ++ name)) with name.
    rewrite <- (app_nil_r name) at 1.
    rewrite (firstWord_app name [] (name_no_ws _ (name_chars _ Hn)) (or_introl eq_refl)).
    reflexivity.
Qed.

Lemma runTags_open (name attrs rest : jsstring) (stack : list jsstring) (out : jsstring) :
  valid_name name = true -> valid_open_attrs attrs = true ->
  has voids (normalize html name) = false ->
  runTags html voids (renderEvent (Open name attrs) ++ rest) stack out
  = runTags html voids rest (normalize html name :: stack)
            (out ++ renderEvent (Open name attrs)).
Proof.
  intros Hn Ha Hv.
  destruct (open_tag_effect name attrs stack Hn Ha Hv) as [Htrim Heff].
  assert (E : renderEvent (Open name attrs) ++ rest
              = lit "<" ++ (name ++ attrs) ++ lit ">" ++ rest)
    by (cbn [renderEvent]; rewrite <- !app_assoc; reflexivity).
  rewrite E, runTags_tag.
  - rewrite Htrim, Heff. cbn [renderEvent]. rewrite <- !app_assoc. reflexivity.
  - rewrite noGt_app.
    rewrite (name_noGt _ (name_chars _ (valid_name_ok _ Hn))).
    unfold valid_open_attrs in Ha. apply andb_true_iff in Ha as [Ha _].
    rewrite (attrs_noGt _ Ha). reflexivity.
  - intros E'. apply app_eq_nil in E' as [E' _].
    apply (name_nonempty _ (valid_name_ok _ Hn)). exact E'.
Qed.

Lemma runTags_close (name rest : jsstring) (stack : list jsstring) (out : jsstring) :
  valid_name name = true ->
  runTags html voids (renderEvent (Close name) ++ rest) stack out
  = runTags html voids rest (popIfMatches html stack (normalize html name))
            (out ++ renderEvent (Close name)).
Proof.
  intros Hn.
  destruct (close_tag_effect name stack Hn) as [Htrim Heff].
  assert (E : renderEvent (Close name) ++ rest
              = lit "<" ++ (lit "/" ++ name) ++ lit ">" ++ rest)
    by (cbn [renderEvent]; rewrite <- !app_assoc; reflexivity).
  rewrite E, runTags_tag.
  - rewrite Htrim, Heff. cbn [renderEvent]. rewrite <- !app_assoc. reflexivity.
  - cbn [noGt forallb app lit list_ascii_of_string map].
    apply (name_noGt _ (name_chars _ (valid_name_ok _ Hn))).
  - discriminate.
Qed.

Lemma runTags_empty (name attrs rest : jsstring) (stack : list jsstring) (out : jsstring) :
  valid_name name = true -> valid_attrs attrs = true ->
  runTags html voids (renderEvent (Empty name attrs) ++ rest) stack out
  = runTags html voids rest stack (out ++ renderEvent (Empty name attrs)).
Proof.
  intros Hn Ha.
  destruct (empty_tag_effect name attrs stack Hn Ha) as [Htrim Heff].
  assert (E : renderEvent (Empty name attrs) ++ rest
              = lit "<" ++ (name ++ attrs ++ lit "/") ++ lit ">" ++ rest)
    by (cbn [renderEvent]; rewrite <- !app_assoc; reflexivity).
  rewrite E, runTags_tag.
  - rewrite Htrim, Heff. cbn [renderEvent]. rewrite <- !app_assoc. reflexivity.
  - rewrite !noGt_app.
    rewrite (name_noGt _ (name_chars _ (valid_name_ok _ Hn))).
    rewrite (attrs_noGt _ Ha). reflexivity.
  - intros E'. apply app_eq_nil in E' as [E' _].
    apply (name_nonempty _ (valid_name_ok _ Hn)). exact E'.
Qed.

Lemma text_plain (text : jsstring) : forallb text_char text = true -> plain text = true.
Proof.
  induction text as [|c r IH]; [reflexivity|].
  cbn [forallb]. intros Hc. apply andb_true_iff in Hc as [Hc Hr].
  unfold text_char in Hc. apply andb_true_iff in Hc as [Hc _].
  apply negb_true_iff in Hc. cbn [plain]. rewrite Hc. apply IH, Hr.
Qed.

(** The loop over the rendering of well-nested events: the stack is the
    list of the open elements, each name normalised. *)
Lemma runTags_render (evs : list event) :
  forall (rest : jsstring) (st st' : list jsstring) (out : jsstring),
  forallb valid_event evs = true ->
  forallb (fun n => negb (has voids (normalize html n))) (opened evs) = true ->
  openAfter st evs = Some st' ->
  runTags html voids (render evs ++ rest) (map (normalize html) st) out
  = runTags html voids rest (map (normalize html) st') (out ++ render evs).
Proof.
  induction evs as [|e evs IH]; intros rest st st' out Hvalid Hvoid Hopen.
  - cbn in Hopen. injection Hopen as <-. cbn [render map concat app].
    rewrite app_nil_r. reflexivity.
  - cbn [forallb] in Hvalid. apply andb_true_iff in Hvalid as [He Hvalid].
    unfold render. cbn [map concat]. fold (render evs).
    rewrite <- (app_assoc (renderEvent e)), (app_assoc out (renderEvent e)).
    destruct e as [name attrs|name|name attrs|text]; cbn [valid_event] in He.
    + apply andb_true_iff in He as [Hn Ha].
      cbn [opened forallb] in Hvoid. apply andb_true_iff in Hvoid as [Hv Hvoid].
      apply negb_true_iff in Hv.
      rewrite (runTags_open name attrs _ _ _ Hn Ha Hv).
      apply (IH rest (name :: st) st'); assumption.
    + cbn [opened] in Hvoid. cbn [openAfter] in Hopen.
      destruct st as [|top below]; [discriminate|].
      destruct (jsstring_eqb top name) eqn:Etop; [|discriminate].
      apply jsstring_eqb_eq in Etop. subst top.
      rewrite (runTags_close name _ _ _ He). cbn [map popIfMatches].
      rewrite normalize_idem, jsstring_eqb_refl.
      apply (IH rest below st'); assumption.
    + apply andb_true_iff in He as [Hn Ha].
      cbn [opened] in Hvoid. cbn [openAfter] in Hopen.
      rewrite (runTags_empty name attrs _ _ _ Hn Ha).
      apply (IH rest st st'); assumption.
    + cbn [opened] in Hvoid. cbn [openAfter] in Hopen. cbn [renderEvent].
      rewrite (runTags_plain_prefix _ _ _ _ _ _ (text_plain _ He)).
      apply (IH rest st st'); assumption.
Qed.

End Loop.

End MarkupFacts.

Module MarkupRepair.
Import Markup MarkupFacts.

Lemma render_app (a b : list event) : render (a ++ b) = render a ++ render b.
Proof. unfold render. rewrite map_app, concat_app. reflexivity. Qed.

Lemma render_closers (names : list jsstring) :
  render (map Close names) = concat (map closingTag names).
Proof.
  unfold render. rewrite map_map. reflexivity.
Qed.

Lemma openAfter_app (a b : list event) (st : list jsstring) :
  openAfter st (a ++ b) =
  match openAfter st a with
  | Some st1 => openAfter st1 b
  | None => None
  end.
Proof.
  revert st. induction a as [|e a IH]; intros st; [reflexivity|].
  cbn [app openAfter]. destruct e as [name attrs|name|name attrs|text];
    try apply IH.
  destruct st as [|top below]; [reflexivity|].
  destruct (jsstring_eqb top name); [apply IH|reflexivity].
Qed.

Lemma openAfter_closers (st : list jsstring) : openAfter st (map Close st) = Some [].
Proof.
  induction st as [|top below IH]; [reflexivity|].
  cbn [map openAfter]. rewrite jsstring_eqb_refl. exact IH.
Qed.

(** Closing the open elements, innermost first, completes the document. *)
Lemma closers_complete (evs : list event) (open : list jsstring) :
  openAfter [] evs = Some open -> wellNested (evs ++ map Close open) = true.
Proof.
  intros Hopen. unfold wellNested.
  rewrite openAfter_app, Hopen, openAfter_closers. reflexivity.
Qed.

Lemma attrs_visible (attrs : jsstring) :
  valid_attrs attrs = true -> forallb visible attrs = true.
Proof.
  destruct attrs as [|c r]; [reflexivity|]. unfold valid_attrs.
  rewrite andb_true_iff. intros [_ Ha]. revert Ha.
  apply forallb_impl. intros x Hx. unfold attr_char in Hx.
  apply andb_true_iff in Hx as [_ Hx]. exact Hx.
Qed.

Lemma name_visible (name : jsstring) :
  valid_name name = true -> forallb visible name = true.
Proof.
  intros Hn. apply valid_name_ok in Hn. destruct Hn as [_ Hc _]. revert Hc.
  apply forallb_impl, name_char_visible.
Qed.

Lemma event_visible (e : event) :
  valid_event e = true -> forallb visible (renderEvent e) = true.
Proof.
  destruct e as [name attrs|name|name attrs|text]; cbn [valid_event renderEvent].
  - rewrite andb_true_iff. intros [Hn Ha].
    unfold valid_open_attrs in Ha. apply andb_true_iff in Ha as [Ha _].
    rewrite !forallb_app, (name_visible _ Hn), (attrs_visible _ Ha). reflexivity.
  - intros Hn. rewrite !forallb_app, (name_visible _ Hn). reflexivity.
  - rewrite andb_true_iff. intros [Hn Ha].
    rewrite !forallb_app, (name_visible _ Hn), (attrs_visible _ Ha). reflexivity.
  - apply forallb_impl. intros c Hc. unfold text_char in Hc.
    apply andb_true_iff in Hc as [_ Hc]. exact Hc.
Qed.

Lemma render_visible (evs : list event) :
  forallb valid_event evs = true -> forallb visible (render evs) = true.
Proof.
  induction evs as [|e evs IH]; [reflexivity|].
  cbn [forallb]. rewrite andb_true_iff. intros [He Hevs].
  unfold render. cbn [map concat]. fold (render evs).
  rewrite forallb_app, (event_visible _ He), (IH Hevs). reflexivity.
Qed.

Lemma openLt_ends_gt (p : bool) (s : jsstring) : openLt p (s ++ lit ">") = false.
Proof. rewrite openLt_app. reflexivity. Qed.

Lemma event_closed (e : event) :
  valid_event e = true -> openLt false (renderEvent e) = false.
Proof.
  destruct e as [name attrs|name|name attrs|text]; cbn [valid_event renderEvent];
    intros He.
  - rewrite !app_assoc. apply openLt_ends_gt.
  - rewrite !app_assoc. apply openLt_ends_gt.
  - change (lit "/>") with (lit "/" ++ lit ">").
    rewrite !app_assoc. apply openLt_ends_gt.
  - apply openLt_plain, text_plain, He.
Qed.

Lemma render_closed (evs : list event) :
  forallb valid_event evs = true -> openLt false (render evs) = false.
Proof.
  induction evs as [|e evs IH]; [reflexivity|].
  cbn [forallb]. rewrite andb_true_iff. intros [He Hevs].
  unfold render. cbn [map concat]. fold (render evs).
  rewrite openLt_app, (event_closed _ He). apply IH, Hevs.
Qed.

Section Repair.
Context `{Host}.
Hypothesis lower_idem : forall x, toLowerCase (toLowerCase x) = toLowerCase x.

(** fixXMLorHTML on the rendering of a well-nested prefix. *)
Lemma fixXMLorHTML_render (evs : list event) (open : list jsstring) (opts : Opts) :
  forallb valid_event evs = true ->
  forallb (fun n => negb (has (voids_of opts) (normalize (treatAsHTML_of opts) n)))
          (opened evs) = true ->
  openAfter [] evs = Some open ->
  fixXMLorHTML (render evs) opts
  = render evs
    ++ concat (map closingTag (map (normalize (treatAsHTML_of opts)) open)).
Proof.
  intros Hvalid Hvoid Hopen. unfold fixXMLorHTML.
  rewrite (stripInvisible_visible _ (render_visible _ Hvalid)).
  rewrite closeHalfTag_openLt, (render_closed _ Hvalid).
  fold (voids_of opts). fold (treatAsHTML_of opts).
  fold (runTags (treatAsHTML_of opts) (voids_of opts) (render evs) [] []).
  pose proof (runTags_render (treatAsHTML_of opts) (voids_of opts) lower_idem
                evs [] [] open [] Hvalid Hvoid Hopen) as Hrun.
  rewrite app_nil_r in Hrun. cbn [map] in Hrun. rewrite Hrun.
  unfold runTags. cbn [List.length tagLoop app]. rewrite app_nil_r.
  reflexivity.
Qed.

(** A text cut inside the name of an opening tag is repaired like the text
    with that tag completed. *)
Lemma fixXMLorHTML_half_tag (evs : list event) (name : jsstring) (opts : Opts) :
  forallb valid_event evs = true -> valid_name name = true ->
  fixXMLorHTML (render evs ++ lit "<" ++ name) opts
  = fixXMLorHTML (render (evs ++ [Open name []])) opts.
Proof.
  intros Hvalid Hn. unfold fixXMLorHTML.
  assert (Hvalid' : forallb valid_event (evs ++ [Open name []]) = true).
  { rewrite forallb_app, Hvalid. cbn. rewrite Hn. reflexivity. }
  rewrite (stripInvisible_visible _ (render_visible _ Hvalid')).
  rewrite (stripInvisible_visible (render evs ++ lit "<" ++ name)).
  2:{ rewrite !forallb_app, (render_visible _ Hvalid), (name_visible _ Hn).
      reflexivity. }
  rewrite !closeHalfTag_openLt, (render_closed _ Hvalid').
  rewrite openLt_app, (render_closed _ Hvalid).
  change (openLt false (lit "<" ++ name)) with (openLt true name).
  assert (Hopen : openLt true name = true).
  { apply openLt_noGt, name_noGt, (name_chars _ (valid_name_ok _ Hn)). }
  rewrite Hopen.
  replace ((render evs ++ lit "<" ++ name) ++ lit ">")
    with (render (evs ++ [Open name []])); [reflexivity|].
  rewrite render_app. unfold render at 2. cbn [map concat renderEvent].
  rewrite !app_nil_r, <- !app_assoc. reflexivity.
Qed.

End Repair.

End MarkupRepair.

(** X24. fixUnclosed with mode 'xml' closes the elements that the prefix
    of a well-nested document leaves open.  Let the input be the canonical
    text of a sequence of tags and character data in which no closing tag
    is out of place (tags written as ['<' name attributes '>'] with no
    white space before ['>'] and no ['>'] inside, no comment, CDATA
    section or processing instruction, no invisible code unit, no element
    name in the void-tag set).  If the names of the elements still open
    are unchanged by the normalisation of names (as every name is when the
    option html is false), the result is the input followed by one
    closing tag for every element still open, innermost first, each with
    the name of its opening tag, and it is well nested.  A text cut inside
    the name of an opening tag is repaired like the text with that tag
    completed. *)
Theorem fixUnclosed_xml_closes_open_elements `{Host}
    (evs : list Markup.event) (open : list jsstring) (opts : Opts) :
  (forall x, toLowerCase (toLowerCase x) = toLowerCase x) ->
  mode opts = Some (lit "xml") ->
  forallb Markup.valid_event evs = true ->
  forallb (fun n => negb (has (voids_of opts) (normalize (treatAsHTML_of opts) n)))
          (Markup.opened evs) = true ->
  Markup.openAfter [] evs = Some open ->
  (forall n, In n open -> normalize (treatAsHTML_of opts) n = n) ->
  fixUnclosed (Markup.render evs) opts
  = Normal (Markup.render (evs ++ map Markup.Close open))
  /\ Markup.wellNested (evs ++ map Markup.Close open) = true
  /\ (html opts = Some false -> forall n, normalize (treatAsHTML_of opts) n = n)
  /\ (forall name, Markup.valid_name name = true ->
      fixUnclosed (Markup.render evs ++ lit "<" ++ name) opts
      = fixUnclosed (Markup.render (evs ++ [Markup.Open name []])) opts).
Proof.
  intros Hidem Hmode Hvalid Hvoid Hopen Hnames.
  assert (Hxml : forall input, fixUnclosed input opts = Normal (fixXMLorHTML input opts)).
  { intros input. unfold fixUnclosed. rewrite Hmode. reflexivity. }
  assert (Hfix := MarkupRepair.fixXMLorHTML_render Hidem evs open opts
                    Hvalid Hvoid Hopen).
  split.
  - rewrite Hxml, Hfix.
    rewrite MarkupRepair.render_app, MarkupRepair.render_closers.
    rewrite (map_ext_in _ (fun n => n) open Hnames), map_id. reflexivity.
  - split; [apply MarkupRepair.closers_complete, Hopen|]. split.
    + intros Hhtml n. unfold treatAsHTML_of. rewrite Hhtml. reflexivity.
    + intros name Hn. rewrite !Hxml.
      rewrite (MarkupRepair.fixXMLorHTML_half_tag evs name opts Hvalid Hn).
      reflexivity.
Qed.

(** ** A second pass of the tag loop *)

Lemma subseq_refl {A} (l : list A) : subseq l l.
Proof. induction l; constructor; assumption. Qed.

Lemma subseq_tail {A} (x : A) (a b : list A) : subseq (x :: a) b -> subseq a b.
Proof.
  intros Hs. remember (x :: a) as xa eqn:E. revert x a E.
  induction Hs as [b|y a' b Hs IH|y a' b Hs IH]; intros x a E.
  - discriminate.
  - injection E as -> ->. apply subseq_skip. exact Hs.
  - apply subseq_skip. apply (IH x a E).
Qed.

Lemma subseq_nil_inv {A} (a : list A) : subseq a [] -> a = [].
Proof. intros Hs. inversion Hs. reflexivity. Qed.

Lemma forallb_sub {A} (p : A -> bool) (a b : list A) :
  (forall x, In x a -> In x b) -> forallb p b = true -> forallb p a = true.
Proof.
  intros Hin Hb. apply forallb_forall. intros x Hx.
  apply (proj1 (forallb_forall p b) Hb). apply Hin, Hx.
Qed.

Lemma trimStart_In (s : jsstring) (x : N) : In x (trimStart s) -> In x s.
Proof.
  induction s as [|c r IH]; [intros []|]. cbn [trimStart].
  destruct (is_ws c); [intros Hx; right; apply IH, Hx|intros Hx; exact Hx].
Qed.

Lemma trim_In (s : jsstring) (x : N) : In x (trim s) -> In x s.
Proof.
  unfold trim, trimEnd. intros Hx. apply in_rev in Hx.
  apply trimStart_In in Hx. apply in_rev in Hx. apply trimStart_In in Hx.
  exact Hx.
Qed.

Lemma firstWord_In (s : jsstring) (x : N) : In x (firstWord s) -> In x s.
Proof.
  induction s as [|c r IH]; [intros []|]. cbn [firstWord].
  destruct (is_ws c); [intros []|].
  intros [->|Hx]; [left; reflexivity|right; apply IH, Hx].
Qed.

Lemma firstWord_no_ws (s : jsstring) :
  forallb (fun c => negb (is_ws c)) (firstWord s) = true.
Proof.
  induction s as [|c r IH]; [reflexivity|]. cbn [firstWord].
  destruct (is_ws c) eqn:E; [reflexivity|]. cbn [forallb]. rewrite E. exact IH.
Qed.

Lemma firstWord_fixed (s : jsstring) :
  forallb (fun c => negb (is_ws c)) s = true -> firstWord s = s.
Proof.
  intros Hs. rewrite <- (app_nil_r s) at 1.
  apply firstWord_app; [exact Hs|left; reflexivity].
Qed.

Lemma clean_facts (n : jsstring) :
  forallb clean n = true ->
  forallb (fun c => negb (is_ws c)) n = true /\ noGt n = true
  /\ forallb visible n = true.
Proof.
  intros Hn. repeat split; revert Hn; apply MarkupFacts.forallb_impl;
    intros c Hc; unfold clean in Hc; rewrite !andb_true_iff in Hc; tauto.
Qed.

Lemma clean_word (t : jsstring) :
  forallb visible t = true -> noGt t = true -> forallb clean (firstWord t) = true.
Proof.
  intros Hv Hg. apply forallb_forall. intros c Hc.
  unfold clean.
  rewrite (proj1 (forallb_forall _ _) (firstWord_no_ws t) c Hc).
  apply firstWord_In in Hc.
  pose proof (proj1 (forallb_forall _ _) Hg c Hc) as Hg'. cbn beta in Hg'.
  rewrite Hg'.
  rewrite (proj1 (forallb_forall _ _) Hv c Hc). reflexivity.
Qed.

Section SecondPass.
Context `{Host}.
Variable html : bool.
Variable voids : list jsstring.
Hypothesis laws : lowerCaseLaws.

Lemma normalize_entry (w : jsstring) :
  forallb clean w = true -> entry_ok html (normalize html w).
Proof.
  intros Hw. destruct laws as [Hidem Hclean]. unfold entry_ok, normalize.
  destruct html; [|split; [reflexivity|exact Hw]].
  split; [apply Hidem|apply Hclean, Hw].
Qed.

Lemma popIfMatches_entries (stack : list jsstring) (name : jsstring) :
  Forall (entry_ok html) stack -> Forall (entry_ok html) (popIfMatches html stack name).
Proof.
  intros Hs. unfold popIfMatches. destruct stack as [|top below]; [exact Hs|].
  destruct (jsstring_eqb _ name); [|exact Hs]. inversion Hs. assumption.
Qed.

Lemma tagEffect_entries (t : jsstring) (stack : list jsstring) :
  forallb visible t = true -> noGt t = true ->
  Forall (entry_ok html) stack -> Forall (entry_ok html) (tagEffect html voids t stack).
Proof.
  intros Hv Hg Hs. unfold tagEffect.
  destruct (isSpecialTag t); [exact Hs|].
  destruct (startsWith t (lit "/")); [apply popIfMatches_entries, Hs|].
  destruct (negb _ && negb _); [|exact Hs].
  constructor; [|exact Hs]. apply normalize_entry, clean_word; assumption.
Qed.

Lemma popIfMatches_subseq (s2 s1 : list jsstring) (name : jsstring) :
  subseq s2 s1 ->
  subseq (popIfMatches html s2 name) (popIfMatches html s1 name).
Proof.
  intros Hs. unfold popIfMatches.
  destruct s1 as [|t1 b1].
  { apply subseq_nil_inv in Hs. subst s2. constructor. }
  destruct (jsstring_eqb (normalize html t1) name) eqn:E1.
  - destruct s2 as [|t2 b2]; [constructor|].
    destruct (jsstring_eqb (normalize html t2) name) eqn:E2.
    + inversion Hs; subst; [assumption|]. eapply subseq_tail; eassumption.
    + inversion Hs; subst; [congruence|assumption].
  - destruct s2 as [|t2 b2]; [constructor|].
    destruct (jsstring_eqb (normalize html t2) name); [|exact Hs].
    eapply subseq_tail; eassumption.
Qed.

Lemma tagEffect_subseq (t : jsstring) (s2 s1 : list jsstring) :
  subseq s2 s1 -> subseq (tagEffect html voids t s2) (tagEffect html voids t s1).
Proof.
  intros Hs. unfold tagEffect.
  destruct (isSpecialTag t); [exact Hs|].
  destruct (startsWith t (lit "/")); [apply popIfMatches_subseq, Hs|].
  destruct (negb _ && negb _); [|exact Hs].
  apply subseq_both, Hs.
Qed.

Lemma tagEffect_empty_subseq (s2 s1 : list jsstring) :
  subseq s2 s1 -> subseq s2 (tagEffect html voids [] s1).
Proof.
  intros Hs. unfold tagEffect.
  change (isSpecialTag []) with false. change (startsWith [] (lit "/")) with false.
  cbv iota. destruct (negb _ && negb _); [|exact Hs].
  apply subseq_skip, Hs.
Qed.

(** The first pass over [rest] writes [R]; a second pass over [R], started
    on a stack with fewer entries, writes [R] again and ends on a stack
    with fewer entries. *)
Lemma second_pass (n : nat) :
  forall (rest : jsstring) (stack1 : list jsstring) (out1 : jsstring)
         (stackF : list jsstring) (outF : jsstring),
  (List.length rest <= n)%nat ->
  forallb visible rest = true -> openLt false rest = false ->
  Forall (entry_ok html) stack1 ->
  runTags html voids rest stack1 out1 = (stackF, outF) ->
  exists R,
    outF = out1 ++ R
    /\ forallb visible R = true /\ openLt false R = false
    /\ Forall (entry_ok html) stackF
    /\ forall s2, subseq s2 stack1 ->
       exists s2', subseq s2' stackF
         /\ forall rest2 out2,
            runTags html voids (R ++ rest2) s2 out2
            = runTags html voids rest2 s2' (out2 ++ R).
Proof.
  induction n as [n IH] using lt_wf_ind.
  intros rest stack1 out1 stackF outF Hlen Hvis Hclosed Hentries Hrun.
  rewrite runTags_unfold in Hrun.
  destruct (exec_tag rest) as [[[b i] a]|] eqn:Eexec.
  - pose proof (exec_tag_length _ _ _ _ Eexec) as Hshort.
    apply exec_tag_spec in Eexec as (Erest & Hb & Hi & Hne).
    set (t := trim i) in *.
    assert (Erest' : rest = (b ++ lit "<" ++ i) ++ lit ">" ++ a)
      by (rewrite Erest, <- !app_assoc; reflexivity).
    assert (Hvis_parts : forallb visible b = true /\ forallb visible i = true
                         /\ forallb visible a = true).
    { rewrite Erest in Hvis. rewrite forallb_app in Hvis.
      apply andb_true_iff in Hvis as [Hvb Hvis]. cbn [forallb] in Hvis.
      apply andb_true_iff in Hvis as [_ Hvis]. rewrite forallb_app in Hvis.
      apply andb_true_iff in Hvis as [Hvi Hvis]. cbn [forallb] in Hvis.
      apply andb_true_iff in Hvis as [_ Hva]. auto. }
    destruct Hvis_parts as (Hvb & Hvi & Hva).
    assert (Hvt : forallb visible t = true)
      by (apply (forallb_sub visible t i (trim_In i) Hvi)).
    assert (Hgt : noGt t = true)
      by (apply (forallb_sub _ t i (trim_In i) Hi)).
    assert (Hca : openLt false a = false).
    { rewrite Erest' in Hclosed. rewrite openLt_app in Hclosed.
      rewrite (openLt_app _ (lit ">") a) in Hclosed. exact Hclosed. }
    destruct (IH (List.length a) ltac:(lia) a
                 (tagEffect html voids t stack1)
                 ((out1 ++ b) ++ lit "<" ++ t ++ lit ">") stackF outF
                 (le_n _) Hva Hca
                 (tagEffect_entries t stack1 Hvt Hgt Hentries) Hrun)
      as (Ra & HoutF & HvRa & HcRa & HentF & Hsecond).
    exists (b ++ lit "<" ++ t ++ lit ">" ++ Ra).
    split; [rewrite HoutF, <- !app_assoc; reflexivity|].
    split.
    { rewrite !forallb_app, Hvb, Hvt, HvRa. reflexivity. }
    split.
    { replace (b ++ lit "<" ++ t ++ lit ">" ++ Ra)
        with ((b ++ lit "<" ++ t) ++ lit ">" ++ Ra)
        by (rewrite <- !app_assoc; reflexivity).
      rewrite openLt_app, (openLt_app _ (lit ">") Ra). exact HcRa. }
    split; [exact HentF|].
    intros s2 Hsub.
    destruct t as [|t0 t'] eqn:Et.
    + destruct (Hsecond s2 (tagEffect_empty_subseq s2 stack1 Hsub))
        as (s2' & Hsub' & Heq).
      exists s2'. split; [exact Hsub'|]. intros rest2 out2.
      replace ((b ++ lit "<" ++ [] ++ lit ">" ++ Ra) ++ rest2)
        with ((b ++ lit "<>") ++ (Ra ++ rest2))
        by (rewrite <- !app_assoc; reflexivity).
      rewrite runTags_plain_prefix by (apply plain_app; [exact Hb|reflexivity]).
      rewrite Heq. rewrite <- !app_assoc. reflexivity.
    + rewrite <- Et in *.
      destruct (Hsecond (tagEffect html voids t s2)
                        (tagEffect_subseq t s2 stack1 Hsub))
        as (s2' & Hsub' & Heq).
      exists s2'. split; [exact Hsub'|]. intros rest2 out2.
      replace ((b ++ lit "<" ++ t ++ lit ">" ++ Ra) ++ rest2)
        with (b ++ (lit "<" ++ t ++ lit ">" ++ (Ra ++ rest2)))
        by (rewrite <- !app_assoc; reflexivity).
      rewrite runTags_plain_prefix by exact Hb.
      rewrite runTags_tag; [|exact Hgt|rewrite Et; discriminate].
      assert (Ett : trim t = t) by (apply trim_idem).
      rewrite Ett, Heq. rewrite <- !app_assoc. reflexivity.
  - injection Hrun as <- <-.
    pose proof (exec_tag_none_plain rest Eexec Hclosed) as Hplain.
    exists rest. repeat split; try assumption.
    intros s2 Hsub. exists s2. split; [exact Hsub|].
    intros rest2 out2. apply runTags_plain_prefix, Hplain.
Qed.

(** The closing tags of the first pass empty the stack of the second. *)
Lemma closers_pop (stackF : list jsstring) :
  Forall (entry_ok html) stackF ->
  forall (s2 : list jsstring) (out : jsstring),
  subseq s2 stackF ->
  runTags html voids (concat (map closingTag stackF)) s2 out
  = ([], out ++ concat (map closingTag stackF)).
Proof.
  induction stackF as [|n below IH]; intros Hent s2 out Hsub.
  - apply subseq_nil_inv in Hsub. subst s2. reflexivity.
  - inversion Hent as [|? ? [Hnorm Hclean] Hbelow]; subst.
    destruct (clean_facts n Hclean) as (Hws & Hg & Hv).
    cbn [map concat].
    assert (Ecl : closingTag n ++ concat (map closingTag below)
                  = lit "<" ++ (lit "/" ++ n) ++ lit ">"
                    ++ concat (map closingTag below))
      by (unfold closingTag; rewrite <- !app_assoc; reflexivity).
    rewrite Ecl.
    assert (Etrim : trim (lit "/" ++ n) = lit "/" ++ n).
    { apply trim_fixed; [reflexivity|].
      destruct n as [|c n']; [reflexivity|].
      rewrite last_app_nonempty by discriminate.
      destruct (@exists_last _ (c :: n') ltac:(discriminate)) as (l & x & E).
      rewrite E, last_last. rewrite E, forallb_app in Hws.
      apply andb_true_iff in Hws as [_ Hx]. cbn in Hx.
      rewrite andb_true_r in Hx. apply negb_true_iff in Hx. exact Hx. }
    rewrite runTags_tag; [|exact Hg|discriminate].
    rewrite Etrim.
    assert (Eeff : forall s, tagEffect html voids (lit "/" ++ n) s
                             = popIfMatches html s n).
    { intros s. unfold tagEffect.
      change (isSpecialTag (lit "/" ++ n)) with false.
      change (startsWith (lit "/" ++ n) (lit "/")) with true.
      cbv iota. change (skipn 1 (lit "/" ++ n)) with n.
      rewrite (firstWord_fixed n Hws), Hnorm. reflexivity. }
    rewrite Eeff.
    rewrite IH; [rewrite <- !app_assoc; reflexivity|exact Hbelow|].
    unfold popIfMatches. destruct s2 as [|t2 b2]; [constructor|].
    destruct (jsstring_eqb (normalize html t2) n) eqn:E2.
    + inversion Hsub; subst; [assumption|]. eapply subseq_tail; eassumption.
    + inversion Hsub; subst; [|assumption].
      rewrite Hnorm, jsstring_eqb_refl in E2. discriminate.
Qed.

Lemma closers_visible (stackF : list jsstring) :
  Forall (entry_ok html) stackF ->
  forallb visible (concat (map closingTag stackF)) = true.
Proof.
  induction 1 as [|n below [_ Hclean] Hbelow IH]; [reflexivity|].
  cbn [map concat]. unfold closingTag at 1.
  rewrite !forallb_app, IH, (proj2 (proj2 (clean_facts n Hclean))).
  reflexivity.
Qed.

Lemma closers_closed (names : list jsstring) :
  openLt false (concat (map closingTag names)) = false.
Proof.
  induction names as [|n below IH]; [reflexivity|].
  cbn [map concat]. unfold closingTag at 1.
  rewrite openLt_app, (app_assoc (lit "</") n (lit ">")).
  rewrite MarkupRepair.openLt_ends_gt. exact IH.
Qed.

(** fixXMLorHTML applied to its own result changes nothing. *)
Lemma fixXMLorHTML_twice (input : jsstring) (opts : Opts) :
  html = treatAsHTML_of opts -> voids = voids_of opts ->
  fixXMLorHTML (fixXMLorHTML input opts) opts = fixXMLorHTML input opts.
Proof.
  intros Ehtml Evoids.
  assert (Efix : forall s,
    fixXMLorHTML s opts =
    (let '(stack, out) :=
       runTags html voids (closeHalfTag (stripInvisible s)) [] [] in
     out ++ concat (map closingTag stack))).
  { intros s. subst html voids. reflexivity. }
  rewrite (Efix input).
  set (text := closeHalfTag (stripInvisible input)).
  destruct (runTags html voids text [] []) as [stackF outF] eqn:Erun.
  assert (Hvis : forallb visible text = true).
  { unfold text. rewrite closeHalfTag_openLt.
    destruct (openLt false (stripInvisible input));
      [rewrite forallb_app|]; rewrite stripInvisible_is_visible; reflexivity. }
  destruct (second_pass (List.length text) text [] [] stackF outF (le_n _)
              Hvis (closeHalfTag_closed _) (Forall_nil _) Erun)
    as (R & HoutF & HvR & HcR & HentF & Hsecond).
  cbn [app] in HoutF. subst outF.
  destruct (Hsecond [] (subseq_nil _)) as (s2' & Hsub' & Heq).
  rewrite Efix.
  rewrite stripInvisible_visible
    by (rewrite forallb_app, HvR, (closers_visible stackF HentF); reflexivity).
  rewrite closeHalfTag_openLt, openLt_app, HcR, closers_closed.
  rewrite Heq, (closers_pop stackF HentF s2' _ Hsub').
  cbn [map concat app]. rewrite app_nil_r. reflexivity.
Qed.

End SecondPass.

(** ** The instance used for evaluation satisfies the laws *)

Lemma lower_char_idem (c : N) : Json.lower_char (Json.lower_char c) = Json.lower_char c.
Proof.
  unfold Json.lower_char.
  destruct (N.leb_spec 65 c), (N.leb_spec c 90); cbn [andb];
    repeat match goal with
           | |- context [N.leb ?a ?b] => destruct (N.leb_spec a b); try lia
           end; reflexivity.
Qed.

Lemma lower_char_clean (c : N) : clean c = true -> clean (Json.lower_char c) = true.
Proof.
  unfold Json.lower_char.
  destruct (N.leb_spec 65 c), (N.leb_spec c 90); cbn [andb]; try (intros Hc; exact Hc).
  intros _. unfold clean, visible, is_ws, is_bom, is_zero_width.
  change (ch ">") with 62.
  repeat match goal with
         | |- context [N.leb ?a ?b] => destruct (N.leb_spec a b); try lia
         | |- context [N.eqb ?a ?b] => destruct (N.eqb_spec a b); try lia
         end; reflexivity.
Qed.

Lemma ascii_lower_laws : @lowerCaseLaws concrete_host.
Proof.
  split; intros x; cbn [toLowerCase concrete_host]; unfold Json.ascii_lower.
  - rewrite map_map. apply map_ext. intros c. apply lower_char_idem.
  - intros Hx. induction x as [|c r IH]; [reflexivity|].
    cbn [forallb map] in *. apply andb_true_iff in Hx as [Hc Hr].
    rewrite (lower_char_clean c Hc), (IH Hr). reflexivity.
Qed.

Lemma lower_char_fixed (c : N) : (c <? 65) || (90 <? c) = true -> Json.lower_char c = c.
Proof.
  unfold Json.lower_char. intros Hc.
  destruct (N.leb_spec 65 c), (N.leb_spec c 90); cbn [andb]; try reflexivity.
  apply orb_true_iff in Hc as [Hc|Hc]; apply N.ltb_lt in Hc; lia.
Qed.

Lemma fixUnclosed_xml_closes_open_elements_witness :
  fixUnclosed (litq "<mxfile><diagram name='P'><mxCell id='0'/>x") xml_mode
  = Normal (litq "<mxfile><diagram name='P'><mxCell id='0'/>x</diagram></mxfile>").
Proof.
  refine (proj1 (fixUnclosed_xml_closes_open_elements
                   [Markup.Open (lit "mxfile") [];
                    Markup.Open (lit "diagram") (litq " name='P'");
                    Markup.Empty (lit "mxCell") (litq " id='0'");
                    Markup.Chars (lit "x")]
                   [lit "diagram"; lit "mxfile"] xml_mode
                   (proj1 ascii_lower_laws) eq_refl eq_refl eq_refl eq_refl _)).
  intros n [<-|[<-|[]]]; reflexivity.
Defined.

(** C3, amended. fixXMLorHTML is idempotent for every string and every
    options object, and so is fixUnclosed under mode 'xml'; fixJSON
    applied to its own result returns that result again whenever the
    result is accepted by JSON.parse and has no white space at its ends,
    in particular whenever the trimmed input is accepted.  (Lower-casing
    is assumed idempotent and to bring in no white space, ['>'] or
    invisible code unit.) *)
Theorem repairs_idempotent `{Host} :
  lowerCaseLaws ->
  (forall input opts,
     fixXMLorHTML (fixXMLorHTML input opts) opts = fixXMLorHTML input opts)
  /\ (forall input,
        (r <- fixUnclosed input xml_mode ;; fixUnclosed r xml_mode)
        = fixUnclosed input xml_mode)
  /\ (forall input r,
        fixJSON input = Normal r -> JSON_parse_ok r = true -> trim r = r ->
        fixJSON r = Normal r)
  /\ (forall input,
        JSON_parse_ok (trim input) = true ->
        (r <- fixJSON input ;; fixJSON r) = fixJSON input).
Proof.
  intros Hlaws.
  assert (Hxml : forall input opts,
    fixXMLorHTML (fixXMLorHTML input opts) opts = fixXMLorHTML input opts).
  { intros input opts.
    apply (fixXMLorHTML_twice (treatAsHTML_of opts) (voids_of opts) Hlaws);
      reflexivity. }
  split; [exact Hxml|]. split.
  - intros input. rewrite !fixUnclosed_xml_mode. cbn [bind].
    rewrite fixUnclosed_xml_mode, Hxml. reflexivity.
  - split.
    + intros input r _ Hok Htrim. rewrite fixJSON_cases. cbv zeta.
      rewrite Htrim, Hok. destruct (falsy r); reflexivity.
    + apply fixJSON_idempotent_on_wellformed.
Qed.

Lemma repairs_idempotent_witness :
  fixXMLorHTML (fixXMLorHTML (lit "<A><b></a>< ><BR>text<c") no_opts) no_opts
  = fixXMLorHTML (lit "<A><b></a>< ><BR>text<c") no_opts.
Proof.
  exact (proj1 (repairs_idempotent ascii_lower_laws)
               (lit "<A><b></a>< ><BR>text<c") no_opts).
Defined.

(** ** JSON documents: structure of their text *)

Module JsonDocFacts.
Import JsonDoc.

Lemma valid_induction (P : json -> Prop) :
  (forall t, valid_atom t = true -> P (Atom t)) ->
  (forall s, valid_string s = true -> P (Str s)) ->
  (forall gap items,
     json_ws gap = true -> forallb valid items = true -> Forall P items ->
     P (Arr gap items)) ->
  (forall gap members,
     json_ws gap = true -> forallb valid_member members = true ->
     Forall (fun kv => valid_key (fst kv) = true /\ P (snd kv)) members ->
     P (Obj gap members)) ->
  (forall a v b,
     json_ws a = true -> valid v = true -> json_ws b = true -> P v ->
     P (Pad a v b)) ->
  forall v, valid v = true -> P v.
Proof.
  intros HAtom HStr HArr HObj HPad. fix IH 1. intros v Hv.
  destruct v as [t|s|gap items|gap members|a v b]; cbn [valid] in Hv.
  - apply HAtom, Hv.
  - apply HStr, Hv.
  - apply andb_true_iff in Hv as [Hgap Hv].
    apply HArr; [exact Hgap|exact Hv|].
    induction items as [|x items IHitems]; constructor.
    + cbn [forallb] in Hv. apply andb_true_iff in Hv as [Hx _]. apply IH, Hx.
    + cbn [forallb] in Hv. apply andb_true_iff in Hv as [_ Hr]. apply IHitems, Hr.
  - apply andb_true_iff in Hv as [Hgap Hv].
    apply HObj; [exact Hgap|exact Hv|].
    induction members as [|kv members IHmembers]; constructor.
    + cbn [forallb] in Hv. apply andb_true_iff in Hv as [Hkv _].
      apply andb_true_iff in Hkv as [Hk Hx]. split; [exact Hk|apply IH, Hx].
    + cbn [forallb] in Hv. apply andb_true_iff in Hv as [_ Hr].
      apply IHmembers, Hr.
  - apply andb_true_iff in Hv as [Hv Hb]. apply andb_true_iff in Hv as [Ha Hv].
    apply HPad; [exact Ha|exact Hv|exact Hb|apply IH, Hv].
Qed.

(** The strings of the grammar, read as the recogniser reads them: one
    plain code unit or one escape at a time. *)
Lemma string_induction (P : jsstring -> Prop) :
  P [] ->
  (forall c r,
     (c =? dquote) = false -> (c =? ch "\") = false -> (32 <=? c) = true ->
     valid_string r = true -> P r -> P (c :: r)) ->
  (forall e r,
     Json.is_simple_escape e = true -> valid_string r = true -> P r ->
     P (ch "\" :: e :: r)) ->
  (forall h1 h2 h3 h4 r,
     Json.is_hex h1 = true -> Json.is_hex h2 = true -> Json.is_hex h3 = true ->
     Json.is_hex h4 = true -> valid_string r = true -> P r ->
     P (ch "\" :: ch "u" :: h1 :: h2 :: h3 :: h4 :: r)) ->
  forall s, valid_string s = true -> P s.
Proof.
  intros Hnil Hplain Hesc Huni s.
  assert (Hlen : forall n s, (List.length s <= n)%nat -> valid_string s = true -> P s).
  { clear s. induction n as [|n IH]; intros s Hn Hs.
    - destruct s; [exact Hnil|cbn in Hn; lia].
    - destruct s as [|c r]; [exact Hnil|]. cbn [valid_string] in Hs.
      cbn [List.length] in Hn.
      destruct (c =? dquote) eqn:Eq; [discriminate|].
      destruct (c =? ch "\") eqn:Eb.
      + apply N.eqb_eq in Eb. subst c.
        destruct r as [|e r1]; [discriminate|]. cbn [List.length] in Hn.
        destruct (Json.is_simple_escape e) eqn:Ee.
        * apply Hesc; [exact Ee|exact Hs|]. apply IH; [lia|exact Hs].
        * destruct (e =? ch "u") eqn:Eu; [|discriminate].
          apply N.eqb_eq in Eu. subst e.
          destruct r1 as [|h1 [|h2 [|h3 [|h4 r2]]]]; try discriminate.
          rewrite !andb_true_iff in Hs. destruct Hs as [[[[H1 H2] H3] H4] Hs].
          cbn [List.length] in Hn.
          apply Huni; try assumption. apply IH; [lia|exact Hs].
      + apply andb_true_iff in Hs as [Hc Hs].
        apply Hplain; try assumption. apply IH; [lia|exact Hs]. }
  apply (Hlen (List.length s) s). lia.
Qed.

Ltac char_cases :=
  repeat match goal with
         | H : context [N.leb ?a ?b] |- _ => destruct (N.leb_spec a b)
         | H : context [N.eqb ?a ?b] |- _ => destruct (N.eqb_spec a b); [subst|]
         end;
  cbn in *; try discriminate;
  repeat match goal with
         | |- context [N.leb ?a ?b] => destruct (N.leb_spec a b); try lia
         | |- context [N.eqb ?a ?b] => destruct (N.eqb_spec a b); try lia
         end; repeat split; reflexivity.

(** A code unit that stands in an escape after the backslash. *)
Lemma escape_char_facts (c : N) :
  Json.is_simple_escape c = true \/ c = ch "u" \/ Json.is_hex c = true ->
  (c =? ch ",") = false /\ is_ws c = false /\ visible c = true.
Proof.
  unfold Json.is_simple_escape, Json.is_hex, Json.is_digit, visible, is_ws, is_bom,
    is_zero_width, dquote.
  change (ch "\") with 92. change (ch ",") with 44. change (ch "/") with 47.
  change (ch "b") with 98. change (ch "f") with 102. change (ch "n") with 110.
  change (ch "r") with 114. change (ch "t") with 116. change (ch "u") with 117.
  intros [Hc|[Hc|Hc]]; [|subst c; repeat split; reflexivity|]; char_cases.
Qed.

Lemma hex_not_quote (c : N) :
  Json.is_hex c = true -> (c =? dquote) = false /\ (c =? ch "\") = false.
Proof.
  unfold Json.is_hex, Json.is_digit, dquote. change (ch "\") with 92.
  intros Hc. char_cases.
Qed.

Lemma atom_char_facts (c : N) :
  atom_char c = true ->
  (c =? dquote) = false /\ (c =? ch "\") = false /\ (c =? ch ",") = false
  /\ is_ws c = false /\ visible c = true
  /\ (c =? ch "{") = false /\ (c =? ch "[") = false
  /\ (c =? ch "}") = false /\ (c =? ch "]") = false.
Proof.
  unfold atom_char, Json.is_digit, visible, is_ws, is_bom, is_zero_width, dquote.
  change (ch "-") with 45. change (ch "+") with 43. change (ch ".") with 46.
  change (ch "\") with 92. change (ch ",") with 44. change (ch "{") with 123.
  change (ch "[") with 91. change (ch "}") with 125. change (ch "]") with 93.
  intros Hc. char_cases.
Qed.

Lemma json_ws_char_facts (c : N) :
  Json.is_json_ws c = true ->
  (c =? dquote) = false /\ (c =? ch "\") = false /\ (c =? ch ",") = false
  /\ is_ws c = true /\ visible c = true
  /\ (c =? ch "{") = false /\ (c =? ch "[") = false
  /\ (c =? ch "}") = false /\ (c =? ch "]") = false.
Proof.
  unfold Json.is_json_ws, visible, is_ws, is_bom, is_zero_width, dquote.
  change (ch "\") with 92. change (ch ",") with 44. change (ch "{") with 123.
  change (ch "[") with 91. change (ch "}") with 125. change (ch "]") with 93.
  intros Hc. char_cases.
Qed.

(** White space is no part of an escape. *)
Lemma ws_escape_facts (c : N) :
  is_ws c = true ->
  Json.is_simple_escape c = false /\ (c =? ch "u") = false /\ Json.is_hex c = false.
Proof.
  unfold Json.is_simple_escape, Json.is_hex, Json.is_digit, is_ws, dquote.
  change (ch "\") with 92. change (ch "/") with 47.
  change (ch "b") with 98. change (ch "f") with 102. change (ch "n") with 110.
  change (ch "r") with 114. change (ch "t") with 116. change (ch "u") with 117.
  intros Hc. char_cases.
Qed.

Lemma valid_atom_nonempty (t : jsstring) : valid_atom t = true -> t <> [].
Proof. intros Hv ->. discriminate. Qed.

Lemma valid_atom_chars (t : jsstring) : valid_atom t = true -> forallb atom_char t = true.
Proof. unfold valid_atom. rewrite andb_true_iff. tauto. Qed.

Lemma json_ws_is_ws (w : jsstring) : json_ws w = true -> forallb is_ws w = true.
Proof.
  apply MarkupFacts.forallb_impl. intros c Hc.
  apply json_ws_char_facts in Hc. tauto.
Qed.

Lemma sepBy_cons (x : jsstring) (r : list jsstring) :
  r <> [] -> sepBy (x :: r) = x ++ lit "," ++ sepBy r.
Proof. destruct r; [congruence|reflexivity]. Qed.

Lemma leading_cons (x : jsstring) (r : list jsstring) :
  leading (x :: r) = x ++ lit "," ++ leading r.
Proof. unfold leading. cbn [map concat]. rewrite <- app_assoc. reflexivity. Qed.

Lemma sepBy_snoc (l : list jsstring) (x : jsstring) :
  sepBy (l ++ [x]) = leading l ++ x.
Proof.
  induction l as [|y l IH]; [cbn; apply app_nil_r|].
  cbn [app]. rewrite sepBy_cons by (destruct l; discriminate).
  rewrite IH, leading_cons. rewrite <- !app_assoc. reflexivity.
Qed.

Lemma sepBy_leading (l : list jsstring) :
  l <> [] -> sepBy l ++ lit "," = leading l.
Proof.
  intros Hne. induction l as [|x r IH]; [congruence|].
  destruct r as [|y r'].
  - cbn. rewrite !app_nil_r. reflexivity.
  - rewrite sepBy_cons by discriminate. rewrite leading_cons.
    rewrite <- IH by discriminate. rewrite <- !app_assoc. reflexivity.
Qed.

(** ** White space before what is not a closer *)


Lemma guard_ws (w r : jsstring) :
  forallb is_ws w = true -> guard (w ++ r) = guard r.
Proof.
  induction w as [|c w IH]; [reflexivity|]. cbn [forallb app guard].
  intros Hw. apply andb_true_iff in Hw as [Hc Hw]. rewrite Hc. apply IH, Hw.
Qed.

Lemma guard_closer_ahead (r : jsstring) : guard r = true -> closer_ahead r = false.
Proof.
  induction r as [|c r IH]; [discriminate|]. cbn [guard closer_ahead].
  destruct (is_ws c); [exact IH|]. intros Hc. apply negb_true_iff in Hc. exact Hc.
Qed.

Lemma guard_not_ws (r : jsstring) : guard r = true -> forallb is_ws r = false.
Proof.
  induction r as [|c r IH]; [discriminate|]. cbn [guard forallb].
  destruct (is_ws c); [exact IH|reflexivity].
Qed.


Lemma guard_keyText (k : key) (rest : jsstring) :
  valid_key k = true -> guard (keyText k ++ rest) = true.
Proof.
  unfold valid_key, keyText. intros Hk.
  apply andb_true_iff in Hk as [Hk _]. apply andb_true_iff in Hk as [Hb _].
  rewrite <- !app_assoc. rewrite guard_ws by (apply json_ws_is_ws, Hb).
  reflexivity.
Qed.

Lemma guard_render (v : json) :
  valid v = true -> forall rest, guard (render v ++ rest) = true.
Proof.
  revert v. apply (valid_induction (fun v => forall rest, guard (render v ++ rest) = true)).
  - intros t Ht rest. cbn [render].
    pose proof (valid_atom_nonempty t Ht) as Hne.
    apply valid_atom_chars in Ht. destruct t as [|c t]; [congruence|].
    cbn [forallb] in Ht. apply andb_true_iff in Ht as [Hc _].
    apply atom_char_facts in Hc as (_ & _ & _ & Hws & _ & _ & _ & Hb & Hk).
    cbn [app guard]. rewrite Hws, Hb, Hk. reflexivity.
  - intros s _ rest. reflexivity.
  - intros gap items _ _ _ rest. reflexivity.
  - intros gap members _ _ _ rest. reflexivity.
  - intros a v b Ha _ _ IH rest. cbn [render]. rewrite <- !app_assoc.
    rewrite guard_ws by (apply json_ws_is_ws, Ha). apply IH.
Qed.

Lemma guard_member (kv : key * json) (rest : jsstring) :
  valid_member kv = true -> guard (member kv ++ rest) = true.
Proof.
  unfold valid_member, member. intros Hkv. apply andb_true_iff in Hkv as [Hk _].
  rewrite <- app_assoc. apply guard_keyText, Hk.
Qed.

Lemma guard_cutText (q k : bool) (c : cut) :
  valid_cut c = true -> forall rest, guard (cutText q k c ++ rest) = true.
Proof.
  induction c as [s|v| | |gap done|gap done|gap done c IH|gap done key c IH|a c IH];
    cbn [valid_cut cutText]; intros Hv rest; try reflexivity.
  - apply guard_render, Hv.
  - apply andb_true_iff in Hv as [Ha Hc]. rewrite <- app_assoc.
    rewrite guard_ws by (apply json_ws_is_ws, Ha). apply IH, Hc.
Qed.

End JsonDocFacts.

(** ** The passes of fixJSONStructure over a cut document *)

Module JsonRepair.
Import JsonDoc JsonDocFacts.

(** A pass over the text that keeps every visible code unit other than a
    comma, keeps a comma that an element follows, and maps the inside of
    each string by [g]. *)
Section Passes.
Variables f g : jsstring -> jsstring.
Hypothesis f_other :
  forall x r, (x =? ch ",") = false -> visible x = true -> f (x :: r) = x :: f r.
Hypothesis f_comma : forall r, guard r = true -> f (ch "," :: r) = ch "," :: f r.
Hypothesis f_str : forall s rest, f (s ++ dquote :: rest) = g s ++ dquote :: f rest.

Lemma f_plain (a rest : jsstring) :
  forallb (fun c => negb (c =? ch ",") && visible c) a = true ->
  f (a ++ rest) = a ++ f rest.
Proof.
  induction a as [|c a IH]; [reflexivity|]. cbn [forallb app].
  intros Hc. apply andb_true_iff in Hc as [Hc Ha].
  apply andb_true_iff in Hc as [Hc Hv]. apply negb_true_iff in Hc.
  rewrite (f_other c _ Hc Hv), (IH Ha). reflexivity.
Qed.

Lemma f_gap (gap rest : jsstring) :
  json_ws gap = true -> f (gap ++ rest) = gap ++ f rest.
Proof.
  intros Hg. apply f_plain. revert Hg. apply MarkupFacts.forallb_impl.
  intros c Hc. apply json_ws_char_facts in Hc as (_ & _ & Hc & _ & Hv & _).
  rewrite Hc, Hv. reflexivity.
Qed.

Lemma f_quote (s rest : jsstring) : f (quote s ++ rest) = quote (g s) ++ f rest.
Proof.
  unfold quote. cbn [app]. rewrite f_other by reflexivity.
  rewrite <- app_assoc. cbn [app]. rewrite f_str.
  rewrite <- app_assoc. reflexivity.
Qed.

Lemma f_keyText (k : key) (rest : jsstring) :
  valid_key k = true -> f (keyText k ++ rest) = keyText (mapKey g k) ++ f rest.
Proof.
  unfold valid_key, keyText. cbn [mapKey key_before key_name key_after].
  intros Hk. apply andb_true_iff in Hk as [Hk Ha].
  apply andb_true_iff in Hk as [Hb _]. rewrite <- !app_assoc.
  rewrite (f_gap _ _ Hb), f_quote, (f_gap _ _ Ha).
  change (lit ":" ++ rest) with (ch ":" :: rest).
  rewrite f_other by reflexivity. reflexivity.
Qed.

Section Items.
Context {A : Type}.
Variable text : A -> jsstring.
Variable m : A -> A.

Lemma f_sepBy (l : list A) (rest : jsstring) :
  Forall (passes f text m) l ->
  f (sepBy (map text l) ++ rest) = sepBy (map text (map m l)) ++ f rest.
Proof.
  intros Hl. induction l as [|x r IH]; [reflexivity|].
  inversion Hl as [|? ? [Hx _] Hr]; subst. destruct r as [|y r'].
  - cbn [map sepBy]. rewrite !app_nil_r. apply Hx.
  - cbn [map]. rewrite (sepBy_cons (text x)), (sepBy_cons (text (m x)))
      by discriminate.
    rewrite <- !app_assoc. rewrite Hx.
    change (lit "," ++ sepBy (text y :: map text r') ++ rest)
      with (ch "," :: (sepBy (map text (y :: r')) ++ rest)).
    rewrite f_comma.
    + rewrite (IH Hr). reflexivity.
    + inversion Hr as [|? ? [_ Hy] _]; subst. cbn [map].
      destruct r' as [|z r''].
      * cbn [map sepBy]. rewrite app_nil_r. apply Hy.
      * cbn [map]. rewrite sepBy_cons by discriminate. rewrite <- !app_assoc.
        apply Hy.
Qed.

Lemma f_leading (l : list A) (next : jsstring) :
  Forall (passes f text m) l -> guard next = true ->
  f (leading (map text l) ++ next) = leading (map text (map m l)) ++ f next.
Proof.
  intros Hl Hn. induction l as [|x r IH]; [reflexivity|].
  inversion Hl as [|? ? [Hx _] Hr]; subst.
  cbn [map]. rewrite !leading_cons, <- !app_assoc. rewrite Hx.
  change (lit "," ++ leading (map text r) ++ next)
    with (ch "," :: (leading (map text r) ++ next)).
  rewrite f_comma.
  - rewrite (IH Hr). reflexivity.
  - destruct r as [|y r']; [exact Hn|].
    inversion Hr as [|? ? [_ Hy] _]; subst.
    cbn [map]. rewrite leading_cons, <- !app_assoc. apply Hy.
Qed.

End Items.

Lemma passes_member (kv : key * json) :
  valid_key (fst kv) = true ->
  (forall rest, f (render (snd kv) ++ rest) = render (mapJson g (snd kv)) ++ f rest) ->
  passes f member (mapMember g) kv.
Proof.
  intros Hk Hv. split.
  - intros rest. unfold member, mapMember. cbn [fst snd]. rewrite <- !app_assoc.
    rewrite (f_keyText _ _ Hk), Hv. reflexivity.
  - intros rest. unfold member. rewrite <- !app_assoc. apply guard_keyText, Hk.
Qed.

(** The text of a document passes with its strings mapped. *)
Lemma f_render (v : json) :
  valid v = true ->
  forall rest, f (render v ++ rest) = render (mapJson g v) ++ f rest.
Proof.
  revert v. apply (valid_induction
    (fun v => forall rest, f (render v ++ rest) = render (mapJson g v) ++ f rest)).
  - intros t Ht rest. cbn [render mapJson]. apply f_plain.
    apply valid_atom_chars in Ht. revert Ht. apply MarkupFacts.forallb_impl.
    intros c Hc. apply atom_char_facts in Hc as (_ & _ & Hc & _ & Hv & _).
    rewrite Hc, Hv. reflexivity.
  - intros s _ rest. cbn [render mapJson]. apply f_quote.
  - intros gap items Hgap Hvalid Hitems rest. cbn [render mapJson].
    rewrite <- !app_assoc.
    change (lit "[" ++ gap ++ sepBy (map render items) ++ lit "]" ++ rest)
      with (ch "[" :: (gap ++ sepBy (map render items) ++ ch "]" :: rest)).
    rewrite f_other by reflexivity. rewrite (f_gap _ _ Hgap).
    rewrite (f_sepBy render (mapJson g)).
    + rewrite f_other by reflexivity. reflexivity.
    + apply Forall_forall. intros x Hx. split.
      * apply (proj1 (Forall_forall _ _) Hitems x Hx).
      * apply guard_render. apply (proj1 (forallb_forall _ _) Hvalid x Hx).
  - intros gap members Hgap Hvalid Hmembers rest. cbn [render mapJson].
    rewrite <- !app_assoc. fold member. fold (mapMember g).
    change (lit "{" ++ gap ++ sepBy (map member members) ++ lit "}" ++ rest)
      with (ch "{" :: (gap ++ sepBy (map member members) ++ ch "}" :: rest)).
    rewrite f_other by reflexivity. rewrite (f_gap _ _ Hgap).
    rewrite (f_sepBy member (mapMember g)).
    + rewrite f_other by reflexivity. reflexivity.
    + revert Hmembers. apply Forall_impl. intros kv [Hk Hv].
      apply passes_member; assumption.
  - intros a v b Ha _ Hb IH rest. cbn [render mapJson]. rewrite <- !app_assoc.
    rewrite (f_gap _ _ Ha), IH, (f_gap _ _ Hb). reflexivity.
Qed.

Lemma passes_items (items : list json) :
  forallb valid items = true -> Forall (passes f render (mapJson g)) items.
Proof.
  intros Hv. apply Forall_forall. intros x Hx.
  pose proof (proj1 (forallb_forall _ _) Hv x Hx) as Hvx.
  split; [apply f_render, Hvx|apply guard_render, Hvx].
Qed.

Lemma passes_members (members : list (key * json)) :
  forallb valid_member members = true -> Forall (passes f member (mapMember g)) members.
Proof.
  intros Hv. apply Forall_forall. intros kv Hkv.
  pose proof (proj1 (forallb_forall _ _) Hv kv Hkv) as Hvkv.
  apply andb_true_iff in Hvkv as [Hk Hx].
  apply passes_member; [exact Hk|apply f_render, Hx].
Qed.

(** The text of a cut passes with its strings mapped, up to its dangling
    comma, which [f] keeps or drops. *)
Variables closed comma comma' : bool.
Hypothesis f_nil : f [] = [].
Hypothesis f_end : f (dangling comma) = dangling comma'.
Hypothesis f_open : closed = false -> forall s, f s = g s.

Lemma f_cutText (c : cut) :
  valid_cut c = true ->
  f (cutText closed comma c) = cutText closed comma' (mapCut g c).
Proof.
  induction c as [s|v| | |gap done|gap done|gap done c IH|gap done key c IH|a c IH];
    cbn [valid_cut cutText mapCut]; intros Hv.
  - rewrite f_other by reflexivity. destruct closed eqn:Ecl.
    + rewrite f_str, f_nil. reflexivity.
    + rewrite !app_nil_r. rewrite (f_open eq_refl). reflexivity.
  - rewrite <- (app_nil_r (render v)). rewrite (f_render v Hv), f_nil.
    rewrite !app_nil_r. reflexivity.
  - change (lit "[") with [ch "["]. rewrite f_other, f_nil; reflexivity.
  - change (lit "{") with [ch "{"]. rewrite f_other, f_nil; reflexivity.
  - apply andb_true_iff in Hv as [Hv _]. apply andb_true_iff in Hv as [Hgap Hv].
    change (lit "[" ++ gap ++ sepBy (map render done) ++ dangling comma)
      with (ch "[" :: (gap ++ sepBy (map render done) ++ dangling comma)).
    rewrite f_other by reflexivity. rewrite (f_gap _ _ Hgap).
    rewrite (f_sepBy render (mapJson g)) by (apply passes_items, Hv).
    rewrite f_end. reflexivity.
  - apply andb_true_iff in Hv as [Hv _]. apply andb_true_iff in Hv as [Hgap Hv].
    change (lit "{" ++ gap ++ sepBy (map member done) ++ dangling comma)
      with (ch "{" :: (gap ++ sepBy (map member done) ++ dangling comma)).
    rewrite f_other by reflexivity. rewrite (f_gap _ _ Hgap).
    rewrite (f_sepBy member (mapMember g)) by (apply passes_members, Hv).
    rewrite f_end. reflexivity.
  - apply andb_true_iff in Hv as [Hv Hc]. apply andb_true_iff in Hv as [Hgap Hv].
    change (lit "[" ++ gap ++ leading (map render done) ++ cutText closed comma c)
      with (ch "[" :: (gap ++ leading (map render done) ++ cutText closed comma c)).
    rewrite f_other by reflexivity. rewrite (f_gap _ _ Hgap).
    rewrite (f_leading render (mapJson g)).
    + rewrite (IH Hc). reflexivity.
    + apply passes_items, Hv.
    + rewrite <- (app_nil_r (cutText _ _ _)). apply guard_cutText, Hc.
  - apply andb_true_iff in Hv as [Hv Hc]. apply andb_true_iff in Hv as [Hv Hk].
    apply andb_true_iff in Hv as [Hgap Hv].
    change (lit "{" ++ gap ++ leading (map member done) ++ keyText key
            ++ cutText closed comma c)
      with (ch "{" :: (gap ++ leading (map member done)
                       ++ (keyText key ++ cutText closed comma c))).
    rewrite f_other by reflexivity. rewrite (f_gap _ _ Hgap).
    rewrite (f_leading member (mapMember g)).
    + rewrite (f_keyText _ _ Hk), (IH Hc). reflexivity.
    + apply passes_members, Hv.
    + apply guard_keyText, Hk.
  - apply andb_true_iff in Hv as [Ha Hc].
    rewrite (f_gap _ _ Ha), (IH Hc). reflexivity.
Qed.

End Passes.

(** *** The three passes *)

Lemma closer_ahead_quote (s rest : jsstring) :
  closer_ahead (s ++ dquote :: rest) = closer_ahead s.
Proof.
  induction s as [|c s IH]; [reflexivity|]. cbn [app closer_ahead].
  rewrite IH. reflexivity.
Qed.

Lemma stc_keeps (x : N) (r : jsstring) :
  (x =? ch ",") = false -> visible x = true ->
  stripTrailingCommas (x :: r) = x :: stripTrailingCommas r.
Proof. intros Hx _. cbn [stripTrailingCommas]. rewrite Hx. reflexivity. Qed.

Lemma stc_keeps_comma (r : jsstring) :
  guard r = true ->
  stripTrailingCommas (ch "," :: r) = ch "," :: stripTrailingCommas r.
Proof.
  intros Hr. cbn [stripTrailingCommas]. rewrite (guard_closer_ahead r Hr).
  rewrite andb_false_r. reflexivity.
Qed.

Lemma stc_string (s rest : jsstring) :
  stripTrailingCommas (s ++ dquote :: rest)
  = stripTrailingCommas s ++ dquote :: stripTrailingCommas rest.
Proof.
  induction s as [|c s IH]; [reflexivity|].
  cbn [app stripTrailingCommas]. rewrite closer_ahead_quote, IH.
  destruct ((c =? ch ",") && closer_ahead s); reflexivity.
Qed.

Lemma si_keeps (x : N) (r : jsstring) :
  (x =? ch ",") = false -> visible x = true ->
  stripInvisible (x :: r) = x :: stripInvisible r.
Proof.
  intros _ Hx. unfold visible in Hx. apply andb_true_iff in Hx as [Hb Hz].
  unfold stripInvisible. cbn [filter]. rewrite Hb. cbn [filter]. rewrite Hz.
  reflexivity.
Qed.

Lemma si_keeps_comma (r : jsstring) :
  guard r = true -> stripInvisible (ch "," :: r) = ch "," :: stripInvisible r.
Proof. intros _. reflexivity. Qed.

Lemma si_string (s rest : jsstring) :
  stripInvisible (s ++ dquote :: rest)
  = stripInvisible s ++ dquote :: stripInvisible rest.
Proof. unfold stripInvisible. rewrite !filter_app. reflexivity. Qed.

Lemma dfc_keeps (x : N) (r : jsstring) :
  (x =? ch ",") = false -> visible x = true ->
  dropFinalComma (x :: r) = x :: dropFinalComma r.
Proof. intros Hx _. cbn [dropFinalComma]. rewrite Hx. reflexivity. Qed.

Lemma dfc_keeps_comma (r : jsstring) :
  guard r = true -> dropFinalComma (ch "," :: r) = ch "," :: dropFinalComma r.
Proof.
  intros Hr. cbn [dropFinalComma]. rewrite (guard_not_ws r Hr).
  rewrite andb_false_r. reflexivity.
Qed.

Lemma dfc_string (s rest : jsstring) :
  dropFinalComma (s ++ dquote :: rest) = s ++ dquote :: dropFinalComma rest.
Proof.
  induction s as [|c s IH]; [reflexivity|].
  cbn [app dropFinalComma]. rewrite forallb_app. cbn [forallb].
  change (is_ws dquote) with false. rewrite andb_false_r, andb_false_r, IH.
  reflexivity.
Qed.

(** *** Strings stay strings *)

Lemma si_valid_string (s : jsstring) :
  valid_string s = true -> valid_string (stripInvisible s) = true.
Proof.
  revert s. apply string_induction.
  - reflexivity.
  - intros c r Hq Hb Hc _ IH.
    assert (Hcases : stripInvisible (c :: r) = c :: stripInvisible r
                     \/ stripInvisible (c :: r) = stripInvisible r).
    { unfold stripInvisible. cbn [filter]. destruct (negb (is_bom c)); [|tauto].
      cbn [filter]. destruct (negb (is_zero_width c)); tauto. }
    destruct Hcases as [-> | ->]; [|exact IH].
    cbn [valid_string]. rewrite Hq, Hb, Hc. exact IH.
  - intros e r He _ IH.
    destruct (escape_char_facts e (or_introl He)) as (Hc & _ & Hv).
    rewrite si_keeps by reflexivity. rewrite (si_keeps e _ Hc Hv).
    cbn [valid_string]. change (ch "\" =? dquote) with false.
    rewrite N.eqb_refl, He. exact IH.
  - intros h1 h2 h3 h4 r H1 H2 H3 H4 _ IH.
    rewrite si_keeps by reflexivity.
    rewrite (si_keeps (ch "u")) by reflexivity.
    destruct (escape_char_facts h1 (or_intror (or_intror H1))) as (C1 & _ & V1).
    destruct (escape_char_facts h2 (or_intror (or_intror H2))) as (C2 & _ & V2).
    destruct (escape_char_facts h3 (or_intror (or_intror H3))) as (C3 & _ & V3).
    destruct (escape_char_facts h4 (or_intror (or_intror H4))) as (C4 & _ & V4).
    rewrite (si_keeps h1 _ C1 V1), (si_keeps h2 _ C2 V2), (si_keeps h3 _ C3 V3),
      (si_keeps h4 _ C4 V4).
    cbn [valid_string]. change (ch "\" =? dquote) with false.
    rewrite N.eqb_refl. change (Json.is_simple_escape (ch "u")) with false.
    rewrite N.eqb_refl, H1, H2, H3, H4. exact IH.
Qed.

Lemma stc_valid_string (s : jsstring) :
  valid_string s = true -> valid_string (stripTrailingCommas s) = true.
Proof.
  revert s. apply string_induction.
  - reflexivity.
  - intros c r Hq Hb Hc _ IH. cbn [stripTrailingCommas].
    destruct ((c =? ch ",") && closer_ahead r); [exact IH|].
    cbn [valid_string]. rewrite Hq, Hb, Hc. exact IH.
  - intros e r He _ IH.
    destruct (escape_char_facts e (or_introl He)) as (Hc & _ & Hv).
    rewrite stc_keeps by reflexivity. rewrite (stc_keeps e _ Hc Hv).
    cbn [valid_string]. change (ch "\" =? dquote) with false.
    rewrite N.eqb_refl, He. exact IH.
  - intros h1 h2 h3 h4 r H1 H2 H3 H4 _ IH.
    rewrite stc_keeps by reflexivity.
    rewrite (stc_keeps (ch "u")) by reflexivity.
    destruct (escape_char_facts h1 (or_intror (or_intror H1))) as (C1 & _ & V1).
    destruct (escape_char_facts h2 (or_intror (or_intror H2))) as (C2 & _ & V2).
    destruct (escape_char_facts h3 (or_intror (or_intror H3))) as (C3 & _ & V3).
    destruct (escape_char_facts h4 (or_intror (or_intror H4))) as (C4 & _ & V4).
    rewrite (stc_keeps h1 _ C1 V1), (stc_keeps h2 _ C2 V2), (stc_keeps h3 _ C3 V3),
      (stc_keeps h4 _ C4 V4).
    cbn [valid_string]. change (ch "\" =? dquote) with false.
    rewrite N.eqb_refl. change (Json.is_simple_escape (ch "u")) with false.
    rewrite N.eqb_refl, H1, H2, H3, H4. exact IH.
Qed.

Lemma cleanString_valid (s : jsstring) :
  valid_string s = true -> valid_string (cleanString s) = true.
Proof.
  intros Hs. unfold cleanString.
  apply stc_valid_string, stc_valid_string, si_valid_string, Hs.
Qed.

(** *** Mapping the strings of a document *)

Section Mapping.
Variable g : jsstring -> jsstring.
Hypothesis g_valid : forall s, valid_string s = true -> valid_string (g s) = true.

Lemma mapKey_valid (k : key) : valid_key k = true -> valid_key (mapKey g k) = true.
Proof.
  unfold valid_key. cbn [mapKey key_before key_name key_after].
  rewrite !andb_true_iff. intros [[Hb Hn] Ha]. auto.
Qed.

Lemma mapJson_valid (v : json) : valid v = true -> valid (mapJson g v) = true.
Proof.
  revert v. apply (valid_induction (fun v => valid (mapJson g v) = true)).
  - intros t Ht. exact Ht.
  - intros s Hs. apply g_valid, Hs.
  - intros gap items Hgap _ Hitems. cbn [mapJson valid]. rewrite Hgap.
    apply forallb_forall. intros y Hy. apply in_map_iff in Hy as (x & <- & Hx).
    apply (proj1 (Forall_forall _ _) Hitems x Hx).
  - intros gap members Hgap _ Hmembers. cbn [mapJson valid]. rewrite Hgap.
    apply forallb_forall. intros y Hy. apply in_map_iff in Hy as (kv & <- & Hkv).
    destruct (proj1 (Forall_forall _ _) Hmembers kv Hkv) as [Hk Hv].
    cbn [fst snd]. rewrite (mapKey_valid _ Hk), Hv. reflexivity.
  - intros a v b Ha _ Hb IH. cbn [mapJson valid]. rewrite Ha, IH, Hb. reflexivity.
Qed.

Lemma mapJson_all_valid (items : list json) :
  forallb valid items = true -> forallb valid (map (mapJson g) items) = true.
Proof.
  intros Hv. apply forallb_forall. intros y Hy.
  apply in_map_iff in Hy as (x & <- & Hx).
  apply mapJson_valid, (proj1 (forallb_forall _ _) Hv x Hx).
Qed.

Lemma mapMember_all_valid (members : list (key * json)) :
  forallb valid_member members = true ->
  forallb valid_member (map (mapMember g) members) = true.
Proof.
  intros Hv. apply forallb_forall. intros y Hy.
  apply in_map_iff in Hy as (kv & <- & Hkv).
  pose proof (proj1 (forallb_forall _ _) Hv kv Hkv) as Hvkv.
  apply andb_true_iff in Hvkv as [Hk Hx]. unfold valid_member, mapMember.
  cbn [fst snd]. rewrite (mapKey_valid _ Hk), (mapJson_valid _ Hx). reflexivity.
Qed.

Lemma nonempty_map {A B} (h : A -> B) (l : list A) : nonempty (map h l) = nonempty l.
Proof. destruct l; reflexivity. Qed.

Lemma mapCut_valid (c : cut) : valid_cut c = true -> valid_cut (mapCut g c) = true.
Proof.
  induction c as [s|v| | |gap done|gap done|gap done c IH|gap done key c IH|a c IH];
    cbn [valid_cut mapCut]; rewrite ?andb_true_iff, ?nonempty_map;
    intros Hv; try exact Hv.
  - apply g_valid, Hv.
  - apply mapJson_valid, Hv.
  - destruct Hv as [[Hgap Hv] Hne]. auto using mapJson_all_valid.
  - destruct Hv as [[Hgap Hv] Hne]. auto using mapMember_all_valid.
  - destruct Hv as [[Hgap Hv] Hc]. auto using mapJson_all_valid.
  - destruct Hv as [[[Hgap Hv] Hk] Hc].
    auto using mapMember_all_valid, mapKey_valid.
  - destruct Hv as [Ha Hc]. auto.
Qed.

Lemma mapCut_opens (c : cut) : opens (mapCut g c) = opens c.
Proof.
  induction c as [s|v| | |gap done|gap done|gap done c IH|gap done key c IH|a c IH];
    cbn [opens mapCut]; rewrite ?IH; reflexivity.
Qed.


End Mapping.

Lemma map_Forall_eq {A B} (h k : A -> B) (l : list A) :
  Forall (fun x => h x = k x) l -> map h l = map k l.
Proof. induction 1; cbn [map]; congruence. Qed.


Lemma mapJson_compose (g1 g2 : jsstring -> jsstring) (v : json) :
  valid v = true ->
  mapJson g2 (mapJson g1 v) = mapJson (fun s => g2 (g1 s)) v.
Proof.
  revert v. apply (valid_induction
    (fun v => mapJson g2 (mapJson g1 v) = mapJson (fun s => g2 (g1 s)) v)).
  - reflexivity.
  - reflexivity.
  - intros gap items _ _ Hitems. cbn [mapJson]. rewrite map_map.
    f_equal. apply map_Forall_eq, Hitems.
  - intros gap members _ _ Hmembers. cbn [mapJson]. rewrite map_map.
    f_equal. apply map_Forall_eq. revert Hmembers. apply Forall_impl.
    intros kv [_ Hv]. cbn [fst snd]. rewrite Hv. reflexivity.
  - intros a v b _ _ _ IH. cbn [mapJson]. rewrite IH. reflexivity.
Qed.

Lemma mapJson_all_compose (g1 g2 : jsstring -> jsstring) (items : list json) :
  forallb valid items = true ->
  map (mapJson g2) (map (mapJson g1) items)
  = map (mapJson (fun s => g2 (g1 s))) items.
Proof.
  intros Hv. rewrite map_map. apply map_Forall_eq, Forall_forall.
  intros x Hx. apply mapJson_compose, (proj1 (forallb_forall _ _) Hv x Hx).
Qed.

Lemma mapMember_all_compose (g1 g2 : jsstring -> jsstring)
    (members : list (key * json)) :
  forallb valid_member members = true ->
  map (mapMember g2) (map (mapMember g1) members)
  = map (mapMember (fun s => g2 (g1 s))) members.
Proof.
  intros Hv. rewrite map_map. apply map_Forall_eq, Forall_forall.
  intros kv Hkv. pose proof (proj1 (forallb_forall _ _) Hv kv Hkv) as Hvkv.
  apply andb_true_iff in Hvkv as [_ Hx]. unfold mapMember. cbn [fst snd].
  rewrite (mapJson_compose g1 g2 _ Hx). reflexivity.
Qed.

Lemma mapCut_compose (g1 g2 : jsstring -> jsstring) (c : cut) :
  valid_cut c = true ->
  mapCut g2 (mapCut g1 c) = mapCut (fun s => g2 (g1 s)) c.
Proof.
  induction c as [s|v| | |gap done|gap done|gap done c IH|gap done key c IH|a c IH];
    cbn [valid_cut mapCut]; rewrite ?andb_true_iff; intros Hv; try reflexivity.
  - rewrite (mapJson_compose g1 g2 v Hv). reflexivity.
  - destruct Hv as [[_ Hv] _]. rewrite (mapJson_all_compose g1 g2 _ Hv).
    reflexivity.
  - destruct Hv as [[_ Hv] _]. rewrite (mapMember_all_compose g1 g2 _ Hv).
    reflexivity.
  - destruct Hv as [[_ Hv] Hc].
    rewrite (mapJson_all_compose g1 g2 _ Hv), (IH Hc). reflexivity.
  - destruct Hv as [[[_ Hv] _] Hc].
    rewrite (mapMember_all_compose g1 g2 _ Hv), (IH Hc). reflexivity.
  - destruct Hv as [_ Hc]. rewrite (IH Hc). reflexivity.
Qed.

Lemma mapJson_same (v : json) : valid v = true -> mapJson (fun s => s) v = v.
Proof.
  revert v. apply (valid_induction (fun v => mapJson (fun s => s) v = v)).
  - reflexivity.
  - reflexivity.
  - intros gap items _ _ Hitems. cbn [mapJson]. f_equal.
    rewrite <- (map_id items) at 2. apply map_Forall_eq, Hitems.
  - intros gap members _ _ Hmembers. cbn [mapJson]. f_equal.
    rewrite <- (map_id members) at 2. apply map_Forall_eq.
    revert Hmembers. apply Forall_impl. intros [[kb kn ka] v] [_ Hv].
    cbn [fst snd] in *. rewrite Hv. reflexivity.
  - intros a v b _ _ _ IH. cbn [mapJson]. rewrite IH. reflexivity.
Qed.

Lemma mapCut_same (c : cut) : valid_cut c = true -> mapCut (fun s => s) c = c.
Proof.
  assert (Hitems : forall items, forallb valid items = true ->
                                 map (mapJson (fun s => s)) items = items).
  { intros items Hv. rewrite <- (map_id items) at 2.
    apply map_Forall_eq, Forall_forall. intros x Hx.
    apply mapJson_same, (proj1 (forallb_forall _ _) Hv x Hx). }
  assert (Hmembers : forall members, forallb valid_member members = true ->
                                     map (mapMember (fun s => s)) members = members).
  { intros members Hv. rewrite <- (map_id members) at 2.
    apply map_Forall_eq, Forall_forall. intros [[kb kn ka] v] Hkv.
    pose proof (proj1 (forallb_forall _ _) Hv _ Hkv) as Hvkv.
    apply andb_true_iff in Hvkv as [_ Hx]. unfold mapMember. cbn [fst snd] in *.
    rewrite (mapJson_same _ Hx). reflexivity. }
  induction c as [s|v| | |gap done|gap done|gap done c IH|gap done key c IH|a c IH];
    cbn [valid_cut mapCut]; rewrite ?andb_true_iff; intros Hv; try reflexivity.
  - rewrite (mapJson_same v Hv). reflexivity.
  - destruct Hv as [[_ Hv] _]. rewrite (Hitems _ Hv). reflexivity.
  - destruct Hv as [[_ Hv] _]. rewrite (Hmembers _ Hv). reflexivity.
  - destruct Hv as [[_ Hv] Hc]. rewrite (Hitems _ Hv), (IH Hc). reflexivity.
  - destruct Hv as [[[_ Hv] _] Hc]. rewrite (Hmembers _ Hv), (IH Hc).
    destruct key. reflexivity.
  - destruct Hv as [_ Hc]. rewrite (IH Hc). reflexivity.
Qed.

(** *** The passes over a cut *)

Lemma si_cutText (closed comma : bool) (c : cut) :
  valid_cut c = true ->
  stripInvisible (cutText closed comma c)
  = cutText closed comma (mapCut stripInvisible c).
Proof.
  apply (f_cutText stripInvisible stripInvisible si_keeps si_keeps_comma si_string
           closed comma comma eq_refl).
  - destruct comma; reflexivity.
  - reflexivity.
Qed.

Lemma stc_cutText (closed comma : bool) (c : cut) :
  valid_cut c = true ->
  stripTrailingCommas (cutText closed comma c)
  = cutText closed comma (mapCut stripTrailingCommas c).
Proof.
  apply (f_cutText stripTrailingCommas stripTrailingCommas stc_keeps stc_keeps_comma
           stc_string closed comma comma eq_refl).
  - destruct comma; reflexivity.
  - reflexivity.
Qed.

(** dropFinalComma drops the dangling comma of a cut, and nothing else. *)
Lemma dfc_cutText (c : cut) :
  valid_cut c = true -> dropFinalComma (cutText true true c) = cutText true false c.
Proof.
  intros Hv.
  rewrite (f_cutText dropFinalComma (fun s => s) dfc_keeps dfc_keeps_comma
             dfc_string true true false eq_refl eq_refl) by (discriminate || exact Hv).
  rewrite (mapCut_same c Hv). reflexivity.
Qed.

Lemma render_cut_cutText (c : cut) : render_cut c = cutText false true c.
Proof.
  induction c as [s|v| | |gap done|gap done|gap done c IH|gap done key c IH|a c IH];
    cbn [render_cut cutText dangling]; rewrite ?IH, ?app_nil_r; reflexivity.
Qed.

(** Closing the string of a cut that ends in one. *)
Lemma close_string_cutText (c : cut) :
  (if inStr c then render_cut c ++ [dquote] else render_cut c) = cutText true true c.
Proof.
  induction c as [s|v| | |gap done|gap done|gap done c IH|gap done key c IH|a c IH];
    cbn [inStr render_cut cutText dangling]; try reflexivity.
  - rewrite <- IH. destruct (inStr c); rewrite <- ?app_assoc; reflexivity.
  - rewrite <- IH. destruct (inStr c); rewrite <- ?app_assoc; reflexivity.
  - rewrite <- IH. destruct (inStr c); rewrite <- ?app_assoc; reflexivity.
Qed.

(** ** The scanner over documents and cuts *)

Lemma scan_plain (a : jsstring) (st : list N) :
  forallb scan_plain_char a = true ->
  fold_left scan_step a (outside st) = outside st.
Proof.
  induction a as [|c a IH]; [reflexivity|]. cbn [forallb fold_left].
  unfold scan_plain_char at 1.
  rewrite !andb_true_iff, !negb_true_iff. intros [[[[[Hq Ho] Ha] Hc] Hk] Hr].
  unfold scan_step at 2. cbn [outside inString].
  rewrite Hq, Ho, Ha, Hc, Hk. cbn [orb]. apply IH, Hr.
Qed.

Lemma scan_gap (gap : jsstring) (st : list N) :
  json_ws gap = true -> fold_left scan_step gap (outside st) = outside st.
Proof.
  intros Hg. apply scan_plain. revert Hg. apply MarkupFacts.forallb_impl.
  intros c Hc.
  apply json_ws_char_facts in Hc as (Hq & _ & _ & _ & _ & Ho & Ha & Hcl & Hk).
  unfold scan_plain_char. rewrite Hq, Ho, Ha, Hcl, Hk. reflexivity.
Qed.

(** Inside a string the scanner is back in its state after every
    character and every escape. *)
Lemma scan_string (s : jsstring) (st : list N) :
  valid_string s = true -> fold_left scan_step s (inside st) = inside st.
Proof.
  revert s. apply (string_induction
    (fun s => fold_left scan_step s (inside st) = inside st)).
  - reflexivity.
  - intros c r Hq Hb _ _ IH. cbn [fold_left]. unfold scan_step at 2.
    cbn [inside inString escaped]. rewrite Hb, Hq. exact IH.
  - intros e r _ _ IH. exact IH.
  - intros h1 h2 h3 h4 r H1 H2 H3 H4 _ IH.
    apply hex_not_quote in H1 as [Q1 B1]. apply hex_not_quote in H2 as [Q2 B2].
    apply hex_not_quote in H3 as [Q3 B3]. apply hex_not_quote in H4 as [Q4 B4].
    cbn [fold_left].
    change (scan_step (scan_step (inside st) (ch "\")) (ch "u")) with (inside st).
    unfold scan_step at 5. cbn [inside inString escaped]. rewrite B1, Q1.
    unfold scan_step at 4. cbn [inside inString escaped]. rewrite B2, Q2.
    unfold scan_step at 3. cbn [inside inString escaped]. rewrite B3, Q3.
    unfold scan_step at 2. cbn [inside inString escaped]. rewrite B4, Q4.
    exact IH.
Qed.

Lemma scan_quote (s : jsstring) (st : list N) :
  valid_string s = true ->
  fold_left scan_step (quote s) (outside st) = outside st.
Proof.
  intros Hs. unfold quote. cbn [fold_left].
  change (scan_step (outside st) dquote) with (inside st).
  rewrite fold_left_app, (scan_string s st Hs). reflexivity.
Qed.

Lemma scan_keyText (k : key) (st : list N) :
  valid_key k = true -> fold_left scan_step (keyText k) (outside st) = outside st.
Proof.
  unfold valid_key, keyText. rewrite !andb_true_iff. intros [[Hb Hn] Ha].
  rewrite !fold_left_app, (scan_gap _ _ Hb), (scan_quote _ _ Hn), (scan_gap _ _ Ha).
  reflexivity.
Qed.

Lemma scan_sepBy (texts : list jsstring) (st : list N) :
  Forall scans texts -> fold_left scan_step (sepBy texts) (outside st) = outside st.
Proof.
  intros Ht. induction texts as [|x r IH]; [reflexivity|].
  inversion Ht as [|? ? Hx Hr]; subst. destruct r as [|y r'].
  - cbn [sepBy]. rewrite app_nil_r. apply Hx.
  - rewrite sepBy_cons by discriminate. rewrite !fold_left_app, Hx.
    change (fold_left scan_step (lit ",") (outside st)) with (outside st).
    apply IH, Hr.
Qed.

Lemma scan_leading (texts : list jsstring) (st : list N) :
  Forall scans texts -> fold_left scan_step (leading texts) (outside st) = outside st.
Proof.
  intros Ht. induction texts as [|x r IH]; [reflexivity|].
  inversion Ht as [|? ? Hx Hr]; subst.
  rewrite leading_cons, !fold_left_app, Hx.
  change (fold_left scan_step (lit ",") (outside st)) with (outside st).
  apply IH, Hr.
Qed.

(** The scanner is back in its state after a whole document. *)
Lemma scan_render (v : json) : valid v = true -> scans (render v).
Proof.
  revert v. apply (valid_induction (fun v => scans (render v))).
  - intros t Ht st. cbn [render]. apply scan_plain.
    apply valid_atom_chars in Ht. revert Ht. apply MarkupFacts.forallb_impl.
    intros c Hc.
    apply atom_char_facts in Hc as (Hq & _ & _ & _ & _ & Ho & Ha & Hcl & Hk).
    unfold scan_plain_char. rewrite Hq, Ho, Ha, Hcl, Hk. reflexivity.
  - intros s Hs st. cbn [render]. apply scan_quote, Hs.
  - intros gap items Hgap _ Hitems st. cbn [render]. rewrite !fold_left_app.
    change (fold_left scan_step (lit "[") (outside st)) with (outside (ch "[" :: st)).
    rewrite (scan_gap _ _ Hgap).
    rewrite scan_sepBy by (apply Forall_map; exact Hitems). reflexivity.
  - intros gap members Hgap _ Hmembers st. cbn [render]. rewrite !fold_left_app.
    change (fold_left scan_step (lit "{") (outside st)) with (outside (ch "{" :: st)).
    rewrite (scan_gap _ _ Hgap).
    rewrite scan_sepBy; [reflexivity|].
    apply Forall_map. revert Hmembers. apply Forall_impl.
    intros kv [Hk Hv] st'. rewrite !fold_left_app, (scan_keyText _ _ Hk).
    apply Hv.
  - intros a v b Ha _ Hb IH st. cbn [render].
    rewrite !fold_left_app, (scan_gap _ _ Ha), IH, (scan_gap _ _ Hb). reflexivity.
Qed.

Lemma scan_items (items : list json) :
  forallb valid items = true -> Forall scans (map render items).
Proof.
  intros Hv. apply Forall_map, Forall_forall. intros x Hx.
  apply scan_render, (proj1 (forallb_forall _ _) Hv x Hx).
Qed.

Lemma scan_members (members : list (key * json)) :
  forallb valid_member members = true -> Forall scans (map member members).
Proof.
  intros Hv. apply Forall_map, Forall_forall. intros kv Hkv.
  pose proof (proj1 (forallb_forall _ _) Hv kv Hkv) as Hvkv.
  apply andb_true_iff in Hvkv as [Hk Hx]. intros st. unfold member.
  rewrite !fold_left_app, (scan_keyText _ _ Hk). apply scan_render, Hx.
Qed.

(** After a cut the scanner holds the open brackets, innermost on top,
    and knows whether the cut is inside a string. *)
Lemma scan_cut (c : cut) :
  valid_cut c = true ->
  forall st,
  fold_left scan_step (render_cut c) (outside st)
  = {| stack := opens c ++ st; inString := inStr c; escaped := false |}.
Proof.
  induction c as [s|v| | |gap done|gap done|gap done c IH|gap done key c IH|a c IH];
    cbn [valid_cut render_cut opens inStr]; rewrite ?andb_true_iff;
    intros Hv st.
  - cbn [fold_left]. change (scan_step (outside st) dquote) with (inside st).
    apply scan_string, Hv.
  - apply scan_render, Hv.
  - reflexivity.
  - reflexivity.
  - destruct Hv as [[Hgap Hv] _]. rewrite !fold_left_app.
    change (fold_left scan_step (lit "[") (outside st)) with (outside (ch "[" :: st)).
    rewrite (scan_gap _ _ Hgap), scan_sepBy by (apply scan_items, Hv). reflexivity.
  - destruct Hv as [[Hgap Hv] _]. rewrite !fold_left_app.
    change (fold_left scan_step (lit "{") (outside st)) with (outside (ch "{" :: st)).
    rewrite (scan_gap _ _ Hgap), scan_sepBy by (apply scan_members, Hv).
    reflexivity.
  - destruct Hv as [[Hgap Hv] Hc]. rewrite !fold_left_app.
    change (fold_left scan_step (lit "[") (outside st)) with (outside (ch "[" :: st)).
    rewrite (scan_gap _ _ Hgap), scan_leading by (apply scan_items, Hv).
    rewrite (IH Hc). rewrite <- app_assoc. reflexivity.
  - destruct Hv as [[[Hgap Hv] Hk] Hc]. rewrite !fold_left_app.
    change (fold_left scan_step (lit "{") (outside st)) with (outside (ch "{" :: st)).
    rewrite (scan_gap _ _ Hgap), scan_leading by (apply scan_members, Hv).
    rewrite (scan_keyText _ _ Hk), (IH Hc). rewrite <- app_assoc. reflexivity.
  - destruct Hv as [Ha Hc]. rewrite fold_left_app, (scan_gap _ _ Ha).
    apply IH, Hc.
Qed.

(** ** A cut, its completion and a document it is a prefix of *)

Lemma render_complete (c : cut) :
  render (complete c) = cutText true false c ++ map closer (opens c).
Proof.
  induction c as [s|v| | |gap done|gap done|gap done c IH|gap done key c IH|a c IH];
    cbn [complete cutText opens dangling].
  - cbn [render map]. rewrite app_nil_r. reflexivity.
  - cbn [map]. rewrite app_nil_r. reflexivity.
  - reflexivity.
  - reflexivity.
  - cbn [render]. rewrite <- !app_assoc. reflexivity.
  - cbn [render]. fold member. rewrite <- !app_assoc. reflexivity.
  - cbn [render]. rewrite map_app. cbn [map]. rewrite sepBy_snoc, IH.
    rewrite (map_app closer). rewrite <- !app_assoc. reflexivity.
  - cbn [render]. fold member. rewrite map_app. cbn [map].
    rewrite sepBy_snoc. unfold member at 2. cbn [fst snd]. rewrite IH.
    rewrite (map_app closer). rewrite <- !app_assoc. reflexivity.
  - cbn [render]. rewrite IH, app_nil_r, <- app_assoc. reflexivity.
Qed.

Lemma valid_Obj (gap : jsstring) (members : list (key * json)) :
  valid (Obj gap members) = json_ws gap && forallb valid_member members.
Proof. reflexivity. Qed.

Lemma valid_complete (c : cut) : valid_cut c = true -> valid (complete c) = true.
Proof.
  induction c as [s|v| | |gap done|gap done|gap done c IH|gap done key c IH|a c IH];
    cbn [valid_cut complete]; rewrite ?valid_Obj; cbn [valid];
    rewrite ?andb_true_iff, ?forallb_app; cbn [forallb];
    rewrite ?andb_true_iff; intros Hv; try exact Hv; try tauto.
  assert (Hm : valid_member (key, complete c) = true)
    by (unfold valid_member; cbn [fst snd]; rewrite andb_true_iff; tauto).
  tauto.
Qed.

Lemma valid_string_app (s w : jsstring) :
  valid_string s = true -> valid_string w = true -> valid_string (s ++ w) = true.
Proof.
  intros Hs Hw. revert s Hs. apply string_induction.
  - exact Hw.
  - intros c r Hq Hb Hc _ IH. cbn [app valid_string]. rewrite Hq, Hb, Hc. exact IH.
  - intros e r He _ IH. cbn [app valid_string].
    change (ch "\" =? dquote) with false. rewrite N.eqb_refl, He. exact IH.
  - intros h1 h2 h3 h4 r H1 H2 H3 H4 _ IH. cbn [app valid_string].
    change (ch "\" =? dquote) with false. rewrite N.eqb_refl.
    change (Json.is_simple_escape (ch "u")) with false.
    rewrite N.eqb_refl, H1, H2, H3, H4. exact IH.
Qed.

Lemma valid_extend (w : jsstring) (c : cut) :
  valid_cut c = true -> json_ws w = true ->
  (inStr c = true -> valid_string w = true) ->
  valid (extend w c) = true.
Proof.
  intros Hv Hw. revert Hv.
  induction c as [s|v| | |gap done|gap done|gap done c IH|gap done key c IH|a c IH];
    cbn [valid_cut extend inStr]; rewrite ?valid_Obj; cbn [valid];
    rewrite ?andb_true_iff, ?forallb_app; cbn [forallb];
    rewrite ?andb_true_iff; intros Hv Hin; try tauto.
  - apply valid_string_app; [exact Hv|apply Hin; reflexivity].
  - cbn [valid]. rewrite Hw. tauto.
  - assert (Hm : valid_member
                   ({| key_before := w; key_name := []; key_after := [] |},
                    Atom (lit "0")) = true).
    { unfold valid_member, valid_key. cbn [fst snd key_before key_name key_after].
      rewrite Hw. reflexivity. }
    tauto.
  - assert (Hm : valid_member (key, extend w c) = true)
      by (unfold valid_member; cbn [fst snd]; rewrite andb_true_iff; tauto).
    tauto.
Qed.

(** A cut and the text that follows it begin the text of a document. *)
Lemma cut_is_prefix (w : jsstring) (c : cut) :
  valid_cut c = true ->
  exists rest, render (extend w c) = render_cut c ++ w ++ rest.
Proof.
  induction c as [s|v| | |gap done|gap done|gap done c IH|gap done key c IH|a c IH];
    cbn [valid_cut extend render_cut]; rewrite ?andb_true_iff; intros Hv.
  - exists [dquote]. cbn [render]. unfold quote. rewrite <- app_assoc. reflexivity.
  - exists []. cbn [render app]. rewrite app_nil_r. reflexivity.
  - exists (lit "]"). reflexivity.
  - exists (lit "}"). reflexivity.
  - destruct Hv as [_ Hne]. exists (lit "0]"). cbn [render].
    rewrite map_app. cbn [map render]. rewrite sepBy_snoc.
    rewrite <- sepBy_leading by (destruct done; discriminate).
    rewrite <- !app_assoc. reflexivity.
  - destruct Hv as [_ Hne]. exists (quote [] ++ lit ":0}"). cbn [render].
    fold member. rewrite map_app. cbn [map]. rewrite sepBy_snoc.
    unfold member at 2, keyText. cbn [fst snd render key_before key_name key_after].
    rewrite <- sepBy_leading by (destruct done; discriminate).
    rewrite <- !app_assoc. reflexivity.
  - destruct Hv as [_ Hc]. destruct (IH Hc) as [rest Hrest].
    exists (rest ++ lit "]"). cbn [render].
    rewrite map_app. cbn [map]. rewrite sepBy_snoc, Hrest.
    rewrite <- !app_assoc. reflexivity.
  - destruct Hv as [_ Hc]. destruct (IH Hc) as [rest Hrest].
    exists (rest ++ lit "}"). cbn [render]. fold member.
    rewrite map_app. cbn [map]. rewrite sepBy_snoc. unfold member at 2.
    cbn [fst snd]. rewrite Hrest. rewrite <- !app_assoc. reflexivity.
  - destruct Hv as [_ Hc]. destruct (IH Hc) as [rest Hrest].
    exists rest. cbn [render]. rewrite Hrest, app_nil_r, <- !app_assoc.
    reflexivity.
Qed.

Lemma render_cut_nonempty (c : cut) : valid_cut c = true -> render_cut c <> [].
Proof.
  intros Hv Hnil. pose proof (guard_cutText false true c Hv []) as Hg.
  rewrite <- render_cut_cutText, Hnil in Hg. discriminate.
Qed.

(** What [trim] leaves of a text between white space. *)
Lemma trim_tight (a x w : jsstring) :
  forallb is_ws a = true -> forallb is_ws w = true -> x <> [] ->
  tight x = true -> trim (a ++ x ++ w) = x.
Proof.
  intros Ha Hw Hne Ht. unfold tight in Ht. apply andb_true_iff in Ht as [Hh Hl].
  apply negb_true_iff in Hh, Hl.
  assert (Hstart : forall a y, forallb is_ws a = true -> trimStart (a ++ y) = trimStart y).
  { clear. induction a as [|c a IH]; [reflexivity|]. cbn [forallb app trimStart].
    intros y Hc. apply andb_true_iff in Hc as [Hc Ha]. rewrite Hc. apply IH, Ha. }
  unfold trim. rewrite (Hstart a _ Ha).
  rewrite trimStart_fixed by (destruct x; [congruence|exact Hh]).
  unfold trimEnd. rewrite rev_app_distr.
  rewrite (Hstart (rev w)).
  - rewrite trimStart_fixed; [apply rev_involutive|].
    rewrite last_rev_head in Hl. destruct (rev x); [exact I|exact Hl].
  - rewrite forallb_forall in *. intros c Hc. apply Hw, in_rev, Hc.
Qed.

(** ** The cut that trim leaves *)

Lemma render_nonempty (v : json) : valid v = true -> render v <> [].
Proof.
  intros Hv Hnil. pose proof (guard_render v Hv []) as Hg.
  rewrite Hnil in Hg. discriminate.
Qed.

Lemma forallb_last {A} (p : A -> bool) (s : list A) (d : A) :
  forallb p s = true -> s <> [] -> p (last s d) = true.
Proof.
  intros Hs Hne. destruct (exists_last Hne) as (l & x & ->). rewrite last_last.
  rewrite forallb_app in Hs. apply andb_true_iff in Hs as [_ Hx].
  cbn in Hx. rewrite andb_true_r in Hx. exact Hx.
Qed.

Lemma hd_app_nonempty {A} (x y : list A) (d : A) : x <> [] -> hd d (x ++ y) = hd d x.
Proof. destruct x; [congruence|reflexivity]. Qed.

Lemma last_closed (x : jsstring) (c : N) : last (x ++ [c]) 0 = c.
Proof. apply last_last. Qed.

Lemma trimStart_parts (s : jsstring) :
  exists l, s = l ++ trimStart s /\ forallb is_ws l = true.
Proof.
  induction s as [|c r (l & E & Hl)]; [exists []; split; reflexivity|].
  cbn [trimStart]. destruct (is_ws c) eqn:Ec.
  - exists (c :: l). cbn [app forallb]. rewrite <- E, Ec, Hl. split; reflexivity.
  - exists []. split; reflexivity.
Qed.

Lemma trimEnd_parts (s : jsstring) :
  exists t, s = trimEnd s ++ t /\ forallb is_ws t = true
            /\ (trimEnd s = [] \/ is_ws (last (trimEnd s) 0) = false).
Proof.
  unfold trimEnd. destruct (trimStart_parts (rev s)) as (l & E & Hl).
  exists (rev l). split; [|split].
  - rewrite <- rev_app_distr, <- E. symmetry. apply rev_involutive.
  - rewrite forallb_forall in *. intros c Hc. apply Hl, in_rev, Hc.
  - rewrite last_rev_head, rev_involutive.
    pose proof (trimStart_head (rev s)) as Hh.
    destruct (trimStart (rev s)); [left; reflexivity|right; exact Hh].
Qed.

(** A string cut before white space is a string. *)
Lemma valid_string_before_ws (t : jsstring) :
  forallb is_ws t = true ->
  forall s, valid_string (s ++ t) = true -> valid_string s = true.
Proof.
  intros Ht.
  assert (Hhex : forall h r, t = h :: r -> Json.is_hex h = false).
  { intros h r ->. cbn [forallb] in Ht. apply andb_true_iff in Ht as [Hw _].
    apply ws_escape_facts in Hw. tauto. }
  assert (Hlen : forall n s, (List.length s <= n)%nat ->
                             valid_string (s ++ t) = true -> valid_string s = true).
  { induction n as [|n IH]; intros s Hn Hv.
    - destruct s; [reflexivity|cbn in Hn; lia].
    - destruct s as [|c r]; [reflexivity|]. cbn [app valid_string] in Hv |- *.
      cbn [List.length] in Hn.
      destruct (c =? dquote); [discriminate|]. destruct (c =? ch "\").
      + destruct r as [|e r1].
        * cbn [app] in Hv. destruct t as [|e t1]; [discriminate|].
          cbn [forallb] in Ht. apply andb_true_iff in Ht as [Hw _].
          apply ws_escape_facts in Hw as (Hs & Hu & _).
          rewrite Hs, Hu in Hv. discriminate.
        * cbn [app] in Hv. cbn [List.length] in Hn.
          destruct (Json.is_simple_escape e); [apply IH; [lia|exact Hv]|].
          destruct (e =? ch "u"); [|discriminate].
          destruct r1 as [|h1 [|h2 [|h3 [|h4 r2]]]]; cbn [app] in Hv.
          -- destruct t as [|k1 [|k2 [|k3 [|k4 t']]]]; try discriminate.
             rewrite (Hhex k1 _ eq_refl) in Hv. discriminate.
          -- destruct t as [|k1 [|k2 [|k3 t']]]; try discriminate.
             rewrite (Hhex k1 _ eq_refl), andb_false_r in Hv. discriminate.
          -- destruct t as [|k1 [|k2 t']]; try discriminate.
             rewrite (Hhex k1 _ eq_refl), andb_false_r in Hv. discriminate.
          -- destruct t as [|k1 t']; try discriminate.
             rewrite (Hhex k1 _ eq_refl), andb_false_r in Hv. discriminate.
          -- cbn [List.length] in Hn. rewrite !andb_true_iff in Hv |- *.
             destruct Hv as [Hh Hv]. split; [exact Hh|apply IH; [lia|exact Hv]].
      + apply andb_true_iff in Hv as [Hc Hv]. rewrite Hc. apply IH; [lia|exact Hv]. }
  intros s. apply (Hlen (List.length s)). lia.
Qed.

Lemma rstrip_spec (v : json) :
  valid v = true ->
  valid (rstrip v) = true
  /\ is_ws (last (render (rstrip v)) 0) = false
  /\ hd 0 (render (rstrip v)) = hd 0 (render v)
  /\ exists t, json_ws t = true /\ render v = render (rstrip v) ++ t.
Proof.
  revert v. apply (valid_induction (fun v =>
    valid (rstrip v) = true
    /\ is_ws (last (render (rstrip v)) 0) = false
    /\ hd 0 (render (rstrip v)) = hd 0 (render v)
    /\ exists t, json_ws t = true /\ render v = render (rstrip v) ++ t)).
  - intros t Ht. cbn [rstrip render valid]. split; [exact Ht|]. split; [|split].
    + pose proof (forallb_last atom_char t 0 (valid_atom_chars t Ht)
                    (valid_atom_nonempty t Ht)) as Hl.
      apply atom_char_facts in Hl. tauto.
    + reflexivity.
    + exists []. rewrite app_nil_r. split; reflexivity.
  - intros s Hs. cbn [rstrip render valid]. split; [exact Hs|]. split; [|split].
    + unfold quote. change (dquote :: s ++ [dquote]) with ((dquote :: s) ++ [dquote]).
      rewrite last_closed. reflexivity.
    + reflexivity.
    + exists []. rewrite app_nil_r. split; reflexivity.
  - intros gap items Hgap Hitems _. cbn [rstrip render valid].
    split; [rewrite Hgap, Hitems; reflexivity|]. split; [|split].
    + rewrite !app_assoc. change (lit "]") with [ch "]"]. rewrite last_closed.
      reflexivity.
    + reflexivity.
    + exists []. rewrite app_nil_r. split; reflexivity.
  - intros gap members Hgap Hmembers _. cbn [rstrip render valid].
    split; [rewrite Hgap; exact Hmembers|]. split; [|split].
    + rewrite !app_assoc. change (lit "}") with [ch "}"]. rewrite last_closed.
      reflexivity.
    + reflexivity.
    + exists []. rewrite app_nil_r. split; reflexivity.
  - intros a v b Ha Hv Hb (Hv' & Hlast & Hhd & t & Ht & E).
    cbn [rstrip render valid]. rewrite app_nil_r.
    pose proof (render_nonempty _ Hv') as Hne'.
    pose proof (render_nonempty _ Hv) as Hne.
    split; [rewrite Ha, Hv'; reflexivity|]. split; [|split].
    + rewrite last_app_nonempty by exact Hne'. exact Hlast.
    + destruct a as [|x a']; [|reflexivity]. cbn [app].
      rewrite (hd_app_nonempty (render v)) by exact Hne. exact Hhd.
    + exists (t ++ b). split.
      * unfold json_ws in *. rewrite forallb_app, Ht, Hb. reflexivity.
      * rewrite E, <- !app_assoc. reflexivity.
Qed.

Lemma lstrip_spec (v : json) :
  valid v = true ->
  valid (lstrip v) = true
  /\ is_ws (hd 0 (render (lstrip v))) = false
  /\ exists l, json_ws l = true /\ render v = l ++ render (lstrip v).
Proof.
  revert v. apply (valid_induction (fun v =>
    valid (lstrip v) = true
    /\ is_ws (hd 0 (render (lstrip v))) = false
    /\ exists l, json_ws l = true /\ render v = l ++ render (lstrip v))).
  - intros t Ht. cbn [lstrip render valid]. split; [exact Ht|]. split.
    + pose proof (valid_atom_nonempty t Ht) as Hne.
      pose proof (valid_atom_chars t Ht) as Hc. destruct t as [|c t]; [congruence|].
      cbn [forallb] in Hc. apply andb_true_iff in Hc as [Hc _].
      apply atom_char_facts in Hc. cbn [hd]. tauto.
    + exists []. split; reflexivity.
  - intros s Hs. cbn [lstrip render valid]. split; [exact Hs|]. split.
    + reflexivity.
    + exists []. split; reflexivity.
  - intros gap items Hgap Hitems _. cbn [lstrip render valid].
    split; [rewrite Hgap, Hitems; reflexivity|]. split.
    + reflexivity.
    + exists []. split; reflexivity.
  - intros gap members Hgap Hmembers _. cbn [lstrip render valid].
    split; [rewrite Hgap; exact Hmembers|]. split.
    + reflexivity.
    + exists []. split; reflexivity.
  - intros a v b Ha Hv Hb (Hv' & Hhd & l & Hl & E).
    cbn [lstrip render valid app].
    pose proof (render_nonempty _ Hv') as Hne'.
    split; [rewrite Hv', Hb; reflexivity|]. split.
    + rewrite hd_app_nonempty by exact Hne'. exact Hhd.
    + exists (a ++ l). split.
      * unfold json_ws in *. rewrite forallb_app, Ha, Hl. reflexivity.
      * rewrite E, <- !app_assoc. reflexivity.
Qed.

Lemma lstripCut_spec (c : cut) :
  valid_cut c = true ->
  valid_cut (lstripCut c) = true
  /\ is_ws (hd 0 (render_cut (lstripCut c))) = false
  /\ exists l, json_ws l = true /\ render_cut c = l ++ render_cut (lstripCut c).
Proof.
  induction c as [s|v| | |gap done|gap done|gap done c IH|gap done key c IH|a c IH];
    intros Hv; cbn [lstripCut];
    try (split; [exact Hv|]; split; [reflexivity|];
         exists []; split; reflexivity).
  - cbn [valid_cut] in Hv. destruct (lstrip_spec v Hv) as (Hv' & Hhd & l & Hl & E).
    cbn [valid_cut render_cut]. split; [exact Hv'|]. split; [exact Hhd|].
    exists l. split; [exact Hl|exact E].
  - cbn [valid_cut] in Hv. apply andb_true_iff in Hv as [Ha Hc].
    destruct (IH Hc) as (Hv' & Hhd & l & Hl & E).
    split; [exact Hv'|]. split; [exact Hhd|]. exists (a ++ l). split.
    + unfold json_ws in *. rewrite forallb_app, Ha, Hl. reflexivity.
    + cbn [render_cut]. rewrite E, <- app_assoc. reflexivity.
Qed.

Lemma rstripCut_spec (c : cut) :
  valid_cut c = true ->
  valid_cut (rstripCut c) = true
  /\ is_ws (last (render_cut (rstripCut c)) 0) = false
  /\ hd 0 (render_cut (rstripCut c)) = hd 0 (render_cut c)
  /\ exists t, forallb is_ws t = true
               /\ render_cut c = render_cut (rstripCut c) ++ t.
Proof.
  induction c as [s|v| | |gap done|gap done|gap done c IH|gap done key c IH|a c IH];
    intros Hv; cbn [rstripCut].
  - cbn [valid_cut render_cut] in *.
    destruct (trimEnd_parts s) as (t & E & Ht & Hend).
    split; [|split; [|split]].
    + apply (valid_string_before_ws t Ht). rewrite <- E. exact Hv.
    + destruct Hend as [-> |Hend]; [reflexivity|].
      destruct (trimEnd s) as [|x r] eqn:Es; [reflexivity|].
      change (dquote :: x :: r) with ([dquote] ++ x :: r).
      rewrite last_app_nonempty by discriminate. exact Hend.
    + reflexivity.
    + exists t. split; [exact Ht|]. cbn [app]. rewrite <- E. reflexivity.
  - cbn [valid_cut render_cut] in *.
    destruct (rstrip_spec v Hv) as (Hv' & Hlast & Hhd & t & Ht & E).
    split; [exact Hv'|]. split; [exact Hlast|]. split; [exact Hhd|].
    exists t. split; [apply json_ws_is_ws, Ht|exact E].
  - split; [exact Hv|]. split; [reflexivity|]. split; [reflexivity|].
    exists []. split; reflexivity.
  - split; [exact Hv|]. split; [reflexivity|]. split; [reflexivity|].
    exists []. split; reflexivity.
  - split; [exact Hv|]. split; [|split; [reflexivity|]].
    + cbn [render_cut]. rewrite !app_assoc. change (lit ",") with [ch ","].
      rewrite last_closed. reflexivity.
    + exists []. rewrite app_nil_r. split; reflexivity.
  - split; [exact Hv|]. split; [|split; [reflexivity|]].
    + cbn [render_cut]. rewrite !app_assoc. change (lit ",") with [ch ","].
      rewrite last_closed. reflexivity.
    + exists []. rewrite app_nil_r. split; reflexivity.
  - cbn [valid_cut] in Hv. apply andb_true_iff in Hv as [Hd Hc].
    destruct (IH Hc) as (Hv' & Hlast & _ & t & Ht & E).
    cbn [valid_cut render_cut]. split; [rewrite Hd, Hv'; reflexivity|].
    split; [|split; [reflexivity|]].
    + rewrite !app_assoc.
      rewrite last_app_nonempty by (apply render_cut_nonempty, Hv'). exact Hlast.
    + exists t. split; [exact Ht|]. rewrite E, <- !app_assoc. reflexivity.
  - cbn [valid_cut] in Hv. apply andb_true_iff in Hv as [Hd Hc].
    destruct (IH Hc) as (Hv' & Hlast & _ & t & Ht & E).
    cbn [valid_cut render_cut]. split; [rewrite Hd, Hv'; reflexivity|].
    split; [|split; [reflexivity|]].
    + rewrite !app_assoc.
      rewrite last_app_nonempty by (apply render_cut_nonempty, Hv'). exact Hlast.
    + exists t. split; [exact Ht|]. rewrite E, <- !app_assoc. reflexivity.
  - cbn [valid_cut] in Hv. apply andb_true_iff in Hv as [Ha Hc].
    destruct (IH Hc) as (Hv' & Hlast & Hhd & t & Ht & E).
    cbn [valid_cut render_cut]. split; [rewrite Ha, Hv'; reflexivity|].
    split; [|split].
    + rewrite last_app_nonempty by (apply render_cut_nonempty, Hv'). exact Hlast.
    + destruct a as [|x a']; [exact Hhd|reflexivity].
    + exists t. split; [exact Ht|]. rewrite E, <- !app_assoc. reflexivity.
Qed.

(** A cut between white space is the cut that trim leaves, between white
    space. *)
Lemma tighten_spec (a w : jsstring) (c : cut) :
  forallb is_ws a = true -> forallb is_ws w = true -> valid_cut c = true ->
  valid_cut (tighten c) = true
  /\ tight (render_cut (tighten c)) = true
  /\ trim (a ++ render_cut c ++ w) = render_cut (tighten c).
Proof.
  intros Ha Hw Hv. unfold tighten.
  destruct (lstripCut_spec c Hv) as (Hv1 & Hhd1 & l & Hl & E1).
  destruct (rstripCut_spec _ Hv1) as (Hv2 & Hlast & Hhd & t & Ht & E2).
  assert (Htight : tight (render_cut (rstripCut (lstripCut c))) = true).
  { unfold tight. rewrite Hhd, Hhd1, Hlast. reflexivity. }
  split; [exact Hv2|]. split; [exact Htight|].
  rewrite E1, E2.
  replace (a ++ (l ++ render_cut (rstripCut (lstripCut c)) ++ t) ++ w)
    with ((a ++ l) ++ render_cut (rstripCut (lstripCut c)) ++ (t ++ w))
    by (rewrite <- !app_assoc; reflexivity).
  apply trim_tight.
  - rewrite forallb_app, Ha, (json_ws_is_ws l Hl). reflexivity.
  - rewrite forallb_app, Ht, Hw. reflexivity.
  - apply render_cut_nonempty, Hv2.
  - exact Htight.
Qed.

Section Repair.
Context `{Host}.

(** The structural repair of a cut is the text of its completion, with
    the strings as the passes leave them. *)
Lemma fixJSONStructure_cut (c : cut) :
  valid_cut c = true ->
  fixJSONStructure (render_cut c) = render (complete (mapCut cleanString c)).
Proof.
  intros Hv. unfold fixJSONStructure.
  set (c1 := mapCut stripInvisible c).
  set (c2 := mapCut stripTrailingCommas c1).
  assert (Hv1 : valid_cut c1 = true) by (apply mapCut_valid; [apply si_valid_string|exact Hv]).
  assert (Hv2 : valid_cut c2 = true) by (apply mapCut_valid; [apply stc_valid_string|exact Hv1]).
  rewrite render_cut_cutText, (si_cutText false true c Hv). fold c1.
  rewrite (stc_cutText false true c1 Hv1). fold c2.
  rewrite <- render_cut_cutText. unfold scan.
  change scan_init with (outside []). rewrite (scan_cut c2 Hv2 []).
  cbn [inString stack]. rewrite app_nil_r.
  rewrite close_string_cutText, (dfc_cutText c2 Hv2).
  rewrite (stc_cutText true false c2 Hv2).
  rewrite render_complete.
  assert (Hc3 : mapCut stripTrailingCommas c2 = mapCut cleanString c).
  { unfold c2. rewrite (mapCut_compose _ _ c1 Hv1). unfold c1.
    rewrite (mapCut_compose _ _ c Hv). reflexivity. }
  rewrite Hc3, mapCut_opens. unfold c2, c1. rewrite !mapCut_opens. reflexivity.
Qed.

End Repair.

End JsonRepair.

(** ** The recogniser accepts every document *)

Module JsonAccepts.
Import JsonDoc JsonDocFacts JsonRepair.

Lemma ends_number_digit (rest : jsstring) :
  ends_number rest = true ->
  match rest with [] => True | c :: _ => Json.is_digit c = false end.
Proof.
  destruct rest as [|c r]; [intros _; exact I|]. cbn [ends_number].
  rewrite !andb_true_iff, !negb_true_iff. tauto.
Qed.

Lemma skip_digits_app (r rest : jsstring) :
  ends_number rest = true ->
  Json.skip_digits (r ++ rest) = Json.skip_digits r ++ rest.
Proof.
  intros Hrest. induction r as [|c r IH].
  - cbn [app Json.skip_digits]. apply ends_number_digit in Hrest.
    destruct rest as [|d rest]; [reflexivity|]. cbn [Json.skip_digits].
    rewrite Hrest. reflexivity.
  - cbn [app Json.skip_digits]. destruct (Json.is_digit c); [exact IH|reflexivity].
Qed.

Lemma digits1_app (r x rest : jsstring) :
  ends_number rest = true ->
  Json.digits1 r = Some x -> Json.digits1 (r ++ rest) = Some (x ++ rest).
Proof.
  intros Hrest. destruct r as [|c r]; [discriminate|]. cbn [app Json.digits1].
  destruct (Json.is_digit c); [|discriminate].
  intros [= <-]. rewrite (skip_digits_app r rest Hrest). reflexivity.
Qed.

Lemma int_part_app (s x rest : jsstring) :
  ends_number rest = true ->
  Json.int_part s = Some x -> Json.int_part (s ++ rest) = Some (x ++ rest).
Proof.
  intros Hrest. destruct s as [|c r]; [discriminate|]. cbn [app Json.int_part].
  destruct (c =? ch "0"); [intros [= <-]; reflexivity|].
  destruct (Json.is_digit c); [|discriminate].
  intros [= <-]. rewrite (skip_digits_app r rest Hrest). reflexivity.
Qed.

Lemma frac_part_app (s x rest : jsstring) :
  ends_number rest = true ->
  Json.frac_part s = Some x -> Json.frac_part (s ++ rest) = Some (x ++ rest).
Proof.
  intros Hrest. destruct s as [|c r].
  - intros [= <-]. cbn [app]. destruct rest as [|d rest]; [reflexivity|].
    cbn [ends_number] in Hrest. rewrite !andb_true_iff, !negb_true_iff in Hrest.
    cbn [Json.frac_part].
    destruct Hrest as [[[_ Hdot] _] _]. rewrite Hdot. reflexivity.
  - cbn [app Json.frac_part]. destruct (c =? ch ".").
    + apply digits1_app, Hrest.
    + intros [= <-]. reflexivity.
Qed.

Lemma exp_part_app (s x rest : jsstring) :
  ends_number rest = true ->
  Json.exp_part s = Some x -> Json.exp_part (s ++ rest) = Some (x ++ rest).
Proof.
  intros Hrest. destruct s as [|c r].
  - intros [= <-]. cbn [app]. destruct rest as [|d rest]; [reflexivity|].
    cbn [ends_number] in Hrest. rewrite !andb_true_iff, !negb_true_iff in Hrest.
    cbn [Json.exp_part].
    destruct Hrest as [[[_ _] He] HE]. rewrite He, HE. reflexivity.
  - cbn [app Json.exp_part]. destruct ((c =? ch "e") || (c =? ch "E")).
    + destruct r as [|sg r1]; [discriminate|]. cbn [app].
      destruct ((sg =? ch "+") || (sg =? ch "-")).
      * apply digits1_app, Hrest.
      * apply (digits1_app (sg :: r1) x rest Hrest).
    + intros [= <-]. reflexivity.
Qed.

(** A number followed by text that cannot continue it. *)
Lemma number_app (t rest : jsstring) :
  ends_number rest = true ->
  Json.number t = Some [] -> Json.number (t ++ rest) = Some rest.
Proof.
  intros Hrest.
  assert (Hcore : forall s1,
    match Json.int_part s1 with
    | Some s2 => match Json.frac_part s2 with
                 | Some s3 => Json.exp_part s3
                 | None => None
                 end
    | None => None
    end = Some [] ->
    match Json.int_part (s1 ++ rest) with
    | Some s2 => match Json.frac_part s2 with
                 | Some s3 => Json.exp_part s3
                 | None => None
                 end
    | None => None
    end = Some rest).
  { intros s1.
    destruct (Json.int_part s1) as [s2|] eqn:E2; [|discriminate].
    rewrite (int_part_app s1 s2 rest Hrest E2).
    destruct (Json.frac_part s2) as [s3|] eqn:E3; [|discriminate].
    rewrite (frac_part_app s2 s3 rest Hrest E3).
    intros E4. rewrite (exp_part_app s3 [] rest Hrest E4). reflexivity. }
  unfold Json.number. destruct t as [|c r]; [discriminate|]. cbn [app].
  destruct (c =? ch "-"); [apply Hcore|apply (Hcore (c :: r))].
Qed.

Lemma number_head (c : N) (r : jsstring) :
  Json.number (c :: r) = Some [] -> (c =? ch "-") || Json.is_digit c = true.
Proof.
  unfold Json.number. destruct (c =? ch "-") eqn:Em; [reflexivity|].
  cbn [Json.int_part orb]. destruct (c =? ch "0") eqn:E0.
  - apply N.eqb_eq in E0. subst c. reflexivity.
  - destruct (Json.is_digit c); [reflexivity|discriminate].
Qed.

Lemma string_body_valid (s rest : jsstring) :
  valid_string s = true -> Json.string_body (s ++ dquote :: rest) = Some rest.
Proof.
  revert s. apply (string_induction
    (fun s => Json.string_body (s ++ dquote :: rest) = Some rest)).
  - cbn [app Json.string_body]. rewrite N.eqb_refl. reflexivity.
  - intros c r Hq Hb Hc _ IH. cbn [app Json.string_body]. rewrite Hq, Hb.
    assert (Hlt : (c <? 32) = false) by (apply N.ltb_ge, N.leb_le, Hc).
    rewrite Hlt. exact IH.
  - intros e r He _ IH. cbn [app Json.string_body].
    change (ch "\" =? dquote) with false. rewrite N.eqb_refl, He. exact IH.
  - intros h1 h2 h3 h4 r H1 H2 H3 H4 _ IH. cbn [app Json.string_body].
    change (ch "\" =? dquote) with false. rewrite N.eqb_refl.
    change (Json.is_simple_escape (ch "u")) with false.
    rewrite N.eqb_refl, H1, H2, H3, H4. exact IH.
Qed.

Lemma skip_ws_gap (gap rest : jsstring) :
  json_ws gap = true -> Json.skip_ws (gap ++ rest) = Json.skip_ws rest.
Proof.
  induction gap as [|c gap IH]; [reflexivity|]. cbn [json_ws forallb app Json.skip_ws].
  intros Hg. apply andb_true_iff in Hg as [Hc Hg]. rewrite Hc. apply IH, Hg.
Qed.

Lemma skip_ws_guard (s : jsstring) :
  guard s = true ->
  exists d r, Json.skip_ws s = d :: r
              /\ (d =? ch "}") = false /\ (d =? ch "]") = false.
Proof.
  induction s as [|c s IH]; [discriminate|]. cbn [guard Json.skip_ws].
  destruct (Json.is_json_ws c) eqn:Ews.
  - apply json_ws_char_facts in Ews as (_ & _ & _ & Hws & _). rewrite Hws.
    exact IH.
  - intros Hc. exists c, s. split; [reflexivity|].
    destruct (N.eqb_spec c (ch "}")) as [->|_]; [discriminate Hc|].
    destruct (N.eqb_spec c (ch "]")) as [->|_]; [discriminate Hc|].
    split; reflexivity.
Qed.

Lemma ends_number_gap (gap rest : jsstring) :
  json_ws gap = true -> ends_number rest = true -> ends_number (gap ++ rest) = true.
Proof.
  destruct gap as [|c gap]; [intros _ Hr; exact Hr|].
  cbn [json_ws forallb app ends_number]. intros Hc _.
  apply andb_true_iff in Hc as [Hc _]. revert Hc. unfold Json.is_json_ws.
  destruct (N.eqb_spec c 32); [subst; reflexivity|].
  destruct (N.eqb_spec c 9); [subst; reflexivity|].
  destruct (N.eqb_spec c 10); [subst; reflexivity|].
  destruct (N.eqb_spec c 13); [subst; reflexivity|]. discriminate.
Qed.

(** The value dispatch on an atom. *)
Lemma value_atom (t rest : jsstring) (fuel : nat) :
  valid_atom t = true -> ends_number rest = true ->
  Json.value (S fuel) (Json.skip_ws (t ++ rest)) = Some rest.
Proof.
  intros Ht Hrest. pose proof (valid_atom_chars t Ht) as Hchars.
  unfold valid_atom in Ht. apply andb_true_iff in Ht as [Ht _].
  rewrite !orb_true_iff in Ht. destruct Ht as [[[Ht|Ht]|Ht]|Ht];
    try (apply jsstring_eqb_eq in Ht; subst t; reflexivity).
  destruct (Json.number t) as [[|x y]|] eqn:En; try discriminate.
  destruct t as [|c r]; [discriminate|].
  cbn [forallb] in Hchars. apply andb_true_iff in Hchars as [Hc _].
  apply atom_char_facts in Hc as (Hq & _ & _ & Hws & _ & Ho & Ha & _).
  cbn [app Json.skip_ws].
  assert (Hj : Json.is_json_ws c = false).
  { destruct (Json.is_json_ws c) eqn:E; [|reflexivity].
    apply json_ws_char_facts in E as (_ & _ & _ & E & _). congruence. }
  rewrite Hj. cbn [Json.value]. rewrite Ho, Ha, Hq, (number_head c r En).
  apply (number_app (c :: r) rest Hrest En).
Qed.

Lemma value_str (s rest : jsstring) (fuel : nat) :
  valid_string s = true ->
  Json.value (S fuel) (Json.skip_ws (quote s ++ rest)) = Some rest.
Proof.
  intros Hs. unfold quote. cbn [app Json.skip_ws].
  change (Json.is_json_ws dquote) with false. cbv iota. cbn [Json.value].
  change (dquote =? ch "{") with false. change (dquote =? ch "[") with false.
  rewrite N.eqb_refl. cbv iota. rewrite <- app_assoc.
  apply string_body_valid, Hs.
Qed.

Ltac sum_lia := unfold list_sum in *; cbn [map fold_right] in *; lia.

(** The items of an array, up to and with its closing bracket. *)
Lemma elements_items (items : list json) :
  items <> [] ->
  Forall (fun v => forall fuel rest, (size v <= fuel)%nat ->
                   ends_number rest = true ->
                   exists mid,
                     Json.value fuel (Json.skip_ws (render v ++ rest)) = Some mid
                     /\ Json.skip_ws mid = Json.skip_ws rest) items ->
  forall fuel rest,
  (list_sum (map (fun x => S (size x)) items) <= fuel)%nat ->
  Json.elements fuel (Json.skip_ws (sepBy (map render items) ++ ch "]" :: rest))
  = Some rest.
Proof.
  induction items as [|x r IH]; [congruence|].
  intros _ Hitems fuel rest Hfuel.
  inversion Hitems as [|? ? Hvx Hvr]; subst.
  destruct fuel as [|f]; [sum_lia|]. cbn [Json.elements].
  destruct r as [|y r'].
  - cbn [map sepBy]. rewrite app_nil_r.
    destruct (Hvx f (ch "]" :: rest)) as (mid & -> & Hmid);
      [sum_lia|reflexivity|].
    rewrite Hmid. reflexivity.
  - cbn [map]. rewrite sepBy_cons by discriminate. rewrite <- !app_assoc.
    change (lit "," ++ sepBy (render y :: map render r') ++ ch "]" :: rest)
      with (ch "," :: (sepBy (map render (y :: r')) ++ ch "]" :: rest)).
    destruct (Hvx f (ch "," :: (sepBy (map render (y :: r')) ++ ch "]" :: rest)))
      as (mid & -> & Hmid); [sum_lia|reflexivity|].
    rewrite Hmid. cbn [Json.skip_ws].
    change (Json.is_json_ws (ch ",")) with false. cbv iota.
    rewrite N.eqb_refl.
    apply IH; [discriminate|exact Hvr|sum_lia].
Qed.

(** A member, up to what follows its value. *)
Lemma members_head (kv : key * json) (f : nat) (cont : jsstring) :
  valid_key (fst kv) = true ->
  (forall fuel rest, (size (snd kv) <= fuel)%nat -> ends_number rest = true ->
     exists mid,
       Json.value fuel (Json.skip_ws (render (snd kv) ++ rest)) = Some mid
       /\ Json.skip_ws mid = Json.skip_ws rest) ->
  (size (snd kv) <= f)%nat -> ends_number cont = true ->
  Json.members (S f) (Json.skip_ws (member kv ++ cont))
  = match Json.skip_ws cont with
    | d :: r4 =>
        if d =? ch "," then Json.members f (Json.skip_ws r4)
        else if d =? ch "}" then Some r4 else None
    | [] => None
    end.
Proof.
  intros Hk Hvx Hfuel Hcont. unfold valid_key in Hk.
  rewrite !andb_true_iff in Hk. destruct Hk as [[Hb Hn] Ha].
  unfold member, keyText, quote. rewrite <- !app_assoc.
  rewrite (skip_ws_gap _ _ Hb). cbn [app Json.skip_ws].
  change (Json.is_json_ws dquote) with false. cbv iota.
  cbn [Json.members]. rewrite N.eqb_refl.
  rewrite <- app_assoc. cbn [app]. rewrite (string_body_valid _ _ Hn).
  rewrite (skip_ws_gap _ _ Ha).
  change (lit ":" ++ render (snd kv) ++ cont)
    with (ch ":" :: (render (snd kv) ++ cont)).
  cbn [Json.skip_ws]. change (Json.is_json_ws (ch ":")) with false. cbv iota.
  rewrite N.eqb_refl.
  destruct (Hvx f cont Hfuel Hcont) as (mid & -> & Hmid).
  rewrite Hmid. reflexivity.
Qed.

(** The members of an object, up to and with its closing brace. *)
Lemma members_items (members : list (key * json)) :
  members <> [] ->
  Forall (fun kv =>
            valid_key (fst kv) = true
            /\ forall fuel rest, (size (snd kv) <= fuel)%nat ->
               ends_number rest = true ->
               exists mid,
                 Json.value fuel (Json.skip_ws (render (snd kv) ++ rest)) = Some mid
                 /\ Json.skip_ws mid = Json.skip_ws rest) members ->
  forall fuel rest,
  (list_sum (map (fun kv => S (size (snd kv))) members) <= fuel)%nat ->
  Json.members fuel (Json.skip_ws (sepBy (map member members) ++ ch "}" :: rest))
  = Some rest.
Proof.
  induction members as [|kv r IH]; [congruence|].
  intros _ Hitems fuel rest Hfuel.
  inversion Hitems as [|? ? [Hk Hvx] Hvr]; subst.
  destruct fuel as [|f]; [sum_lia|].
  destruct r as [|y r'].
  - cbn [map sepBy]. rewrite app_nil_r.
    rewrite (members_head kv f _ Hk Hvx) by (sum_lia || reflexivity).
    reflexivity.
  - cbn [map]. rewrite sepBy_cons by discriminate. rewrite <- !app_assoc.
    change (lit "," ++ sepBy (member y :: map member r') ++ ch "}" :: rest)
      with (ch "," :: (sepBy (map member (y :: r')) ++ ch "}" :: rest)).
    rewrite (members_head kv f _ Hk Hvx) by (sum_lia || reflexivity).
    cbn [Json.skip_ws]. change (Json.is_json_ws (ch ",")) with false. cbv iota.
    rewrite N.eqb_refl.
    apply IH; [discriminate|exact Hvr|sum_lia].
Qed.

Lemma guard_sepBy {A} (text : A -> jsstring) (l : list A) (rest : jsstring) :
  l <> [] -> (forall x rest, In x l -> guard (text x ++ rest) = true) ->
  guard (sepBy (map text l) ++ rest) = true.
Proof.
  intros Hne Hl. destruct l as [|x r]; [congruence|]. cbn [map].
  destruct r as [|y r'].
  - cbn [map sepBy]. rewrite app_nil_r. apply Hl. left. reflexivity.
  - cbn [map]. rewrite sepBy_cons by discriminate. rewrite <- app_assoc.
    apply Hl. left. reflexivity.
Qed.

(** The recogniser reads a whole document and stops after it. *)
Lemma value_render (v : json) :
  valid v = true ->
  forall fuel rest, (size v <= fuel)%nat -> ends_number rest = true ->
  exists mid,
    Json.value fuel (Json.skip_ws (render v ++ rest)) = Some mid
    /\ Json.skip_ws mid = Json.skip_ws rest.
Proof.
  revert v. apply (valid_induction
    (fun v => forall fuel rest, (size v <= fuel)%nat -> ends_number rest = true ->
              exists mid,
                Json.value fuel (Json.skip_ws (render v ++ rest)) = Some mid
                /\ Json.skip_ws mid = Json.skip_ws rest)).
  - intros t Ht fuel rest Hfuel Hrest. cbn [size] in Hfuel.
    destruct fuel as [|f]; [lia|]. exists rest.
    split; [apply value_atom; assumption|reflexivity].
  - intros s Hs fuel rest Hfuel Hrest. cbn [size] in Hfuel.
    destruct fuel as [|f]; [lia|]. exists rest.
    split; [apply value_str, Hs|reflexivity].
  - intros gap items Hgap Hvalid Hitems fuel rest Hfuel Hrest.
    cbn [size] in Hfuel. destruct fuel as [|f]; [lia|]. exists rest.
    split; [|reflexivity]. cbn [render]. rewrite <- !app_assoc.
    change (lit "[" ++ gap ++ sepBy (map render items) ++ lit "]" ++ rest)
      with (ch "[" :: (gap ++ sepBy (map render items) ++ ch "]" :: rest)).
    cbn [Json.skip_ws]. change (Json.is_json_ws (ch "[")) with false. cbv iota.
    cbn [Json.value]. change (ch "[" =? ch "{") with false. rewrite N.eqb_refl.
    cbv iota. rewrite (skip_ws_gap _ _ Hgap). destruct items as [|x r].
    + cbn [map sepBy app Json.skip_ws].
      change (Json.is_json_ws (ch "]")) with false. cbv iota.
      rewrite N.eqb_refl. reflexivity.
    + destruct (skip_ws_guard (sepBy (map render (x :: r)) ++ ch "]" :: rest))
        as (d & r1 & E & _ & Hd).
      { apply guard_sepBy; [discriminate|]. intros y rest' Hy.
        apply guard_render, (proj1 (forallb_forall _ _) Hvalid y Hy). }
      rewrite E, Hd, <- E.
      apply elements_items; [discriminate|exact Hitems|lia].
  - intros gap members Hgap Hvalid Hmembers fuel rest Hfuel Hrest.
    cbn [size] in Hfuel. destruct fuel as [|f]; [lia|]. exists rest.
    split; [|reflexivity]. cbn [render]. fold member. rewrite <- !app_assoc.
    change (lit "{" ++ gap ++ sepBy (map member members) ++ lit "}" ++ rest)
      with (ch "{" :: (gap ++ sepBy (map member members) ++ ch "}" :: rest)).
    cbn [Json.skip_ws]. change (Json.is_json_ws (ch "{")) with false. cbv iota.
    cbn [Json.value]. rewrite N.eqb_refl.
    rewrite (skip_ws_gap _ _ Hgap). destruct members as [|kv r].
    + cbn [map sepBy app Json.skip_ws].
      change (Json.is_json_ws (ch "}")) with false. cbv iota.
      rewrite N.eqb_refl. reflexivity.
    + destruct (skip_ws_guard (sepBy (map member (kv :: r)) ++ ch "}" :: rest))
        as (d & r1 & E & Hd & _).
      { apply guard_sepBy; [discriminate|]. intros y rest' Hy.
        apply guard_member, (proj1 (forallb_forall _ _) Hvalid y Hy). }
      rewrite E, Hd, <- E.
      apply members_items; [discriminate|exact Hmembers|lia].
  - intros a v b Ha _ Hb IH fuel rest Hfuel Hrest. cbn [size] in Hfuel.
    cbn [render]. rewrite <- !app_assoc. rewrite (skip_ws_gap _ _ Ha).
    destruct (IH fuel (b ++ rest) Hfuel (ends_number_gap _ _ Hb Hrest))
      as (mid & Hval & Hmid).
    exists mid. split; [exact Hval|]. rewrite Hmid. apply skip_ws_gap, Hb.
Qed.

Lemma length_sepBy (texts : list jsstring) :
  (list_sum (map (@List.length N) texts) <= List.length (sepBy texts))%nat.
Proof.
  induction texts as [|x r IH]; [cbn; lia|]. destruct r as [|y r'].
  - cbn. rewrite app_nil_r. lia.
  - rewrite sepBy_cons by discriminate. cbn [map list_sum fold_right] in *.
    rewrite !length_app. lia.
Qed.

(** The fuel of [Json.accepts] is enough for the text of a document. *)
Lemma size_render (v : json) :
  valid v = true -> (S (size v) <= 2 * List.length (render v))%nat.
Proof.
  revert v. apply (valid_induction
    (fun v => (S (size v) <= 2 * List.length (render v))%nat)).
  - intros t Ht. pose proof (valid_atom_nonempty t Ht).
    destruct t; [congruence|]. cbn [size render List.length]. lia.
  - intros s _. cbn [size render quote List.length]. lia.
  - intros gap items _ _ Hitems. cbn [size render]. rewrite !length_app.
    pose proof (length_sepBy (map render items)) as Hlen.
    assert (Hsum : (list_sum (map (fun x => S (size x)) items)
                    <= 2 * list_sum (map (@List.length N) (map render items)))%nat).
    { clear Hlen. induction Hitems as [|x r Hx Hr IH]; [cbn; lia|].
      sum_lia. }
    cbn [lit list_ascii_of_string map List.length]. lia.
  - intros gap members _ _ Hmembers. cbn [size render]. fold member.
    rewrite !length_app.
    pose proof (length_sepBy (map member members)) as Hlen.
    assert (Hsum : (list_sum (map (fun kv => S (size (snd kv))) members)
                    <= 2 * list_sum (map (@List.length N) (map member members)))%nat).
    { clear Hlen. induction Hmembers as [|kv r [_ Hx] Hr IH]; [cbn; lia|].
      unfold list_sum in *. cbn [map fold_right]. unfold member at 1.
      rewrite !length_app. unfold jsstring in *. lia. }
    cbn [lit list_ascii_of_string map List.length]. unfold jsstring in *. lia.
  - intros a v b _ _ _ IH. cbn [size render]. rewrite !length_app. lia.
Qed.

(** Every document is accepted by the recogniser. *)
Lemma accepts_render (v : json) : valid v = true -> Json.accepts (render v) = true.
Proof.
  intros Hv. unfold Json.accepts.
  destruct (value_render v Hv (2 * List.length (render v) + 2) [])
    as (mid & Hval & Hmid).
  - pose proof (size_render v Hv). lia.
  - reflexivity.
  - rewrite app_nil_r in Hval. rewrite Hval, Hmid. reflexivity.
Qed.

End JsonAccepts.



(** ** The steps of postProcessDrawioCode, one by one *)

Module StepFacts.
Import Steps.

Lemma startsWith_fence_head (c : N) (r : jsstring) :
  (c =? ch "`") = false -> startsWith (c :: r) fence = false.
Proof.
  intros Hc. cbn [fence lit list_ascii_of_string map startsWith].
  change (N_of_ascii "`") with (ch "`"). rewrite N.eqb_sym, Hc. reflexivity.
Qed.

(** No fenced block starts in text without a backtick. *)
Lemma first_match_xml_skip (a rest : jsstring) :
  noBacktick a = true ->
  first_match xml_fence_at (a ++ rest) = first_match xml_fence_at rest.
Proof.
  induction a as [|c a IH]; [reflexivity|]. cbn [noBacktick forallb app].
  intros Hc. apply andb_true_iff in Hc as [Hc Ha]. apply negb_true_iff in Hc.
  cbn [first_match]. unfold xml_fence_at at 1.
  rewrite (startsWith_fence_head c _ Hc). apply IH, Ha.
Qed.

Lemma first_match_any_skip (a rest : jsstring) :
  noBacktick a = true ->
  first_match any_fence_at (a ++ rest) = first_match any_fence_at rest.
Proof.
  induction a as [|c a IH]; [reflexivity|]. cbn [noBacktick forallb app].
  intros Hc. apply andb_true_iff in Hc as [Hc Ha]. apply negb_true_iff in Hc.
  cbn [first_match]. unfold any_fence_at at 1.
  rewrite (startsWith_fence_head c _ Hc). apply IH, Ha.
Qed.

Lemma until_fence_body (body post : jsstring) :
  noBacktick body = true -> until_fence (body ++ fence ++ post) = Some (body, post).
Proof.
  induction body as [|c body IH]; [reflexivity|]. cbn [noBacktick forallb app].
  intros Hc. apply andb_true_iff in Hc as [Hc Hb]. apply negb_true_iff in Hc.
  cbn [until_fence]. rewrite (startsWith_fence_head c _ Hc), (IH Hb). reflexivity.
Qed.

Lemma until_fence_none (s : jsstring) : noBacktick s = true -> until_fence s = None.
Proof.
  induction s as [|c s IH]; [reflexivity|]. cbn [noBacktick forallb].
  intros Hc. apply andb_true_iff in Hc as [Hc Hs]. apply negb_true_iff in Hc.
  cbn [until_fence]. rewrite (startsWith_fence_head c _ Hc), (IH Hs). reflexivity.
Qed.

Lemma trimStart_ws_app (ws rest : jsstring) :
  forallb is_ws ws = true -> trimStart (ws ++ rest) = trimStart rest.
Proof.
  induction ws as [|c ws IH]; [reflexivity|]. cbn [forallb app trimStart].
  intros Hc. apply andb_true_iff in Hc as [Hc Hws]. rewrite Hc. apply IH, Hws.
Qed.

Lemma trimStart_solid_app (body rest : jsstring) :
  body <> [] -> is_ws (hd 0 body) = false -> trimStart (body ++ rest) = body ++ rest.
Proof.
  intros Hne Hh. destruct body as [|c body]; [congruence|]. cbn in *.
  rewrite Hh. reflexivity.
Qed.

Lemma ws_noBacktick (ws : jsstring) : forallb is_ws ws = true -> noBacktick ws = true.
Proof.
  apply MarkupFacts.forallb_impl. intros c Hc.
  destruct (N.eqb_spec c (ch "`")) as [->|_]; [discriminate|reflexivity].
Qed.

(** The label [xml] in any letter case. *)
Lemma xml_label (label rest : jsstring) :
  startsWith_ci label (lit "xml") = true -> List.length label = 3%nat ->
  is_ws (hd 0 (label ++ rest)) = false
  /\ startsWith_ci (label ++ rest) (lit "xml") = true
  /\ skipn 3 (label ++ rest) = rest.
Proof.
  intros Hci Hlen.
  destruct label as [|a [|b [|c [|d l]]]]; try discriminate. clear Hlen.
  cbn [app hd skipn]. split; [|split; [exact Hci|reflexivity]].
  cbn [startsWith_ci lit list_ascii_of_string map] in Hci.
  apply andb_true_iff in Hci as [Ha _]. unfold ci_match in Ha.
  change (N_of_ascii "x") with 120 in Ha. cbn in Ha.
  rewrite !orb_true_iff in Ha. destruct Ha as [[Ha|Ha]|Ha];
    try discriminate; apply N.eqb_eq in Ha; subst a; reflexivity.
Qed.

(** Step 1 of the source: a block labelled xml. *)
Lemma fenceStep_xml_block (pre ws1 label ws2 body post : jsstring) :
  noBacktick pre = true ->
  forallb is_ws ws1 = true ->
  startsWith_ci label (lit "xml") = true -> List.length label = 3%nat ->
  forallb is_ws ws2 = true ->
  body <> [] -> is_ws (hd 0 body) = false -> noBacktick body = true ->
  fenceStep (pre ++ fence ++ ws1 ++ label ++ ws2 ++ body ++ fence ++ post) = body.
Proof.
  intros Hpre Hws1 Hci Hlen Hws2 Hne Hhead Hbody. unfold fenceStep.
  rewrite (first_match_xml_skip pre _ Hpre).
  destruct (xml_label label (ws2 ++ body ++ fence ++ post) Hci Hlen)
    as (Hlh & Hlci & Hlskip).
  assert (Hat : xml_fence_at (fence ++ ws1 ++ label ++ ws2 ++ body ++ fence ++ post)
                = Some body).
  { unfold xml_fence_at.
    change (startsWith (fence ++ ws1 ++ label ++ ws2 ++ body ++ fence ++ post) fence)
      with true.
    change (skipn 3 (fence ++ ws1 ++ label ++ ws2 ++ body ++ fence ++ post))
      with (ws1 ++ label ++ ws2 ++ body ++ fence ++ post).
    cbv iota. rewrite (trimStart_ws_app ws1 _ Hws1).
    rewrite trimStart_fixed
      by (destruct (label ++ ws2 ++ body ++ fence ++ post); [exact I|exact Hlh]).
    rewrite Hlci, Hlskip, (trimStart_ws_app ws2 _ Hws2).
    rewrite (trimStart_solid_app body _ Hne Hhead).
    rewrite (until_fence_body body post Hbody). reflexivity. }
  assert (Hfirst : first_match xml_fence_at
                     (fence ++ ws1 ++ label ++ ws2 ++ body ++ fence ++ post)
                   = Some body).
  { change (fence ++ ws1 ++ label ++ ws2 ++ body ++ fence ++ post)
      with (ch "`" :: ch "`" :: ch "`"
            :: (ws1 ++ label ++ ws2 ++ body ++ fence ++ post)) in *.
    cbn [first_match]. rewrite Hat. reflexivity. }
  rewrite Hfirst. destruct body; [congruence|reflexivity].
Qed.

Lemma first_match_fence (A : Type) (at_pos : jsstring -> option A) (rest : jsstring) :
  (forall s, startsWith s fence = false -> at_pos s = None) ->
  match rest with [] => True | c :: _ => (c =? ch "`") = false end ->
  first_match at_pos (fence ++ rest) =
  match at_pos (fence ++ rest) with
  | Some a => Some a
  | None => first_match at_pos rest
  end.
Proof.
  intros Hat Hrest.
  change (fence ++ rest) with (ch "`" :: ch "`" :: ch "`" :: rest).
  cbn [first_match].
  destruct (at_pos (ch "`" :: ch "`" :: ch "`" :: rest)); [reflexivity|].
  assert (H2 : startsWith (ch "`" :: ch "`" :: rest) fence = false).
  { destruct rest as [|c r]; [reflexivity|].
    cbn [fence lit list_ascii_of_string map startsWith].
    change (N_of_ascii "`") with (ch "`"). rewrite !N.eqb_refl.
    rewrite N.eqb_sym, Hrest. reflexivity. }
  assert (H1 : startsWith (ch "`" :: rest) fence = false).
  { destruct rest as [|c r]; [reflexivity|].
    cbn [fence lit list_ascii_of_string map startsWith].
    change (N_of_ascii "`") with (ch "`"). rewrite !N.eqb_refl.
    rewrite N.eqb_sym, Hrest. reflexivity. }
  rewrite (Hat _ H2), (Hat _ H1). reflexivity.
Qed.

Lemma xml_fence_at_needs_fence (s : jsstring) :
  startsWith s fence = false -> xml_fence_at s = None.
Proof. intros Hs. unfold xml_fence_at. rewrite Hs. reflexivity. Qed.

Lemma any_fence_at_needs_fence (s : jsstring) :
  startsWith s fence = false -> any_fence_at s = None.
Proof. intros Hs. unfold any_fence_at. rewrite Hs. reflexivity. Qed.

Lemma first_match_nil_text (A : Type) (at_pos : jsstring -> option A) (s : jsstring) :
  (forall t, startsWith t fence = false -> at_pos t = None) ->
  noBacktick s = true -> first_match at_pos s = None.
Proof.
  intros Hat. induction s as [|c s IH].
  - intros _. cbn [first_match]. rewrite Hat; reflexivity.
  - cbn [noBacktick forallb]. intros Hc. apply andb_true_iff in Hc as [Hc Hs].
    apply negb_true_iff in Hc. cbn [first_match].
    rewrite (Hat _ (startsWith_fence_head c s Hc)). apply IH, Hs.
Qed.

Lemma head_noBacktick (s rest : jsstring) :
  noBacktick s = true -> s <> [] ->
  match s ++ rest with [] => True | c :: _ => (c =? ch "`") = false end.
Proof.
  destruct s as [|c s]; [congruence|]. cbn [noBacktick forallb app].
  intros Hc _. apply andb_true_iff in Hc as [Hc _]. apply negb_true_iff in Hc.
  exact Hc.
Qed.

(** Text that does not start with the label is not taken for it by what
    follows a block body. *)
Lemma not_xml_label (body rest : jsstring) :
  body <> [] -> noBacktick body = true ->
  startsWith_ci body (lit "xml") = false ->
  startsWith_ci (body ++ fence ++ rest) (lit "xml") = false.
Proof.
  intros Hne Hb Hci.
  destruct body as [|a [|b [|c l]]]; [congruence| | |exact Hci];
    cbn [app startsWith_ci lit list_ascii_of_string map fence] in *;
    repeat match goal with
           | |- context [ci_match ?p ?x] =>
               lazymatch x with
               | N_of_ascii _ => change (ci_match p x) with false
               | _ => destruct (ci_match p x)
               end
           end; try reflexivity; try discriminate.
Qed.

(** Step 1 of the source: the first block of any kind when no block is
    labelled xml. *)
Lemma fenceStep_any_block (pre ws1 body post : jsstring) :
  noBacktick pre = true ->
  forallb is_ws ws1 = true ->
  body <> [] -> is_ws (hd 0 body) = false -> noBacktick body = true ->
  startsWith_ci body (lit "xml") = false ->
  noBacktick post = true ->
  fenceStep (pre ++ fence ++ ws1 ++ body ++ fence ++ post) = body.
Proof.
  intros Hpre Hws1 Hne Hhead Hbody Hnot Hpost. unfold fenceStep.
  assert (Hhd : match ws1 ++ body ++ fence ++ post with
                | [] => True
                | c :: _ => (c =? ch "`") = false
                end).
  { destruct ws1 as [|w ws1].
    - cbn [app]. apply (head_noBacktick body); assumption.
    - apply (head_noBacktick (w :: ws1)); [apply ws_noBacktick, Hws1|discriminate]. }
  assert (Hxml : first_match xml_fence_at
                   (pre ++ fence ++ ws1 ++ body ++ fence ++ post) = None).
  { rewrite (first_match_xml_skip pre _ Hpre).
    rewrite (first_match_fence _ xml_fence_at _ xml_fence_at_needs_fence Hhd).
    assert (Hat : xml_fence_at (fence ++ ws1 ++ body ++ fence ++ post) = None).
    { unfold xml_fence_at.
      change (startsWith (fence ++ ws1 ++ body ++ fence ++ post) fence) with true.
      change (skipn 3 (fence ++ ws1 ++ body ++ fence ++ post))
        with (ws1 ++ body ++ fence ++ post).
      cbv iota. rewrite (trimStart_ws_app ws1 _ Hws1).
      rewrite (trimStart_solid_app body _ Hne Hhead).
      rewrite (not_xml_label body post Hne Hbody Hnot). reflexivity. }
    rewrite Hat.
    rewrite (app_assoc ws1 body), first_match_xml_skip
      by (unfold noBacktick; rewrite forallb_app;
          fold (noBacktick ws1); fold (noBacktick body);
          rewrite (ws_noBacktick ws1 Hws1), Hbody; reflexivity).
    rewrite (first_match_fence _ xml_fence_at _ xml_fence_at_needs_fence).
    - assert (Hat2 : xml_fence_at (fence ++ post) = None).
      { unfold xml_fence_at. change (startsWith (fence ++ post) fence) with true.
        change (skipn 3 (fence ++ post)) with post. cbv iota.
        destruct (startsWith_ci (trimStart post) (lit "xml")); [|reflexivity].
        rewrite until_fence_none; [reflexivity|].
        apply (forallb_sub _ _ post); [|exact Hpost].
        intros x Hx. apply trimStart_In in Hx.
        assert (Hsk : forall (l : jsstring) n y, In y (skipn n l) -> In y l).
        { intros l n. revert l. induction n as [|n IHn]; intros l y Hy;
            [exact Hy|]. destruct l; [destruct Hy|]. right. apply IHn, Hy. }
        apply Hsk in Hx. apply trimStart_In, Hx. }
      rewrite Hat2.
      apply (first_match_nil_text _ xml_fence_at post xml_fence_at_needs_fence Hpost).
    - destruct post as [|c post]; [exact I|].
      cbn [noBacktick forallb] in Hpost. apply andb_true_iff in Hpost as [Hc _].
      apply negb_true_iff in Hc. exact Hc. }
  rewrite Hxml. cbn [nonempty_body].
  rewrite (first_match_any_skip pre _ Hpre).
  rewrite (first_match_fence _ any_fence_at _ any_fence_at_needs_fence Hhd).
  assert (Hany : any_fence_at (fence ++ ws1 ++ body ++ fence ++ post) = Some body).
  { unfold any_fence_at.
    change (startsWith (fence ++ ws1 ++ body ++ fence ++ post) fence) with true.
    change (skipn 3 (fence ++ ws1 ++ body ++ fence ++ post))
      with (ws1 ++ body ++ fence ++ post).
    cbv iota. rewrite (trimStart_ws_app ws1 _ Hws1).
    rewrite (trimStart_solid_app body _ Hne Hhead).
    rewrite (until_fence_body body post Hbody). reflexivity. }
  rewrite Hany. destruct body; [congruence|reflexivity].
Qed.

(** Step 1 of the source: text without a fence is kept. *)
Lemma fenceStep_no_fence (s : jsstring) : noBacktick s = true -> fenceStep s = s.
Proof.
  intros Hs. unfold fenceStep.
  rewrite (first_match_nil_text _ xml_fence_at s xml_fence_at_needs_fence Hs).
  rewrite (first_match_nil_text _ any_fence_at s any_fence_at_needs_fence Hs).
  reflexivity.
Qed.

(** Step 3 of the source. *)

Lemma startsWith_ci_app (s p rest : jsstring) :
  startsWith_ci s p = true -> startsWith_ci (s ++ rest) p = true.
Proof.
  revert s. induction p as [|a p IH]; intros s; [reflexivity|].
  destruct s as [|b s]; [discriminate|]. cbn [app startsWith_ci].
  rewrite !andb_true_iff. intros [Hab Hs]. split; [exact Hab|apply IH, Hs].
Qed.

Lemma skipn_length_app (name rest : jsstring) (n : nat) :
  List.length name = n -> skipn n (name ++ rest) = rest.
Proof.
  intros <-. induction name as [|c name IH]; [reflexivity|]. exact IH.
Qed.

Lemma xml_root_at_tag (name tail post : jsstring) :
  is_root_name name = true -> tag_tail tail = true ->
  xml_root_at (lit "<" ++ name ++ tail ++ lit ">" ++ post) = true.
Proof.
  intros Hname Htail. unfold is_root_name in Hname.
  apply existsb_exists in Hname as (n & Hin & Hn).
  apply andb_true_iff in Hn as [Hci Hlen]. apply Nat.eqb_eq in Hlen.
  change (lit "<" ++ name ++ tail ++ lit ">" ++ post)
    with (ch "<" :: (name ++ tail ++ lit ">" ++ post)).
  cbn [xml_root_at]. rewrite N.eqb_refl. cbn [andb].
  apply existsb_exists. exists n. split; [exact Hin|].
  rewrite (startsWith_ci_app name n _ Hci).
  rewrite (skipn_length_app name _ _ Hlen).
  destruct tail as [|d tail]; [reflexivity|].
  cbn [tag_tail] in Htail. cbn [app andb]. rewrite Htail. reflexivity.
Qed.

Lemma search_skip (p : jsstring -> bool) (pre rest : jsstring) :
  (forall c r, In c pre -> p (c :: r) = false) -> p rest = true ->
  search p (pre ++ rest) = Some (List.length pre).
Proof.
  intros Hpre Hrest. induction pre as [|c pre IH].
  - cbn [app List.length].
    destruct rest as [|x r]; cbn [search]; rewrite Hrest; reflexivity.
  - cbn [app search List.length]. rewrite (Hpre c _ (or_introl eq_refl)).
    rewrite IH; [reflexivity|]. intros x r Hx. apply Hpre. right. exact Hx.
Qed.

Lemma lastIndexOf_none (c : N) (s : jsstring) :
  forallb (fun x => negb (x =? c)) s = true -> lastIndexOf c s = None.
Proof.
  induction s as [|x s IH]; [reflexivity|]. cbn [forallb lastIndexOf].
  intros Hx. apply andb_true_iff in Hx as [Hx Hs]. apply negb_true_iff in Hx.
  rewrite (IH Hs), Hx. reflexivity.
Qed.

Lemma lastIndexOf_last (c : N) (a post : jsstring) :
  forallb (fun x => negb (x =? c)) post = true ->
  lastIndexOf c (a ++ c :: post) = Some (List.length a).
Proof.
  intros Hpost. induction a as [|x a IH].
  - cbn [app lastIndexOf List.length]. rewrite (lastIndexOf_none c post Hpost).
    rewrite N.eqb_refl. reflexivity.
  - cbn [app lastIndexOf List.length]. rewrite IH. reflexivity.
Qed.

Lemma slice_middle (pre mid post : jsstring) :
  slice (List.length pre) (List.length (pre ++ mid)) (pre ++ mid ++ post) = mid.
Proof.
  unfold slice. rewrite length_app.
  replace (List.length pre + List.length mid - List.length pre)%nat
    with (List.length mid) by lia.
  rewrite (skipn_length_app pre _ _ eq_refl).
  rewrite firstn_app, firstn_all, Nat.sub_diag. cbn [firstn].
  apply app_nil_r.
Qed.

(** Step 3 of the source on text with one root tag: what is before the
    tag and what is after the last ['>'] is dropped. *)
Lemma keepStep_root_block (pre name tail post : jsstring) :
  forallb (fun c => negb (c =? ch "<")) pre = true ->
  is_root_name name = true -> tag_tail tail = true -> noGt post = true ->
  keepStep (pre ++ lit "<" ++ name ++ tail ++ lit ">" ++ post)
  = lit "<" ++ name ++ tail ++ lit ">".
Proof.
  intros Hpre Hname Htail Hpost. unfold keepStep.
  rewrite (search_skip xml_root_at pre _).
  2:{ intros c r Hc. cbn [xml_root_at].
      apply (proj1 (forallb_forall _ _) Hpre) in Hc.
      apply negb_true_iff in Hc. rewrite Hc. reflexivity. }
  2:{ apply xml_root_at_tag; assumption. }
  replace (pre ++ lit "<" ++ name ++ tail ++ lit ">" ++ post)
    with ((pre ++ lit "<" ++ name ++ tail) ++ ch ">" :: post)
    by (rewrite <- !app_assoc; reflexivity).
  rewrite (lastIndexOf_last (ch ">") _ post Hpost).
  assert (Hlt : (List.length pre <? List.length (pre ++ lit "<" ++ name ++ tail))%nat
                = true).
  { apply Nat.ltb_lt. rewrite !length_app. cbn [lit list_ascii_of_string map List.length]. lia. }
  rewrite Hlt.
  replace (List.length (pre ++ lit "<" ++ name ++ tail) + 1)%nat
    with (List.length (pre ++ (lit "<" ++ name ++ tail ++ lit ">")))
    by (rewrite !length_app; cbn [lit list_ascii_of_string map List.length]; lia).
  replace ((pre ++ lit "<" ++ name ++ tail) ++ ch ">" :: post)
    with (pre ++ (lit "<" ++ name ++ tail ++ lit ">") ++ post)
    by (rewrite <- !app_assoc; reflexivity).
  apply slice_middle.
Qed.

(** Step 3 of the source on text without a root tag. *)
Lemma keepStep_no_root (s : jsstring) :
  forallb (fun c => negb (c =? ch "<")) s = true -> keepStep s = s.
Proof.
  intros Hs. unfold keepStep.
  assert (Hsearch : search xml_root_at s = None).
  { induction s as [|c s IH]; [reflexivity|]. cbn [forallb] in Hs.
    apply andb_true_iff in Hs as [Hc Hs]. apply negb_true_iff in Hc.
    cbn [search xml_root_at]. rewrite Hc, (IH Hs). reflexivity. }
  rewrite Hsearch. reflexivity.
Qed.

(** Step 2 of the source. *)

Lemma replaceAll_absent (p : N) (pat rep s : jsstring) :
  forallb (fun c => negb (c =? p)) s = true ->
  replaceAll (p :: pat) rep s = s.
Proof.
  unfold replaceAll. induction s as [|c s IH]; [reflexivity|].
  cbn [forallb]. intros Hc. apply andb_true_iff in Hc as [Hc Hs].
  apply negb_true_iff in Hc. cbn [replaceAll_from startsWith].
  rewrite N.eqb_sym, Hc. cbn [andb]. rewrite (IH Hs). reflexivity.
Qed.

(** Text without an ampersand is not changed by the decoding. *)
Lemma decodeEntities_plain (s : jsstring) :
  noAmp s = true -> decodeEntities s = s.
Proof.
  intros Hs. unfold decodeEntities.
  change (lit "&lt;") with (ch "&" :: lit "lt;").
  change (lit "&gt;") with (ch "&" :: lit "gt;").
  change (lit "&amp;") with (ch "&" :: lit "amp;").
  change (lit "&quot;") with (ch "&" :: lit "quot;").
  change (lit "&#39;") with (ch "&" :: lit "#39;").
  rewrite !(replaceAll_absent _ _ _ _ Hs). reflexivity.
Qed.

Lemma replaceAll_prefix (p : N) (pat rep a t : jsstring) :
  forallb (fun c => negb (c =? p)) a = true ->
  replaceAll (p :: pat) rep (a ++ t) = a ++ replaceAll (p :: pat) rep t.
Proof.
  unfold replaceAll. induction a as [|c a IH]; [reflexivity|].
  cbn [forallb]. intros Hc. apply andb_true_iff in Hc as [Hc Ha].
  apply negb_true_iff in Hc. cbn [app replaceAll_from startsWith].
  rewrite N.eqb_sym, Hc. cbn [andb]. rewrite (IH Ha). reflexivity.
Qed.

Lemma replaceAll_from_absent (p : N) (pat rep s : jsstring) :
  forallb (fun c => negb (c =? p)) s = true ->
  replaceAll_from 0 (p :: pat) rep s = s.
Proof. apply replaceAll_absent. Qed.

Lemma replaceAll_layer (a b pat rep t t' : jsstring) :
  noAmp a = true ->
  replaceAll_from 0 (ch "&" :: pat) rep (t ++ b) = t' ++ b ->
  replaceAll (ch "&" :: pat) rep (a ++ t ++ b) = a ++ t' ++ b.
Proof.
  intros Ha Ht. rewrite replaceAll_prefix by exact Ha.
  unfold replaceAll. rewrite Ht. reflexivity.
Qed.

Ltac eval_eqb :=
  repeat match goal with
         | |- context [?x =? ?y] =>
             lazymatch x with
             | context [N_of_ascii] =>
                 lazymatch y with
                 | context [N_of_ascii] =>
                     let v := eval vm_compute in (x =? y) in
                     change (x =? y) with v
                 end
             end
         end.

Ltac solve_layer Hb Hq Hh :=
  cbn [app lit list_ascii_of_string map replaceAll_from startsWith
       List.length Nat.sub];
  unfold ch; eval_eqb; cbn [andb]; fold (ch "&");
  rewrite ?Hq, ?Hh, ?andb_false_r;
  rewrite ?(replaceAll_from_absent (ch "&") _ _ _ Hb);
  reflexivity.

(** One entity between texts without an ampersand is decoded to its
    character.  (After [&amp;] the text must not go on like the rest of
    [&quot;] or [&#39;], which the later replacements would decode.) *)
Lemma decodeEntities_entity (a b e r : jsstring) :
  In (e, r) entities -> noAmp a = true -> noAmp b = true ->
  (hd 0 b =? ch "q") = false -> (hd 0 b =? ch "#") = false ->
  decodeEntities (a ++ e ++ b) = a ++ r ++ b.
Proof.
  intros Hin Ha Hb Hq Hh. unfold decodeEntities.
  assert (Hq' : startsWith b (lit "quot;") = false).
  { destruct b as [|c b]; [reflexivity|]. cbn [hd] in Hq.
    cbn [lit list_ascii_of_string map startsWith].
    change (N_of_ascii "q") with (ch "q"). rewrite N.eqb_sym, Hq. reflexivity. }
  assert (Hh' : startsWith b (lit "#39;") = false).
  { destruct b as [|c b]; [reflexivity|]. cbn [hd] in Hh.
    cbn [lit list_ascii_of_string map startsWith].
    change (N_of_ascii "#") with (ch "#"). rewrite N.eqb_sym, Hh. reflexivity. }
  change (lit "&lt;") with (ch "&" :: lit "lt;").
  change (lit "&gt;") with (ch "&" :: lit "gt;").
  change (lit "&amp;") with (ch "&" :: lit "amp;").
  change (lit "&quot;") with (ch "&" :: lit "quot;").
  change (lit "&#39;") with (ch "&" :: lit "#39;").
  unfold noAmp in Hb.
  cbn [lit list_ascii_of_string map startsWith] in Hq', Hh'.
  cbn [entities In] in Hin.
  destruct Hin as [E|[E|[E|[E|[E|[]]]]]]; injection E as <- <-.
  - rewrite (replaceAll_layer a b _ _ _ (lit "<") Ha) by solve_layer Hb Hq' Hh'.
    do 4 (rewrite (replaceAll_layer a b _ _ _ (lit "<") Ha)
            by solve_layer Hb Hq' Hh').
    reflexivity.
  - rewrite (replaceAll_layer a b _ _ _ (lit "&gt;") Ha) by solve_layer Hb Hq' Hh'.
    do 4 (rewrite (replaceAll_layer a b _ _ _ (lit ">") Ha)
            by solve_layer Hb Hq' Hh').
    reflexivity.
  - do 2 (rewrite (replaceAll_layer a b _ _ _ (lit "&amp;") Ha)
            by solve_layer Hb Hq' Hh').
    do 3 (rewrite (replaceAll_layer a b _ _ _ (lit "&") Ha)
            by solve_layer Hb Hq' Hh').
    reflexivity.
  - do 3 (rewrite (replaceAll_layer a b _ _ _ (lit "&quot;") Ha)
            by solve_layer Hb Hq' Hh').
    do 2 (rewrite (replaceAll_layer a b _ _ _ [dquote] Ha)
            by solve_layer Hb Hq' Hh').
    reflexivity.
  - do 4 (rewrite (replaceAll_layer a b _ _ _ (lit "&#39;") Ha)
            by solve_layer Hb Hq' Hh').
    rewrite (replaceAll_layer a b _ _ _ (lit "'") Ha) by solve_layer Hb Hq' Hh'.
    reflexivity.
Qed.

End StepFacts.

(** * Further properties of lib/fixUnclosed.js *)

(** ** stripTrailingCommas and the scanner *)

Lemma subseq_cons_both {A} (x : A) (a b : list A) :
  subseq a b -> subseq (x :: a) (x :: b).
Proof. apply subseq_both. Qed.

Lemma subseq_app_tail {A} (a b t : list A) : subseq a b -> subseq (a ++ t) (b ++ t).
Proof.
  induction 1 as [b|x a b _ IH|x a b _ IH]; cbn [app].
  - induction b as [|y b IHb]; cbn [app]; [apply subseq_refl|].
    apply subseq_skip, IHb.
  - apply subseq_both, IH.
  - apply subseq_skip, IH.
Qed.

Lemma subseq_trans {A} (a b c : list A) : subseq a b -> subseq b c -> subseq a c.
Proof.
  intros Hab Hbc. revert a Hab.
  induction Hbc as [c|x b c _ IH|x b c _ IH]; intros a Hab.
  - apply subseq_nil_inv in Hab. subst. apply subseq_nil.
  - inversion Hab; subst.
    + apply subseq_nil.
    + apply subseq_both, IH. assumption.
    + apply subseq_skip, IH. assumption.
  - apply subseq_skip, IH, Hab.
Qed.

Lemma stc_subseq (t : jsstring) : subseq (stripTrailingCommas t) t.
Proof.
  induction t as [|c r IH]; cbn [stripTrailingCommas]; [apply subseq_nil|].
  destruct ((c =? ch ",") && closer_ahead r).
  - apply subseq_skip, IH.
  - apply subseq_both, IH.
Qed.

Lemma stc_filter (p : N -> bool) (t : jsstring) :
  p (ch ",") = false ->
  filter p (stripTrailingCommas t) = filter p t.
Proof.
  intros Hp. induction t as [|c r IH]; cbn [stripTrailingCommas]; [reflexivity|].
  destruct (N.eqb_spec c (ch ",")) as [->|Hc]; cbn [andb].
  - destruct (closer_ahead r); cbn [filter]; rewrite Hp; exact IH.
  - cbn [filter]. rewrite IH. reflexivity.
Qed.

Lemma stc_no_comma (t : jsstring) :
  forallb notComma t = true -> stripTrailingCommas t = t.
Proof.
  induction t as [|c r IH]; cbn [stripTrailingCommas forallb]; [reflexivity|].
  intros Hc. apply andb_true_iff in Hc as [Hc Hr]. unfold notComma in Hc.
  apply negb_true_iff in Hc. rewrite Hc. cbn [andb]. rewrite (IH Hr). reflexivity.
Qed.

(** X1. stripTrailingCommas only deletes, and deletes only commas: its
    result is the text with some code units left out, the code units other
    than commas are all kept in their order, and a text without a comma is
    returned as it is.  One pass is not enough to remove every comma that
    ends up before a closer. *)
Theorem stripTrailingCommas_deletes_only_commas (t : jsstring) :
  subseq (stripTrailingCommas t) t
  /\ filter notComma (stripTrailingCommas t) = filter notComma t
  /\ (forallb notComma t = true -> stripTrailingCommas t = t)
  /\ stripTrailingCommas (lit "[1,,]") = lit "[1,]".
Proof.
  split; [apply stc_subseq|].
  split; [apply stc_filter; reflexivity|].
  split; [apply stc_no_comma|].
  vm_compute. reflexivity.
Qed.

Lemma stripTrailingCommas_deletes_only_commas_witness :
  stripTrailingCommas (litq "{'a':[1 2]}") = litq "{'a':[1 2]}".
Proof.
  exact (proj1 (proj2 (proj2 (stripTrailingCommas_deletes_only_commas
                                (litq "{'a':[1 2]}")))) eq_refl).
Defined.

Lemma ws_not_special (c : N) :
  is_ws c = true ->
  (c =? ch "\") = false /\ (c =? dquote) = false /\ (c =? ch ",") = false
  /\ (c =? ch "{") = false /\ (c =? ch "[") = false
  /\ (c =? ch "}") = false /\ (c =? ch "]") = false.
Proof.
  intros Hws.
  repeat split;
    match goal with
    | |- (c =? ?x) = false =>
        destruct (N.eqb_spec c x) as [->|_]; [vm_compute in Hws; discriminate|reflexivity]
    end.
Qed.

(** Inside a string that is not in an escape, a code unit other than the
    backslash and the quote leaves the scanner where it is. *)
Lemma scan_step_in_string (st : scan_state) (c : N) :
  inString st = true -> escaped st = false ->
  (c =? ch "\") = false -> (c =? dquote) = false ->
  scan_step st c = st.
Proof.
  intros Hin Hesc Hb Hq. unfold scan_step. rewrite Hin, Hesc, Hb, Hq. reflexivity.
Qed.

Lemma scan_step_escaped (st : scan_state) (c : N) :
  inString st = true -> escaped st = true ->
  scan_step st c = {| stack := stack st; inString := true; escaped := false |}.
Proof. intros Hin Hesc. unfold scan_step. rewrite Hin, Hesc. reflexivity. Qed.

Lemma scan_step_comma (st : scan_state) :
  (inString st && escaped st) = false -> scan_step st (ch ",") = st.
Proof.
  intros H. unfold scan_step.
  destruct (inString st) eqn:Hin; cbn [andb] in H.
  - rewrite H. reflexivity.
  - reflexivity.
Qed.

Lemma closer_ahead_head (r : jsstring) :
  closer_ahead r = true ->
  exists c r', r = c :: r'
    /\ (c =? ch "\") = false /\ (c =? dquote) = false.
Proof.
  destruct r as [|c r']; cbn [closer_ahead]; [discriminate|].
  intros H. exists c, r'. split; [reflexivity|].
  destruct (is_ws c) eqn:Hws.
  - destruct (ws_not_special c Hws) as (Hb & Hq & _). split; assumption.
  - apply orb_true_iff in H as [H|H]; apply N.eqb_eq in H; subst; split; reflexivity.
Qed.

(** The scanner cannot tell a text from the text with its trailing commas
    stripped. *)
Lemma scan_stc (t : jsstring) :
  forall st, fold_left scan_step (stripTrailingCommas t) st = fold_left scan_step t st.
Proof.
  induction t as [|c r IH]; intros st; cbn [stripTrailingCommas]; [reflexivity|].
  destruct (N.eqb_spec c (ch ",")) as [->|Hc]; cbn [andb].
  - destruct (closer_ahead r) eqn:Hahead.
    + rewrite IH. cbn [fold_left].
      destruct (inString st && escaped st) eqn:Hse.
      * apply andb_true_iff in Hse as [Hin Hesc].
        destruct (closer_ahead_head r Hahead) as (d & r' & -> & Hb & Hq).
        cbn [fold_left]. rewrite !(scan_step_escaped st _ Hin Hesc).
        rewrite scan_step_in_string by (try reflexivity; assumption).
        reflexivity.
      * rewrite (scan_step_comma st Hse). reflexivity.
    + cbn [fold_left]. apply IH.
  - cbn [fold_left]. apply IH.
Qed.

Lemma scan_ws_commas_outside (w : jsstring) (st : scan_state) :
  forallb (fun c => is_ws c || (c =? ch ",")) w = true ->
  inString st = false -> fold_left scan_step w st = st.
Proof.
  revert st. induction w as [|c r IH]; intros st Hw Hin; [reflexivity|].
  cbn [forallb] in Hw. apply andb_true_iff in Hw as [Hc Hr]. cbn [fold_left].
  assert (Hstep : scan_step st c = st).
  { unfold scan_step. rewrite Hin.
    apply orb_true_iff in Hc as [Hc|Hc].
    - destruct (ws_not_special c Hc) as (_ & Hq & _ & H1 & H2 & H3 & H4).
      rewrite Hq, H1, H2, H3, H4. reflexivity.
    - apply N.eqb_eq in Hc. subst. reflexivity. }
  rewrite Hstep. apply IH; assumption.
Qed.

Lemma scan_ws_commas_inside (w : jsstring) (st : scan_state) :
  forallb (fun c => is_ws c || (c =? ch ",")) w = true ->
  inString st = true -> inString (fold_left scan_step w st) = true.
Proof.
  revert st. induction w as [|c r IH]; intros st Hw Hin; [exact Hin|].
  cbn [forallb] in Hw. apply andb_true_iff in Hw as [Hc Hr]. cbn [fold_left].
  apply IH; [exact Hr|].
  assert (Hb : (c =? dquote) = false).
  { apply orb_true_iff in Hc as [Hc|Hc].
    - apply (ws_not_special c Hc).
    - apply N.eqb_eq in Hc. subst. reflexivity. }
  unfold scan_step. rewrite Hin, Hb.
  destruct (escaped st); [reflexivity|].
  destruct (c =? ch "\"); [reflexivity|exact Hin].
Qed.

Lemma forallb_ws_commas (r : jsstring) :
  forallb is_ws r = true -> forallb (fun c => is_ws c || (c =? ch ",")) r = true.
Proof.
  apply MarkupFacts.forallb_impl. intros x Hx. rewrite Hx. reflexivity.
Qed.

(** Dropping the final comma is invisible to a scanner that ends outside
    a string. *)
Lemma scan_dfc (t : jsstring) :
  forall st, inString (fold_left scan_step t st) = false ->
  fold_left scan_step (dropFinalComma t) st = fold_left scan_step t st.
Proof.
  induction t as [|c r IH]; intros st Hend; cbn [dropFinalComma]; [reflexivity|].
  destruct ((c =? ch ",") && forallb is_ws r) eqn:Hcut.
  - apply andb_true_iff in Hcut as [Hc Hr]. apply N.eqb_eq in Hc. subst c.
    assert (Hw : forallb (fun c => is_ws c || (c =? ch ",")) (ch "," :: r) = true).
    { cbn [forallb]. rewrite (forallb_ws_commas r Hr). reflexivity. }
    destruct (inString st) eqn:Hin.
    + rewrite (scan_ws_commas_inside _ st Hw Hin) in Hend. discriminate.
    + rewrite (scan_ws_commas_outside _ st Hw Hin). reflexivity.
  - cbn [fold_left]. apply IH. exact Hend.
Qed.

Lemma dfc_ends_solid (t : jsstring) (x : N) :
  is_ws x = false -> (x =? ch ",") = false ->
  dropFinalComma (t ++ [x]) = t ++ [x].
Proof.
  intros Hws Hx. induction t as [|c r IH]; cbn [app dropFinalComma].
  - rewrite Hx. reflexivity.
  - assert (Hr : forallb is_ws (r ++ [x]) = false).
    { rewrite forallb_app. cbn [forallb]. rewrite Hws, andb_false_r. reflexivity. }
    rewrite Hr, andb_false_r, IH. reflexivity.
Qed.

Lemma closer_ahead_snoc (r : jsstring) (x : N) :
  is_ws x = false -> (x =? ch "}") = false -> (x =? ch "]") = false ->
  closer_ahead (r ++ [x]) = closer_ahead r.
Proof.
  intros Hws H1 H2. induction r as [|c r IH]; cbn [app closer_ahead].
  - rewrite Hws, H1, H2. reflexivity.
  - destruct (is_ws c); [exact IH|reflexivity].
Qed.

Lemma stc_snoc (t : jsstring) (x : N) :
  is_ws x = false -> (x =? ch "}") = false -> (x =? ch "]") = false ->
  (x =? ch ",") = false ->
  stripTrailingCommas (t ++ [x]) = stripTrailingCommas t ++ [x].
Proof.
  intros Hws H1 H2 H3. induction t as [|c r IH]; cbn [app stripTrailingCommas].
  - rewrite H3. reflexivity.
  - rewrite (closer_ahead_snoc r x Hws H1 H2), IH.
    destruct ((c =? ch ",") && closer_ahead r); reflexivity.
Qed.

Lemma dfc_subseq (t : jsstring) : subseq (dropFinalComma t) t.
Proof.
  induction t as [|c r IH]; cbn [dropFinalComma]; [apply subseq_nil|].
  destruct ((c =? ch ",") && forallb is_ws r).
  - apply subseq_nil.
  - apply subseq_both, IH.
Qed.

Lemma filter_kept_ws (r : jsstring) : forallb is_ws r = true -> filter kept r = [].
Proof.
  induction r as [|c r IH]; cbn [forallb filter]; [reflexivity|].
  intros H. apply andb_true_iff in H as [Hc Hr]. unfold kept at 1.
  rewrite Hc, andb_false_r. apply IH, Hr.
Qed.

Lemma dfc_filter (t : jsstring) : filter kept (dropFinalComma t) = filter kept t.
Proof.
  induction t as [|c r IH]; cbn [dropFinalComma]; [reflexivity|].
  destruct ((c =? ch ",") && forallb is_ws r) eqn:Hcut.
  - apply andb_true_iff in Hcut as [Hc Hr]. cbn [filter].
    unfold kept at 1, notComma. rewrite Hc. cbn [negb andb].
    rewrite (filter_kept_ws r Hr). reflexivity.
  - cbn [filter]. rewrite IH. reflexivity.
Qed.

Lemma dfc_no_comma (t : jsstring) :
  forallb notComma t = true -> dropFinalComma t = t.
Proof.
  induction t as [|c r IH]; cbn [dropFinalComma forallb]; [reflexivity|].
  intros Hc. apply andb_true_iff in Hc as [Hc Hr]. unfold notComma in Hc.
  apply negb_true_iff in Hc. rewrite Hc. cbn [andb]. rewrite (IH Hr). reflexivity.
Qed.

(** Closers read outside a string, innermost first, empty the stack. *)
Lemma scan_closers (open : list N) :
  forallb (fun c => (c =? ch "{") || (c =? ch "[")) open = true ->
  fold_left scan_step (map closer open)
            {| stack := open; inString := false; escaped := false |}
  = scan_init.
Proof.
  induction open as [|c r IH]; cbn [forallb map fold_left]; [reflexivity|].
  intros H. apply andb_true_iff in H as [Hc Hr].
  assert (Hstep : scan_step {| stack := c :: r; inString := false; escaped := false |}
                            (closer c)
                  = {| stack := r; inString := false; escaped := false |}).
  { apply orb_true_iff in Hc as [Hc|Hc]; apply N.eqb_eq in Hc; subst c; reflexivity. }
  rewrite Hstep. apply IH, Hr.
Qed.

Lemma scan_closers_state (st : scan_state) :
  scan_ok st -> inString st = false ->
  fold_left scan_step (map closer (stack st)) st = scan_init.
Proof.
  intros [Hstack Hesc] Hin. destruct st as [s i e]. cbn in *. subst i.
  rewrite (Hesc eq_refl). apply scan_closers, Hstack.
Qed.

Lemma scan_closers_inside (open : list N) (st : scan_state) :
  inString st = true -> escaped st = false ->
  fold_left scan_step (map closer open) st = st.
Proof.
  intros Hin Hesc. induction open as [|c r IH]; cbn [map fold_left]; [reflexivity|].
  rewrite scan_step_in_string; try assumption.
  - unfold closer. destruct (c =? ch "{"); reflexivity.
  - unfold closer. destruct (c =? ch "{"); reflexivity.
Qed.

Lemma scan_step_ok (st : scan_state) (c : N) : scan_ok st -> scan_ok (scan_step st c).
Proof.
  intros [Hst Hesc]. unfold scan_step.
  destruct (inString st) eqn:Hin.
  - destruct (escaped st) eqn:He.
    + split; [exact Hst|discriminate].
    + destruct (c =? ch "\"); [split; [exact Hst|discriminate]|].
      destruct (c =? dquote).
      * split; [exact Hst|]. intros _. reflexivity.
      * split; [exact Hst|]. intros Hf. congruence.
  - destruct (c =? dquote); [split; [exact Hst|discriminate]|].
    destruct ((c =? ch "{") || (c =? ch "[")) eqn:Hopen.
    + split; cbn [stack inString escaped].
      * cbn [forallb]. rewrite Hopen, Hst. reflexivity.
      * intros _. apply Hesc. reflexivity.
    + destruct ((c =? ch "}") || (c =? ch "]")).
      * destruct (stack st) as [|top below] eqn:Hs.
        -- split; [rewrite Hs; exact Hst|intros _; apply Hesc; reflexivity].
        -- cbv zeta. destruct (top =? _).
           ++ cbn [forallb] in Hst. apply andb_true_iff in Hst as [_ Hst].
              split; cbn [stack inString escaped];
                [exact Hst|intros _; apply Hesc; reflexivity].
           ++ split; [rewrite Hs; exact Hst|intros _; apply Hesc; reflexivity].
      * split; [exact Hst|intros _; apply Hesc; reflexivity].
Qed.

Lemma scan_fold_ok (t : jsstring) (st : scan_state) :
  scan_ok st -> scan_ok (fold_left scan_step t st).
Proof.
  revert st. induction t as [|c r IH]; intros st Hok; [exact Hok|].
  cbn [fold_left]. apply IH, scan_step_ok, Hok.
Qed.

Lemma scan_is_ok (t : jsstring) : scan_ok (scan t).
Proof. apply scan_fold_ok. split; [reflexivity|reflexivity]. Qed.

Lemma fold_left_snoc {A B} (f : A -> B -> A) (l : list B) (x : B) (a : A) :
  fold_left f (l ++ [x]) a = f (fold_left f l a) x.
Proof. rewrite fold_left_app. reflexivity. Qed.

(** ** fixJSONStructure *)

Lemma fixJSONStructure_unfold (input : jsstring) :
  fixJSONStructure input =
  stripTrailingCommas
    (dropFinalComma
       (if inString (scan (stripInvisible input))
        then stripTrailingCommas (stripInvisible input) ++ [dquote]
        else stripTrailingCommas (stripInvisible input)))
  ++ map closer (stack (scan (stripInvisible input))).
Proof.
  unfold fixJSONStructure. cbv zeta. unfold scan. rewrite scan_stc. reflexivity.
Qed.

Lemma fixJSONStructure_body (input : jsstring) :
  fixJSONStructure input =
  (if inString (scan (stripInvisible input))
   then stripTrailingCommas (stripTrailingCommas (stripInvisible input))
   else stripTrailingCommas (dropFinalComma (stripTrailingCommas (stripInvisible input))))
  ++ closing (scan (stripInvisible input)).
Proof.
  rewrite fixJSONStructure_unfold. unfold closing.
  destruct (inString (scan (stripInvisible input))).
  - rewrite dfc_ends_solid by reflexivity.
    rewrite stc_snoc by reflexivity.
    rewrite <- app_assoc. reflexivity.
  - reflexivity.
Qed.

(** X2. Rescanned, the text that fixJSONStructure returns has no string
    and no bracket left open, whatever the input; the one exception is an
    input that ends inside a string right after a backslash, where the
    appended quote is itself escaped and the result still ends inside the
    string. *)
Theorem fixJSONStructure_leaves_nothing_open (input : jsstring) :
  if inString (scan (stripInvisible input)) && escaped (scan (stripInvisible input))
  then inString (scan (fixJSONStructure input)) = true
  else scan (fixJSONStructure input) = scan_init.
Proof.
  rewrite fixJSONStructure_body.
  set (text := stripInvisible input).
  pose proof (scan_is_ok text) as Hok.
  assert (Hstack := proj1 Hok).
  assert (Hscan : fold_left scan_step text scan_init = scan text) by reflexivity.
  set (st := scan text) in *.
  unfold closing, scan.
  destruct (inString st) eqn:Hin; cbn [andb].
  - rewrite app_assoc, !fold_left_app, !scan_stc, Hscan.
    cbn [fold_left].
    destruct (escaped st) eqn:He.
    + rewrite (scan_step_escaped _ _ Hin He).
      rewrite scan_closers_inside by reflexivity. reflexivity.
    + assert (Hq : scan_step st dquote
                   = {| stack := stack st; inString := false; escaped := false |}).
      { unfold scan_step. rewrite Hin, He. reflexivity. }
      rewrite Hq. apply scan_closers, Hstack.
  - cbn [app]. rewrite fold_left_app, scan_stc.
    assert (Hend : inString (fold_left scan_step (stripTrailingCommas text) scan_init)
                   = false).
    { rewrite scan_stc, Hscan. exact Hin. }
    rewrite (scan_dfc _ _ Hend), scan_stc, Hscan.
    apply scan_closers_state; assumption.
Qed.

(** X3. fixJSONStructure deletes nothing but commas, white space after a
    final comma and invisible code units, and adds nothing but a closing
    quote and closing brackets at the end: its result is a text [body]
    obtained from the input by leaving code units out, with every code
    unit other than a comma or white space kept, followed by the quote
    (when the input ends inside a string) and the closers of the open
    brackets, innermost first.  An input without commas and invisible
    code units is only extended. *)
Theorem fixJSONStructure_keeps_text (input : jsstring) :
  (exists body,
     fixJSONStructure input = body ++ closing (scan (stripInvisible input))
     /\ subseq body (stripInvisible input)
     /\ filter kept body = filter kept (stripInvisible input))
  /\ (forallb notComma input = true -> forallb visible input = true ->
      fixJSONStructure input = input ++ closing (scan input)).
Proof.
  split.
  - rewrite fixJSONStructure_body.
    set (text := stripInvisible input).
    destruct (inString (scan text)).
    + eexists. split; [reflexivity|]. split.
      * eapply subseq_trans; apply stc_subseq.
      * rewrite !stc_filter by reflexivity. reflexivity.
    + eexists. split; [reflexivity|]. split.
      * eapply subseq_trans; [apply stc_subseq|].
        eapply subseq_trans; [apply dfc_subseq|apply stc_subseq].
      * rewrite stc_filter by reflexivity.
        rewrite dfc_filter. rewrite stc_filter by reflexivity. reflexivity.
  - intros Hc Hv. rewrite fixJSONStructure_body.
    rewrite (stripInvisible_visible input Hv).
    rewrite (stc_no_comma input Hc), (dfc_no_comma input Hc), (stc_no_comma input Hc).
    destruct (inString (scan input)); reflexivity.
Qed.

Lemma fixJSONStructure_keeps_text_witness :
  fixJSONStructure (litq "{'a':['b") = litq "{'a':['b']}".
Proof.
  exact (proj2 (fixJSONStructure_keeps_text (litq "{'a':['b")) eq_refl eq_refl).
Defined.

(** ** fixXMLorHTML *)

Section ResultShape.
Context `{Host}.
Hypothesis laws : lowerCaseLaws.

(** X4. Whatever the input and the options, the text that fixXMLorHTML
    returns has no invisible code unit, does not end inside a tag, and,
    read again by the tag loop of fixXMLorHTML, leaves no element open: the
    loop copies it unchanged and ends with an empty stack. *)
Theorem fixXMLorHTML_leaves_nothing_open (input : jsstring) (opts : Opts) :
  let r := fixXMLorHTML input opts in
  forallb visible r = true
  /\ closeHalfTag r = r
  /\ tagLoop (List.length r) (treatAsHTML_of opts) (voids_of opts) r [] [] = ([], r).
Proof.
  cbv zeta.
  set (html := treatAsHTML_of opts). set (voids := voids_of opts).
  assert (Efix : fixXMLorHTML input opts =
    (let '(stack, out) :=
       runTags html voids (closeHalfTag (stripInvisible input)) [] [] in
     out ++ concat (map closingTag stack))) by reflexivity.
  rewrite Efix.
  set (text := closeHalfTag (stripInvisible input)).
  destruct (runTags html voids text [] []) as [stackF outF] eqn:Erun.
  assert (Hvis : forallb visible text = true).
  { unfold text. rewrite closeHalfTag_openLt.
    destruct (openLt false (stripInvisible input));
      [rewrite forallb_app|]; rewrite stripInvisible_is_visible; reflexivity. }
  destruct (second_pass html voids laws (List.length text) text [] [] stackF outF
              (le_n _) Hvis (closeHalfTag_closed _) (Forall_nil _) Erun)
    as (R & HoutF & HvR & HcR & HentF & Hsecond).
  cbn [app] in HoutF. subst outF.
  destruct (Hsecond [] (subseq_nil _)) as (s2' & Hsub' & Heq).
  split.
  { rewrite forallb_app, HvR. cbn [andb].
    eapply closers_visible; eassumption. }
  split.
  { rewrite closeHalfTag_openLt, openLt_app, HcR, closers_closed. reflexivity. }
  change (runTags html voids (R ++ concat (map closingTag stackF)) [] []
          = ([], R ++ concat (map closingTag stackF))).
  rewrite Heq. eapply closers_pop; eassumption.
Qed.

End ResultShape.

Lemma fixXMLorHTML_leaves_nothing_open_witness :
  fixXMLorHTML (lit "<a><B x=1><br>t</c><d") no_opts
  = lit "<a><B x=1><br>t</c><d></d></b></a>"
  /\ closeHalfTag (fixXMLorHTML (lit "<a><B x=1><br>t</c><d") no_opts)
     = fixXMLorHTML (lit "<a><B x=1><br>t</c><d") no_opts.
Proof.
  split; [vm_compute; reflexivity|].
  exact (proj1 (proj2 (fixXMLorHTML_leaves_nothing_open ascii_lower_laws
                         (lit "<a><B x=1><br>t</c><d") no_opts))).
Defined.

Section Documents.
Context `{Host}.
Hypothesis lower_idem : forall x, toLowerCase (toLowerCase x) = toLowerCase x.

(** X5. A well-nested document in canonical form is returned unchanged by
    fixXMLorHTML under every options object, whatever the letter case of
    its names, and so by fixUnclosed in xml mode.  Canonical form: the text
    is a sequence of opening tags ['<' name attributes '>'], closing tags
    ['</' name '>'], empty-element tags ['<' name attributes '/>'] and
    character data without ['<']; a name has no white space, ['<'], ['>']
    or ['/'] and does not start with ['!'] or ['?']; attributes are white
    space followed by text without ['>'] (in an opening tag not ending in
    white space or ['/']); there is no invisible code unit, no comment,
    CDATA section or processing instruction.  Well nested: every element
    is closed by a closing tag of exactly its name, and no element name is
    in the void-tag set. *)
Theorem fixXMLorHTML_wellNested_unchanged (evs : list Markup.event) (opts : Opts) :
  forallb Markup.valid_event evs = true ->
  forallb (fun n => negb (has (voids_of opts) (normalize (treatAsHTML_of opts) n)))
          (Markup.opened evs) = true ->
  Markup.wellNested evs = true ->
  fixXMLorHTML (Markup.render evs) opts = Markup.render evs
  /\ (mode opts = Some (lit "xml") ->
      fixUnclosed (Markup.render evs) opts = Normal (Markup.render evs)).
Proof.
  intros Hvalid Hvoid Hnested.
  assert (Hopen : Markup.openAfter [] evs = Some []).
  { unfold Markup.wellNested in Hnested.
    destruct (Markup.openAfter [] evs) as [[|x l]|]; [reflexivity|discriminate..]. }
  assert (Hfix : fixXMLorHTML (Markup.render evs) opts = Markup.render evs).
  { rewrite (MarkupRepair.fixXMLorHTML_render lower_idem evs [] opts Hvalid Hvoid Hopen).
    cbn [map concat]. apply app_nil_r. }
  split; [exact Hfix|].
  intros Hmode. unfold fixUnclosed. rewrite Hmode. cbn. rewrite Hfix. reflexivity.
Qed.

End Documents.

Lemma fixXMLorHTML_wellNested_unchanged_witness :
  fixUnclosed (litq "<mxGraphModel><root><mxCell id='0'/></root></mxGraphModel>") xml_mode
  = Normal (litq "<mxGraphModel><root><mxCell id='0'/></root></mxGraphModel>").
Proof.
  exact (proj2 (fixXMLorHTML_wellNested_unchanged (proj1 ascii_lower_laws)
                  [Markup.Open (lit "mxGraphModel") [];
                   Markup.Open (lit "root") [];
                   Markup.Empty (lit "mxCell") (litq " id='0'");
                   Markup.Close (lit "root");
                   Markup.Close (lit "mxGraphModel")]
                  xml_mode eq_refl eq_refl eq_refl) eq_refl).
Defined.

(** *** How single tags are treated *)

Lemma stripInvisible_app (a b : jsstring) :
  stripInvisible (a ++ b) = stripInvisible a ++ stripInvisible b.
Proof. unfold stripInvisible. rewrite !filter_app. reflexivity. Qed.

Lemma closeHalfTag_after_tag (t rest : jsstring) :
  closeHalfTag ((t ++ lit ">") ++ rest) = (t ++ lit ">") ++ closeHalfTag rest.
Proof.
  rewrite !closeHalfTag_openLt, openLt_app, MarkupRepair.openLt_ends_gt.
  destruct (openLt false rest); [rewrite app_assoc|]; reflexivity.
Qed.

Section SingleTags.
Context `{Host}.

Lemma tagLoop_out (fuel : nat) (html : bool) (voids : list jsstring) :
  forall (rest : jsstring) (stack : list jsstring) (out : jsstring),
  tagLoop fuel html voids rest stack out
  = (fst (tagLoop fuel html voids rest stack []),
     out ++ snd (tagLoop fuel html voids rest stack [])).
Proof.
  induction fuel as [|fuel IH]; intros rest stack out; cbn [tagLoop].
  - reflexivity.
  - destruct (exec_tag rest) as [[[before inner] after]|]; [|reflexivity].
    cbv zeta. cbn [app].
    repeat match goal with
           | |- context [if ?b then _ else _] => destruct b
           end;
      rewrite IH; symmetry; rewrite IH; cbn [fst snd];
      rewrite <- ?app_assoc; reflexivity.
Qed.

Lemma runTags_out (html : bool) (voids : list jsstring)
    (rest : jsstring) (stack : list jsstring) (out : jsstring) :
  runTags html voids rest stack out
  = (fst (runTags html voids rest stack []),
     out ++ snd (runTags html voids rest stack [])).
Proof. apply tagLoop_out. Qed.

Lemma fixXMLorHTML_runTags (input : jsstring) (opts : Opts) :
  fixXMLorHTML input opts =
  snd (runTags (treatAsHTML_of opts) (voids_of opts)
               (closeHalfTag (stripInvisible input)) [] [])
  ++ concat (map closingTag
       (fst (runTags (treatAsHTML_of opts) (voids_of opts)
                     (closeHalfTag (stripInvisible input)) [] []))).
Proof.
  unfold fixXMLorHTML, runTags, treatAsHTML_of, voids_of.
  destruct (tagLoop _ _ _ _ _ _) as [stack out]. reflexivity.
Qed.

(** X6. A comment, a DOCTYPE, a CDATA opening or a processing instruction
    at the head of the text is copied to the output and never gets a
    closing tag: the rest of the text is repaired as if it stood alone. *)
Theorem fixXMLorHTML_special_tag (b rest : jsstring) (opts : Opts) :
  isSpecialTag b = true -> noGt b = true -> forallb visible b = true ->
  trim b = b ->
  fixXMLorHTML (lit "<" ++ b ++ lit ">" ++ rest) opts
  = lit "<" ++ b ++ lit ">" ++ fixXMLorHTML rest opts.
Proof.
  intros Hspecial Hgt Hvis Htrim.
  assert (Hne : b <> []).
  { intros ->. discriminate Hspecial. }
  rewrite !fixXMLorHTML_runTags.
  set (html := treatAsHTML_of opts). set (voids := voids_of opts).
  assert (Hstrip : stripInvisible (lit "<" ++ b ++ lit ">" ++ rest)
                   = (lit "<" ++ b) ++ lit ">" ++ stripInvisible rest).
  { rewrite !stripInvisible_app, (stripInvisible_visible b Hvis).
    rewrite <- app_assoc. reflexivity. }
  rewrite Hstrip, app_assoc, closeHalfTag_after_tag.
  rewrite <- !app_assoc.
  rewrite (runTags_tag html voids b _ [] [] Hgt Hne).
  rewrite Htrim. unfold tagEffect. rewrite Hspecial.
  rewrite runTags_out. cbn [fst snd app].
  rewrite <- !app_assoc. reflexivity.
Qed.

End SingleTags.

Lemma fixXMLorHTML_special_tag_witness :
  fixXMLorHTML (litq "<?xml version='1.0'?><a><b>") xml_mode
  = litq "<?xml version='1.0'?>" ++ fixXMLorHTML (lit "<a><b>") xml_mode.
Proof.
  exact (fixXMLorHTML_special_tag (litq "?xml version='1.0'?") (lit "<a><b>") xml_mode
           eq_refl eq_refl eq_refl eq_refl).
Defined.

Section AppendedTags.
Context `{Host}.
Hypothesis lower_idem : forall x, toLowerCase (toLowerCase x) = toLowerCase x.

Lemma fixXMLorHTML_render_then (evs : list Markup.event) (open : list jsstring)
    (tail : jsstring) (opts : Opts) :
  forallb Markup.valid_event evs = true ->
  forallb (fun n => negb (has (voids_of opts) (normalize (treatAsHTML_of opts) n)))
          (Markup.opened evs) = true ->
  Markup.openAfter [] evs = Some open ->
  forallb visible tail = true -> openLt false tail = false ->
  fixXMLorHTML (Markup.render evs ++ tail) opts
  = Markup.render evs
    ++ snd (runTags (treatAsHTML_of opts) (voids_of opts) tail
                    (map (normalize (treatAsHTML_of opts)) open) [])
    ++ concat (map closingTag
         (fst (runTags (treatAsHTML_of opts) (voids_of opts) tail
                       (map (normalize (treatAsHTML_of opts)) open) []))).
Proof.
  intros Hvalid Hvoid Hopen Hvis Hclosed.
  rewrite fixXMLorHTML_runTags.
  rewrite stripInvisible_visible
    by (rewrite forallb_app, (MarkupRepair.render_visible _ Hvalid), Hvis; reflexivity).
  rewrite closeHalfTag_openLt, openLt_app, (MarkupRepair.render_closed _ Hvalid), Hclosed.
  pose proof (MarkupFacts.runTags_render (treatAsHTML_of opts) (voids_of opts)
                lower_idem evs tail [] open [] Hvalid Hvoid Hopen) as Hrun.
  cbn [map app] in Hrun. rewrite Hrun, runTags_out. cbn [fst snd].
  rewrite <- app_assoc. reflexivity.
Qed.

(** X7. A closing tag closes the innermost open element only: appended to
    the prefix of a well-nested document, a closing tag whose normalised
    name equals the normalised name of the innermost open element leaves
    the other open elements to be closed; any other closing tag (and any
    closing tag when nothing is open) is copied and closes nothing, so
    every open element still gets its closing tag. *)
Theorem fixXMLorHTML_closing_tag (evs : list Markup.event) (open : list jsstring)
    (name : jsstring) (opts : Opts) :
  forallb Markup.valid_event evs = true ->
  forallb (fun n => negb (has (voids_of opts) (normalize (treatAsHTML_of opts) n)))
          (Markup.opened evs) = true ->
  Markup.openAfter [] evs = Some open ->
  Markup.valid_name name = true ->
  (forall top below, open = top :: below ->
     normalize (treatAsHTML_of opts) top = normalize (treatAsHTML_of opts) name ->
     fixXMLorHTML (Markup.render evs ++ closingTag name) opts
     = Markup.render evs ++ closingTag name
       ++ concat (map closingTag (map (normalize (treatAsHTML_of opts)) below)))
  /\ (normalize (treatAsHTML_of opts) (hd [] open)
      <> normalize (treatAsHTML_of opts) name \/ open = [] ->
      fixXMLorHTML (Markup.render evs ++ closingTag name) opts
      = Markup.render evs ++ closingTag name
        ++ concat (map closingTag (map (normalize (treatAsHTML_of opts)) open))).
Proof.
  intros Hvalid Hvoid Hopen Hname.
  set (html := treatAsHTML_of opts). set (voids := voids_of opts).
  assert (Hfix : fixXMLorHTML (Markup.render evs ++ closingTag name) opts
    = Markup.render evs ++ closingTag name
      ++ concat (map closingTag
           (popIfMatches html (map (normalize html) open) (normalize html name)))).
  { rewrite (fixXMLorHTML_render_then evs open (closingTag name) opts
               Hvalid Hvoid Hopen).
    - fold html voids.
      pose proof (MarkupFacts.runTags_close html voids name []
                    (map (normalize html) open) [] Hname) as Hrun.
      cbn [Markup.renderEvent] in Hrun. rewrite app_nil_r in Hrun.
      fold (closingTag name) in Hrun. rewrite Hrun.
      unfold runTags. cbn [List.length tagLoop fst snd app]. rewrite app_nil_r.
      reflexivity.
    - exact (MarkupRepair.event_visible (Markup.Close name) Hname).
    - exact (MarkupRepair.event_closed (Markup.Close name) Hname). }
  split.
  - intros top below -> Hsame. rewrite Hfix. cbn [map popIfMatches].
    rewrite (MarkupFacts.normalize_idem html lower_idem top), Hsame.
    rewrite jsstring_eqb_refl. reflexivity.
  - intros Hdiff. rewrite Hfix.
    destruct open as [|top below]; [reflexivity|].
    destruct Hdiff as [Hdiff|Hnil]; [|discriminate].
    cbn [map popIfMatches hd] in *.
    rewrite (MarkupFacts.normalize_idem html lower_idem top).
    rewrite (jsstring_eqb_neq _ _ Hdiff). reflexivity.
Qed.

Lemma void_tag_effect (html : bool) (voids : list jsstring)
    (name attrs : jsstring) (stack : list jsstring) :
  Markup.valid_name name = true -> Markup.valid_open_attrs attrs = true ->
  has voids (normalize html name) = true ->
  tagEffect html voids (name ++ attrs) stack = stack.
Proof.
  intros Hn Ha Hv. apply MarkupFacts.valid_name_ok in Hn.
  unfold Markup.valid_open_attrs in Ha. apply andb_true_iff in Ha as [Ha _].
  unfold tagEffect.
  destruct (MarkupFacts.name_not_special name attrs Hn) as [-> ->].
  rewrite (firstWord_app name attrs
             (MarkupFacts.name_no_ws _ (MarkupFacts.name_chars _ Hn))
             (MarkupFacts.attrs_start _ Ha)).
  rewrite Hv, andb_false_r. reflexivity.
Qed.

(** X8. An element whose normalised name is in the void-tag set is never
    closed: appended to the prefix of a well-nested document, its opening
    tag is copied and the closing tags added at the end are those of the
    elements that were open before it. *)
Theorem fixXMLorHTML_void_tag (evs : list Markup.event) (open : list jsstring)
    (name attrs : jsstring) (opts : Opts) :
  forallb Markup.valid_event evs = true ->
  forallb (fun n => negb (has (voids_of opts) (normalize (treatAsHTML_of opts) n)))
          (Markup.opened evs) = true ->
  Markup.openAfter [] evs = Some open ->
  Markup.valid_name name = true -> Markup.valid_open_attrs attrs = true ->
  has (voids_of opts) (normalize (treatAsHTML_of opts) name) = true ->
  fixXMLorHTML (Markup.render evs ++ lit "<" ++ name ++ attrs ++ lit ">") opts
  = Markup.render evs ++ (lit "<" ++ name ++ attrs ++ lit ">")
    ++ concat (map closingTag (map (normalize (treatAsHTML_of opts)) open)).
Proof.
  intros Hvalid Hvoid Hopen Hname Hattrs Hv.
  set (html := treatAsHTML_of opts). set (voids := voids_of opts).
  assert (Hev : Markup.valid_event (Markup.Open name attrs) = true).
  { cbn. rewrite Hname, Hattrs. reflexivity. }
  rewrite (fixXMLorHTML_render_then evs open _ opts Hvalid Hvoid Hopen).
  - fold html voids.
    assert (Hgt : noGt (name ++ attrs) = true).
    { rewrite noGt_app.
      rewrite (MarkupFacts.name_noGt name
                 (MarkupFacts.name_chars _ (MarkupFacts.valid_name_ok _ Hname))).
      apply andb_true_iff in Hattrs as [Ha _].
      rewrite (MarkupFacts.attrs_noGt attrs Ha). reflexivity. }
    assert (Hne : name ++ attrs <> []).
    { destruct name; [discriminate Hname|discriminate]. }
    pose proof (runTags_tag html voids (name ++ attrs) [] (map (normalize html) open) []
                  Hgt Hne) as Hrun.
    rewrite app_nil_r, <- app_assoc in Hrun. rewrite Hrun.
    assert (Htrim : trim (name ++ attrs) = name ++ attrs).
    { apply trim_fixed.
      - pose proof (MarkupFacts.name_ok_head name (MarkupFacts.valid_name_ok _ Hname))
          as Hh.
        destruct name as [|c r]; [discriminate Hname|]. cbn [app hd] in *.
        apply MarkupFacts.name_char_facts in Hh. tauto.
      - pose proof (MarkupFacts.name_ok_last name (MarkupFacts.valid_name_ok _ Hname))
          as Hl.
        apply andb_true_iff in Hattrs as [_ Hlast].
        destruct attrs as [|a attrs].
        + rewrite app_nil_r. apply MarkupFacts.name_char_facts in Hl. tauto.
        + rewrite last_app_nonempty by discriminate.
          apply andb_true_iff in Hlast as [Hlast _].
          apply negb_true_iff in Hlast. exact Hlast. }
    rewrite Htrim, (void_tag_effect html voids name attrs _ Hname Hattrs Hv).
    unfold runTags. cbn [List.length tagLoop fst snd app].
    rewrite <- !app_assoc. reflexivity.
  - exact (MarkupRepair.event_visible _ Hev).
  - exact (MarkupRepair.event_closed _ Hev).
Qed.

End AppendedTags.

Lemma fixXMLorHTML_closing_tag_witness :
  fixXMLorHTML (lit "<DIV></div>") no_opts = lit "<DIV></div>"
  /\ fixXMLorHTML (lit "<a></b>") no_opts = lit "<a></b></a>".
Proof.
  split.
  - exact (proj1 (fixXMLorHTML_closing_tag (proj1 ascii_lower_laws)
                    [Markup.Open (lit "DIV") []] [lit "DIV"] (lit "div") no_opts
                    eq_refl eq_refl eq_refl eq_refl)
             (lit "DIV") [] eq_refl eq_refl).
  - apply (proj2 (fixXMLorHTML_closing_tag (proj1 ascii_lower_laws)
                    [Markup.Open (lit "a") []] [lit "a"] (lit "b") no_opts
                    eq_refl eq_refl eq_refl eq_refl)).
    left. vm_compute. discriminate.
Defined.

Lemma fixXMLorHTML_void_tag_witness :
  fixXMLorHTML (lit "<p><br>") no_opts = lit "<p><br></p>".
Proof.
  exact (fixXMLorHTML_void_tag (proj1 ascii_lower_laws)
           [Markup.Open (lit "p") []] [lit "p"] (lit "br") [] no_opts
           eq_refl eq_refl eq_refl eq_refl eq_refl eq_refl).
Defined.

(** * Further properties of the iframe bridge *)

Module BridgeMore.
Import Bridge BridgeSpec.

Lemma component_eta (c : Component) :
  c = {| isReady := isReady c; isLoading := isLoading c; error := error c;
         xml := xml c; onSave := onSave c; onError := onError c;
         iframe := iframe c; handlerReady := handlerReady c |}.
Proof. destruct c. reflexivity. Qed.

Lemma posts_load_nil (x : jsstring) : posts_load x [].
Proof. intros e []. Qed.

Lemma posts_load_app (x : jsstring) (a b : list effect) :
  posts_load x a -> posts_load x b -> posts_load x (a ++ b).
Proof.
  intros Ha Hb e Hin. apply in_app_or in Hin as [Hin|Hin]; [apply Ha|apply Hb]; exact Hin.
Qed.

Lemma posts_load_no_post (x : jsstring) (effs : list effect) :
  forallb (fun e => negb (is_post e)) effs = true -> posts_load x effs.
Proof.
  intros Hall e Hin Hpost. rewrite forallb_forall in Hall.
  specialize (Hall e Hin). rewrite Hpost in Hall. discriminate.
Qed.

Lemma sendLoadMessage_posts_load (iframe ready : bool) (x : jsstring) :
  x <> [] -> posts_load x (sendLoadMessage iframe ready (VStr x)).
Proof.
  intros Hx. unfold sendLoadMessage.
  destruct (negb iframe || negb ready); [apply posts_load_nil|].
  assert (Ht : truthy (VStr x) = true) by (destruct x; [congruence|reflexivity]).
  rewrite Ht. intros e [<-|[]] _. split; [reflexivity|exact Hx].
Qed.

Lemma loadEffect_posts_load (c : Component) : posts_load (xml c) (loadEffect c).
Proof.
  unfold loadEffect. destruct (xml c) as [|a r] eqn:Hx.
  - rewrite andb_false_r. apply posts_load_nil.
  - destruct (isReady c); cbn [andb falsy negb]; [|apply posts_load_nil].
    apply sendLoadMessage_posts_load. discriminate.
Qed.

Ltac eval_lits :=
  repeat match goal with
         | |- context [jsstring_eqb (lit ?a) (lit ?b)] =>
             let v := eval vm_compute in (jsstring_eqb (lit a) (lit b)) in
             change (jsstring_eqb (lit a) (lit b)) with v
         end.

Ltac quiet_message :=
  split; [reflexivity|split; [apply posts_load_nil|apply outcome_same]].

Ltac silent_message :=
  split; [reflexivity|split; [apply posts_load_no_post; reflexivity|apply outcome_same]].

(** What the handler does, whatever the message: the callbacks it invokes
    are set and get a truthy argument, what it posts is the load action of
    the non-empty [xml] prop, and the state it leaves is one of the three
    outcomes. *)
Lemma handleMessage_effects (c : Component) (origin : jsstring) (data : jsval)
    (effs : list effect) :
  handleMessage c origin data = Normal effs ->
  forallb (callback_ok c) effs = true
  /\ posts_load (xml c) effs
  /\ message_outcome c (fold_left apply_effect effs c).
Proof.
  unfold handleMessage.
  destruct (jsstring_eqb origin editor_origin); cbn [negb].
  2:{ intros [= <-]. quiet_message. }
  destruct data as [| |b|z|s|props]; cbn [typeof get bind];
    try (intros [= <-]; quiet_message; fail);
    try discriminate.
  - destruct (is_str (VStr s) "ready"); intros [= <-].
    + split; [reflexivity|split; [apply posts_load_no_post; reflexivity|apply outcome_ready]].
    + quiet_message.
  - destruct (is_str (lookup (lit "event") props) "init").
    { intros [= <-].
      set (tail := if iframe c && negb (falsy (xml c))
                   then sendLoadMessage (iframe c) (handlerReady c) (VStr (xml c))
                   else []).
      assert (Htail : forallb (fun e => negb (is_setter e) && callback_ok c e) tail
                      = true).
      { unfold tail. destruct (iframe c && negb (falsy (xml c))); [|reflexivity].
        unfold sendLoadMessage. destruct (negb (iframe c) || negb (handlerReady c));
          reflexivity. }
      assert (Hload : posts_load (xml c) tail).
      { unfold tail. destruct (xml c) as [|a r] eqn:Hx.
        - rewrite andb_false_r. apply posts_load_nil.
        - destruct (iframe c); cbn [andb negb falsy]; [|apply posts_load_nil].
          apply sendLoadMessage_posts_load. discriminate. }
      split; [|split].
      - cbn [forallb callback_ok andb].
        revert Htail. apply MarkupFacts.forallb_impl.
        intros x Hx. apply andb_true_iff in Hx. tauto.
      - apply (posts_load_app (xml c) [SetIsReady true; SetIsLoading false] tail);
          [apply posts_load_no_post; reflexivity|exact Hload].
      - cbn [fold_left apply_effect isReady isLoading error xml onSave onError
             iframe handlerReady].
        assert (Hkeep : forall l c0,
                  forallb (fun e => negb (is_setter e) && callback_ok c e) l = true ->
                  fold_left apply_effect l c0 = c0).
        { induction l as [|e l IHl]; intros c0 Hl; [reflexivity|].
          cbn [forallb] in Hl. apply andb_true_iff in Hl as [He Hl].
          cbn [fold_left]. rewrite <- (IHl c0 Hl) at 2. f_equal.
          destruct e; try discriminate; reflexivity. }
        rewrite (Hkeep _ _ Htail). apply outcome_ready. }
    repeat match goal with
           | |- context [if is_str ?v ?t then _ else _] => destruct (is_str v t)
           end; cbn [bind].
    all: try (intros [= <-]; silent_message; fail).
    + intros [= <-]. split; [|split].
      * rewrite forallb_app.
        destruct (is_some (onSave c) && truthy (lookup (lit "xml") props)) eqn:E;
          cbn [forallb callback_ok]; rewrite ?E;
          destruct (truthy (lookup (lit "exit") props)); reflexivity.
      * apply posts_load_no_post. rewrite forallb_app.
        destruct (is_some (onSave c) && truthy (lookup (lit "xml") props));
          destruct (truthy (lookup (lit "exit") props)); reflexivity.
      * destruct (is_some (onSave c) && truthy (lookup (lit "xml") props));
          destruct (truthy (lookup (lit "exit") props)); apply outcome_same.
    + intros [= <-].
      destruct (is_some (onSave c) && truthy (lookup (lit "xml") props)) eqn:E;
        cbn [forallb callback_ok]; rewrite ?E;
        (silent_message).
    + intros [= <-].
      set (m := lookup (lit "message") props).
      assert (Ht : truthy (if truthy m then m else VStr (lit "Unknown error occurred"))
                   = true).
      { destruct (truthy m) eqn:Hm; [exact Hm|reflexivity]. }
      split; [|split].
      * cbn [forallb callback_ok].
        destruct (is_some (onError c)) eqn:E; cbn [forallb callback_ok];
          rewrite ?E, ?Ht; reflexivity.
      * apply posts_load_no_post.
        destruct (is_some (onError c)); reflexivity.
      * destruct (is_some (onError c)); cbn [fold_left apply_effect];
          apply outcome_error, Ht.
Qed.

Lemma filter_posts_load (x : jsstring) (p : effect -> bool) (effs : list effect) :
  posts_load x effs -> posts_load x (filter p effs).
Proof.
  intros Hl e Hin. apply filter_In in Hin as [Hin _]. apply Hl, Hin.
Qed.

Lemma message_outcome_xml (c c' : Component) :
  message_outcome c c' ->
  xml c' = xml c /\ onSave c' = onSave c /\ onError c' = onError c
  /\ iframe c' = iframe c /\ handlerReady c' = handlerReady c.
Proof. intros []; repeat split. Qed.

(** One input that is not a call from outside: what is posted is the load
    action of the non-empty [xml] prop of the new render, and callbacks
    get truthy arguments. *)
Lemma step_effects (c : Component) (i : input) :
  is_call i = false ->
  posts_load (xml (fst (step c i))) (snd (step c i))
  /\ forallb (callback_ok c) (snd (step c i)) = true.
Proof.
  intros Hcall. destruct i as [origin data|x s e|v|v|v]; try discriminate; cbn [step].
  - destruct (handleMessage c origin data) as [effs|ex] eqn:E; cbn [fst snd].
    2:{ split; [apply posts_load_nil|reflexivity]. }
    destruct (handleMessage_effects c origin data effs E) as (Hcb & Hload & Hout).
    destruct (message_outcome_xml _ _ Hout) as (Hx & _).
    assert (Hseen : forallb (callback_ok c)
                      (filter (fun e => negb (is_setter e)) effs) = true)
      by (apply BridgeFacts.forallb_filter_keep, Hcb).
    destruct (Bool.eqb _ _); cbn [fst snd]; rewrite Hx.
    + split; [apply filter_posts_load, Hload|exact Hseen].
    + split.
      * apply posts_load_app; [apply filter_posts_load, Hload|].
        rewrite <- Hx. apply loadEffect_posts_load.
      * rewrite forallb_app, Hseen. cbn [andb].
        unfold loadEffect. destruct (isReady _ && _); [|reflexivity].
        unfold sendLoadMessage. destruct (negb _ || negb _); reflexivity.
  - destruct (jsstring_eqb x (xml c)); cbn [fst snd xml].
    + split; [apply posts_load_nil|reflexivity].
    + split.
      * match goal with
        | |- posts_load x (loadEffect ?c') =>
            exact (loadEffect_posts_load c')
        end.
      * unfold loadEffect. destruct (isReady _ && _); [|reflexivity].
        unfold sendLoadMessage. destruct (negb _ || negb _); reflexivity.
Qed.

(** X9. The component never posts anything but the load action of a
    non-empty document, and never invokes onSave or onError with a falsy
    argument: in every run in which the bridge functions are not called
    from outside (the component exposes none of them), each posted message
    is a load action with a non-empty xml and autosave 1, so the export and
    merge actions and the default empty document are never sent. *)
Theorem bridge_posts_only_loads (c : Component) (trace : list input) (e : effect) :
  forallb (fun i => negb (is_call i)) trace = true ->
  In e (snd (run c trace)) ->
  match e with
  | PostMessage _ _ => exists x, x <> [] /\ e = loadMessage x
  | OnSave v | OnError v => truthy v = true
  | _ => True
  end.
Proof.
  revert c. induction trace as [|i trace IH]; intros c Hcalls Hin; [destruct Hin|].
  cbn [forallb] in Hcalls. apply andb_true_iff in Hcalls as [Hi Hcalls].
  apply negb_true_iff in Hi. cbn [run] in Hin.
  destruct (step_effects c i Hi) as [Hload Hcb].
  destruct (step c i) as [c1 out1]. cbn [fst snd] in *.
  specialize (IH c1 Hcalls).
  destruct (run c1 trace) as [c2 out2]. cbn [fst snd] in *.
  apply in_app_or in Hin as [Hin|Hin]; [|apply IH, Hin].
  rewrite forallb_forall in Hcb. specialize (Hcb e Hin).
  destruct e as [b|b|v|v|v|l|m o]; try exact I.
  - cbn in Hcb. apply andb_true_iff in Hcb. tauto.
  - cbn in Hcb. apply andb_true_iff in Hcb. tauto.
  - destruct (Hload _ Hin eq_refl) as [He Hx]. eexists. split; eassumption.
Qed.

Lemma bridge_posts_only_loads_witness :
  exists x, x <> [] /\
    PostMessage
      (VObj [ (lit "action", VStr (lit "load")); (lit "xml", VStr (lit "<a/>"));
              (lit "autosave", VNum 1) ]) editor_origin = loadMessage x.
Proof.
  refine (bridge_posts_only_loads (mounted (lit "<a/>") (Some 1%nat) None)
           [Receive editor_origin (VStr (lit "ready"));
            Receive editor_origin
              (VObj [(lit "event", VStr (lit "save")); (lit "xml", VStr (lit "<b/>"))])]
           (PostMessage
              (VObj [ (lit "action", VStr (lit "load")); (lit "xml", VStr (lit "<a/>"));
                      (lit "autosave", VNum 1) ]) editor_origin)
           eq_refl _).
  vm_compute. left. reflexivity.
Defined.

Lemma step_outcome (c : Component) (i : input) :
  message_outcome c (fst (step c i))
  \/ exists x s e,
       i = SetProps x s e
       /\ fst (step c i)
          = {| isReady := isReady c; isLoading := isLoading c; error := error c;
               xml := x; onSave := s; onError := e; iframe := iframe c;
               handlerReady :=
                 if jsstring_eqb x (xml c) && option_nat_eqb s (onSave c)
                    && option_nat_eqb e (onError c)
                 then handlerReady c else isReady c |}.
Proof.
  destruct i as [origin data|x s e|v|v|v]; cbn [step fst].
  - left. destruct (handleMessage c origin data) as [effs|ex] eqn:E; cbn [fst].
    + destruct (handleMessage_effects c origin data effs E) as (_ & _ & Hout).
      destruct (Bool.eqb _ _); exact Hout.
    + apply outcome_same.
  - right. exists x, s, e. split; [reflexivity|].
    destruct (jsstring_eqb x (xml c)); reflexivity.
  - left. apply outcome_same.
  - left. apply outcome_same.
  - left. apply outcome_same.
Qed.

Lemma run_snoc_state (c : Component) (trace : list input) (i : input) :
  fst (run c (trace ++ [i])) = fst (step (fst (run c trace)) i).
Proof.
  rewrite BridgeFacts.run_app. cbn [fst run].
  destruct (step (fst (run c trace)) i) as [c1 out1]. reflexivity.
Qed.

(** A property of components that every step keeps holds after every
    run. *)
Lemma run_invariant (P : Component -> Prop) :
  (forall c i, P c -> P (fst (step c i))) ->
  forall trace c, P c -> P (fst (run c trace)).
Proof.
  intros Hstep trace. induction trace as [|i trace IH]; intros c Hc; [exact Hc|].
  cbn [run]. specialize (Hstep c i Hc).
  destruct (step c i) as [c1 out1]. cbn [fst] in Hstep.
  specialize (IH c1 Hstep). destruct (run c1 trace) as [c2 out2]. exact IH.
Qed.

(** X10. The loading overlay is shown exactly until the editor is ready,
    and readiness is never lost: after every run of the mounted component
    isLoading is the negation of isReady, the sendLoadMessage that the
    message handler closed over is never ahead of the state, and a
    component that is ready stays ready whatever happens next. *)
Theorem loading_until_ready (xml0 : jsstring) (s e : option nat)
    (trace later : list input) :
  let c := fst (run (mounted xml0 s e) trace) in
  isLoading c = negb (isReady c)
  /\ closure_ok c
  /\ iframe c = true
  /\ (isReady c = true -> isReady (fst (run c later)) = true).
Proof.
  cbv zeta.
  assert (Hinv : forall c i,
    (isLoading c = negb (isReady c) /\ closure_ok c /\ iframe c = true) ->
    (isLoading (fst (step c i)) = negb (isReady (fst (step c i)))
     /\ closure_ok (fst (step c i)) /\ iframe (fst (step c i)) = true)).
  { intros c i (Hl & Hc & Hf).
    destruct (step_outcome c i) as [Hout|(x & s' & e' & _ & ->)].
    - destruct Hout; unfold closure_ok in *; cbn; repeat split; auto.
    - unfold closure_ok in *. cbn. repeat split; auto.
      destruct (_ && _); auto. }
  assert (Hmono : forall c i, isReady c = true -> isReady (fst (step c i)) = true).
  { intros c i Hr.
    destruct (step_outcome c i) as [Hout|(x & s' & e' & _ & ->)].
    - destruct Hout; cbn; auto.
    - exact Hr. }
  assert (H0 : isLoading (mounted xml0 s e) = negb (isReady (mounted xml0 s e))
               /\ closure_ok (mounted xml0 s e) /\ iframe (mounted xml0 s e) = true).
  { unfold closure_ok. cbn. repeat split; auto; discriminate. }
  destruct (run_invariant _ Hinv trace (mounted xml0 s e) H0) as (Hl & Hc & Hf).
  split; [exact Hl|]. split; [exact Hc|]. split; [exact Hf|].
  intros Hr. apply (run_invariant (fun c => isReady c = true) Hmono later _ Hr).
Qed.

Lemma fold_no_error (effs : list effect) :
  forall c, forallb (fun e => negb (sets_error e)) effs = true ->
  error (fold_left apply_effect effs c) = error c.
Proof.
  induction effs as [|e effs IH]; intros c He; [reflexivity|].
  cbn [forallb] in He. apply andb_true_iff in He as [He Hr].
  cbn [fold_left]. rewrite (IH _ Hr).
  destruct e; try reflexivity. discriminate.
Qed.

Lemma sendLoadMessage_no_error (i r : bool) (v : jsval) :
  forallb (fun e => negb (sets_error e)) (sendLoadMessage i r v) = true.
Proof. unfold sendLoadMessage. destruct (negb i || negb r); reflexivity. Qed.

(** Only an error event makes the handler call setError. *)
Lemma handleMessage_no_error (c : Component) (origin : jsstring) (data : jsval)
    (effs : list effect) :
  handleMessage c origin data = Normal effs ->
  reports_error (Receive origin data) = false ->
  forallb (fun e => negb (sets_error e)) effs = true.
Proof.
  unfold handleMessage, reports_error.
  destruct (jsstring_eqb origin editor_origin); cbn [negb andb].
  2:{ intros [= <-] _. reflexivity. }
  destruct data as [| |b|z|s|props]; cbn [typeof get bind];
    try (intros [= <-] _; reflexivity); try discriminate.
  - destruct (is_str (VStr s) "ready"); intros [= <-] _; reflexivity.
  - intros Heffs Hev. rewrite Hev in Heffs.
    destruct (is_str (lookup (lit "event") props) "init").
    { injection Heffs as <-. cbn [app forallb sets_error negb andb].
      destruct (iframe c && negb (falsy (xml c))); [|reflexivity].
      apply sendLoadMessage_no_error. }
    destruct (is_str (lookup (lit "event") props) "load").
    { injection Heffs as <-. reflexivity. }
    destruct (is_str (lookup (lit "event") props) "save").
    { injection Heffs as <-.
      destruct (is_some (onSave c) && truthy (lookup (lit "xml") props));
        destruct (truthy (lookup (lit "exit") props)); reflexivity. }
    destruct (is_str (lookup (lit "event") props) "exit").
    { injection Heffs as <-. reflexivity. }
    destruct (is_str (lookup (lit "event") props) "autosave").
    { injection Heffs as <-.
      destruct (is_some (onSave c) && truthy (lookup (lit "xml") props)); reflexivity. }
    destruct (is_str (lookup (lit "event") props) "export");
      injection Heffs as <-; reflexivity.
Qed.

Lemma step_no_error (c : Component) (i : input) :
  reports_error i = false -> error (fst (step c i)) = error c.
Proof.
  intros Hi. destruct i as [origin data|x s e|v|v|v]; cbn [step fst];
    try reflexivity.
  - destruct (handleMessage c origin data) as [effs|ex] eqn:E; [|reflexivity].
    pose proof (fold_no_error effs c (handleMessage_no_error c origin data effs E Hi))
      as Herr.
    destruct (Bool.eqb _ _); exact Herr.
  - destruct (jsstring_eqb x (xml c)); reflexivity.
Qed.

Lemma run_no_error (trace : list input) :
  forall c, forallb (fun i => negb (reports_error i)) trace = true ->
  error (fst (run c trace)) = error c.
Proof.
  induction trace as [|i trace IH]; intros c Ht; [reflexivity|].
  cbn [forallb] in Ht. apply andb_true_iff in Ht as [Hi Hr].
  apply negb_true_iff in Hi.
  cbn [run]. pose proof (step_no_error c i Hi) as Hs.
  destruct (step c i) as [c1 out1]. cbn [fst] in Hs.
  specialize (IH c1 Hr). destruct (run c1 trace) as [c2 out2].
  cbn [fst] in *. congruence.
Qed.

(** X11. The error state is null until the editor reports an error and a
    truthy message ever after: as long as no error event has arrived from
    the editor the error is null; an error event records its message, or
    'Unknown error occurred' when the message is missing or falsy, and
    reports the same value to onError when that prop is set; and nothing
    resets the error. *)
Theorem error_is_sticky (xml0 : jsstring) (s e : option nat)
    (trace later : list input) (props : list (jsstring * jsval)) :
  let c := fst (run (mounted xml0 s e) trace) in
  (forallb (fun i => negb (reports_error i)) trace = true -> error c = VNull)
  /\ (error c = VNull \/ truthy (error c) = true)
  /\ (truthy (error c) = true -> truthy (error (fst (run c later))) = true)
  /\ (is_str (lookup (lit "event") props) "error" = true ->
      let errorMsg := if truthy (lookup (lit "message") props)
                      then lookup (lit "message") props
                      else VStr (lit "Unknown error occurred") in
      error (fst (step c (Receive editor_origin (VObj props)))) = errorMsg
      /\ snd (step c (Receive editor_origin (VObj props)))
         = if is_some (onError c) then [OnError errorMsg] else []).
Proof.
  cbv zeta.
  assert (Hinv : forall c i,
    (error c = VNull \/ truthy (error c) = true) ->
    (error (fst (step c i)) = VNull \/ truthy (error (fst (step c i))) = true)).
  { intros c i Hc.
    destruct (step_outcome c i) as [Hout|(x & s' & e' & _ & ->)].
    - destruct Hout; cbn; auto.
    - exact Hc. }
  assert (Hmono : forall c i,
    truthy (error c) = true -> truthy (error (fst (step c i))) = true).
  { intros c i Hc.
    destruct (step_outcome c i) as [Hout|(x & s' & e' & _ & ->)].
    - destruct Hout; cbn; auto.
    - exact Hc. }
  split; [|split; [|split]].
  - intros Ht. apply (run_no_error trace (mounted xml0 s e) Ht).
  - apply (run_invariant _ Hinv). left. reflexivity.
  - intros Ht. apply (run_invariant _ Hmono later _ Ht).
  - intros Hev.
    set (c := fst (run (mounted xml0 s e) trace)).
    set (errorMsg := if truthy (lookup (lit "message") props)
                     then lookup (lit "message") props
                     else VStr (lit "Unknown error occurred")).
    assert (Hh : handleMessage c editor_origin (VObj props)
                 = Normal (SetError errorMsg
                           :: (if is_some (onError c) then [OnError errorMsg] else []))).
    { unfold handleMessage. rewrite jsstring_eqb_refl. cbn [negb typeof get bind].
      destruct (lookup (lit "event") props) as [| |b|z|t|p]; try discriminate.
      cbn [is_str] in *.
      apply jsstring_eqb_eq in Hev. subst t.
      cbn [is_str]. eval_lits. cbv iota. cbn [bind]. reflexivity. }
    cbn [step]. rewrite Hh.
    destruct (is_some (onError c)); cbn; rewrite Bool.eqb_reflx; split; reflexivity.
Qed.

Lemma loading_until_ready_witness :
  isReady (fst (run (fst (run (mounted (lit "<a/>") None None)
                              [Receive editor_origin (VStr (lit "ready"))]))
                    [Receive editor_origin (VObj [(lit "event", VStr (lit "error"))]);
                     SetProps (lit "<b/>") None None])) = true.
Proof.
  exact (proj2 (proj2 (proj2 (loading_until_ready (lit "<a/>") None None
           [Receive editor_origin (VStr (lit "ready"))]
           [Receive editor_origin (VObj [(lit "event", VStr (lit "error"))]);
            SetProps (lit "<b/>") None None]))) eq_refl).
Defined.

Lemma error_is_sticky_witness :
  error (fst (run (mounted (lit "<a/>") None (Some 2%nat))
                  [Receive editor_origin (VStr (lit "ready"));
                   Receive editor_origin (VObj [(lit "event", VStr (lit "load"))]);
                   Receive (lit "https://example.org")
                     (VObj [(lit "event", VStr (lit "error"))]);
                   SetProps (lit "<b/>") None None])) = VNull
  /\ error (fst (step (fst (run (mounted (lit "<a/>") None (Some 2%nat)) []))
                      (Receive editor_origin
                         (VObj [(lit "event", VStr (lit "error"));
                                (lit "message", VStr [])]))))
     = VStr (lit "Unknown error occurred").
Proof.
  split.
  - exact (proj1 (error_is_sticky (lit "<a/>") None (Some 2%nat)
             [Receive editor_origin (VStr (lit "ready"));
              Receive editor_origin (VObj [(lit "event", VStr (lit "load"))]);
              Receive (lit "https://example.org")
                (VObj [(lit "event", VStr (lit "error"))]);
              SetProps (lit "<b/>") None None] [] []) eq_refl).
  - exact (proj1 (proj2 (proj2 (proj2 (error_is_sticky (lit "<a/>") None (Some 2%nat) [] []
             [(lit "event", VStr (lit "error")); (lit "message", VStr [])])))
             eq_refl)).
Defined.

Lemma handleMessage_init (c : Component) (data : jsval) :
  is_init data = true ->
  handleMessage c editor_origin data
  = Normal ([SetIsReady true; SetIsLoading false]
            ++ (if iframe c && negb (falsy (xml c))
                then sendLoadMessage (iframe c) (handlerReady c) (VStr (xml c))
                else [])).
Proof.
  intros Hinit. destruct data as [| |b|z|t|props]; try discriminate.
  unfold handleMessage. rewrite jsstring_eqb_refl. cbn [negb typeof get bind].
  cbn [is_init] in Hinit. rewrite Hinit. reflexivity.
Qed.

Lemma sendLoadMessage_ready (x : jsstring) :
  x <> [] -> sendLoadMessage true true (VStr x) = [loadMessage x].
Proof. intros Hx. destruct x; [congruence|reflexivity]. Qed.

(** One [init] event on a component whose iframe is set and whose [xml]
    prop is not empty. *)
Lemma step_init (c : Component) (data : jsval) :
  is_init data = true -> iframe c = true -> xml c <> [] ->
  step c (Receive editor_origin data)
  = ({| isReady := true; isLoading := false; error := error c; xml := xml c;
        onSave := onSave c; onError := onError c; iframe := true;
        handlerReady := handlerReady c |},
     if isReady c
     then (if handlerReady c then [loadMessage (xml c)] else [])
     else (if handlerReady c then [loadMessage (xml c)] else [])
          ++ [loadMessage (xml c)]).
Proof.
  intros Hinit Hf Hx. cbn [step]. rewrite (handleMessage_init c data Hinit).
  destruct c as [r l er x sv oe f hr].
  cbn [isReady isLoading error xml onSave onError iframe handlerReady] in *.
  subst f. destruct x as [|a x]; [congruence|].
  destruct hr, r; reflexivity.
Qed.

Lemma run_cons (c : Component) (i : input) (rest : list input) :
  run c (i :: rest)
  = (fst (run (fst (step c i)) rest),
     snd (step c i) ++ snd (run (fst (step c i)) rest)).
Proof.
  cbn [run]. destruct (step c i) as [c1 out1]. cbn [fst snd].
  destruct (run c1 rest) as [c2 out2]. reflexivity.
Qed.

(** A change of the [xml] prop of a ready component to another non-empty
    document: the effect loads it, and the handler is created anew. *)
Lemma step_new_xml (c : Component) (x' : jsstring) (s e : option nat) :
  isReady c = true -> iframe c = true -> x' <> [] -> x' <> xml c ->
  step c (SetProps x' s e)
  = ({| isReady := true; isLoading := isLoading c; error := error c; xml := x';
        onSave := s; onError := e; iframe := true; handlerReady := true |},
     [loadMessage x']).
Proof.
  intros Hr Hf Hx' Hne. cbn [step].
  rewrite (jsstring_eqb_neq _ _ Hne). cbn [andb]. unfold loadEffect.
  cbn [isReady xml iframe]. rewrite Hr, Hf.
  destruct x' as [|a x']; [congruence|]. reflexivity.
Qed.

(** X12. The first [init] of the editor loads the diagram exactly once,
    and the load is posted by the effect, not by the handler: the
    sendLoadMessage that handleMessage closed over still sees isReady as
    false.  For the same reason a second [init] posts nothing as long as
    the props have not changed; after a change of the [xml] prop the new
    document is loaded once by the effect and a later [init] loads it
    again. *)
Theorem init_loads_once (x x' : jsstring) (s e : option nat) (d1 d2 : jsval) :
  is_init d1 = true -> is_init d2 = true -> x <> [] -> x' <> [] -> x' <> x ->
  snd (run (mounted x s e) [Receive editor_origin d1]) = [loadMessage x]
  /\ snd (run (mounted x s e) [Receive editor_origin d1; Receive editor_origin d2])
     = [loadMessage x]
  /\ snd (run (mounted x s e)
              [Receive editor_origin d1; SetProps x' s e; Receive editor_origin d2])
     = [loadMessage x; loadMessage x'; loadMessage x'].
Proof.
  intros H1 H2 Hx Hx' Hne.
  pose proof (step_init (mounted x s e) d1 H1 eq_refl Hx) as S1.
  cbn [mounted isReady isLoading error xml onSave onError iframe handlerReady] in S1.
  split; [|split].
  - rewrite run_cons, S1. reflexivity.
  - rewrite run_cons, S1. cbn [fst snd]. rewrite run_cons.
    rewrite (step_init {| isReady := true; isLoading := false; error := VNull;
                             xml := x; onSave := s; onError := e; iframe := true;
                             handlerReady := false |} d2 H2 eq_refl Hx).
    reflexivity.
  - rewrite run_cons, S1. cbn [fst snd]. rewrite run_cons.
    rewrite (step_new_xml {| isReady := true; isLoading := false; error := VNull;
                             xml := x; onSave := s; onError := e; iframe := true;
                             handlerReady := false |} x' s e eq_refl eq_refl Hx' Hne).
    cbn [fst snd isLoading error].
    rewrite run_cons.
    rewrite (step_init {| isReady := true; isLoading := false; error := VNull;
                             xml := x'; onSave := s; onError := e; iframe := true;
                             handlerReady := true |} d2 H2 eq_refl Hx').
    reflexivity.
Qed.

Lemma init_loads_once_witness :
  snd (run (mounted (lit "<a/>") None None)
           [Receive editor_origin (VObj [(lit "event", VStr (lit "init"))]);
            Receive editor_origin (VObj [(lit "event", VStr (lit "init"))])])
  = [loadMessage (lit "<a/>")].
Proof.
  refine (proj1 (proj2 (init_loads_once (lit "<a/>") (lit "<b/>") None None
           (VObj [(lit "event", VStr (lit "init"))])
           (VObj [(lit "event", VStr (lit "init"))])
           eq_refl eq_refl _ _ _))); vm_compute; discriminate.
Defined.

End BridgeMore.

(** * The Draw.io page: extraction of the diagram from model output *)

Module Extraction.
Import Markup.

Lemma trimStart_app_solid (a rest : jsstring) :
  rest <> [] -> is_ws (hd 0 rest) = false ->
  trimStart (a ++ rest) = trimStart a ++ rest.
Proof.
  intros Hne Hh. induction a as [|c a IH]; cbn [app trimStart].
  - apply trimStart_fixed. destruct rest; [congruence|exact Hh].
  - destruct (is_ws c); [exact IH|reflexivity].
Qed.

Lemma trimEnd_app_solid (rest b : jsstring) :
  rest <> [] -> is_ws (last rest 0) = false ->
  trimEnd (rest ++ b) = rest ++ trimEnd b.
Proof.
  intros Hne Hl. unfold trimEnd. rewrite rev_app_distr.
  rewrite trimStart_app_solid.
  - rewrite rev_app_distr, rev_involutive. reflexivity.
  - intros E. apply (f_equal (@rev N)) in E. rewrite rev_involutive in E.
    cbn in E. congruence.
  - rewrite <- last_rev_head. exact Hl.
Qed.

(** Trimming reaches neither into nor across a text that starts and ends
    with a code unit that is not white space. *)
Lemma trim_around (a d b : jsstring) :
  d <> [] -> is_ws (hd 0 d) = false -> is_ws (last d 0) = false ->
  trim (a ++ d ++ b) = trimStart a ++ d ++ trimEnd b.
Proof.
  intros Hne Hh Hl. unfold trim.
  rewrite trimStart_app_solid.
  - rewrite app_assoc, trimEnd_app_solid.
    + rewrite <- app_assoc. reflexivity.
    + destruct (trimStart a); destruct d; cbn; congruence.
    + rewrite last_app_nonempty by exact Hne. exact Hl.
  - destruct d; cbn; congruence.
  - destruct d; [congruence|exact Hh].
Qed.

Lemma trimEnd_In (s : jsstring) (x : N) : In x (trimEnd s) -> In x s.
Proof.
  unfold trimEnd. rewrite <- in_rev. intros Hx. apply trimStart_In in Hx.
  rewrite <- in_rev in Hx. exact Hx.
Qed.

Lemma forallb_trimStart (p : N -> bool) (s : jsstring) :
  forallb p s = true -> forallb p (trimStart s) = true.
Proof. apply forallb_sub. intros x. apply trimStart_In. Qed.

Lemma forallb_trimEnd (p : N -> bool) (s : jsstring) :
  forallb p s = true -> forallb p (trimEnd s) = true.
Proof. apply forallb_sub. intros x. apply trimEnd_In. Qed.

Lemma forallb_stripInvisible (p : N -> bool) (s : jsstring) :
  forallb p s = true -> forallb p (stripInvisible s) = true.
Proof.
  apply forallb_sub. intros x Hx. unfold stripInvisible in Hx.
  apply filter_In in Hx as [Hx _]. apply filter_In in Hx as [Hx _]. exact Hx.
Qed.

Lemma search_app_found (p : jsstring -> bool) (a s : jsstring) :
  search p s <> None -> search p (a ++ s) <> None.
Proof.
  intros Hs. induction a as [|c a IH]; [exact Hs|].
  cbn [app search]. destruct (p (c :: a ++ s)); [discriminate|].
  destruct (search p (a ++ s)); [discriminate|congruence].
Qed.

Lemma hasRawTag_app (a s : jsstring) : hasRawTag s = true -> hasRawTag (a ++ s) = true.
Proof.
  unfold hasRawTag. intros Hs.
  match goal with
  | |- match search ?p _ with _ => _ end = true =>
      pose proof (search_app_found p a s) as Hfound
  end.
  destruct (search _ s); [|discriminate].
  destruct (search _ (a ++ s)); [reflexivity|].
  exfalso. apply Hfound; [discriminate|reflexivity].
Qed.

Lemma ci_root_letter (c : N) (r n : jsstring) :
  In n [lit "mxfile"; lit "mxGraphModel"; lit "diagram"] ->
  startsWith_ci (c :: r) n = true -> tag_start_char c = true.
Proof.
  intros Hin Hci.
  assert (Hc : ci_match (ch "m") c = true \/ ci_match (ch "d") c = true).
  { destruct Hin as [<-|[<-|[<-|[]]]]; cbn [startsWith_ci lit list_ascii_of_string map] in Hci;
      apply andb_true_iff in Hci as [Hc _]; auto. }
  unfold ci_match in Hc.
  destruct Hc as [Hc|Hc];
    repeat (apply orb_true_iff in Hc as [Hc|Hc]);
    try (apply N.eqb_eq in Hc; subst c; reflexivity);
    try (apply andb_true_iff in Hc as [_ Hc]; apply N.eqb_eq in Hc; subst c;
         reflexivity);
    try (apply andb_true_iff in Hc as [Hc _]; vm_compute in Hc; discriminate).
Qed.

(** A text at whose head the root pattern matches starts with ['<'] and a
    letter. *)
Lemma xml_root_at_head (d : jsstring) :
  xml_root_at d = true ->
  exists c r, d = ch "<" :: c :: r /\ tag_start_char c = true.
Proof.
  destruct d as [|c0 r0]; [discriminate|]. cbn [xml_root_at]. intros Hd.
  apply andb_true_iff in Hd as [Hlt Hex]. apply N.eqb_eq in Hlt. subst c0.
  apply existsb_exists in Hex as (n & Hin & Hn).
  apply andb_true_iff in Hn as [Hci _].
  destruct r0 as [|c r].
  - destruct Hin as [<-|[<-|[<-|[]]]]; discriminate.
  - exists c, r. split; [reflexivity|]. apply (ci_root_letter c r n Hin Hci).
Qed.

Lemma xml_root_at_app (d post : jsstring) :
  xml_root_at d = true -> xml_root_at (d ++ post) = true.
Proof.
  destruct d as [|c0 r0]; [discriminate|]. cbn [xml_root_at app]. intros Hd.
  apply andb_true_iff in Hd as [Hlt Hex]. rewrite Hlt. cbn [andb].
  apply existsb_exists in Hex as (n & Hin & Hn).
  apply existsb_exists. exists n. split; [exact Hin|].
  apply andb_true_iff in Hn as [Hci Hnext].
  rewrite (StepFacts.startsWith_ci_app r0 n post Hci). cbn [andb].
  rewrite skipn_app.
  destruct (skipn (List.length n) r0) as [|x l]; [discriminate|exact Hnext].
Qed.

Lemma hasRawTag_root (d : jsstring) : xml_root_at d = true -> hasRawTag d = true.
Proof.
  intros Hd. destruct (xml_root_at_head d Hd) as (c & r & -> & Hc).
  unfold hasRawTag. cbn [search]. rewrite N.eqb_refl, Hc. reflexivity.
Qed.

Lemma ends_with_gt (d : jsstring) :
  xml_root_at d = true -> last d 0 = ch ">" ->
  exists t, d = t ++ [ch ">"] /\ t <> [].
Proof.
  intros Hd Hlast. destruct (xml_root_at_head d Hd) as (c & r & -> & Hc).
  destruct (exists_last (l := ch "<" :: c :: r)) as (t & x & E); [discriminate|].
  rewrite E in Hlast. rewrite last_last in Hlast. subst x.
  exists t. split; [exact E|].
  intros ->. cbn [app] in E. injection E as _ E. destruct r; discriminate.
Qed.

(** Step 3 on a text that holds, between text without ['<'] and text
    without ['>'], a text that starts with a root tag and ends with ['>']:
    it keeps that text and nothing else. *)
Lemma keepStep_document (pre d post : jsstring) :
  noLt pre = true -> noGt post = true ->
  xml_root_at d = true -> last d 0 = ch ">" ->
  Steps.keepStep (pre ++ d ++ post) = d.
Proof.
  intros Hpre Hpost Hroot Hlast.
  destruct (ends_with_gt d Hroot Hlast) as (t & Ht & Hne).
  unfold Steps.keepStep.
  rewrite (StepFacts.search_skip xml_root_at pre _).
  2:{ intros c r Hc. cbn [xml_root_at].
      apply (proj1 (forallb_forall _ _) Hpre) in Hc.
      apply negb_true_iff in Hc. rewrite Hc. reflexivity. }
  2:{ apply xml_root_at_app, Hroot. }
  replace (pre ++ d ++ post) with ((pre ++ t) ++ ch ">" :: post)
    by (rewrite Ht, <- !app_assoc; reflexivity).
  rewrite (StepFacts.lastIndexOf_last (ch ">") _ post Hpost).
  assert (Hlt : (List.length pre <? List.length (pre ++ t))%nat = true).
  { apply Nat.ltb_lt. rewrite length_app. destruct t; [congruence|cbn; lia]. }
  rewrite Hlt.
  replace (List.length (pre ++ t) + 1)%nat with (List.length (pre ++ d))
    by (rewrite Ht, !length_app; cbn; lia).
  replace ((pre ++ t) ++ ch ">" :: post) with (pre ++ d ++ post)
    by (rewrite Ht, <- !app_assoc; reflexivity).
  apply StepFacts.slice_middle.
Qed.

Section Pipeline.
Context `{Host}.

(** Steps 1b to 4 on a text that holds, between text without ['<'] and
    text without ['>'], a text that starts with a root tag and ends with
    ['>']: the text around it is dropped and it is repaired. *)
Lemma steps_after_fence (a b d : jsstring) :
  noLt a = true -> noGt b = true ->
  xml_root_at d = true -> last d 0 = ch ">" ->
  Steps.repairStep (Steps.keepStep (Steps.decodeStep (trim (a ++ d ++ b))))
  = Normal (fixXMLorHTML d xml_mode).
Proof.
  intros Ha Hb Hroot Hlast.
  destruct (xml_root_at_head d Hroot) as (c & r & Hd & Hc).
  rewrite trim_around.
  - unfold Steps.decodeStep.
    rewrite hasRawTag_app by (apply hasRawTag_root, xml_root_at_app, Hroot).
    cbn [negb andb].
    rewrite (keepStep_document _ d _ (forallb_trimStart _ _ Ha) (forallb_trimEnd _ _ Hb)
               Hroot Hlast).
    unfold Steps.repairStep. apply fixUnclosed_xml_mode.
  - rewrite Hd. discriminate.
  - rewrite Hd. reflexivity.
  - rewrite Hlast. reflexivity.
Qed.

Lemma ci_xml_visible (label : jsstring) :
  startsWith_ci label (lit "xml") = true -> List.length label = 3%nat ->
  forallb visible label = true.
Proof.
  intros Hci Hlen.
  destruct label as [|c1 [|c2 [|c3 [|c4 l]]]]; try discriminate.
  cbn [startsWith_ci lit list_ascii_of_string map] in Hci.
  apply andb_true_iff in Hci as [H1 Hci]. apply andb_true_iff in Hci as [H2 Hci].
  apply andb_true_iff in Hci as [H3 _].
  assert (Hvis : forall p c, ci_match (ch p) c = true ->
                 (ch p <? 200) = true -> visible c = true).
  { intros p c Hm Hp. unfold ci_match in Hm. apply N.ltb_lt in Hp.
    unfold visible, is_bom, is_zero_width.
    assert (c < 300).
    { repeat (apply orb_true_iff in Hm as [Hm|Hm]).
      - apply N.eqb_eq in Hm. lia.
      - apply andb_true_iff in Hm as [_ Hm]. apply N.eqb_eq in Hm. lia.
      - apply andb_true_iff in Hm as [_ Hm]. apply N.eqb_eq in Hm. lia. }
    destruct (N.eqb_spec c 65279); [lia|].
    destruct (N.leb_spec 8203 c); [lia|].
    destruct (N.eqb_spec c 8288); [lia|]. reflexivity. }
  cbn [forallb].
  rewrite (Hvis _ _ H1 eq_refl), (Hvis _ _ H2 eq_refl), (Hvis _ _ H3 eq_refl).
  reflexivity.
Qed.

(** The repair leaves the canonical text of a well-nested document as it
    is. *)
Lemma repair_wellNested (evs : list event) :
  (forall x, toLowerCase (toLowerCase x) = toLowerCase x) ->
  forallb valid_event evs = true ->
  forallb (fun n => negb (has DEFAULT_VOID_TAGS (toLowerCase n))) (opened evs) = true ->
  wellNested evs = true ->
  fixXMLorHTML (render evs) xml_mode = render evs.
Proof.
  intros lower_idem Hvalid Hvoid Hnested.
  assert (Hopen : openAfter [] evs = Some []).
  { unfold wellNested in Hnested.
    destruct (openAfter [] evs) as [[|x l]|]; [reflexivity|discriminate..]. }
  rewrite (MarkupRepair.fixXMLorHTML_render lower_idem evs [] xml_mode Hvalid Hvoid Hopen).
  cbn [map concat]. apply app_nil_r.
Qed.

(** X13. Model output that wraps a Draw.io document in a fenced block
    labelled xml, with any prose before and after the block, is reduced to
    the document: for every text [d] that starts with the tag of an
    mxfile, mxGraphModel or diagram element, ends with ['>'] and has no
    backtick and no invisible code unit, postProcessDrawioCode returns what
    the repair of markup makes of [d], and so [d] itself when [d] is a
    well-nested document in canonical form (tags written as
    ['<' name attributes '>'] with no white space before ['>'] and no
    ['>'] inside, no comment, CDATA section or processing instruction, no
    element name in the void-tag set). *)
Theorem postProcessDrawioCode_fenced_document
    (pre ws1 label ws2 ws3 post d : jsstring) :
  noBacktick pre = true ->
  forallb is_ws ws1 = true -> forallb is_ws ws2 = true -> forallb is_ws ws3 = true ->
  startsWith_ci label (lit "xml") = true -> List.length label = 3%nat ->
  xml_root_at d = true -> last d 0 = ch ">" ->
  noBacktick d = true -> forallb visible d = true ->
  postProcessDrawioCode
    (pre ++ fence ++ ws1 ++ label ++ ws2 ++ d ++ ws3 ++ fence ++ post)
  = Normal (fixXMLorHTML d xml_mode)
  /\ (forall evs,
        d = render evs ->
        (forall x, toLowerCase (toLowerCase x) = toLowerCase x) ->
        forallb valid_event evs = true ->
        forallb (fun n => negb (has DEFAULT_VOID_TAGS (toLowerCase n)))
                (opened evs) = true ->
        wellNested evs = true ->
        postProcessDrawioCode
          (pre ++ fence ++ ws1 ++ label ++ ws2 ++ d ++ ws3 ++ fence ++ post)
        = Normal d).
Proof.
  intros Hpre Hws1 Hws2 Hws3 Hci Hlen Hroot Hlast Hbt Hvis.
  assert (Hmain :
    postProcessDrawioCode
      (pre ++ fence ++ ws1 ++ label ++ ws2 ++ d ++ ws3 ++ fence ++ post)
    = Normal (fixXMLorHTML d xml_mode)).
  { rewrite postProcessDrawioCode_composition.
    unfold Steps.postProcess_steps, Steps.stripStep.
    rewrite !stripInvisible_app.
    rewrite (stripInvisible_visible fence) by reflexivity.
    rewrite (stripInvisible_visible label) by (apply ci_xml_visible; assumption).
    rewrite (stripInvisible_visible d) by exact Hvis.
    destruct (xml_root_at_head d Hroot) as (c & r & Hd & Hc).
    replace (stripInvisible pre ++ fence ++ stripInvisible ws1 ++ label
             ++ stripInvisible ws2 ++ d ++ stripInvisible ws3 ++ fence
             ++ stripInvisible post)
      with (stripInvisible pre ++ fence ++ stripInvisible ws1 ++ label
            ++ stripInvisible ws2 ++ (d ++ stripInvisible ws3) ++ fence
            ++ stripInvisible post)
      by (rewrite <- !app_assoc; reflexivity).
    rewrite StepFacts.fenceStep_xml_block;
      try (apply forallb_stripInvisible; assumption); try assumption.
    - pose proof (steps_after_fence [] (stripInvisible ws3) d eq_refl) as Hsteps.
      cbn [app] in Hsteps. apply Hsteps; try assumption.
      apply MarkupFacts.forallb_impl with (p := is_ws).
      + intros x Hx.
        destruct (N.eqb_spec x (ch ">")) as [->|_]; [discriminate Hx|reflexivity].
      + apply forallb_stripInvisible, Hws3.
    - rewrite Hd. discriminate.
    - rewrite Hd. reflexivity.
    - unfold noBacktick. rewrite forallb_app. fold (noBacktick d).
      rewrite Hbt. apply StepFacts.ws_noBacktick, forallb_stripInvisible, Hws3. }
  split; [exact Hmain|].
  intros evs Hd lower_idem Hvalid Hvoid Hnested. rewrite Hmain, Hd.
  rewrite (repair_wellNested evs lower_idem Hvalid Hvoid Hnested). reflexivity.
Qed.

End Pipeline.

Lemma noBacktick_app (a b : jsstring) :
  noBacktick (a ++ b) = noBacktick a && noBacktick b.
Proof. apply forallb_app. Qed.

Lemma noBacktick_skipn (n : nat) (s : jsstring) :
  noBacktick s = true -> noBacktick (skipn n s) = true.
Proof.
  apply forallb_sub. intros x Hx.
  rewrite <- (firstn_skipn n s). apply in_or_app. right. exact Hx.
Qed.

(** A single fence that nothing closes is no fenced block: step 1 leaves
    the text as it is. *)
Lemma fenceStep_open_fence (p0 r : jsstring) :
  noBacktick p0 = true -> noBacktick r = true ->
  Steps.fenceStep (p0 ++ fence ++ r) = p0 ++ fence ++ r.
Proof.
  intros Hp0 Hr. unfold Steps.fenceStep.
  assert (Hhead : match r with [] => True | c :: _ => (c =? ch "`") = false end).
  { destruct r as [|c r']; [exact I|].
    cbn [noBacktick forallb] in Hr. apply andb_true_iff in Hr as [Hc _].
    apply negb_true_iff in Hc. exact Hc. }
  assert (Hxml : first_match xml_fence_at (p0 ++ fence ++ r) = None).
  { rewrite (StepFacts.first_match_xml_skip p0 _ Hp0).
    rewrite (StepFacts.first_match_fence _ xml_fence_at r
               StepFacts.xml_fence_at_needs_fence Hhead).
    assert (Hhere : xml_fence_at (fence ++ r) = None).
    { unfold xml_fence_at. change (startsWith (fence ++ r) fence) with true.
      change (skipn 3 (fence ++ r)) with r. cbv iota.
      destruct (startsWith_ci (trimStart r) (lit "xml")); [|reflexivity].
      rewrite StepFacts.until_fence_none; [reflexivity|].
      apply forallb_trimStart, noBacktick_skipn,
        forallb_trimStart, Hr. }
    rewrite Hhere.
    apply (StepFacts.first_match_nil_text _ xml_fence_at r
             StepFacts.xml_fence_at_needs_fence Hr). }
  assert (Hany : first_match any_fence_at (p0 ++ fence ++ r) = None).
  { rewrite (StepFacts.first_match_any_skip p0 _ Hp0).
    rewrite (StepFacts.first_match_fence _ any_fence_at r
               StepFacts.any_fence_at_needs_fence Hhead).
    assert (Hhere : any_fence_at (fence ++ r) = None).
    { unfold any_fence_at. change (startsWith (fence ++ r) fence) with true.
      change (skipn 3 (fence ++ r)) with r. cbv iota.
      rewrite StepFacts.until_fence_none; [reflexivity|].
      apply forallb_trimStart, Hr. }
    rewrite Hhere.
    apply (StepFacts.first_match_nil_text _ any_fence_at r
             StepFacts.any_fence_at_needs_fence Hr). }
  rewrite Hxml, Hany. reflexivity.
Qed.

Lemma fenceStep_atMostOneFence (pre rest : jsstring) :
  atMostOneFence pre -> noBacktick rest = true ->
  Steps.fenceStep (pre ++ rest) = pre ++ rest.
Proof.
  intros [Hpre|(p0 & p1 & -> & Hp0 & Hp1)] Hrest.
  - apply StepFacts.fenceStep_no_fence. rewrite noBacktick_app, Hpre, Hrest. reflexivity.
  - rewrite <- !app_assoc. apply fenceStep_open_fence; [exact Hp0|].
    rewrite noBacktick_app, Hp1, Hrest. reflexivity.
Qed.

Lemma stripInvisible_atMostOneFence (pre : jsstring) :
  atMostOneFence pre -> atMostOneFence (stripInvisible pre).
Proof.
  intros [Hpre|(p0 & p1 & -> & Hp0 & Hp1)].
  - left. apply forallb_stripInvisible, Hpre.
  - right. exists (stripInvisible p0), (stripInvisible p1).
    rewrite !stripInvisible_app, (stripInvisible_visible fence) by reflexivity.
    repeat split; apply forallb_stripInvisible; assumption.
Qed.

Section Streaming.
Context `{Host}.

(** X14. While the model is still streaming, what postProcessDrawioCode
    makes of the text received so far is the document read up to its last
    ['>'], repaired: for text without ['<'] and with at most one fence
    (prose, possibly with the opening fence that nothing closes yet),
    followed by a text [d] that starts with the tag of an mxfile,
    mxGraphModel or diagram element, ends with ['>'] and has no backtick and
    no invisible code unit, followed by a tail without ['>'] and backticks
    (character data or a tag cut short), the result is what the repair of
    markup makes of [d]; the text before and the tail are dropped.  When
    [d] is the canonical text of the prefix of a well-nested document
    (tags written as ['<' name attributes '>'] with no white space before
    ['>'] and no ['>'] inside, no comment, CDATA section or processing
    instruction, no element name in the void-tag set) and the names of its
    open elements have no upper-case letter, that is [d] followed by the
    closing tags of the open elements, innermost first, and [d] itself if
    none is open. *)
Theorem postProcessDrawioCode_streamed_prefix (pre tail d : jsstring) :
  atMostOneFence pre -> noLt pre = true ->
  noGt tail = true -> noBacktick tail = true ->
  xml_root_at d = true -> last d 0 = ch ">" ->
  noBacktick d = true -> forallb visible d = true ->
  postProcessDrawioCode (pre ++ d ++ tail) = Normal (fixXMLorHTML d xml_mode)
  /\ (forall evs open,
        d = render evs ->
        (forall x, toLowerCase (toLowerCase x) = toLowerCase x) ->
        forallb valid_event evs = true ->
        forallb (fun n => negb (has DEFAULT_VOID_TAGS (toLowerCase n)))
                (opened evs) = true ->
        openAfter [] evs = Some open ->
        (forall n, In n open -> toLowerCase n = n) ->
        postProcessDrawioCode (pre ++ d ++ tail)
        = Normal (d ++ concat (map closingTag open))).
Proof.
  intros Hfence Hpre Htail Htailbt Hroot Hlast Hbt Hvis.
  assert (Hmain :
    postProcessDrawioCode (pre ++ d ++ tail) = Normal (fixXMLorHTML d xml_mode)).
  { rewrite postProcessDrawioCode_composition.
    unfold Steps.postProcess_steps, Steps.stripStep.
    rewrite !stripInvisible_app.
    rewrite (stripInvisible_visible d) by exact Hvis.
    rewrite fenceStep_atMostOneFence.
    - apply steps_after_fence; try assumption;
        apply forallb_stripInvisible; assumption.
    - apply stripInvisible_atMostOneFence, Hfence.
    - rewrite noBacktick_app, Hbt. apply forallb_stripInvisible, Htailbt. }
  split; [exact Hmain|].
  intros evs open Hd lower_idem Hvalid Hvoid Hopen Hlower. rewrite Hmain, Hd.
  rewrite (MarkupRepair.fixXMLorHTML_render lower_idem evs open xml_mode
             Hvalid Hvoid Hopen).
  replace (map (normalize (treatAsHTML_of xml_mode)) open) with open; [reflexivity|].
  symmetry. rewrite <- (map_id open) at 2. apply map_ext_in.
  intros n Hn. apply (Hlower n Hn).
Qed.

End Streaming.

End Extraction.

Lemma postProcessDrawioCode_fenced_document_witness :
  postProcessDrawioCode
    (litq "Here you go:  ```xml <mxGraphModel><root><mxCell id='0'/></root></mxGraphModel> ``` Enjoy!")
  = Normal (litq "<mxGraphModel><root><mxCell id='0'/></root></mxGraphModel>").
Proof.
  exact (proj2 (Extraction.postProcessDrawioCode_fenced_document
           (lit "Here you go:  ") [] (lit "xml") (lit " ") (lit " ") (lit " Enjoy!")
           (litq "<mxGraphModel><root><mxCell id='0'/></root></mxGraphModel>")
           eq_refl eq_refl eq_refl eq_refl eq_refl eq_refl eq_refl eq_refl eq_refl
           eq_refl)
           [Markup.Open (lit "mxGraphModel") []; Markup.Open (lit "root") [];
            Markup.Empty (lit "mxCell") (litq " id='0'");
            Markup.Close (lit "root"); Markup.Close (lit "mxGraphModel")]
           eq_refl (proj1 ascii_lower_laws) eq_refl eq_refl eq_refl).
Defined.

Lemma postProcessDrawioCode_streamed_prefix_witness :
  postProcessDrawioCode (litq "```xml <mxfile><diagram name='P'><mxCell id='0'/><mxCell id='1' par")
  = Normal (litq "<mxfile><diagram name='P'><mxCell id='0'/></diagram></mxfile>").
Proof.
  refine (proj2 (Extraction.postProcessDrawioCode_streamed_prefix
           (lit "```xml ") (litq "<mxCell id='1' par")
           (litq "<mxfile><diagram name='P'><mxCell id='0'/>")
           _ eq_refl eq_refl eq_refl eq_refl eq_refl eq_refl eq_refl)
           [Markup.Open (lit "mxfile") [];
            Markup.Open (lit "diagram") (litq " name='P'");
            Markup.Empty (lit "mxCell") (litq " id='0'")]
           [lit "diagram"; lit "mxfile"]
           eq_refl (proj1 ascii_lower_laws) eq_refl eq_refl eq_refl _).
  - right. exists [], (lit "xml "). repeat split.
  - intros n [<-|[<-|[]]]; reflexivity.
Defined.

(** * The Draw.io page: the event stream *)

Module SseFacts.
Import Bridge Sse.

Lemma consHead_nonempty (c : N) (l : list jsstring) : consHead c l <> [].
Proof. destruct l; discriminate. Qed.

Lemma splitBlank_nonempty (s : jsstring) : splitBlank s <> [].
Proof.
  destruct s as [|c r]; [discriminate|]. cbn [splitBlank].
  destruct r as [|d r']; [discriminate|].
  destruct ((c =? 10) && (d =? 10)); [discriminate|apply consHead_nonempty].
Qed.

Lemma removelast_consHead (c : N) (l : list jsstring) :
  l <> [] ->
  removelast (consHead c l)
  = match removelast l with
    | [] => []
    | _ => consHead c (removelast l)
    end
  /\ last (consHead c l) []
     = match removelast l with
       | [] => c :: last l []
       | _ => last l []
       end.
Proof.
  destruct l as [|p [|q ps]]; [congruence| |]; intros _; split; reflexivity.
Qed.

(** A text without a blank line is one piece. *)
Lemma splitBlank_single (s p : jsstring) : splitBlank s = [p] -> p = s.
Proof.
  revert p. induction s as [|c r IH]; intros p; cbn [splitBlank].
  - intros [= <-]. reflexivity.
  - destruct r as [|d r']; [intros [= <-]; reflexivity|].
    destruct ((c =? 10) && (d =? 10)).
    + intros E. injection E as _ E. destruct (splitBlank_nonempty _ E).
    + destruct (splitBlank (d :: r')) as [|q [|q' qs]] eqn:Es;
        cbn [consHead]; intros E; try discriminate.
      * destruct (splitBlank_nonempty _ Es).
      * injection E as <-. rewrite (IH q eq_refl). reflexivity.
Qed.

Lemma splitBlank_cons (c : N) (s : jsstring) :
  ((c =? 10) && (hd 0 s =? 10)) = false ->
  splitBlank (c :: s) = consHead c (splitBlank s).
Proof.
  intros Hsep. destruct s as [|d r]; [reflexivity|].
  cbn [splitBlank hd] in *. rewrite Hsep. reflexivity.
Qed.

Lemma splitBlank_two (c d : N) (r : jsstring) :
  splitBlank (c :: d :: r)
  = if (c =? 10) && (d =? 10) then [] :: splitBlank r
    else consHead c (splitBlank (d :: r)).
Proof. reflexivity. Qed.

(** The pieces of a text that is continued: the complete pieces of the
    first part stay, the last piece is split again with what follows. *)
Lemma splitBlank_app (n : nat) :
  forall a b : jsstring, (List.length a <= n)%nat ->
  splitBlank (a ++ b)
  = removelast (splitBlank a) ++ splitBlank (last (splitBlank a) [] ++ b).
Proof.
  induction n as [|n IH]; intros a b Hlen.
  - destruct a; [reflexivity|cbn in Hlen; lia].
  - destruct a as [|c [|d r]]; [reflexivity|reflexivity|].
    cbn [List.length] in Hlen.
    change ((c :: d :: r) ++ b) with (c :: d :: (r ++ b)).
    rewrite !splitBlank_two.
    destruct ((c =? 10) && (d =? 10)) eqn:Hsep.
    + rewrite (IH r b) by lia.
      assert (Hne := splitBlank_nonempty r).
      destruct (splitBlank r) as [|p ps] eqn:Es; [congruence|].
      cbn [removelast last]. destruct ps; reflexivity.
    + change (d :: r ++ b) with ((d :: r) ++ b).
      rewrite (IH (d :: r) b) by (cbn [List.length]; lia).
      assert (Hne := splitBlank_nonempty (d :: r)).
      destruct (removelast_consHead c (splitBlank (d :: r)) Hne) as [-> ->].
      destruct (splitBlank (d :: r)) as [|p [|q ps]] eqn:Es; [congruence| |].
      * cbn [removelast last app].
        apply splitBlank_single in Es. subst p.
        symmetry. apply (splitBlank_cons c ((d :: r) ++ b)). exact Hsep.
      * cbn [removelast last app consHead]. reflexivity.
Qed.

Section StreamFacts.
Context `{Host}.
Variable parse : jsstring -> option jsval.

Lemma handleEvents_app (collected : jsstring) (e1 e2 : list jsstring) :
  handleEvents parse collected (e1 ++ e2)
  = (fst (handleEvents parse (fst (handleEvents parse collected e1)) e2),
     snd (handleEvents parse collected e1)
     ++ snd (handleEvents parse (fst (handleEvents parse collected e1)) e2)).
Proof.
  revert collected. induction e1 as [|evt e1 IH]; intros collected.
  - cbn [app handleEvents fst snd]. destruct (handleEvents parse collected e2); reflexivity.
  - cbn [app handleEvents].
    destruct (handleEvent parse collected evt) as [c1 s1].
    rewrite IH. destruct (handleEvents parse c1 e1) as [c2 s2]. cbn [fst snd].
    rewrite app_assoc. reflexivity.
Qed.

Lemma readChunk_eq (st : stream_state) (chunk : jsstring) :
  readChunk parse st chunk
  = ({| accumulated := last (splitBlank (accumulated st ++ chunk)) [];
        collectedXml :=
          fst (handleEvents parse (collectedXml st)
                 (removelast (splitBlank (accumulated st ++ chunk)))) |},
     snd (handleEvents parse (collectedXml st)
            (removelast (splitBlank (accumulated st ++ chunk))))).
Proof.
  unfold readChunk. cbv zeta.
  destruct (handleEvents parse _ _) as [c s]. reflexivity.
Qed.

(** Two chunks read one after the other are read like their
    concatenation. *)
Lemma readChunk_twice (st : stream_state) (a b : jsstring) :
  (fst (readChunk parse (fst (readChunk parse st a)) b),
   snd (readChunk parse st a) ++ snd (readChunk parse (fst (readChunk parse st a)) b))
  = readChunk parse st (a ++ b).
Proof.
  rewrite !readChunk_eq. cbn [fst snd accumulated collectedXml].
  rewrite (app_assoc (accumulated st) a b).
  rewrite (splitBlank_app _ (accumulated st ++ a) b (le_n _)).
  set (P1 := splitBlank (accumulated st ++ a)).
  set (P2 := splitBlank (last P1 [] ++ b)).
  assert (Hne : P2 <> []) by apply splitBlank_nonempty.
  rewrite (removelast_app _ Hne), (last_app_nonempty _ _ _ Hne).
  rewrite handleEvents_app. reflexivity.
Qed.

Lemma readChunks_concat (chunks : list jsstring) :
  forall (st : stream_state) (a : jsstring),
  (fst (readChunks parse (fst (readChunk parse st a)) chunks),
   snd (readChunk parse st a)
   ++ snd (readChunks parse (fst (readChunk parse st a)) chunks))
  = readChunk parse st (a ++ concat chunks).
Proof.
  induction chunks as [|c chunks IH]; intros st a.
  - cbn [readChunks concat fst snd]. rewrite !app_nil_r.
    destruct (readChunk parse st a); reflexivity.
  - cbn [readChunks concat].
    destruct (readChunk parse (fst (readChunk parse st a)) c) as [st2 s2] eqn:E2.
    destruct (readChunks parse st2 chunks) as [st3 s3] eqn:E3.
    cbn [fst snd].
    rewrite (app_assoc a c (concat chunks)), <- (IH st (a ++ c)).
    rewrite <- (readChunk_twice st a c), E2. cbn [fst snd].
    rewrite E3. cbn [fst snd]. rewrite app_assoc. reflexivity.
Qed.

Lemma readChunks_whole (chunks : list jsstring) :
  readChunks parse {| accumulated := []; collectedXml := [] |} chunks
  = readChunk parse {| accumulated := []; collectedXml := [] |} (concat chunks).
Proof.
  destruct chunks as [|c chunks]; [reflexivity|].
  rewrite <- (readChunks_concat chunks _ c). cbn [readChunks concat].
  destruct (readChunk parse _ c) as [st1 s1]. cbn [fst snd].
  destruct (readChunks parse st1 chunks); reflexivity.
Qed.

Lemma handleEvent_content (collected evt : jsstring) :
  fst (handleEvent parse collected evt) = collected ++ eventContent parse evt.
Proof.
  unfold eventContent, handleEvent.
  destruct (negb (startsWith evt (lit "data: "))); [symmetry; apply app_nil_r|].
  cbv zeta. destruct (jsstring_eqb _ _); [symmetry; apply app_nil_r|].
  destruct (parse _) as [data|]; [|symmetry; apply app_nil_r].
  destruct (truthy _); [symmetry; apply app_nil_r|].
  destruct (getOpt data "content"); try (symmetry; apply app_nil_r).
  cbn [app].
  destruct (postProcessDrawioCode (collected ++ s));
    destruct (postProcessDrawioCode s); reflexivity.
Qed.

Lemma handleEvents_content (events : list jsstring) (collected : jsstring) :
  fst (handleEvents parse collected events)
  = collected ++ concat (map (eventContent parse) events).
Proof.
  revert collected. induction events as [|evt events IH]; intros collected.
  - symmetry. apply app_nil_r.
  - cbn [handleEvents map concat].
    pose proof (handleEvent_content collected evt) as Hc.
    destruct (handleEvent parse collected evt) as [c1 s1]. cbn [fst] in Hc.
    specialize (IH c1).
    destruct (handleEvents parse c1 events) as [c2 s2]. cbn [fst] in *.
    rewrite IH, Hc, app_assoc. reflexivity.
Qed.

(** X15. How the response is cut into chunks does not matter: read chunk
    by chunk, the stream gives the same collected text and the same calls
    of setDiagramXml as read in one piece.  The collected text is the
    concatenation of the contents of the events that a blank line ends;
    what follows the last blank line is never handled.  The last call of
    setDiagramXml shows the post-processed collected text. *)
Theorem readStream_chunking (chunks : list jsstring) :
  readStream parse chunks = readStream parse [concat chunks]
  /\ (forall collected shown,
        readStream parse chunks = Normal (collected, shown) ->
        collected
        = concat (map (eventContent parse) (removelast (splitBlank (concat chunks))))
        /\ exists earlier finalXml,
             shown = earlier ++ [finalXml]
             /\ postProcessDrawioCode collected = Normal finalXml).
Proof.
  split.
  - unfold readStream. rewrite !readChunks_whole. cbn [concat].
    rewrite app_nil_r. reflexivity.
  - intros collected shown. unfold readStream.
    rewrite readChunks_whole, readChunk_eq.
    cbn [accumulated collectedXml app].
    rewrite handleEvents_content. cbn [app].
    destruct (postProcessDrawioCode _) as [finalXml|ex] eqn:Epost; cbn [bind];
      [|discriminate].
    intros [= <- <-]. split; [reflexivity|].
    eexists. exists finalXml. split; [reflexivity|exact Epost].
Qed.

End StreamFacts.

End SseFacts.

Lemma readStream_chunking_witness :
  Sse.readStream
    (fun s => if jsstring_eqb s (litq "{'content':'<diagram>'}")
              then Some (Bridge.VObj [(lit "content", Bridge.VStr (lit "<diagram>"))])
              else None)
    [lit "data: {"; litq "'content':'<diagram>'}"; [10]; [10]; lit "data: [DO"]
  = Normal (lit "<diagram>", [lit "<diagram></diagram>"; lit "<diagram></diagram>"]).
Proof.
  rewrite (proj1 (SseFacts.readStream_chunking _ _)).
  vm_compute. reflexivity.
Defined.

(** * What the Draw.io page stores as the diagram *)

Section StoredDiagram.
Context `{Host}.
Hypothesis laws : lowerCaseLaws.

Lemma fixUnclosed_xml_fixed (input : jsstring) :
  fixUnclosed (fixXMLorHTML input xml_mode) xml_mode
  = Normal (fixXMLorHTML input xml_mode).
Proof.
  rewrite fixUnclosed_xml_mode.
  rewrite (fixXMLorHTML_twice (treatAsHTML_of xml_mode) (voids_of xml_mode) laws
             input xml_mode eq_refl eq_refl).
  reflexivity.
Qed.

(** X16. Every text the Draw.io page stores as the diagram is already
    repaired: the result of postProcessDrawioCode, and the result of
    fixUnclosed in xml mode that the save, history and apply handlers
    store, are returned unchanged by fixUnclosed in xml mode, although
    postProcessDrawioCode applied to its own result can change it. *)
Theorem stored_diagram_is_repaired (code d : jsstring) :
  postProcessDrawioCode code = Normal d \/ fixUnclosed code xml_mode = Normal d ->
  fixUnclosed d xml_mode = Normal d.
Proof.
  intros [Hpost|Hfix].
  - rewrite postProcessDrawioCode_composition in Hpost.
    unfold Steps.postProcess_steps, Steps.repairStep in Hpost.
    rewrite fixUnclosed_xml_mode in Hpost. injection Hpost as <-.
    apply fixUnclosed_xml_fixed.
  - rewrite fixUnclosed_xml_mode in Hfix. injection Hfix as <-.
    apply fixUnclosed_xml_fixed.
Qed.

End StoredDiagram.

Lemma stored_diagram_is_repaired_witness :
  fixUnclosed (lit "<1< a&lt;b></1<>") xml_mode = Normal (lit "<1< a&lt;b></1<>").
Proof.
  apply (stored_diagram_is_repaired ascii_lower_laws (lit "&lt;1&lt; a&amp;lt;b")).
  left. vm_compute. reflexivity.
Defined.

(** * The Draw.io page and its canvas *)

Module PageFacts.
Import Bridge BridgeSpec Page.

Lemma handleMessage_hands_over (c : Component) (data : jsval) (y : jsstring) (id : nat) :
  hands_over data y = true -> y <> [] -> onSave c = Some id ->
  exists log,
    handleMessage c editor_origin data = Normal (OnSave (VStr y) :: log)
    /\ forallb is_log log = true.
Proof.
  intros Hdata Hy Hsave. destruct data as [| |b|z|t|props]; try discriminate.
  cbn [hands_over] in Hdata. apply andb_true_iff in Hdata as [Hev Hxml].
  destruct (lookup (lit "xml") props) as [| |b|z|x|p] eqn:Ex; try discriminate.
  apply jsstring_eqb_eq in Hxml. subst x.
  assert (Ht : truthy (VStr y) = true) by (destruct y; [congruence|reflexivity]).
  unfold handleMessage. rewrite jsstring_eqb_refl. cbn [negb typeof get bind].
  destruct (lookup (lit "event") props) as [| |b|z|ev|p] eqn:Eev;
    try (cbn in Hev; discriminate).
  cbn [is_str] in *.
  apply orb_true_iff in Hev as [Hev|Hev]; apply jsstring_eqb_eq in Hev; subst ev;
    BridgeMore.eval_lits; cbv iota; cbn [bind]; rewrite Ex, Hsave, Ht; cbn [is_some andb app].
  - destruct (truthy (lookup (lit "exit") props)); eexists; split; reflexivity.
  - eexists. split; reflexivity.
Qed.

Lemma fold_logs (log : list effect) (c : Component) :
  forallb is_log log = true ->
  fold_left apply_effect log c = c
  /\ filter (fun e => negb (is_setter e)) log = log
  /\ filter is_post log = []
  /\ forall f : jsval -> list pageEffect,
       flat_map (fun e => match e with OnSave v => f v | _ => [] end) log = [].
Proof.
  revert c. induction log as [|e log IH]; intros c Hlog; [repeat split|].
  cbn [forallb] in Hlog. apply andb_true_iff in Hlog as [He Hlog].
  destruct e; try discriminate. cbn [fold_left apply_effect filter is_setter negb is_post].
  destruct (IH c Hlog) as (H1 & H2 & H3 & H4).
  repeat split; [exact H1|rewrite H2; reflexivity|exact H3|].
  intros f. cbn [flat_map app]. apply H4.
Qed.

Section SaveRoundTrip.
Context `{Host}.
Variable toStr : jsval -> jsstring.
Hypothesis laws : lowerCaseLaws.

(** One save or autosave event for a canvas that is ready. *)
Lemma deliver_hands_over (s : System) (data : jsval) (y : jsstring) :
  wired s -> isReady (canvas s) = true -> iframe (canvas s) = true ->
  hands_over data y = true -> y <> [] ->
  let d := fixXMLorHTML y xml_mode in
  let s1 := fst (deliver toStr s editor_origin data) in
  let out := snd (deliver toStr s editor_origin data) in
  wired s1 /\ isReady (canvas s1) = true /\ iframe (canvas s1) = true
  /\ diagramXml s1 = d
  /\ filter is_post out
     = if jsstring_eqb d (diagramXml s) || falsy d then [] else [loadMessage d].
Proof.
  intros (Hxml & Hsave & Herr) Hready Hframe Hdata Hy. cbv zeta.
  destruct (handleMessage_hands_over (canvas s) data y (renderId s) Hdata Hy Hsave)
    as (log & Hh & Hlog).
  destruct (fold_logs log (canvas s) Hlog) as (Hfold & Hseen & Hposts & Hpage).
  unfold deliver. cbn [step]. rewrite Hh.
  cbn [fold_left apply_effect filter is_setter negb].
  rewrite Hfold, Hseen, Bool.eqb_reflx.
  cbn [flat_map]. rewrite Hpage, app_nil_r.
  assert (Hsaved : handleSaveDiagram toStr (VStr y)
                   = [SetDiagramXml (fixXMLorHTML y xml_mode);
                      ShowNotification (lit "success")]).
  { unfold handleSaveDiagram. cbn [typeof].
    assert (Ht : truthy (VStr y) = true) by (destruct y; [congruence|reflexivity]).
    rewrite Ht. cbn [negb textOf]. rewrite fixUnclosed_xml_mode. reflexivity. }
  rewrite Hsaved. cbn [fold_left apply_pageEffect step].
  rewrite Hxml.
  set (d := fixXMLorHTML y xml_mode).
  destruct (jsstring_eqb d (diagramXml s)) eqn:Esame;
    cbn [fst snd canvas diagramXml renderId orb].
  - unfold wired. cbn [canvas diagramXml renderId xml onSave onError isReady iframe].
    repeat split; try assumption.
    rewrite filter_app. cbn [filter is_post]. rewrite Hposts. reflexivity.
  - unfold wired. cbn [canvas diagramXml renderId xml onSave onError isReady iframe].
    repeat split; try assumption.
    rewrite filter_app. cbn [filter is_post]. rewrite Hposts. cbn [app].
    unfold loadEffect. cbn [isReady xml iframe]. rewrite Hready, Hframe.
    destruct d as [|a d']; [reflexivity|]. reflexivity.
Qed.

(** X17. A save or autosave of the editor comes back to it: the page
    stores the repaired document and, when that differs from the diagram
    it had, the canvas posts one load action with the repaired document.
    The echo ends there: when the editor then hands over the document it
    was just given, the page stores the same text and nothing is
    posted. *)
Theorem save_reloads_repaired_document (s : System) (data echo : jsval) (y : jsstring) :
  wired s -> isReady (canvas s) = true -> iframe (canvas s) = true ->
  hands_over data y = true -> y <> [] ->
  let d := fixXMLorHTML y xml_mode in
  let s1 := fst (deliver toStr s editor_origin data) in
  diagramXml s1 = d
  /\ filter is_post (snd (deliver toStr s editor_origin data))
     = (if jsstring_eqb d (diagramXml s) || falsy d then [] else [loadMessage d])
  /\ (hands_over echo d = true -> d <> [] ->
      diagramXml (fst (deliver toStr s1 editor_origin echo)) = d
      /\ filter is_post (snd (deliver toStr s1 editor_origin echo)) = []).
Proof.
  intros Hwired Hready Hframe Hdata Hy. cbv zeta.
  destruct (deliver_hands_over s data y Hwired Hready Hframe Hdata Hy)
    as (Hwired1 & Hready1 & Hframe1 & Hd & Hout).
  split; [exact Hd|]. split; [exact Hout|].
  intros Hecho Hne.
  destruct (deliver_hands_over _ echo _ Hwired1 Hready1 Hframe1 Hecho Hne)
    as (_ & _ & _ & Hd2 & Hout2).
  assert (Hfixed : fixXMLorHTML (fixXMLorHTML y xml_mode) xml_mode
                   = fixXMLorHTML y xml_mode).
  { apply (fixXMLorHTML_twice (treatAsHTML_of xml_mode) (voids_of xml_mode) laws
             y xml_mode eq_refl eq_refl). }
  rewrite Hfixed in Hd2, Hout2. split; [exact Hd2|].
  rewrite Hout2, Hd, jsstring_eqb_refl. reflexivity.
Qed.

End SaveRoundTrip.
End PageFacts.

Lemma save_reloads_repaired_document_witness :
  filter Bridge.is_post
    (snd (Page.deliver (fun _ => [])
            {| Page.diagramXml := lit "<a/>"; Page.renderId := 1%nat;
               Page.canvas :=
                 {| Bridge.isReady := true; Bridge.isLoading := false;
                    Bridge.error := Bridge.VNull; Bridge.xml := lit "<a/>";
                    Bridge.onSave := Some 1%nat; Bridge.onError := None;
                    Bridge.iframe := true; Bridge.handlerReady := true |} |}
            Bridge.editor_origin
            (Bridge.VObj [(lit "event", Bridge.VStr (lit "autosave"));
                          (lit "xml", Bridge.VStr (lit "<b><c>"))])))
  = [BridgeSpec.loadMessage (lit "<b><c></c></b>")].
Proof.
  refine (proj1 (proj2 (PageFacts.save_reloads_repaired_document (fun _ => [])
           ascii_lower_laws
           {| Page.diagramXml := lit "<a/>"; Page.renderId := 1%nat;
               Page.canvas :=
                 {| Bridge.isReady := true; Bridge.isLoading := false;
                    Bridge.error := Bridge.VNull; Bridge.xml := lit "<a/>";
                    Bridge.onSave := Some 1%nat; Bridge.onError := None;
                    Bridge.iframe := true; Bridge.handlerReady := true |} |}
           (Bridge.VObj [(lit "event", Bridge.VStr (lit "autosave"));
                          (lit "xml", Bridge.VStr (lit "<b><c>"))])
           Bridge.VNull (lit "<b><c>") _ eq_refl eq_refl eq_refl _))).
  - repeat split.
  - discriminate.
Defined.

(** * The Excalidraw page: extraction of the JSON from model output *)

Module ExcalidrawFacts.
Import Excalidraw.

Lemma postProcessExcalidrawCode_halves (code : jsstring) :
  code <> [] ->
  postProcessExcalidrawCode code = bracketSpan (fencedBody (trim (stripInvisible code))).
Proof. intros Hne. destruct code; [congruence|reflexivity]. Qed.

Lemma indexOf_zero (c : N) (s : jsstring) :
  indexOf c s 0 = search (fun t => startsWith t [c]) s.
Proof.
  unfold indexOf. cbn [skipn]. destruct (search _ s); reflexivity.
Qed.

Lemma startsWith_one (c x : N) (r : jsstring) : startsWith (x :: r) [c] = (c =? x).
Proof. cbn [startsWith]. apply andb_true_r. Qed.

(** [indexOf] in a text whose first [n] code units are not [c]. *)
Lemma indexOf_after (c : N) (pre rest : jsstring) :
  forallb (fun x => negb (x =? c)) pre = true ->
  indexOf c (pre ++ rest) 0
  = option_map (Nat.add (List.length pre)) (indexOf c rest 0).
Proof.
  intros Hpre. rewrite !indexOf_zero.
  induction pre as [|x pre IH]; cbn [app List.length].
  - destruct (search _ rest); reflexivity.
  - cbn [forallb] in Hpre. apply andb_true_iff in Hpre as [Hx Hpre].
    apply negb_true_iff in Hx.
    cbn [search]. rewrite startsWith_one, N.eqb_sym, Hx, (IH Hpre).
    destruct (search _ rest); reflexivity.
Qed.

Lemma indexOf_head (c : N) (rest : jsstring) : indexOf c (c :: rest) 0 = Some O.
Proof. rewrite indexOf_zero. cbn [search]. rewrite startsWith_one, N.eqb_refl. reflexivity. Qed.

Lemma indexOf_not_head (c x : N) (rest : jsstring) :
  (x =? c) = false ->
  indexOf c (x :: rest) 0 = option_map S (indexOf c rest 0).
Proof.
  intros Hx. rewrite !indexOf_zero. cbn [search].
  rewrite startsWith_one, N.eqb_sym, Hx. reflexivity.
Qed.

Lemma bracketed_shape (d : jsstring) :
  bracketed d = true ->
  exists o c mid,
    d = o :: mid ++ [c]
    /\ ((o = ch "[" /\ c = ch "]") \/ (o = ch "{" /\ c = ch "}")).
Proof.
  destruct d as [|o r]; [discriminate|]. cbn [bracketed].
  destruct r as [|x r']; [discriminate|].
  intros Hb.
  destruct (exists_last (l := x :: r')) as (mid & c & Er); [discriminate|].
  rewrite Er in *. rewrite last_last in Hb.
  exists o, c, mid. split; [reflexivity|].
  apply orb_true_iff in Hb as [Hb|Hb]; apply andb_true_iff in Hb as [Ho Hc];
    apply N.eqb_eq in Ho, Hc; auto.
Qed.

Lemma noOpener_split (s : jsstring) :
  noOpener s = true ->
  forallb (fun x => negb (x =? ch "[")) s = true
  /\ forallb (fun x => negb (x =? ch "{")) s = true.
Proof.
  unfold noOpener. intros Hs.
  split; revert Hs; apply MarkupFacts.forallb_impl; intros x Hx;
    apply andb_true_iff in Hx; tauto.
Qed.

Lemma noCloser_split (s : jsstring) :
  noCloser s = true ->
  forallb (fun x => negb (x =? ch "]")) s = true
  /\ forallb (fun x => negb (x =? ch "}")) s = true.
Proof.
  unfold noCloser. intros Hs.
  split; revert Hs; apply MarkupFacts.forallb_impl; intros x Hx;
    apply andb_true_iff in Hx; tauto.
Qed.

(** The span of a bracketed text that stands between text without an
    opening bracket and text without a closing bracket is that text. *)
Lemma bracketSpan_bracketed (a d b : jsstring) :
  noOpener a = true -> noCloser b = true -> bracketed d = true ->
  bracketSpan (a ++ d ++ b) = d.
Proof.
  intros Ha Hb Hd.
  destruct (bracketed_shape d Hd) as (o & c & mid & -> & Hoc).
  destruct (noOpener_split a Ha) as [Ha1 Ha2].
  destruct (noCloser_split b Hb) as [Hb1 Hb2].
  assert (Hslice : slice (List.length a) (List.length (a ++ o :: mid) + 1)
                     (a ++ (o :: mid ++ [c]) ++ b) = o :: mid ++ [c]).
  { replace (List.length (a ++ o :: mid) + 1)%nat
      with (List.length (a ++ (o :: mid ++ [c])))
      by (rewrite !length_app; cbn [List.length]; rewrite length_app; cbn; lia).
    apply StepFacts.slice_middle. }
  assert (Htrim : trim (o :: mid ++ [c]) = o :: mid ++ [c]).
  { apply trim_fixed.
    - destruct Hoc as [[-> _]|[-> _]]; reflexivity.
    - change (o :: mid ++ [c]) with ((o :: mid) ++ [c]). rewrite last_last.
      destruct Hoc as [[_ ->]|[_ ->]]; reflexivity. }
  assert (Hlast : forall x, c = x ->
            forallb (fun y => negb (y =? x)) b = true ->
            lastIndexOf x (a ++ (o :: mid ++ [c]) ++ b)
            = Some (List.length (a ++ o :: mid))).
  { intros x <- Hbx.
    replace (a ++ (o :: mid ++ [c]) ++ b) with ((a ++ o :: mid) ++ c :: b)
      by (cbn [app]; rewrite <- !app_assoc; reflexivity).
    apply StepFacts.lastIndexOf_last, Hbx. }
  set (T := a ++ (o :: mid ++ [c]) ++ b) in *.
  assert (Hopen : forall x, o = x ->
            forallb (fun y => negb (y =? x)) a = true ->
            indexOf x T 0 = Some (List.length a)).
  { intros x <- Hax. unfold T. rewrite (indexOf_after o a _ Hax). cbn [app].
    rewrite indexOf_head. cbn [option_map]. rewrite Nat.add_0_r. reflexivity. }
  assert (Hother : forall x, (o =? x) = false ->
            forallb (fun y => negb (y =? x)) a = true ->
            match indexOf x T 0 with
            | None => True
            | Some i => (List.length a < i)%nat
            end).
  { intros x Hox Hax. unfold T. rewrite (indexOf_after x a _ Hax). cbn [app].
    rewrite (indexOf_not_head x o _ Hox).
    destruct (indexOf x _ 0); cbn [option_map]; [lia|exact I]. }
  unfold bracketSpan.
  destruct Hoc as [[-> ->]|[-> ->]].
  - rewrite (Hopen (ch "[") eq_refl Ha1), (Hlast (ch "]") eq_refl Hb1).
    pose proof (Hother (ch "{") eq_refl Ha2) as Ho.
    destruct (indexOf (ch "{") T 0) as [i|].
    + apply Nat.ltb_lt in Ho. rewrite Ho. rewrite Hslice. exact Htrim.
    + rewrite Hslice. exact Htrim.
  - rewrite (Hopen (ch "{") eq_refl Ha2), (Hlast (ch "}") eq_refl Hb2).
    pose proof (Hother (ch "[") eq_refl Ha1) as Ho.
    destruct (indexOf (ch "[") T 0) as [i|].
    + destruct (lastIndexOf (ch "]") T).
      * assert (Hge : (i <? List.length a)%nat = false) by (apply Nat.ltb_ge; lia).
        rewrite Hge. rewrite Hslice. exact Htrim.
      * rewrite Hslice. exact Htrim.
    + rewrite Hslice. exact Htrim.
Qed.

Lemma json_fence_at_needs_fence (s : jsstring) :
  startsWith s fence = false -> json_fence_at s = None.
Proof. intros Hs. unfold json_fence_at. rewrite Hs. reflexivity. Qed.

Lemma first_match_json_skip (a rest : jsstring) :
  noBacktick a = true ->
  first_match json_fence_at (a ++ rest) = first_match json_fence_at rest.
Proof.
  induction a as [|c a IH]; [reflexivity|]. cbn [noBacktick forallb app].
  intros Hc. apply andb_true_iff in Hc as [Hc Ha]. apply negb_true_iff in Hc.
  cbn [first_match]. unfold json_fence_at at 1.
  rewrite (StepFacts.startsWith_fence_head c _ Hc). apply IH, Ha.
Qed.

(** A code unit that matches a lower-case ASCII letter of a pattern under
    the [i] flag is that letter or its upper case. *)
Lemma ci_match_letter (p c : N) :
  ((97 <=? p) && (p <=? 122)) = true -> ci_match p c = true ->
  c = p \/ c = p - 32.
Proof.
  intros Hp Hm. unfold ci_match in Hm. rewrite Hp in Hm.
  apply andb_true_iff in Hp as [Hlo Hhi]. apply N.leb_le in Hlo, Hhi.
  assert (Hup : ((65 <=? p) && (p <=? 90)) = false).
  { apply andb_false_iff. right. apply N.leb_gt. lia. }
  rewrite Hup in Hm. cbn [andb] in Hm. rewrite orb_false_r in Hm.
  apply orb_true_iff in Hm as [Hm|Hm]; apply N.eqb_eq in Hm; auto.
Qed.

(** The label [json] in any letter case. *)
Lemma json_label (label rest : jsstring) :
  startsWith_ci label (lit "json") = true -> List.length label = 4%nat ->
  is_ws (hd 0 (label ++ rest)) = false
  /\ startsWith_ci (label ++ rest) (lit "json") = true
  /\ skipn 4 (label ++ rest) = rest
  /\ forallb visible label = true.
Proof.
  intros Hci Hlen.
  destruct label as [|c1 [|c2 [|c3 [|c4 [|c5 l]]]]]; try discriminate. clear Hlen.
  cbn [app hd skipn].
  split; [|split; [exact Hci|split; [reflexivity|]]];
    cbn [startsWith_ci lit list_ascii_of_string map] in Hci;
    apply andb_true_iff in Hci as [H1 Hci]; apply andb_true_iff in Hci as [H2 Hci];
    apply andb_true_iff in Hci as [H3 Hci]; apply andb_true_iff in Hci as [H4 _];
    apply ci_match_letter in H1, H2, H3, H4; try reflexivity.
  - destruct H1 as [->| ->]; reflexivity.
  - destruct H1 as [->| ->], H2 as [->| ->], H3 as [->| ->], H4 as [->| ->];
      reflexivity.
Qed.

Lemma fencedBody_json_block (pre ws1 label ws2 body post : jsstring) :
  noBacktick pre = true ->
  forallb is_ws ws1 = true ->
  startsWith_ci label (lit "json") = true -> List.length label = 4%nat ->
  forallb is_ws ws2 = true ->
  body <> [] -> is_ws (hd 0 body) = false -> noBacktick body = true ->
  fencedBody (pre ++ fence ++ ws1 ++ label ++ ws2 ++ body ++ fence ++ post)
  = trim body.
Proof.
  intros Hpre Hws1 Hci Hlen Hws2 Hne Hhead Hbody. unfold fencedBody.
  rewrite (first_match_json_skip pre _ Hpre).
  destruct (json_label label (ws2 ++ body ++ fence ++ post) Hci Hlen)
    as (Hlh & Hlci & Hlskip & _).
  assert (Hat : json_fence_at (fence ++ ws1 ++ label ++ ws2 ++ body ++ fence ++ post)
                = Some body).
  { unfold json_fence_at.
    change (startsWith (fence ++ ws1 ++ label ++ ws2 ++ body ++ fence ++ post) fence)
      with true.
    change (skipn 3 (fence ++ ws1 ++ label ++ ws2 ++ body ++ fence ++ post))
      with (ws1 ++ label ++ ws2 ++ body ++ fence ++ post).
    cbv iota. rewrite (StepFacts.trimStart_ws_app ws1 _ Hws1).
    rewrite trimStart_fixed
      by (destruct (label ++ ws2 ++ body ++ fence ++ post); [exact I|exact Hlh]).
    rewrite Hlci, Hlskip, (StepFacts.trimStart_ws_app ws2 _ Hws2).
    rewrite (StepFacts.trimStart_solid_app body _ Hne Hhead).
    rewrite (StepFacts.until_fence_body body post Hbody). reflexivity. }
  change (fence ++ ws1 ++ label ++ ws2 ++ body ++ fence ++ post)
    with (ch "`" :: ch "`" :: ch "`"
          :: (ws1 ++ label ++ ws2 ++ body ++ fence ++ post)) in *.
  cbn [first_match]. rewrite Hat. destruct body; [congruence|reflexivity].
Qed.

Lemma fencedBody_no_fence (s : jsstring) : noBacktick s = true -> fencedBody s = s.
Proof.
  intros Hs. unfold fencedBody.
  rewrite (StepFacts.first_match_nil_text _ json_fence_at s json_fence_at_needs_fence Hs).
  rewrite (StepFacts.first_match_nil_text _ any_fence_at s
             StepFacts.any_fence_at_needs_fence Hs).
  reflexivity.
Qed.

Lemma bracketed_ends (d : jsstring) :
  bracketed d = true ->
  d <> [] /\ is_ws (hd 0 d) = false /\ is_ws (last d 0) = false.
Proof.
  intros Hd. destruct (bracketed_shape d Hd) as (o & c & mid & -> & Hoc).
  split; [discriminate|]. cbn [hd].
  change (o :: mid ++ [c]) with ((o :: mid) ++ [c]). rewrite last_last.
  destruct Hoc as [[-> ->]|[-> ->]]; split; reflexivity.
Qed.

Section Extract.
Context `{Host}.

(** X18. Model output that wraps the JSON in a fenced block labelled json,
    with any prose before and after the block, is reduced to exactly the
    text between the outermost brackets: for a text that starts with ['[']
    and ends with [']'], or starts with ['{'] and ends with ['}'],
    postProcessExcalidrawCode returns that text, and fixJSON, which
    parseElements applies next, leaves it as it is when JSON.parse accepts
    it. *)
Theorem postProcessExcalidrawCode_fenced_json
    (pre ws1 label ws2 d ws3 post : jsstring) :
  noBacktick pre = true ->
  forallb is_ws ws1 = true -> forallb is_ws ws2 = true -> forallb is_ws ws3 = true ->
  startsWith_ci label (lit "json") = true -> List.length label = 4%nat ->
  bracketed d = true -> forallb visible d = true -> noBacktick d = true ->
  postProcessExcalidrawCode
    (pre ++ fence ++ ws1 ++ label ++ ws2 ++ d ++ ws3 ++ fence ++ post) = d
  /\ (JSON_parse_ok d = true ->
      fixJSON (postProcessExcalidrawCode
                 (pre ++ fence ++ ws1 ++ label ++ ws2 ++ d ++ ws3 ++ fence ++ post))
      = Normal d).
Proof.
  intros Hpre Hws1 Hws2 Hws3 Hci Hlen Hd Hvis Hbt.
  destruct (bracketed_ends d Hd) as (Hne & Hhd & Hlast).
  assert (Hmain : postProcessExcalidrawCode
            (pre ++ fence ++ ws1 ++ label ++ ws2 ++ d ++ ws3 ++ fence ++ post) = d).
  { rewrite postProcessExcalidrawCode_halves
      by (destruct pre; discriminate).
    rewrite !stripInvisible_app.
    rewrite (stripInvisible_visible fence) by reflexivity.
    rewrite (stripInvisible_visible label)
      by (apply (json_label label [] Hci Hlen)).
    rewrite (stripInvisible_visible d Hvis).
    set (ws1' := stripInvisible ws1). set (ws2' := stripInvisible ws2).
    set (ws3' := stripInvisible ws3).
    replace (stripInvisible pre ++ fence ++ ws1' ++ label ++ ws2' ++ d ++ ws3'
             ++ fence ++ stripInvisible post)
      with (stripInvisible pre
            ++ (fence ++ ws1' ++ label ++ ws2' ++ d ++ ws3' ++ fence)
            ++ stripInvisible post)
      by (rewrite <- !app_assoc; reflexivity).
    rewrite Extraction.trim_around.
    - rewrite <- !app_assoc.
      replace (d ++ ws3' ++ fence ++ trimEnd (stripInvisible post))
        with ((d ++ ws3') ++ fence ++ trimEnd (stripInvisible post))
        by (rewrite <- !app_assoc; reflexivity).
      rewrite fencedBody_json_block;
        try (apply Extraction.forallb_stripInvisible; assumption); try assumption.
      + pose proof (Extraction.trim_around [] d ws3' Hne Hhd Hlast) as Ht.
        cbn [app trimStart] in Ht. rewrite Ht.
        assert (Hws : trimEnd ws3' = []).
        { unfold trimEnd.
          assert (Hr : forallb is_ws (rev ws3') = true).
          { apply forallb_forall. intros x Hx. apply in_rev in Hx.
            apply (proj1 (forallb_forall _ _)
                     (Extraction.forallb_stripInvisible _ _ Hws3) x Hx). }
          pose proof (StepFacts.trimStart_ws_app (rev ws3') [] Hr) as Hz.
          rewrite app_nil_r in Hz. rewrite Hz. reflexivity. }
        rewrite Hws, app_nil_r.
        pose proof (bracketSpan_bracketed [] d [] eq_refl eq_refl Hd) as Hspan.
        cbn [app] in Hspan. rewrite app_nil_r in Hspan. exact Hspan.
      + apply Extraction.forallb_trimStart, Extraction.forallb_stripInvisible, Hpre.
      + destruct d; [congruence|discriminate].
      + destruct d; [congruence|exact Hhd].
      + unfold noBacktick. rewrite forallb_app. fold (noBacktick d). rewrite Hbt.
        apply StepFacts.ws_noBacktick, Extraction.forallb_stripInvisible, Hws3.
    - discriminate.
    - reflexivity.
    - rewrite !app_assoc, last_app_nonempty by discriminate. reflexivity. }
  split; [exact Hmain|].
  intros Hok. rewrite Hmain, fixJSON_cases. cbv zeta.
  assert (Htrim : trim d = d) by (apply trim_fixed; assumption).
  rewrite Htrim, Hok. destruct (falsy d); reflexivity.
Qed.

(** X19. Without a fence, postProcessExcalidrawCode keeps the text from
    the first opening bracket to the last closing bracket: prose without
    brackets and backticks around a text that starts with ['['] and ends
    with [']'], or starts with ['{'] and ends with ['}'], is dropped. *)
Theorem postProcessExcalidrawCode_prose (pre d post : jsstring) :
  noBacktick (pre ++ d ++ post) = true ->
  noOpener pre = true -> noCloser post = true ->
  bracketed d = true -> forallb visible d = true ->
  postProcessExcalidrawCode (pre ++ d ++ post) = d.
Proof.
  intros Hbt Hpre Hpost Hd Hvis.
  destruct (bracketed_ends d Hd) as (Hne & Hhd & Hlast).
  rewrite postProcessExcalidrawCode_halves
    by (destruct pre; [destruct d; [congruence|discriminate]|discriminate]).
  rewrite !stripInvisible_app, (stripInvisible_visible d Hvis).
  rewrite Extraction.trim_around by assumption.
  rewrite fencedBody_no_fence.
  - apply bracketSpan_bracketed; [| |exact Hd].
    + apply Extraction.forallb_trimStart, Extraction.forallb_stripInvisible, Hpre.
    + apply Extraction.forallb_trimEnd, Extraction.forallb_stripInvisible, Hpost.
  - unfold noBacktick in *. rewrite !forallb_app in *.
    apply andb_true_iff in Hbt as [H1 H2]. apply andb_true_iff in H2 as [H2 H3].
    rewrite H2.
    rewrite (Extraction.forallb_trimStart _ _ (Extraction.forallb_stripInvisible _ _ H1)).
    rewrite (Extraction.forallb_trimEnd _ _ (Extraction.forallb_stripInvisible _ _ H3)).
    reflexivity.
Qed.

End Extract.
End ExcalidrawFacts.

Lemma postProcessExcalidrawCode_fenced_json_witness :
  fixJSON (Excalidraw.postProcessExcalidrawCode
             (litq "Sure! ```json  [{'type':'rectangle'}] ``` Done."))
  = Normal (litq "[{'type':'rectangle'}]").
Proof.
  exact (proj2 (ExcalidrawFacts.postProcessExcalidrawCode_fenced_json
                  (lit "Sure! ") [] (lit "json") (lit "  ")
                  (litq "[{'type':'rectangle'}]") (lit " ") (lit " Done.")
                  eq_refl eq_refl eq_refl eq_refl eq_refl eq_refl eq_refl eq_refl eq_refl)
           eq_refl).
Defined.

Lemma postProcessExcalidrawCode_prose_witness :
  Excalidraw.postProcessExcalidrawCode (litq "Here it is: {'elements':[1]} - enjoy")
  = litq "{'elements':[1]}".
Proof.
  exact (ExcalidrawFacts.postProcessExcalidrawCode_prose
           (lit "Here it is: ") (litq "{'elements':[1]}") (lit " - enjoy")
           eq_refl eq_refl eq_refl eq_refl eq_refl).
Defined.

(** * The Excalidraw page: the event stream *)

Module ExcalidrawStreamFacts.
Import Bridge Sse ExcalidrawStream.

Lemma splitLines_nonempty (s : jsstring) : splitLines s <> [].
Proof.
  destruct s as [|c r]; [discriminate|]. cbn [splitLines].
  destruct (c =? 10); [discriminate|apply SseFacts.consHead_nonempty].
Qed.

(** The lines of a text that is continued: the complete lines of the
    first part stay, the last piece is split again with what follows. *)
Lemma splitLines_app (a b : jsstring) :
  splitLines (a ++ b)
  = removelast (splitLines a) ++ splitLines (last (splitLines a) [] ++ b).
Proof.
  induction a as [|c a IH]; [reflexivity|].
  cbn [app splitLines]. rewrite IH.
  assert (Hne := splitLines_nonempty a).
  destruct (c =? 10) eqn:Hc.
  - destruct (splitLines a) as [|p ps] eqn:Es; [congruence|].
    cbn [removelast last]. destruct ps; reflexivity.
  - destruct (SseFacts.removelast_consHead c (splitLines a) Hne) as [-> ->].
    destruct (splitLines a) as [|p [|q ps]] eqn:Es; [congruence| |].
    + cbn [removelast last app consHead].
      cbn [splitLines]. rewrite Hc. reflexivity.
    + cbn [removelast last app consHead]. reflexivity.
Qed.

Section LineStreamFacts.
Variable parse : jsstring -> option jsval.
Variable toStr : jsval -> jsstring.

Lemma handleLines_app (code : jsstring) (l1 l2 : list jsstring) :
  handleLines parse toStr code (l1 ++ l2)
  = (fst (handleLines parse toStr (fst (handleLines parse toStr code l1)) l2),
     snd (handleLines parse toStr code l1)
     ++ snd (handleLines parse toStr (fst (handleLines parse toStr code l1)) l2)).
Proof.
  revert code. induction l1 as [|line l1 IH]; intros code.
  - cbn [app handleLines fst snd].
    destruct (handleLines parse toStr code l2); reflexivity.
  - cbn [app handleLines].
    destruct (handleLine parse toStr code line) as [c1 s1].
    rewrite IH. destruct (handleLines parse toStr c1 l1) as [c2 s2]. cbn [fst snd].
    rewrite app_assoc. reflexivity.
Qed.

Lemma readChunk_eq_lines (st : reader_state) (chunk : jsstring) :
  readChunk parse toStr st chunk
  = ({| buffer := last (splitLines (buffer st ++ chunk)) [];
        accumulatedCode :=
          fst (handleLines parse toStr (accumulatedCode st)
                 (removelast (splitLines (buffer st ++ chunk)))) |},
     snd (handleLines parse toStr (accumulatedCode st)
            (removelast (splitLines (buffer st ++ chunk))))).
Proof.
  unfold readChunk. cbv zeta.
  destruct (handleLines parse toStr _ _) as [c s]. reflexivity.
Qed.

Lemma readChunk_twice_lines (st : reader_state) (a b : jsstring) :
  (fst (readChunk parse toStr (fst (readChunk parse toStr st a)) b),
   snd (readChunk parse toStr st a)
   ++ snd (readChunk parse toStr (fst (readChunk parse toStr st a)) b))
  = readChunk parse toStr st (a ++ b).
Proof.
  rewrite !readChunk_eq_lines. cbn [fst snd buffer accumulatedCode].
  rewrite (app_assoc (buffer st) a b).
  rewrite (splitLines_app (buffer st ++ a) b).
  set (P1 := splitLines (buffer st ++ a)).
  set (P2 := splitLines (last P1 [] ++ b)).
  assert (Hne : P2 <> []) by apply splitLines_nonempty.
  rewrite (removelast_app _ Hne), (last_app_nonempty _ _ _ Hne).
  rewrite handleLines_app. reflexivity.
Qed.

Lemma readChunks_concat_lines (chunks : list jsstring) :
  forall (st : reader_state) (a : jsstring),
  (fst (readChunks parse toStr (fst (readChunk parse toStr st a)) chunks),
   snd (readChunk parse toStr st a)
   ++ snd (readChunks parse toStr (fst (readChunk parse toStr st a)) chunks))
  = readChunk parse toStr st (a ++ concat chunks).
Proof.
  induction chunks as [|c chunks IH]; intros st a.
  - cbn [readChunks concat fst snd]. rewrite !app_nil_r.
    destruct (readChunk parse toStr st a); reflexivity.
  - cbn [readChunks concat].
    destruct (readChunk parse toStr (fst (readChunk parse toStr st a)) c)
      as [st2 s2] eqn:E2.
    destruct (readChunks parse toStr st2 chunks) as [st3 s3] eqn:E3.
    cbn [fst snd].
    rewrite (app_assoc a c (concat chunks)), <- (IH st (a ++ c)).
    rewrite <- (readChunk_twice_lines st a c), E2. cbn [fst snd].
    rewrite E3. cbn [fst snd]. rewrite app_assoc. reflexivity.
Qed.

Lemma readChunks_whole_lines (chunks : list jsstring) :
  readChunks parse toStr {| buffer := []; accumulatedCode := [] |} chunks
  = readChunk parse toStr {| buffer := []; accumulatedCode := [] |} (concat chunks).
Proof.
  destruct chunks as [|c chunks]; [reflexivity|].
  rewrite <- (readChunks_concat_lines chunks _ c). cbn [readChunks concat].
  destruct (readChunk parse toStr _ c) as [st1 s1]. cbn [fst snd].
  destruct (readChunks parse toStr st1 chunks); reflexivity.
Qed.

Lemma handleLine_content (code line : jsstring) :
  fst (handleLine parse toStr code line) = code ++ lineContent parse toStr line.
Proof.
  unfold lineContent, handleLine. cbv zeta.
  destruct (falsy _ || _); [symmetry; apply app_nil_r|].
  destruct (startsWith _ _); [|symmetry; apply app_nil_r].
  destruct (parse _) as [data|]; [|symmetry; apply app_nil_r].
  destruct (getProp data "content") as [content|]; [|symmetry; apply app_nil_r].
  destruct (truthy content); [reflexivity|].
  destruct (getProp data "error") as [e|]; [|symmetry; apply app_nil_r].
  destruct (truthy e); symmetry; apply app_nil_r.
Qed.

Lemma handleLines_content (lines : list jsstring) (code : jsstring) :
  fst (handleLines parse toStr code lines)
  = code ++ concat (map (lineContent parse toStr) lines).
Proof.
  revert code. induction lines as [|line lines IH]; intros code.
  - symmetry. apply app_nil_r.
  - cbn [handleLines map concat].
    pose proof (handleLine_content code line) as Hc.
    destruct (handleLine parse toStr code line) as [c1 s1]. cbn [fst] in Hc.
    specialize (IH c1).
    destruct (handleLines parse toStr c1 lines) as [c2 s2]. cbn [fst] in *.
    rewrite IH, Hc, app_assoc. reflexivity.
Qed.

(** X20. How the response is cut into chunks does not matter to the
    Excalidraw page either: read chunk by chunk, the stream gives the same
    processed text, live updates and logged errors as read in one piece.
    The processed text is what postProcessExcalidrawCode makes of the
    concatenated contents of the lines that a line feed ends; what follows
    the last line feed is never handled. *)
Theorem lineStream_chunking (chunks : list jsstring) :
  readStream parse toStr chunks = readStream parse toStr [concat chunks]
  /\ fst (readStream parse toStr chunks)
     = Excalidraw.postProcessExcalidrawCode
         (concat (map (lineContent parse toStr)
                      (removelast (splitLines (concat chunks))))).
Proof.
  split.
  - unfold readStream. rewrite !readChunks_whole_lines. cbn [concat].
    rewrite app_nil_r. reflexivity.
  - unfold readStream. rewrite readChunks_whole_lines, readChunk_eq_lines.
    cbn [fst buffer accumulatedCode app].
    rewrite handleLines_content. reflexivity.
Qed.

End LineStreamFacts.
End ExcalidrawStreamFacts.

Lemma lineStream_chunking_witness :
  fst (ExcalidrawStream.readStream
         (fun s => if jsstring_eqb s (litq "{'content':'[1]'}")
                   then Some (Bridge.VObj [(lit "content", Bridge.VStr (lit "[1]"))])
                   else None)
         (fun _ => [])
         [lit "data: {"; litq "'content':'[1]'}"; [10]; lit "data: [DO"])
  = lit "[1]".
Proof.
  rewrite (proj1 (ExcalidrawStreamFacts.lineStream_chunking _ _ _)).
  vm_compute. reflexivity.
Defined.

(** * The Excalidraw page: the chat bubbles *)

Module BubbleFacts.
Import Bubbles.

Lemma replaceFirst_found (p : message -> bool) (f : message -> message)
    (before after : list message) (m : message) :
  forallb (fun x => negb (p x)) before = true -> p m = true ->
  replaceFirst p f (before ++ m :: after) = Some (before ++ f m :: after).
Proof.
  intros Hb Hm. induction before as [|x before IH]; cbn [app replaceFirst].
  - rewrite Hm. reflexivity.
  - cbn [forallb] in Hb. apply andb_true_iff in Hb as [Hx Hb].
    apply negb_true_iff in Hx. rewrite Hx, (IH Hb). reflexivity.
Qed.

Lemma replaceFirst_none (p : message -> bool) (f : message -> message)
    (l : list message) :
  forallb (fun x => negb (p x)) l = true -> replaceFirst p f l = None.
Proof.
  induction l as [|x l IH]; [reflexivity|]. cbn [forallb replaceFirst].
  intros Hl. apply andb_true_iff in Hl as [Hx Hl]. apply negb_true_iff in Hx.
  rewrite Hx, (IH Hl). reflexivity.
Qed.

Lemma forallb_rev {A} (p : A -> bool) (l : list A) :
  forallb p l = true -> forallb p (rev l) = true.
Proof. apply forallb_sub. intros x Hx. apply in_rev. exact Hx. Qed.

(** The last element that satisfies [p] is the one replaced. *)
Lemma replaceLast_found (p : message -> bool) (f : message -> message)
    (before after : list message) (m : message) :
  forallb (fun x => negb (p x)) after = true -> p m = true ->
  replaceLast p f (before ++ m :: after) = Some (before ++ f m :: after).
Proof.
  intros Ha Hm. unfold replaceLast.
  rewrite rev_app_distr. cbn [rev]. rewrite <- app_assoc. cbn [app].
  rewrite (replaceFirst_found p f (rev after) (rev before) m (forallb_rev _ _ Ha) Hm).
  cbn [option_map]. rewrite rev_app_distr. cbn [rev].
  rewrite !rev_involutive, <- app_assoc. reflexivity.
Qed.

Lemma replaceLast_none (p : message -> bool) (f : message -> message)
    (l : list message) :
  forallb (fun x => negb (p x)) l = true -> replaceLast p f l = None.
Proof.
  intros Hl. unfold replaceLast.
  rewrite (replaceFirst_none p f _ (forallb_rev _ _ Hl)). reflexivity.
Qed.

Lemma liveUpdate_bubble (code : jsstring) (before after : list message) (m : message) :
  forallb (fun x => negb (isStreamingBubble x)) after = true ->
  isStreamingBubble m = true ->
  liveUpdate code (before ++ m :: after) = before ++ withContent code m :: after.
Proof.
  intros Ha Hm. unfold liveUpdate.
  rewrite (replaceLast_found _ _ before after m Ha Hm). reflexivity.
Qed.

Lemma last_default {A} (l : list A) (d d' : A) : l <> [] -> last l d = last l d'.
Proof.
  induction l as [|x l IH]; [congruence|]. intros _.
  destruct l as [|y l]; [reflexivity|].
  change (last (y :: l) d = last (y :: l) d'). apply IH. discriminate.
Qed.

Lemma last_cons_default {A} (x : A) (l : list A) (d : A) : last (x :: l) d = last l x.
Proof.
  destruct l as [|y l]; [reflexivity|].
  change (last (y :: l) d = last (y :: l) x). apply last_default. discriminate.
Qed.

Lemma withContent_same (m : message) : withContent (content m) m = m.
Proof. destruct m; reflexivity. Qed.

Lemma fold_liveUpdate (codes : list jsstring) :
  forall (before after : list message) (m : message),
  forallb (fun x => negb (isStreamingBubble x)) after = true ->
  isStreamingBubble m = true ->
  fold_left (fun l code => liveUpdate code l) codes (before ++ m :: after)
  = before ++ withContent (last codes (content m)) m :: after.
Proof.
  induction codes as [|code codes IH]; intros before after m Ha Hm.
  - cbn [fold_left last]. rewrite withContent_same. reflexivity.
  - cbn [fold_left]. rewrite (liveUpdate_bubble code before after m Ha Hm).
    rewrite (IH before after (withContent code m) Ha Hm).
    rewrite last_cons_default. reflexivity.
Qed.

(** X21. The bubble of a generation: the placeholder that
    handleSendMessage appends is the bubble that every live update fills
    with the code received so far, so that after the updates it shows the
    code of the last one (and is still streaming); in the end it is
    replaced by the final message, which is no longer streaming.  The
    messages before it and the messages added after it in the meantime are
    left as they are.  Without a streaming bubble the final message is
    appended. *)
Theorem streaming_bubble_lifecycle (prev later : list message)
    (codes : list jsstring) (processed : jsstring) :
  forallb (fun x => negb (isStreamingBubble x)) later = true ->
  fold_left (fun l code => liveUpdate code l) codes (startStreaming prev ++ later)
  = prev ++ withContent (last codes []) placeholder :: later
  /\ finish processed
       (fold_left (fun l code => liveUpdate code l) codes (startStreaming prev ++ later))
     = prev ++ finalMessage processed :: later
  /\ isStreamingBubble (finalMessage processed) = false
  /\ (forallb (fun x => negb (isStreamingBubble x)) prev = true ->
      finish processed prev = prev ++ [finalMessage processed]).
Proof.
  intros Hlater.
  assert (Hfold : fold_left (fun l code => liveUpdate code l) codes
                    (startStreaming prev ++ later)
                  = prev ++ withContent (last codes []) placeholder :: later).
  { unfold startStreaming. rewrite <- app_assoc. cbn [app].
    apply (fold_liveUpdate codes prev later placeholder Hlater eq_refl). }
  split; [exact Hfold|]. split; [|split; [reflexivity|]].
  - rewrite Hfold. unfold finish.
    rewrite (replaceLast_found _ _ prev later
               (withContent (last codes []) placeholder) Hlater eq_refl).
    reflexivity.
  - intros Hprev. unfold finish. rewrite (replaceLast_none _ _ prev Hprev).
    reflexivity.
Qed.

End BubbleFacts.

Lemma streaming_bubble_lifecycle_witness :
  Bubbles.liveUpdate (lit "[1")
    (Bubbles.liveUpdate (lit "[")
       (Bubbles.startStreaming
          [ {| Bubbles.role := lit "user"; Bubbles.content := lit "draw";
               Bubbles.type := None; Bubbles.streaming := false;
               Bubbles.attachments := O |} ]))
  = [ {| Bubbles.role := lit "user"; Bubbles.content := lit "draw";
         Bubbles.type := None; Bubbles.streaming := false;
         Bubbles.attachments := O |};
      {| Bubbles.role := lit "assistant"; Bubbles.content := lit "[1";
         Bubbles.type := Some (lit "json"); Bubbles.streaming := true;
         Bubbles.attachments := O |} ]
  /\ Bubbles.finish (lit "[1]")
       (Bubbles.liveUpdate (lit "[1")
          (Bubbles.liveUpdate (lit "[")
             (Bubbles.startStreaming
                [ {| Bubbles.role := lit "user"; Bubbles.content := lit "draw";
                     Bubbles.type := None; Bubbles.streaming := false;
                     Bubbles.attachments := O |} ])))
     = [ {| Bubbles.role := lit "user"; Bubbles.content := lit "draw";
            Bubbles.type := None; Bubbles.streaming := false;
            Bubbles.attachments := O |};
         Bubbles.finalMessage (lit "[1]") ].
Proof.
  pose proof (BubbleFacts.streaming_bubble_lifecycle
                [ {| Bubbles.role := lit "user"; Bubbles.content := lit "draw";
                     Bubbles.type := None; Bubbles.streaming := false;
                     Bubbles.attachments := O |} ]
                [] [lit "["; lit "[1"] (lit "[1]") eq_refl) as (Hlive & Hfinish & _).
  split; [exact Hlive|exact Hfinish].
Defined.

(** * Decoding the entities: the round trip with HTML escaping *)

Module DecodeFacts.
Import Escape.

Lemma startsWith_self (p rest : jsstring) : startsWith (p ++ rest) p = true.
Proof.
  induction p as [|c p IH]; [reflexivity|].
  cbn [app startsWith]. rewrite N.eqb_refl, IH. reflexivity.
Qed.

Lemma replaceAll_from_skip (pat rep a s : jsstring) :
  replaceAll_from (List.length a) pat rep (a ++ s) = replaceAll_from 0 pat rep s.
Proof.
  induction a as [|c a IH]; [reflexivity|].
  cbn [List.length app replaceAll_from]. exact IH.
Qed.

(** At an occurrence of the pattern. *)
Lemma replaceAll_match (c : N) (p rep rest : jsstring) :
  replaceAll_from 0 (c :: p) rep ((c :: p) ++ rest)
  = rep ++ replaceAll_from 0 (c :: p) rep rest.
Proof.
  cbn [app]. cbn [replaceAll_from].
  change (c :: p ++ rest) with ((c :: p) ++ rest).
  rewrite startsWith_self. cbn [List.length Nat.sub].
  rewrite Nat.sub_0_r, replaceAll_from_skip. reflexivity.
Qed.

(** At a code unit where the pattern does not start. *)
Lemma replaceAll_step (pat rep : jsstring) (c : N) (rest : jsstring) :
  startsWith (c :: rest) pat = false ->
  replaceAll_from 0 pat rep (c :: rest) = c :: replaceAll_from 0 pat rep rest.
Proof. intros Hs. cbn [replaceAll_from]. rewrite Hs. reflexivity. Qed.

(** Across text without ['&']. *)
Lemma replaceAll_plain (pat rep a rest : jsstring) :
  noAmp a = true ->
  replaceAll_from 0 (ch "&" :: pat) rep (a ++ rest)
  = a ++ replaceAll_from 0 (ch "&" :: pat) rep rest.
Proof.
  induction a as [|c a IH]; [reflexivity|]. cbn [noAmp forallb app].
  intros Hc. apply andb_true_iff in Hc as [Hc Ha]. apply negb_true_iff in Hc.
  rewrite replaceAll_step.
  - rewrite (IH Ha). reflexivity.
  - cbn [startsWith]. rewrite N.eqb_sym, Hc. reflexivity.
Qed.

Lemma escapeFrom_first (k : nat) (c : N) :
  exists h t, escapeFrom k c = h :: t /\ (h = c \/ h = ch "&").
Proof.
  unfold escapeFrom.
  repeat match goal with
         | |- context [if ?b then _ else _] => destruct b
         end;
    eexists; eexists; (split; [reflexivity|]); auto.
Qed.

(** After a raw ['&'] that is followed by neither ['q'] nor ['#'], no
    entity that is still to be decoded starts. *)
Lemma no_entity_at_amp (k : nat) (r : jsstring) :
  (3 <= k <= 4)%nat ->
  match r with
  | d :: _ => negb (d =? ch "q") && negb (d =? ch "#")
  | [] => true
  end = true ->
  startsWith (ch "&" :: flat_map (escapeFrom k) r) (entity k) = false.
Proof.
  intros Hk Hr.
  assert (Hhead : match flat_map (escapeFrom k) r with
                  | h :: _ => (h =? ch "q") = false /\ (h =? ch "#") = false
                  | [] => True
                  end).
  { destruct r as [|d r']; [exact I|]. cbn [flat_map].
    destruct (escapeFrom_first k d) as (h & t & -> & Hh). cbn [app].
    apply andb_true_iff in Hr as [Hq Hs]. apply negb_true_iff in Hq, Hs.
    destruct Hh as [->| ->]; [split; assumption|split; reflexivity]. }
  destruct (flat_map (escapeFrom k) r) as [|h rest].
  - destruct k as [|[|[|[|[|k]]]]]; try lia; reflexivity.
  - destruct Hhead as [Hq Hs].
    destruct k as [|[|[|[|[|k]]]]]; try lia;
      cbn [entity nth lit list_ascii_of_string map startsWith];
      rewrite N.eqb_refl; cbn [andb].
    + change (N_of_ascii "q") with (ch "q"). rewrite N.eqb_sym, Hq. reflexivity.
    + change (N_of_ascii "#") with (ch "#"). rewrite N.eqb_sym, Hs. reflexivity.
Qed.

Lemma replaceAll_plain_amp (pat rep a rest : jsstring) :
  hd 0 pat = ch "&" -> pat <> [] -> noAmp a = true ->
  replaceAll_from 0 pat rep (a ++ rest) = a ++ replaceAll_from 0 pat rep rest.
Proof.
  intros Hh Hne. destruct pat as [|p pat]; [congruence|]. cbn [hd] in Hh. subst p.
  apply replaceAll_plain.
Qed.

Ltac other_entity :=
  match goal with
  | |- replaceAll_from 0 ?P ?R (?E ++ ?rest) = _ =>
      let t := eval cbv [tl] in (tl E) in
      change (E ++ rest) with (ch "&" :: (t ++ rest));
      rewrite replaceAll_step by reflexivity;
      rewrite (replaceAll_plain_amp P R t rest eq_refl) by (try discriminate; reflexivity)
  end.

(** One replacement of step 2 turns the text in which [k] replacements
    have been made into the text in which [k + 1] have. *)
Lemma decode_pass (k : nat) (d : jsstring) :
  (k <= 4)%nat -> ampSafe d = true ->
  replaceAll (entity k) [special k] (flat_map (escapeFrom k) d)
  = flat_map (escapeFrom (S k)) d.
Proof.
  intros Hk. unfold replaceAll.
  induction d as [|c r IH]; intros Hsafe; [reflexivity|].
  cbn [ampSafe] in Hsafe. apply andb_true_iff in Hsafe as [Hamp Hsafe].
  specialize (IH Hsafe). cbn [flat_map].
  unfold escapeFrom at 1 3.
  destruct (N.eqb_spec c (special 0)) as [->|H0];
    [|destruct (N.eqb_spec c (special 1)) as [->|H1];
      [|destruct (N.eqb_spec c (special 2)) as [->|H2];
        [|destruct (N.eqb_spec c (special 3)) as [->|H3];
          [|destruct (N.eqb_spec c (special 4)) as [->|H4]]]]].
  all: destruct k as [|[|[|[|[|k]]]]]; try lia.
  all: cbn [Nat.leb].
  all: cbv [entity special nth lit list_ascii_of_string map] in IH |- *.
  all: try (rewrite replaceAll_match; rewrite IH; reflexivity).
  all: try (cbn [app]; rewrite replaceAll_step by reflexivity; rewrite IH; reflexivity).
  all: try (other_entity; rewrite IH; reflexivity).
  all: try (cbn [app]; rewrite replaceAll_step;
            [rewrite IH; reflexivity
            |cbn [startsWith];
             rewrite (proj2 (N.eqb_neq (N_of_ascii "&") c) (fun E => H2 (eq_sym E)));
             reflexivity]).
  all: cbn [app]; rewrite replaceAll_step;
    [rewrite IH; reflexivity|].
  - apply (no_entity_at_amp 3 r); [lia|exact Hamp].
  - apply (no_entity_at_amp 4 r); [lia|exact Hamp].
Qed.

Lemma escapeFrom_done (d : jsstring) : flat_map (escapeFrom 5) d = d.
Proof.
  induction d as [|c r IH]; [reflexivity|]. cbn [flat_map]. rewrite IH.
  unfold escapeFrom. cbn [Nat.leb].
  repeat match goal with
         | |- context [if ?b then _ else _] => destruct b
         end; reflexivity.
Qed.

Lemma decode_escape (d : jsstring) :
  ampSafe d = true -> decodeEntities (escape d) = d.
Proof.
  intros Hsafe. unfold decodeEntities, escape.
  change (lit "&lt;") with (entity 0). change (lit "<") with [special 0].
  change (lit "&gt;") with (entity 1). change (lit ">") with [special 1].
  change (lit "&amp;") with (entity 2). change (lit "&") with [special 2].
  change (lit "&quot;") with (entity 3). change [dquote] with [special 3].
  change (lit "&#39;") with (entity 4). change (lit "'") with [special 4].
  rewrite (decode_pass 0 d), (decode_pass 1 d), (decode_pass 2 d),
    (decode_pass 3 d), (decode_pass 4 d) by (lia || exact Hsafe).
  apply escapeFrom_done.
Qed.

Lemma tag_start_not_ws (c : N) : tag_start_char c = true -> is_ws c = false.
Proof.
  unfold tag_start_char. intros Hc.
  destruct (is_ws c) eqn:Ews; [|reflexivity]. exfalso.
  unfold is_ws in Ews. change (ch "!") with 33 in Hc. change (ch "?") with 63 in Hc.
  repeat rewrite ?orb_true_iff, ?andb_true_iff, ?N.leb_le, ?N.eqb_eq in Hc.
  repeat rewrite ?orb_true_iff, ?andb_true_iff, ?N.leb_le, ?N.eqb_eq in Ews.
  lia.
Qed.

(** X22. Step 2 of postProcessDrawioCode undoes HTML escaping: the five
    replacements, in their order, turn the escaped form of a text back
    into the text, provided no ['&'] of the text is followed by ['q'] or
    ['#'].  Without the proviso a text can be decoded twice: the escaped
    form of [&quot;] is decoded to a double quote. *)
Theorem decodeEntities_escape (d : jsstring) :
  ampSafe d = true ->
  decodeEntities (escape d) = d.
Proof. apply decode_escape. Qed.

Lemma decodeEntities_escape_witness :
  decodeEntities (litq "&lt;a href=&quot;x?a=1&amp;b=2&quot;&gt;Tom &amp; Jerry&lt;/a&gt;")
  = litq "<a href='x?a=1&b=2'>Tom & Jerry</a>"
  /\ decodeEntities (escape (lit "&quot;")) = [dquote].
Proof.
  split; [|vm_compute; reflexivity].
  exact (decodeEntities_escape (litq "<a href='x?a=1&b=2'>Tom & Jerry</a>") eq_refl).
Defined.

Lemma escape_In (d : jsstring) (x : N) :
  In x (escape d) ->
  In x (concat [entity 0; entity 1; entity 2; entity 3; entity 4])
  \/ (In x d /\ x <> ch "<" /\ x <> ch ">" /\ x <> ch "&").
Proof.
  unfold escape. induction d as [|c r IH]; [intros []|].
  cbn [flat_map]. intros Hx. apply in_app_or in Hx as [Hx|Hx].
  - unfold escapeFrom in Hx. cbn [Nat.leb] in Hx.
    destruct (N.eqb_spec c (special 0)).
    { left. cbn [concat]. apply in_or_app. left. exact Hx. }
    destruct (N.eqb_spec c (special 1)).
    { left. cbn [concat]. apply in_or_app. right. apply in_or_app. left. exact Hx. }
    destruct (N.eqb_spec c (special 2)).
    { left. cbn [concat]. do 2 (apply in_or_app; right). apply in_or_app. left. exact Hx. }
    destruct (N.eqb_spec c (special 3)).
    { left. cbn [concat]. do 3 (apply in_or_app; right). apply in_or_app. left. exact Hx. }
    destruct (N.eqb_spec c (special 4)).
    { left. cbn [concat]. do 4 (apply in_or_app; right). apply in_or_app. left. exact Hx. }
    destruct Hx as [<-|[]]. right. repeat split; [left; reflexivity|assumption..].
  - destruct (IH Hx) as [Hl|(Hin & Hrest)]; [left; exact Hl|].
    right. split; [right; exact Hin|exact Hrest].
Qed.

Lemma escape_forallb (p : N -> bool) (d : jsstring) :
  forallb p (concat [entity 0; entity 1; entity 2; entity 3; entity 4]) = true ->
  (forall x, In x d -> x <> ch "<" -> x <> ch ">" -> x <> ch "&" -> p x = true) ->
  forallb p (escape d) = true.
Proof.
  intros He Hd. apply forallb_forall. intros x Hx.
  apply escape_In in Hx as [Hx|(Hx & H1 & H2 & H3)].
  - apply (proj1 (forallb_forall _ _) He x Hx).
  - apply Hd; assumption.
Qed.

Lemma escape_keeps (p : N -> bool) (d : jsstring) :
  forallb p (concat [entity 0; entity 1; entity 2; entity 3; entity 4]) = true ->
  forallb p d = true -> forallb p (escape d) = true.
Proof.
  intros He Hd. apply escape_forallb; [exact He|].
  intros x Hx _ _ _. apply (proj1 (forallb_forall _ _) Hd x Hx).
Qed.

Lemma escape_app (a b : jsstring) : escape (a ++ b) = escape a ++ escape b.
Proof. unfold escape. apply flat_map_app. Qed.

Lemma search_none (p : jsstring -> bool) (s : jsstring) :
  (forall c r, In c s -> p (c :: r) = false) -> p [] = false -> search p s = None.
Proof.
  intros Hs Hnil. induction s as [|c s IH]; cbn [search].
  - rewrite Hnil. reflexivity.
  - rewrite (Hs c s (or_introl eq_refl)), IH; [reflexivity|].
    intros x r Hx. apply Hs. right. exact Hx.
Qed.

Section EscapedDocument.
Context `{Host}.

(** X23. A Draw.io document that arrives HTML-escaped is decoded and
    repaired: for every text [d] that starts with the tag of an mxfile,
    mxGraphModel or diagram element, ends with ['>'], has no backtick and no
    invisible code unit, and in which no ['&'] is followed by ['q'] or
    ['#'], postProcessDrawioCode applied to the escaped form of [d]
    returns what the repair of markup makes of [d], and so [d] itself when
    [d] is a well-nested document in canonical form (tags written as
    ['<' name attributes '>'] with no white space before ['>'] and no
    ['>'] inside, no comment, CDATA section or processing instruction, no
    element name in the void-tag set). *)
Theorem postProcessDrawioCode_escaped_document (d : jsstring) :
  xml_root_at d = true -> last d 0 = ch ">" ->
  noBacktick d = true -> forallb visible d = true -> ampSafe d = true ->
  postProcessDrawioCode (escape d) = Normal (fixXMLorHTML d xml_mode)
  /\ (forall evs,
        d = Markup.render evs ->
        (forall x, toLowerCase (toLowerCase x) = toLowerCase x) ->
        forallb Markup.valid_event evs = true ->
        forallb (fun n => negb (has DEFAULT_VOID_TAGS (toLowerCase n)))
                (Markup.opened evs) = true ->
        Markup.wellNested evs = true ->
        postProcessDrawioCode (escape d) = Normal d).
Proof.
  intros Hroot Hgt Hbt Hvis Hsafe.
  assert (Hmain : postProcessDrawioCode (escape d) = Normal (fixXMLorHTML d xml_mode)).
  { destruct (Extraction.ends_with_gt d Hroot Hgt) as (t & Ht & Hne).
    destruct (Extraction.xml_root_at_head d Hroot) as (c & r & Hd & Hc).
    assert (Hcplain : escapeFrom 0 c = [c]).
    { unfold escapeFrom.
      destruct (N.eqb_spec c (special 0)) as [->|_]; [discriminate Hc|].
      destruct (N.eqb_spec c (special 1)) as [->|_]; [discriminate Hc|].
      destruct (N.eqb_spec c (special 2)) as [->|_]; [discriminate Hc|].
      destruct (N.eqb_spec c (special 3)) as [->|_]; [discriminate Hc|].
      destruct (N.eqb_spec c (special 4)) as [->|_]; [discriminate Hc|].
      reflexivity. }
    assert (Hhead : exists rest, escape d = lit "&lt;" ++ c :: rest).
    { rewrite Hd. unfold escape. cbn [flat_map]. rewrite Hcplain.
      eexists. reflexivity. }
    assert (Hlast : exists front, escape d = front ++ [ch ";"]).
    { rewrite Ht, escape_app. exists (escape t ++ lit "&gt").
      rewrite <- app_assoc. reflexivity. }
    rewrite postProcessDrawioCode_composition.
    unfold Steps.postProcess_steps, Steps.stripStep.
    rewrite stripInvisible_visible by (apply escape_keeps; [reflexivity|exact Hvis]).
    rewrite StepFacts.fenceStep_no_fence by (apply escape_keeps; [reflexivity|exact Hbt]).
    rewrite trim_fixed.
    2:{ destruct Hhead as (rest & ->). reflexivity. }
    2:{ destruct Hlast as (front & ->). rewrite last_last. reflexivity. }
    assert (Hraw : hasRawTag (escape d) = false).
    { unfold hasRawTag. rewrite search_none; [reflexivity| |reflexivity].
      intros x r0 Hx. destruct r0 as [|b r0]; [reflexivity|].
      assert (Hlt : (x =? ch "<") = false).
      { apply escape_In in Hx as [Hx|(_ & Hx & _)].
        - cbn in Hx. repeat (destruct Hx as [<-|Hx]; [reflexivity|]). destruct Hx.
        - apply N.eqb_neq. exact Hx. }
      rewrite Hlt. reflexivity. }
    assert (Hesc : hasEscapedTag (escape d) = true).
    { unfold hasEscapedTag. destruct Hhead as (rest & ->).
      cbn [app lit list_ascii_of_string map search startsWith_ci skipn trimStart].
      assert (Hws : is_ws c = false) by (apply tag_start_not_ws, Hc).
      unfold ci_match. cbn. rewrite Hws, Hc. reflexivity. }
    unfold Steps.decodeStep. rewrite Hraw, Hesc. cbn [negb andb].
    rewrite (decode_escape d Hsafe).
    pose proof (Extraction.keepStep_document [] d [] eq_refl eq_refl Hroot Hgt) as Hkeep.
    cbn [app] in Hkeep. rewrite app_nil_r in Hkeep. rewrite Hkeep.
    unfold Steps.repairStep. apply fixUnclosed_xml_mode. }
  split; [exact Hmain|].
  intros evs Hd lower_idem Hvalid Hvoid Hnested. rewrite Hmain, Hd.
  rewrite (Extraction.repair_wellNested evs lower_idem Hvalid Hvoid Hnested).
  reflexivity.
Qed.

End EscapedDocument.
End DecodeFacts.

Lemma postProcessDrawioCode_escaped_document_witness :
  postProcessDrawioCode
    (litq "&lt;mxGraphModel&gt;&lt;root&gt;&lt;mxCell id=&quot;0&quot;/&gt;&lt;/root&gt;&lt;/mxGraphModel&gt;")
  = Normal (litq "<mxGraphModel><root><mxCell id='0'/></root></mxGraphModel>").
Proof.
  exact (proj2 (DecodeFacts.postProcessDrawioCode_escaped_document
           (litq "<mxGraphModel><root><mxCell id='0'/></root></mxGraphModel>")
           eq_refl eq_refl eq_refl eq_refl eq_refl)
           [Markup.Open (lit "mxGraphModel") []; Markup.Open (lit "root") [];
            Markup.Empty (lit "mxCell") (litq " id='0'");
            Markup.Close (lit "root"); Markup.Close (lit "mxGraphModel")]
           eq_refl (proj1 ascii_lower_laws) eq_refl eq_refl eq_refl).
Defined.

(** * fixJSON and fixUnclosed never fail *)

Lemma closer_ahead_spec (s : jsstring) :
  closer_ahead s = true
  <-> exists w c rest,
        s = w ++ c :: rest /\ forallb is_ws w = true
        /\ (c = ch "}" \/ c = ch "]").
Proof.
  split.
  - induction s as [|x r IH]; cbn [closer_ahead]; [discriminate|].
    destruct (is_ws x) eqn:Hx.
    + intros Hr. destruct (IH Hr) as (w & c & rest & -> & Hw & Hc).
      exists (x :: w), c, rest. cbn [app forallb]. rewrite Hx, Hw.
      repeat split. exact Hc.
    + intros Hc. exists [], x, r. repeat split.
      apply orb_true_iff in Hc as [Hc|Hc]; apply N.eqb_eq in Hc; auto.
  - intros (w & c & rest & -> & Hw & Hc).
    induction w as [|x w IH]; cbn [app closer_ahead].
    + assert (Hws : is_ws c = false) by (destruct Hc as [->| ->]; reflexivity).
      rewrite Hws. destruct Hc as [->| ->]; reflexivity.
    + cbn [forallb] in Hw. apply andb_true_iff in Hw as [Hx Hw].
      rewrite Hx. apply IH, Hw.
Qed.

(** The pass of the pattern over the text removes exactly the commas
    that are trailing commas of the text as it is: no match of the pattern
    starts inside another. *)
Lemma stc_positions (t pre : jsstring) :
  map snd (filter (fun ic => negb (trailingCommaAt (pre ++ t) (fst ic)))
                  (combine (seq (List.length pre) (List.length t)) t))
  = stripTrailingCommas t.
Proof.
  revert pre. induction t as [|c r IH]; intros pre; [reflexivity|].
  cbn [List.length seq combine filter fst stripTrailingCommas].
  assert (Hhere : trailingCommaAt (pre ++ c :: r) (List.length pre)
                  = (c =? ch ",") && closer_ahead r).
  { unfold trailingCommaAt. rewrite nth_middle.
    replace (skipn (S (List.length pre)) (pre ++ c :: r)) with r; [reflexivity|].
    replace (pre ++ c :: r) with ((pre ++ [c]) ++ r)
      by (rewrite <- app_assoc; reflexivity).
    replace (S (List.length pre)) with (List.length (pre ++ [c]))
      by (rewrite length_app; cbn; lia).
    rewrite skipn_app, skipn_all, Nat.sub_diag. reflexivity. }
  rewrite Hhere.
  specialize (IH (pre ++ [c])).
  rewrite <- app_assoc in IH. cbn [app] in IH.
  replace (List.length (pre ++ [c])) with (S (List.length pre)) in IH
    by (rewrite length_app; cbn; lia).
  destruct ((c =? ch ",") && closer_ahead r); cbn [negb map snd];
    rewrite IH; reflexivity.
Qed.

Lemma stc_withoutTrailingCommas (t : jsstring) :
  stripTrailingCommas t = withoutTrailingCommas t.
Proof. symmetry. apply (stc_positions t []). Qed.

Lemma closer_ahead_stc (r : jsstring) :
  comma_ahead r = false ->
  closer_ahead (stripTrailingCommas r) = closer_ahead r.
Proof.
  induction r as [|c r IH]; [reflexivity|].
  cbn [comma_ahead stripTrailingCommas closer_ahead].
  destruct (is_ws c) eqn:Hws.
  - intros Hr.
    assert (Hc : (c =? ch ",") = false).
    { destruct (N.eqb_spec c (ch ",")) as [->|_]; [discriminate Hws|reflexivity]. }
    rewrite Hc. cbn [andb closer_ahead]. rewrite Hws. apply IH, Hr.
  - intros Hc. rewrite Hc. cbn [andb closer_ahead]. rewrite Hws. reflexivity.
Qed.

Lemma stc_noCommaBeforeCloser (t : jsstring) :
  noCommaBeforeComma t = true ->
  noCommaBeforeCloser (stripTrailingCommas t) = true.
Proof.
  induction t as [|c r IH]; [reflexivity|].
  cbn [noCommaBeforeComma stripTrailingCommas]. intros Ht.
  apply andb_true_iff in Ht as [Hc Hr]. apply negb_true_iff in Hc.
  specialize (IH Hr).
  destruct (c =? ch ",") eqn:Ecomma; cbn [andb] in *.
  - destruct (closer_ahead r) eqn:Eclose; [exact IH|].
    cbn [noCommaBeforeCloser]. rewrite Ecomma, (closer_ahead_stc r Hc), Eclose.
    exact IH.
  - cbn [noCommaBeforeCloser]. rewrite Ecomma. exact IH.
Qed.



(** * postProcessDrawioCode, step by step *)

Module StepSpecFacts.
Import Steps StepSpec.

Lemma startsWith_spec (p t : jsstring) :
  startsWith t p = true <-> exists b, t = p ++ b.
Proof.
  revert t. induction p as [|a p IH]; intros t.
  - split; [intros _; exists t; reflexivity|reflexivity].
  - destruct t as [|x t]; cbn [startsWith].
    + split; [discriminate|intros (b & Hb); discriminate].
    + rewrite andb_true_iff, N.eqb_eq, IH. split.
      * intros (-> & b & ->). exists b. reflexivity.
      * intros (b & Hb). injection Hb as -> ->. split; [reflexivity|].
        exists b. reflexivity.
Qed.

Lemma startsWith_ci_firstn (p s : jsstring) :
  startsWith_ci s p = true ->
  startsWith_ci (firstn (List.length p) s) p = true
  /\ List.length (firstn (List.length p) s) = List.length p.
Proof.
  revert s. induction p as [|a p IH]; intros s; [split; reflexivity|].
  destruct s as [|b s]; [discriminate|]. cbn [startsWith_ci List.length firstn].
  intros Hs. apply andb_true_iff in Hs as [Hab Hs].
  destruct (IH s Hs) as [H1 H2]. rewrite Hab, H1, H2. split; reflexivity.
Qed.

(** What [trimStart] removes is white space, and what it leaves does not
    start with white space. *)
Lemma trimStart_split (s : jsstring) :
  exists ws, s = ws ++ trimStart s /\ forallb is_ws ws = true
             /\ is_ws (hd 0 (trimStart s)) = false.
Proof.
  induction s as [|c s (ws & Hs & Hws & Hhd)].
  - exists []. repeat split.
  - cbn [trimStart]. destruct (is_ws c) eqn:Hc.
    + exists (c :: ws). cbn [app forallb]. rewrite Hc, Hws, <- Hs. repeat split.
      exact Hhd.
    + exists []. repeat split. exact Hc.
Qed.

Lemma trimStart_ws_solid (ws rest : jsstring) :
  forallb is_ws ws = true -> is_ws (hd 0 rest) = false ->
  trimStart (ws ++ rest) = rest.
Proof.
  intros Hws Hrest. rewrite StepFacts.trimStart_ws_app by exact Hws.
  apply trimStart_fixed. destruct rest; [exact I|exact Hrest].
Qed.

Lemma hd_app_fence (body post : jsstring) :
  hd 0 (body ++ fence ++ post) = hd 0 (body ++ fence).
Proof. destruct body; reflexivity. Qed.

Lemma skipn3_fence (rest : jsstring) : skipn 3 (fence ++ rest) = rest.
Proof. reflexivity. Qed.

(** The lazy group and the closing fence. *)
Lemma until_fence_intro (body post : jsstring) :
  firstFence body post -> until_fence (body ++ fence ++ post) = Some (body, post).
Proof.
  induction body as [|c body IH]; intros Hfirst; [reflexivity|].
  assert (Hhead : startsWith ((c :: body) ++ fence ++ post) fence = false).
  { destruct (startsWith _ fence) eqn:E; [|reflexivity].
    apply startsWith_spec in E as (b & Hb).
    specialize (Hfirst [] b Hb). cbn in Hfirst. lia. }
  cbn [app] in *. cbn [until_fence]. rewrite Hhead, IH; [reflexivity|].
  intros a b Hab. specialize (Hfirst (c :: a) b). cbn [app List.length] in Hfirst.
  rewrite Hab in Hfirst. specialize (Hfirst eq_refl). lia.
Qed.

Lemma until_fence_elim (t body post : jsstring) :
  until_fence t = Some (body, post) ->
  t = body ++ fence ++ post /\ firstFence body post.
Proof.
  revert body. induction t as [|c t IH]; intros body; [discriminate|].
  cbn [until_fence]. destruct (startsWith (c :: t) fence) eqn:E.
  - apply startsWith_spec in E as (b & Hb). rewrite Hb, skipn3_fence.
    intros [= <- <-].
    split; [reflexivity|]. intros a b0 _. cbn. lia.
  - destruct (until_fence t) as [[g after]|] eqn:Et; [|discriminate].
    intros [= <- <-]. destruct (IH g eq_refl) as (Ht & Hfirst).
    split; [rewrite Ht; reflexivity|].
    intros a b Hab. destruct a as [|x a].
    + exfalso. cbn [app] in Hab. rewrite <- Ht in Hab.
      assert (startsWith (c :: t) fence = true)
        by (apply startsWith_spec; exists b; exact Hab).
      congruence.
    + cbn [app] in Hab. injection Hab as _ Hab.
      specialize (Hfirst a b Hab). cbn [List.length]. lia.
Qed.

Lemma ci_x_not_ws (label : jsstring) :
  startsWith_ci label (lit "xml") = true -> is_ws (hd 0 label) = false.
Proof.
  destruct label as [|c l]; [reflexivity|].
  cbn [startsWith_ci lit list_ascii_of_string map hd]. intros H.
  apply andb_true_iff in H as [Hc _]. unfold ci_match in Hc.
  repeat (apply orb_true_iff in Hc as [Hc|Hc]);
    try (apply N.eqb_eq in Hc; subst c; reflexivity);
    try (apply andb_true_iff in Hc as [_ Hc]; apply N.eqb_eq in Hc; subst c;
         reflexivity);
    try (apply andb_true_iff in Hc as [Hc _]; vm_compute in Hc; discriminate).
Qed.

(** The model of the xml pattern at one position is the pattern. *)
Lemma xml_fence_at_spec (t body : jsstring) :
  xml_fence_at t = Some body <-> xmlBlock t body.
Proof.
  split.
  - unfold xml_fence_at. destruct (startsWith t fence) eqn:E; [|discriminate].
    apply startsWith_spec in E as (r0 & ->). rewrite skipn3_fence.
    destruct (trimStart_split r0) as (ws1 & Hr0 & Hws1 & _).
    destruct (startsWith_ci (trimStart r0) (lit "xml")) eqn:Eci; [|discriminate].
    destruct (startsWith_ci_firstn (lit "xml") _ Eci) as [Hlabel Hlen].
    set (label := firstn 3 (trimStart r0)) in *.
    set (r1 := skipn 3 (trimStart r0)) in *.
    destruct (trimStart_split r1) as (ws2 & Hr1 & Hws2 & Hhd).
    destruct (until_fence (trimStart r1)) as [[g post]|] eqn:Eu; [|discriminate].
    cbn [option_map fst]. intros [= <-].
    destruct (until_fence_elim _ _ _ Eu) as (Ht & Hfirst).
    exists ws1, label, ws2, post. repeat split; try assumption.
    + rewrite Hr0 at 1. rewrite <- (firstn_skipn 3 (trimStart r0)).
      fold label. fold r1. rewrite Hr1 at 1. rewrite Ht. reflexivity.
    + rewrite <- hd_app_fence with (post := post). rewrite <- Ht. exact Hhd.
  - intros (ws1 & label & ws2 & post & -> & Hws1 & Hci & Hlen & Hws2 & Hhd & Hfirst).
    unfold xml_fence_at. rewrite DecodeFacts.startsWith_self, skipn3_fence.
    rewrite (trimStart_ws_solid ws1 _ Hws1).
    2:{ destruct label; [discriminate Hlen|].
        apply (ci_x_not_ws _ Hci). }
    rewrite (StepFacts.startsWith_ci_app label _ _ Hci).
    rewrite (StepFacts.skipn_length_app label _ 3 Hlen).
    rewrite (trimStart_ws_solid ws2 _ Hws2) by (rewrite hd_app_fence; exact Hhd).
    rewrite (until_fence_intro body post Hfirst). reflexivity.
Qed.

(** The model of the pattern of any block at one position is the
    pattern. *)
Lemma any_fence_at_spec (t body : jsstring) :
  any_fence_at t = Some body <-> anyBlock t body.
Proof.
  split.
  - unfold any_fence_at. destruct (startsWith t fence) eqn:E; [|discriminate].
    apply startsWith_spec in E as (r0 & ->). rewrite skipn3_fence.
    destruct (trimStart_split r0) as (ws1 & Hr0 & Hws1 & Hhd).
    destruct (until_fence (trimStart r0)) as [[g post]|] eqn:Eu; [|discriminate].
    cbn [option_map fst]. intros [= <-].
    destruct (until_fence_elim _ _ _ Eu) as (Ht & Hfirst).
    exists ws1, post. repeat split; try assumption.
    + rewrite Hr0 at 1. rewrite Ht. reflexivity.
    + rewrite <- hd_app_fence with (post := post). rewrite <- Ht. exact Hhd.
  - intros (ws1 & post & -> & Hws1 & Hhd & Hfirst).
    unfold any_fence_at. rewrite DecodeFacts.startsWith_self, skipn3_fence.
    rewrite (trimStart_ws_solid ws1 _ Hws1) by (rewrite hd_app_fence; exact Hhd).
    rewrite (until_fence_intro body post Hfirst). reflexivity.
Qed.

Section Leftmost.
Variable at_pos : jsstring -> option jsstring.
Variable M : jsstring -> jsstring -> Prop.
Hypothesis at_pos_spec : forall t g, at_pos t = Some g <-> M t g.

Lemma at_pos_none (t : jsstring) : ~ matches M t -> at_pos t = None.
Proof.
  intros Hno. destruct (at_pos t) as [g|] eqn:E; [|reflexivity].
  exfalso. apply Hno. exists g. apply at_pos_spec, E.
Qed.

(** [first_match] returns the group of the leftmost match. *)
Lemma first_match_leftmost (s g : jsstring) :
  leftmostBody M s g -> first_match at_pos s = Some g.
Proof.
  intros (pre & t & -> & (_ & Hbefore) & Hg).
  induction pre as [|c pre IH].
  - cbn [app]. destruct t; cbn [first_match];
      rewrite (proj2 (at_pos_spec _ g) Hg); reflexivity.
  - cbn [app first_match].
    rewrite (at_pos_none (c :: pre ++ t)).
    2:{ apply (Hbefore [] (c :: pre) eq_refl). discriminate. }
    apply IH. intros p1 p2 Hp. apply (Hbefore (c :: p1) p2).
    rewrite Hp. reflexivity.
Qed.

Lemma first_match_nowhere (s : jsstring) :
  nowhere (matches M) s -> first_match at_pos s = None.
Proof.
  induction s as [|c s IH]; intros Hno.
  - cbn [first_match]. rewrite (at_pos_none []); [reflexivity|].
    apply (Hno [] [] eq_refl).
  - cbn [first_match]. rewrite (at_pos_none (c :: s)) by apply (Hno [] _ eq_refl).
    apply IH. intros a b Hab. apply (Hno (c :: a) b). rewrite Hab. reflexivity.
Qed.

Lemma nonempty_body_passedOver (s : jsstring) :
  passedOver M s -> nonempty_body (first_match at_pos s) = None.
Proof.
  intros [Hno|Hempty].
  - rewrite (first_match_nowhere s Hno). reflexivity.
  - rewrite (first_match_leftmost s [] Hempty). reflexivity.
Qed.

Lemma nonempty_body_leftmost (s g : jsstring) :
  leftmostBody M s g -> g <> [] -> nonempty_body (first_match at_pos s) = Some g.
Proof.
  intros Hg Hne. rewrite (first_match_leftmost s g Hg).
  destruct g; [congruence|reflexivity].
Qed.

End Leftmost.

(** Step 1 of the source, for every text. *)
Lemma fenceStep_spec (s : jsstring) :
  (forall g, leftmostBody xmlBlock s g -> g <> [] -> fenceStep s = g)
  /\ (forall g, passedOver xmlBlock s -> leftmostBody anyBlock s g -> g <> [] ->
                fenceStep s = g)
  /\ (passedOver xmlBlock s -> passedOver anyBlock s -> fenceStep s = s).
Proof.
  unfold fenceStep. split; [|split].
  - intros g Hg Hne.
    rewrite (nonempty_body_leftmost _ _ xml_fence_at_spec s g Hg Hne). reflexivity.
  - intros g Hxml Hg Hne.
    rewrite (nonempty_body_passedOver _ _ xml_fence_at_spec s Hxml).
    rewrite (nonempty_body_leftmost _ _ any_fence_at_spec s g Hg Hne). reflexivity.
  - intros Hxml Hany.
    rewrite (nonempty_body_passedOver _ _ xml_fence_at_spec s Hxml).
    rewrite (nonempty_body_passedOver _ _ any_fence_at_spec s Hany). reflexivity.
Qed.

(** Text without a backtick before an xml block whose body has none. *)
Lemma leftmostBody_xml (pre ws1 label ws2 body post : jsstring) :
  noBacktick pre = true -> forallb is_ws ws1 = true ->
  startsWith_ci label (lit "xml") = true -> List.length label = 3%nat ->
  forallb is_ws ws2 = true -> is_ws (hd 0 (body ++ fence)) = false ->
  noBacktick body = true ->
  leftmostBody xmlBlock (pre ++ fence ++ ws1 ++ label ++ ws2 ++ body ++ fence ++ post)
               body.
Proof.
  intros Hpre Hws1 Hci Hlen Hws2 Hhd Hbody.
  assert (Hblock : xmlBlock (fence ++ ws1 ++ label ++ ws2 ++ body ++ fence ++ post) body).
  { apply xml_fence_at_spec. unfold xml_fence_at.
    rewrite DecodeFacts.startsWith_self, skipn3_fence.
    rewrite (trimStart_ws_solid ws1 _ Hws1).
    2:{ destruct label; [discriminate Hlen|]. apply (ci_x_not_ws _ Hci). }
    rewrite (StepFacts.startsWith_ci_app label _ _ Hci).
    rewrite (StepFacts.skipn_length_app label _ 3 Hlen).
    rewrite (trimStart_ws_solid ws2 _ Hws2) by (rewrite hd_app_fence; exact Hhd).
    rewrite (StepFacts.until_fence_body body post Hbody). reflexivity. }
  exists pre, (fence ++ ws1 ++ label ++ ws2 ++ body ++ fence ++ post).
  split; [reflexivity|]. split; [|exact Hblock].
  split; [exists body; exact Hblock|].
  intros p1 p2 Hp Hne (g & Hg). apply xml_fence_at_spec in Hg.
  destruct p2 as [|c p2]; [congruence|].
  assert (Hc : (c =? ch "`") = false).
  { assert (Hin : In c pre) by (rewrite Hp; apply in_or_app; right; left; reflexivity).
    apply (proj1 (forallb_forall _ _) Hpre) in Hin.
    apply negb_true_iff in Hin. exact Hin. }
  cbn [app] in Hg. unfold xml_fence_at in Hg.
  rewrite (StepFacts.startsWith_fence_head c _ Hc) in Hg. discriminate.
Qed.

(** Positions found by [search]. *)
Lemma search_first (p : jsstring -> bool) (P : jsstring -> Prop) (pre t : jsstring) :
  (forall x, p x = true <-> P x) ->
  firstAt P pre t -> search p (pre ++ t) = Some (List.length pre).
Proof.
  intros Hp (Ht & Hbefore). induction pre as [|c pre IH].
  - cbn [app List.length]. destruct t; cbn [search];
      rewrite (proj2 (Hp _) Ht); reflexivity.
  - cbn [app search List.length].
    assert (Hc : p (c :: pre ++ t) = false).
    { destruct (p (c :: pre ++ t)) eqn:E; [|reflexivity].
      exfalso. apply (Hbefore [] (c :: pre) eq_refl); [discriminate|].
      apply Hp, E. }
    rewrite Hc, IH; [reflexivity|].
    intros p1 p2 Hpre. apply (Hbefore (c :: p1) p2). rewrite Hpre. reflexivity.
Qed.

Lemma search_nowhere (p : jsstring -> bool) (P : jsstring -> Prop) (s : jsstring) :
  (forall x, p x = true <-> P x) ->
  nowhere P s -> search p s = None.
Proof.
  intros Hp. induction s as [|c s IH]; intros Hno.
  - cbn [search]. destruct (p []) eqn:E; [|reflexivity].
    exfalso. apply (Hno [] [] eq_refl), Hp, E.
  - cbn [search]. destruct (p (c :: s)) eqn:E.
    + exfalso. apply (Hno [] _ eq_refl), Hp, E.
    + rewrite IH; [reflexivity|].
      intros a b Hab. apply (Hno (c :: a) b). rewrite Hab. reflexivity.
Qed.

Lemma search_somewhere (p : jsstring -> bool) (P : jsstring -> Prop) (s : jsstring) :
  (forall x, p x = true <-> P x) ->
  somewhere P s -> search p s <> None.
Proof.
  intros Hp (a & b & -> & Hb). induction a as [|c a IH].
  - cbn [app]. destruct b; cbn [search]; rewrite (proj2 (Hp _) Hb); discriminate.
  - cbn [app search]. destruct (p (c :: a ++ b)); [discriminate|].
    destruct (search p (a ++ b)); [discriminate|congruence].
Qed.

Lemma tag_start_char_spec (c : N) : tag_start_char c = true <-> tagStart c.
Proof.
  unfold tag_start_char, tagStart.
  rewrite !orb_true_iff, !andb_true_iff, !N.leb_le, !N.eqb_eq. tauto.
Qed.

Lemma rawTag_spec (t : jsstring) :
  match t with
  | a :: b :: _ => (a =? ch "<") && tag_start_char b
  | _ => false
  end = true <-> rawTagAt t.
Proof.
  unfold rawTagAt. split.
  - destruct t as [|a [|b r]]; try discriminate.
    intros H. apply andb_true_iff in H as [Ha Hb]. apply N.eqb_eq in Ha. subst a.
    exists b, r. split; [reflexivity|]. apply tag_start_char_spec, Hb.
  - intros (c & r & -> & Hc). rewrite N.eqb_refl.
    apply tag_start_char_spec in Hc. rewrite Hc. reflexivity.
Qed.

Lemma escapedTag_spec (t : jsstring) :
  startsWith_ci t (lit "&lt;") &&
  match trimStart (skipn 4 t) with
  | b :: _ => tag_start_char b
  | [] => false
  end = true <-> escapedTagAt t.
Proof.
  unfold escapedTagAt. split.
  - intros H. apply andb_true_iff in H as [Hci Hb].
    destruct (startsWith_ci_firstn (lit "&lt;") t Hci) as [He Hlen].
    destruct (trimStart_split (skipn 4 t)) as (w & Hw & Hws & _).
    destruct (trimStart (skipn 4 t)) as [|c r]; [discriminate|].
    exists (firstn 4 t), w, c, r. repeat split; try assumption.
    + rewrite <- Hw. symmetry. apply firstn_skipn.
    + apply tag_start_char_spec, Hb.
  - intros (e & w & c & r & -> & Hci & Hlen & Hw & Hc).
    apply tag_start_char_spec in Hc.
    rewrite (StepFacts.startsWith_ci_app e _ _ Hci).
    rewrite (StepFacts.skipn_length_app e _ 4 Hlen).
    rewrite (trimStart_ws_solid w _ Hw) by (apply DecodeFacts.tag_start_not_ws, Hc).
    rewrite Hc. reflexivity.
Qed.

Lemma hasRawTag_spec (s : jsstring) :
  (somewhere rawTagAt s -> hasRawTag s = true)
  /\ (nowhere rawTagAt s -> hasRawTag s = false).
Proof.
  unfold hasRawTag. split.
  - intros Hs. pose proof (search_somewhere _ _ s rawTag_spec Hs) as Hfound.
    destruct (search _ s); [reflexivity|congruence].
  - intros Hs. rewrite (search_nowhere _ _ s rawTag_spec Hs). reflexivity.
Qed.

Lemma hasEscapedTag_spec (s : jsstring) :
  (somewhere escapedTagAt s -> hasEscapedTag s = true)
  /\ (nowhere escapedTagAt s -> hasEscapedTag s = false).
Proof.
  unfold hasEscapedTag. split.
  - intros Hs. pose proof (search_somewhere _ _ s escapedTag_spec Hs) as Hfound.
    destruct (search _ s); [reflexivity|congruence].
  - intros Hs. rewrite (search_nowhere _ _ s escapedTag_spec Hs). reflexivity.
Qed.

(** Step 2 of the source, for every text. *)
Lemma decodeStep_spec (s : jsstring) :
  (somewhere rawTagAt s -> decodeStep s = s)
  /\ (nowhere escapedTagAt s -> decodeStep s = s)
  /\ (nowhere rawTagAt s -> somewhere escapedTagAt s ->
      decodeStep s = decodeEntities s).
Proof.
  unfold decodeStep. split; [|split].
  - intros Hraw. rewrite (proj1 (hasRawTag_spec s) Hraw). reflexivity.
  - intros Hesc. rewrite (proj2 (hasEscapedTag_spec s) Hesc).
    rewrite andb_false_r. reflexivity.
  - intros Hraw Hesc.
    rewrite (proj2 (hasRawTag_spec s) Hraw), (proj1 (hasEscapedTag_spec s) Hesc).
    reflexivity.
Qed.

Lemma replaceAll_from_none (pat rep s : jsstring) :
  (forall a b, s <> a ++ pat ++ b) -> replaceAll_from O pat rep s = s.
Proof.
  induction s as [|c s IH]; intros Hno; [reflexivity|].
  cbn [replaceAll_from].
  destruct (startsWith (c :: s) pat) eqn:E.
  - exfalso. apply startsWith_spec in E as (b & Hb). apply (Hno [] b Hb).
  - rewrite IH; [reflexivity|].
    intros a b Hab. apply (Hno (c :: a) b). rewrite Hab. reflexivity.
Qed.

Lemma decodeEntities_entityFree (s : jsstring) :
  entityFree s -> decodeEntities s = s.
Proof.
  intros Hfree. unfold decodeEntities, replaceAll.
  rewrite (replaceAll_from_none (lit "&lt;") _ s)
    by (apply (Hfree _ (lit "<")); cbn; tauto).
  rewrite (replaceAll_from_none (lit "&gt;") _ s)
    by (apply (Hfree _ (lit ">")); cbn; tauto).
  rewrite (replaceAll_from_none (lit "&amp;") _ s)
    by (apply (Hfree _ (lit "&")); cbn; tauto).
  rewrite (replaceAll_from_none (lit "&quot;") _ s)
    by (apply (Hfree _ [dquote]); cbn; tauto).
  apply replaceAll_from_none. apply (Hfree _ (lit "'")); cbn; tauto.
Qed.

(** The model of the root pattern at one position is the pattern. *)
Lemma xml_root_at_spec (t : jsstring) : xml_root_at t = true <-> rootTagAt t.
Proof.
  unfold rootTagAt. split.
  - destruct t as [|c r0]; [discriminate|]. cbn [xml_root_at]. intros H.
    apply andb_true_iff in H as [Hc Hex]. apply N.eqb_eq in Hc. subst c.
    apply existsb_exists in Hex as (n & Hin & Hn).
    apply andb_true_iff in Hn as [Hci Hnext].
    destruct (startsWith_ci_firstn n r0 Hci) as [Hname Hlen].
    destruct (skipn (List.length n) r0) as [|d r] eqn:Eskip; [discriminate|].
    exists (firstn (List.length n) r0), d, r. split; [|split].
    + rewrite <- Eskip, firstn_skipn. reflexivity.
    + unfold is_root_name. apply existsb_exists. exists n. split; [exact Hin|].
      rewrite Hname, Hlen, Nat.eqb_refl. reflexivity.
    + apply orb_true_iff in Hnext as [Hd|Hd]; [left; exact Hd|].
      right. apply N.eqb_eq, Hd.
  - intros (name & d & r & -> & Hname & Hd).
    cbn [xml_root_at]. rewrite N.eqb_refl. cbn [andb].
    unfold is_root_name in Hname.
    apply existsb_exists in Hname as (n & Hin & Hn).
    apply andb_true_iff in Hn as [Hci Hlen]. apply Nat.eqb_eq in Hlen.
    apply existsb_exists. exists n. split; [exact Hin|].
    rewrite (StepFacts.startsWith_ci_app name n _ Hci).
    rewrite (StepFacts.skipn_length_app name _ _ Hlen).
    destruct Hd as [Hd| ->]; [rewrite Hd; reflexivity|].
    rewrite N.eqb_refl, orb_true_r. reflexivity.
Qed.

Lemma lastIndexOf_app_none (c : N) (pre t : jsstring) :
  forallb (fun x => negb (x =? c)) t = true ->
  lastIndexOf c (pre ++ t) = lastIndexOf c pre.
Proof.
  intros Ht. induction pre as [|x pre IH].
  - cbn [app]. apply StepFacts.lastIndexOf_none, Ht.
  - cbn [app lastIndexOf]. rewrite IH. reflexivity.
Qed.

Lemma lastIndexOf_bound (c : N) (s : jsstring) (i : nat) :
  lastIndexOf c s = Some i -> (i < List.length s)%nat.
Proof.
  revert i. induction s as [|x s IH]; intros i; [discriminate|].
  cbn [lastIndexOf List.length].
  destruct (lastIndexOf c s) as [j|].
  - intros [= <-]. specialize (IH j eq_refl). lia.
  - destruct (x =? c); [|discriminate]. intros [= <-]. lia.
Qed.

(** Step 3 of the source, for every text. *)
Lemma keepStep_spec (s : jsstring) :
  (forall pre d post,
     s = pre ++ d ++ post -> firstAt rootTagAt pre (d ++ post) ->
     last d 0 = ch ">" -> noGt post = true -> keepStep s = d)
  /\ (forall pre t,
        s = pre ++ t -> firstAt rootTagAt pre t -> noGt t = true -> keepStep s = s)
  /\ (nowhere rootTagAt s -> keepStep s = s).
Proof.
  unfold keepStep. split; [|split].
  - intros pre d post -> Hfirst Hlast Hpost.
    rewrite (search_first _ _ pre (d ++ post) xml_root_at_spec Hfirst).
    destruct Hfirst as ((name & c & r & Hd & _ & _) & _).
    destruct (exists_last (l := d)) as (t & x & Et).
    { intros ->. vm_compute in Hlast. discriminate. }
    rewrite Et, last_last in Hlast. subst x.
    assert (Hne : t <> []).
    { intros ->. rewrite Et in Hd. cbn [app] in Hd. injection Hd as Hd _.
      vm_compute in Hd. discriminate. }
    replace (pre ++ d ++ post) with ((pre ++ t) ++ ch ">" :: post)
      by (rewrite Et, <- !app_assoc; reflexivity).
    rewrite (StepFacts.lastIndexOf_last (ch ">") _ post Hpost).
    assert (Hlt : (List.length pre <? List.length (pre ++ t))%nat = true).
    { apply Nat.ltb_lt. rewrite length_app. destruct t; [congruence|cbn; lia]. }
    rewrite Hlt.
    replace (List.length (pre ++ t) + 1)%nat with (List.length (pre ++ d))
      by (rewrite Et, !length_app; cbn; lia).
    replace ((pre ++ t) ++ ch ">" :: post) with (pre ++ d ++ post)
      by (rewrite Et, <- !app_assoc; reflexivity).
    apply StepFacts.slice_middle.
  - intros pre t -> Hfirst Ht.
    rewrite (search_first _ _ pre t xml_root_at_spec Hfirst).
    rewrite (lastIndexOf_app_none (ch ">") pre t Ht).
    destruct (lastIndexOf (ch ">") pre) as [i|] eqn:E; [|reflexivity].
    apply lastIndexOf_bound in E.
    destruct (Nat.ltb_spec (List.length pre) i); [lia|reflexivity].
  - intros Hno. rewrite (search_nowhere _ _ s xml_root_at_spec Hno). reflexivity.
Qed.

Lemma stripInvisible_filter (s : jsstring) :
  stripInvisible s
  = filter (fun c => negb ((c =? 65279) || ((8203 <=? c) && (c <=? 8205))
                           || (c =? 8288))) s.
Proof.
  unfold stripInvisible. induction s as [|c s IH]; [reflexivity|].
  cbn [filter]. unfold is_bom at 1.
  destruct (c =? 65279); cbn [negb orb].
  - exact IH.
  - cbn [filter]. unfold is_zero_width at 1.
    destruct (((8203 <=? c) && (c <=? 8205)) || (c =? 8288)); cbn [negb];
      rewrite IH; reflexivity.
Qed.

Lemma trim_between (a d b : jsstring) :
  forallb is_ws a = true -> forallb is_ws b = true ->
  is_ws (hd 0 d) = false -> is_ws (last d 0) = false ->
  trim (a ++ d ++ b) = d.
Proof.
  intros Ha Hb Hhd Hlast.
  assert (Hstart : forall w, forallb is_ws w = true -> trimStart w = []).
  { intros w Hw. rewrite <- (app_nil_r w).
    rewrite (StepFacts.trimStart_ws_app w [] Hw). reflexivity. }
  assert (Hend : forall w, forallb is_ws w = true -> trimEnd w = []).
  { intros w Hw. unfold trimEnd. rewrite Hstart; [reflexivity|].
    apply forallb_forall. intros x Hx. apply in_rev in Hx.
    apply (proj1 (forallb_forall _ _) Hw x Hx). }
  destruct d as [|x d].
  - cbn [app]. unfold trim. rewrite Hstart; [reflexivity|].
    rewrite forallb_app, Ha, Hb. reflexivity.
  - rewrite Extraction.trim_around; [|discriminate|exact Hhd|exact Hlast].
    rewrite (Hstart a Ha), (Hend b Hb), app_nil_r. reflexivity.
Qed.

End StepSpecFacts.


